(* ===== verification/_CoqProject ===== *)
-Q . S2P
Prelude.v
Text.v
Json.v
Crates.v
Reference.v
Event.v
Idempotency.v
Net.v
Config.v
Debug.v
CoreTests.v
Process.v
Outage.v
Schema.v
Store.v
Fixtures.v
StoreSpec.v
ClaimSpec.v
History.v
AdmitTx.v
Winner.v
Api.v
ApiSpec.v
Request.v
Reader.v
RequestSpec.v
Runtime.v
RuntimeSpec.v
System.v
Progress.v
Main.v
TestSupport.v
TestDatabases.v
Gated.v
ApiTests.v
WorkerTests.v
