(* ===== verification/Prelude.v ===== *)
(** * PulseStream: a verification development

    PulseStream accepts events over HTTP, commits them to PostgreSQL and processes
    them in worker processes, at least once. This library models the Rust crates
    under [src/crates] and the migration under [src/migrations] as executable
    definitions and proves what makes them correct.

    ** The program and its model

    - [pulsestream-core] validates. [Event] models [lib.rs] and [event.rs]
      (labels, identities, statuses, [Event::new]); [Idempotency] models
      [idempotency.rs] (keys, canonical JSON, the request fingerprint); [Config]
      models [config.rs] (every variable, default, range and error), on the socket
      address parser of the standard library in [Net]; [Debug] holds the texts of
      [{:?}] that must not show secrets.
    - The table. [Schema] models [migrations/0001_create_events.sql]: a row is a
      record, the table a finite map by primary key, the CHECK constraints, the
      unique constraint and the immutability trigger are boolean functions.
    - [pulsestream-store] is the only component that writes. [Store] models
      [lib.rs]: [admit] ([store_admit]), [get], [claim] and [complete] are functions
      from the table to a result and a new table. The database clock, the rows other
      sessions have locked, and a failure at each round trip (for a statement that
      commits: applied or not) are arguments. [AdmitTx] opens the transaction
      inside [admit] and interleaves its statements with other sessions.
    - [pulsestream-api]: [Api] models [events.rs], [error.rs], [health.rs] and
      [app.rs]; the handlers use the store through the record [StoreOps]. [Request]
      goes from the bytes of a request to the handlers: the derived deserializer of
      the body, extraction and routing ([app_service]).
    - [pulsestream-worker]: [Runtime] models [runtime.rs] and [processor.rs] as a step
      function whose steps are the stretches between awaits. [System] runs any
      number of workers and admissions on one table.
    - [Process] models [shutdown.rs] and [telemetry.rs] of both crates, and [Main]
      both [main.rs] files: effects in order and exit codes.
    - Test support. [TestSupport] models the functions of the store's [testing.rs]
      on URLs and rows, [TestDatabases] the life of its disposable databases on a
      server, [Outage] its proxy as a state machine; [Gated] models the worker's
      [testing.rs], a step per operation on a shared field. [CoreTests], [ApiTests]
      and [WorkerTests] are the repository's own tests, as booleans on the model; they
      check the model against the expectations of the repository and claim nothing
      beyond the executions they describe.

    [Text] and [Json] hold the strings, bytes and JSON values all of them use
    (characters are code points, bytes are integers below 256, machine integers are
    [Z] with their wrap-around written out).

    ** Code that is not in the repository

    Third-party crates and PostgreSQL are classes: an operational class per crate
    ([SerdeJson], [SerdeJsonWriter], [JsonReader], [UuidCrate], [Sha2], [Postgres],
    [Http], [Axum], [EnvFilterCrate]) and a class of laws in [Prop] that states the
    documented behaviour a theorem relies on. [Reference], [Fixtures], [ApiSpec] and
    [Reader] give concrete instances (among them SHA-256 and a JSON parser), prove
    their laws, and are where theorems are evaluated.

    ** What is proved

    - Validation ([Event], [Idempotency], [Config]): exactly which inputs are
      accepted, and which error the others get; canonical JSON and the fingerprint
      identify exactly the equivalent requests; configurations that parse are
      within bounds, and round-trip.
    - The store, one call at a time ([StoreSpec], [ClaimSpec]): the invariant
      [wf_table]; what [admit], [claim], [complete] and [get] do on every branch;
      that a reported outcome is durable; that none of them meets stored data it
      cannot read; that an expired lease is taken over.
    - The store over time ([History]): every sequence of operations with any
      failures keeps the invariant, keeps the content of events, answers repeated
      admissions consistently, and respects leases.
    - Concurrent admissions ([AdmitTx], [Winner]): every interleaving of their
      statements is a sequence of atomic admissions; identical requests converge; a
      race for a free key has exactly one winner; in every execution each admission
      returns within four statements of its own, and there is no deadlock.
    - The API ([ApiSpec]): [StoreContract] is what the handlers need of a store,
      [pg_contract] shows that [Store] provides it, and the guarantees of the
      responses (202 means committed, an outage is never a success) are proved
      against it. [RequestSpec] says which bodies are accepted, that every reply is one
      the README documents for its endpoint (statuses, headers and bodies written out
      there, not taken from the handlers), and proves idempotency end to end: from the
      bytes of two posts to their replies.
    - The worker ([RuntimeSpec], [System]): bounded concurrency, no underflow of the
      free capacity, a report that accounts for every claim, termination of the
      shutdown, and at-least-once processing with any number of workers.
      [Progress]: from every reachable state, one worker that still loops can bring
      every stored event to PROCESSED once nothing fails, by an explicit schedule.
    - The processes ([Process], [Main]): which signal ends them, exit codes and the
      order of effects.
    - Test support: tests only touch databases they created and leave nothing behind,
      provided the administration URL has no [dbname] parameter or the like
      ([TestDatabases], with an example of what happens otherwise); an outage closes
      every connection, unless it starts in a window of the accept loop ([Outage]);
      the gated processor's counters count what they say and its permits bound the
      calls it lets through, in every interleaving ([Gated]).

    ** Bounds and fuel

    Recursion is structural everywhere except in decimal printing ([decimal], one
    round per binary digit), the socket address parser ([Net], a group per round),
    SHA-256 ([Reference], a block per round) and the JSON parser ([Reader], a round
    per character); their fuel is computed from the argument and [parse_decimal], the
    examples of [Net], [fingerprint_pinned] and the tests show that it is enough.
    Executions are relations or schedules without a bound; [shutdown_terminates],
    [admissions_progress] and [outage_complete] bound the steps by a measure.

    ** Not modelled

    Log records; sockets, TLS and HTTP parsing (axum and hyper), and so the test of
    [serve] over a socket; the bytes the outage proxy copies; the connection pool
    beyond its options; indexes and query plans. The test that races requests is
    not modelled as a test, since its claim is a theorem over every interleaving
    ([one_winner]), and neither are the integration tests under [tests/], which run
    [Store] against a real PostgreSQL. The tests of the worker runtime are modelled
    as one schedule each. Time is what
    the database or the environment says: no theorem assumes that clocks are
    monotone. *)

From stdpp Require Export prelude list sorting gmap strings.

#[global] Open Scope Z_scope.
#[export] Set Warnings "-clear-no-such-hyp,-register-all".

(** ** Rust's [Result] *)

Inductive result (E T : Type) : Type :=
| Ok (t : T)
| Err (e : E).
Arguments Ok {_ _} _.
Arguments Err {_ _} _.

#[global] Instance result_eq_dec {E T} `{EqDecision E, EqDecision T} : EqDecision (result E T).
Proof. solve_decision. Defined.

#[global] Instance result_ret {E} : MRet (result E) := λ _ t, Ok t.
#[global] Instance result_bind {E} : MBind (result E) := λ _ _ f r,
  match r with Ok t => f t | Err e => Err e end.
#[global] Instance result_fmap {E} : FMap (result E) := λ _ _ f r,
  match r with Ok t => Ok (f t) | Err e => Err e end.

(** [Result::map_err], [Option::ok_or], [Result::ok], [Result::is_ok]. *)
Definition map_err {E F T} (f : E → F) (r : result E T) : result F T :=
  match r with Ok t => Ok t | Err e => Err (f e) end.

Definition ok_or {E T} (o : option T) (e : E) : result E T :=
  match o with Some t => Ok t | None => Err e end.

Definition ok {E T} (r : result E T) : option T :=
  match r with Ok t => Some t | Err _ => None end.

Definition is_ok {E T} (r : result E T) : bool :=
  match r with Ok _ => true | Err _ => false end.

(** [Option::transpose] on an optional result. *)
Definition transpose {E T} (o : option (result E T)) : result E (option T) :=
  match o with
  | None => Ok None
  | Some (Ok t) => Ok (Some t)
  | Some (Err e) => Err e
  end.

(** [Iterator::collect] into a [Result]: the first error wins. *)
Fixpoint collect {E T} (rs : list (result E T)) : result E (list T) :=
  match rs with
  | [] => Ok []
  | r :: rs => t ← r; ts ← collect rs; Ok (t :: ts)
  end.

(** ** Machine integers *)

Definition u64_max : Z := 2 ^ 64 - 1.
Definition i64_max : Z := 2 ^ 63 - 1.
Definition u32_max : Z := 2 ^ 32 - 1.
Definition i32_max : Z := 2 ^ 31 - 1.

(** [v as u32] and [v as usize] (64-bit target) of a [u64]. *)
Definition as_u32 (v : Z) : Z := v mod 2 ^ 32.
Definition as_usize (v : Z) : Z := v mod 2 ^ 64.

(** [u64::to_be_bytes], for [n] = 8. *)
Fixpoint to_be_bytes (n : nat) (v : Z) : list Z :=
  match n with
  | O => []
  | S n => to_be_bytes n (Z.shiftr v 8) ++ [Z.land v 255]
  end.

Definition from_be_bytes (l : list Z) : Z := foldl (λ acc b, acc * 256 + b) 0 l.

(** ** Automation *)

Create HintDb pulse.

(** Splits a hypothesis [x ← r; k = Ok t] into the successful run of [r] and of [k]. *)
Ltac bind_inv :=
  repeat match goal with
  | H : mbind _ ?r = Ok _ |- _ =>
      let E := fresh "E" in destruct r eqn:E; simpl in H; [|discriminate H]
  | H : map_err _ ?r = Ok _ |- _ =>
      let E := fresh "E" in destruct r eqn:E; simpl in H; [|discriminate H]
  | H : ok_or ?o _ = Ok _ |- _ =>
      let E := fresh "E" in destruct o eqn:E; simpl in H; [|discriminate H]
  | H : Ok _ = Ok _ |- _ => injection H as H
  end; simplify_eq/=.

(** Destructs the conditions of conditionals and matches of the goal. *)
Ltac branches :=
  repeat (case_match || case_decide || case_bool_decide); simplify_eq/=; try done.

(** ** Facts on [result] *)

Section result_facts.
Context {E T : Type}.
Implicit Types (r : result E T) (rs : list (result E T)).

Lemma is_ok_spec r : is_ok r = true ↔ ∃ t, r = Ok t.
Proof. destruct r; simpl; split; [eauto | done | done | by intros []]. Qed.

Lemma collect_Ok rs ts : collect rs = Ok ts ↔ rs = Ok <$> ts.
Proof.
  revert ts; induction rs as [|r rs IH]; intros ts; simpl.
  - split; [by intros [= <-] | by destruct ts].
  - destruct r as [t|e]; simpl; [|split; [done | by destruct ts]].
    destruct (collect rs) as [ts'|e] eqn:Hc; simpl.
    + destruct (IH ts') as [-> _]; [|done].
      split; [by intros [= <-]|]. destruct ts as [|? ts]; [done|]. simpl.
      intros [= -> Heq]. do 2 f_equal. by apply (list_fmap_eq_inj Ok) in Heq; [|intros ?? [=]].
    + split; [done|]. destruct ts as [|? ts]; [done|]. intros [= -> Heq].
      by apply IH in Heq.
Qed.

Lemma collect_fmap_Ok {A} (f : A → result E T) (g : A → T) (l : list A) :
  Forall (λ a, f a = Ok (g a)) l → collect (f <$> l) = Ok (g <$> l).
Proof.
  intros Hl. apply collect_Ok. rewrite <-list_fmap_compose.
  apply list_fmap_ext. intros i x Hx. simpl. by eapply Forall_lookup_1 in Hl.
Qed.

Lemma collect_perm rs rs' ts :
  rs' ≡ₚ rs → collect rs = Ok ts → ∃ ts', collect rs' = Ok ts' ∧ ts' ≡ₚ ts.
Proof.
  intros Hp ->%collect_Ok.
  apply Permutation_map_inv in Hp as (ts' & -> & Hts). exists ts'. split; [|done].
  by apply collect_Ok.
Qed.
End result_facts.

(** ** Facts on big-endian bytes *)

Lemma length_to_be_bytes n v : length (to_be_bytes n v) = n.
Proof. revert v; induction n; intros v; simpl; [done|]. rewrite length_app, IHn. simpl. lia. Qed.

Lemma from_to_be_bytes n v : from_be_bytes (to_be_bytes n v) = v mod 256 ^ Z.of_nat n.
Proof.
  revert v; induction n as [|n IH]; intros v; [by rewrite Z.mod_1_r|].
  unfold from_be_bytes in *. cbn [to_be_bytes]. rewrite foldl_app, IH. cbn [foldl].
  rewrite Z.shiftr_div_pow2 by done. change 255 with (Z.ones 8).
  rewrite Z.land_ones by done. change (2 ^ 8) with 256.
  replace (Z.of_nat (S n)) with (Z.of_nat n + 1) by lia.
  rewrite Z.pow_add_r, Z.pow_1_r by lia.
  assert (0 < 256 ^ Z.of_nat n) by (apply Z.pow_pos_nonneg; lia).
  rewrite (Z.mul_comm (256 ^ _) 256), Z.rem_mul_r by lia. lia.
Qed.

Lemma to_be_bytes_inj n v w :
  0 ≤ v < 256 ^ Z.of_nat n → 0 ≤ w < 256 ^ Z.of_nat n →
  to_be_bytes n v = to_be_bytes n w → v = w.
Proof.
  intros Hv Hw Heq. apply (f_equal from_be_bytes) in Heq.
  rewrite !from_to_be_bytes, !Z.mod_small in Heq; done.
Qed.

(** ** Facts on lists *)

(** A list has no element satisfying [p], or splits at the first one. *)
Lemma Exists_Forall_first {A} (p : A → bool) (l : list A) :
  Forall (λ x, p x = false) l ∨
  ∃ a x b, l = a ++ x :: b ∧ Forall (λ x, p x = false) a ∧ p x = true.
Proof.
  induction l as [|x l IH]; [by left|]. destruct (p x) eqn:E.
  - right. by exists [], x, l.
  - destruct IH as [?|(a & y & b & -> & Ha & Hy)]; [left; by constructor|].
    right. exists (x :: a), y, b. by repeat constructor.
Qed.

Lemma StronglySorted_filter {A} (R : relation A) (P : A → Prop) `{∀ x, Decision (P x)} l :
  StronglySorted R l → StronglySorted R (filter P l).
Proof.
  induction 1 as [|x l Hl IH Hx]; [constructor|]. rewrite filter_cons.
  case_decide; [|done]. constructor; [done|].
  rewrite Forall_forall in *. intros y [_ ?]%list_elem_of_filter. by apply Hx.
Qed.

(** ** Sorting by a key *)

Section merge_sort_fmap.
Context {A B : Type} (R : relation A) (R' : relation B) (f : A → B).
Context `{∀ x y, Decision (R x y)} `{∀ x y, Decision (R' x y)}.
Hypothesis R_f : ∀ x y, R' (f x) (f y) ↔ R x y.

Lemma list_merge_fmap (l1 l2 : list A) :
  list_merge R' (f <$> l1) (f <$> l2) = f <$> list_merge R l1 l2.
Proof.
  revert l2. induction l1 as [|x l1 IH1]; intros l2; [by destruct l2|].
  induction l2 as [|y l2 IH2]; [done|].
  change (f <$> x :: l1) with (f x :: (f <$> l1)) in *.
  change (f <$> y :: l2) with (f y :: (f <$> l2)).
  rewrite !list_merge_cons. rewrite (decide_ext (R' (f x) (f y)) (R x y)) by done.
  case_decide; simpl; f_equal; [apply (IH1 (y :: l2))|apply IH2].
Qed.

Let stack_fmap : list (option (list A)) → list (option (list B)) := map (option_map (map f)).

Lemma merge_list_to_stack_fmap st l :
  merge_list_to_stack R' (stack_fmap st) (f <$> l) = stack_fmap (merge_list_to_stack R st l).
Proof.
  revert l. induction st as [|[l'|] st IH]; intros l; simpl; [done| |done].
  f_equal. etransitivity; [|apply IH]. f_equal. apply list_merge_fmap.
Qed.

(** Sorting commutes with a map that respects the order. *)
Lemma merge_sort_fmap (l : list A) : merge_sort R' (f <$> l) = f <$> merge_sort R l.
Proof.
  unfold merge_sort. change (@nil (option (list B))) with (stack_fmap []).
  generalize (@nil (option (list A))). induction l as [|x l IH]; intros st; simpl.
  - induction st as [|[l'|] st IHst]; simpl; [done| |done].
    rewrite IHst. apply list_merge_fmap.
  - rewrite <-IH. f_equal. apply (merge_list_to_stack_fmap st [x]).
Qed.
End merge_sort_fmap.
