(* ===== verification/Text.v ===== *)
(** * Rust [char] and [str]

    A [char] is its Unicode scalar value, a [str] the list of its characters.
    This file models what the crates use of the standard library on strings:
    UTF-8 bytes, [trim], [split]/[rsplit], [strip_prefix], the character
    classes, [parse::<u64>] and the decimal [Display] of an integer. *)

From S2P Require Import Prelude.

Abbreviation char := Z (only parsing).
Abbreviation str := (list Z) (only parsing).
Abbreviation bytes := (list Z) (only parsing).

(** An ASCII literal. *)
Definition lit (s : string) : str :=
  (λ a, Z.of_N (Ascii.N_of_ascii a)) <$> String.list_ascii_of_string s.
Arguments lit s%_string.

(** ** Characters *)

(** Unicode scalar values: what a Rust [char] can be. *)
Definition is_scalar (c : char) : bool :=
  ((0 <=? c) && (c <=? 0xD7FF)) || ((0xE000 <=? c) && (c <=? 0x10FFFF)).

Definition valid_str (s : str) : Prop := Forall (λ c, is_scalar c = true) s.

(** [char::is_whitespace]: the Unicode property White_Space. *)
Definition is_whitespace (c : char) : bool :=
  ((9 <=? c) && (c <=? 13)) || (c =? 0x20) || (c =? 0x85) || (c =? 0xA0) ||
  (c =? 0x1680) || ((0x2000 <=? c) && (c <=? 0x200A)) || (c =? 0x2028) ||
  (c =? 0x2029) || (c =? 0x202F) || (c =? 0x205F) || (c =? 0x3000).

(** [char::is_control]: the Unicode general category Cc. *)
Definition is_control (c : char) : bool :=
  ((0 <=? c) && (c <=? 0x1F)) || ((0x7F <=? c) && (c <=? 0x9F)).

(** [u8::is_ascii_graphic], [u8::is_ascii_lowercase], [u8::is_ascii_digit]. *)
Definition is_ascii_graphic (b : Z) : bool := (0x21 <=? b) && (b <=? 0x7E).
Definition is_ascii_lowercase (b : Z) : bool := (97 <=? b) && (b <=? 122).
Definition is_ascii_digit (b : Z) : bool := (48 <=? b) && (b <=? 57).

(** ** UTF-8: [str::as_bytes], [str::len] *)

Definition utf8_char (c : char) : bytes :=
  if c <? 0x80 then [c]
  else if c <? 0x800 then [0xC0 + Z.shiftr c 6; 0x80 + Z.land c 63]
  else if c <? 0x10000 then
    [0xE0 + Z.shiftr c 12; 0x80 + Z.land (Z.shiftr c 6) 63; 0x80 + Z.land c 63]
  else
    [0xF0 + Z.shiftr c 18; 0x80 + Z.land (Z.shiftr c 12) 63;
     0x80 + Z.land (Z.shiftr c 6) 63; 0x80 + Z.land c 63].

Definition as_bytes (s : str) : bytes := s ≫= utf8_char.

Definition str_len (s : str) : Z := Z.of_nat (length (as_bytes s)).

(** [s.chars().count()]. *)
Definition chars_count (s : str) : Z := Z.of_nat (length s).

Definition is_empty {A} (l : list A) : bool := match l with [] => true | _ => false end.

(** ** [trim] *)

Fixpoint trim_start (s : str) : str :=
  match s with
  | c :: s' => if is_whitespace c then trim_start s' else s
  | [] => []
  end.

Definition trim_end (s : str) : str := reverse (trim_start (reverse s)).

Definition trim (s : str) : str := trim_end (trim_start s).

(** ** Patterns: [strip_prefix], [starts_with], [ends_with], [split], [rsplit], [find] *)

Fixpoint strip_prefix (p s : str) : option str :=
  match p, s with
  | [], _ => Some s
  | c :: p', d :: s' => if c =? d then strip_prefix p' s' else None
  | _ :: _, [] => None
  end.

Definition starts_with (p s : str) : bool := bool_decide (is_Some (strip_prefix p s)).

Definition ends_with (p s : str) : bool := starts_with (reverse p) (reverse s).

(** The pieces between the characters that match [p]; there is always one piece. *)
Fixpoint split (p : char → bool) (s : str) : list str :=
  match s with
  | [] => [[]]
  | c :: s' =>
      if p c then [] :: split p s'
      else match split p s' with
           | piece :: rest => (c :: piece) :: rest
           | [] => [[c]]
           end
  end.

(** [rsplit] yields the same pieces from the end. *)
Definition rsplit (p : char → bool) (s : str) : list str := reverse (split p s).

(** [.next().unwrap_or_default()] of such an iterator. *)
Definition next_or_default (l : list str) : str := default [] (head l).

(** [s.find(c)], in characters. *)
Fixpoint find_char (c : char) (s : str) : option nat :=
  match s with
  | [] => None
  | d :: s' => if d =? c then Some O else S <$> find_char c s'
  end.

(** ** Integers as text *)

Definition to_digit (c : char) : option Z :=
  if is_ascii_digit c then Some (c - 48) else None.

Fixpoint parse_digits (max acc : Z) (s : str) : option Z :=
  match s with
  | [] => Some acc
  | c :: s' =>
      d ← to_digit c;
      let acc' := acc * 10 + d in
      if acc' <=? max then parse_digits max acc' s' else None
  end.

(** [s.parse::<u64>()] up to its error: an optional [+], at least one digit, no overflow. *)
Definition parse_u64 (s : str) : option Z :=
  match s with
  | [] => None
  | c :: s' =>
      if c =? 43 then (if is_empty s' then None else parse_digits u64_max 0 s')
      else parse_digits u64_max 0 s
  end.

Fixpoint decimal_aux (fuel : nat) (n : Z) (acc : str) : str :=
  match fuel with
  | O => acc
  | S fuel =>
      let acc := (48 + n mod 10) :: acc in
      if n <? 10 then acc else decimal_aux fuel (n / 10) acc
  end.

(** [Display] of a non-negative integer: one round per binary digit is enough fuel. *)
Definition decimal (n : Z) : str := decimal_aux (S (Z.to_nat (Z.log2 n))) n [].

(** ** Facts on UTF-8 *)

Lemma utf8_char_cases c : is_scalar c = true →
  (0 ≤ c < 0x80 ∧ utf8_char c = [c]) ∨
  (0x80 ≤ c < 0x800 ∧ utf8_char c = [0xC0 + c / 64; 0x80 + c mod 64]) ∨
  (0x800 ≤ c < 0x10000 ∧
   utf8_char c = [0xE0 + c / 4096; 0x80 + (c / 64) mod 64; 0x80 + c mod 64]) ∨
  (0x10000 ≤ c < 0x110000 ∧
   utf8_char c = [0xF0 + c / 262144; 0x80 + (c / 4096) mod 64;
                  0x80 + (c / 64) mod 64; 0x80 + c mod 64]).
Proof.
  unfold is_scalar, utf8_char. intros Hc.
  change 63 with (Z.ones 6). rewrite !Z.land_ones, !Z.shiftr_div_pow2 by done.
  destruct (Z.ltb_spec c 0x80); [left; split; [lia|done]|].
  destruct (Z.ltb_spec c 0x800); [right; left; split; [lia|done]|].
  destruct (Z.ltb_spec c 0x10000); [right; right; left; split; [lia|done]|].
  right; right; right. split; [lia|done].
Qed.

(** UTF-8 is a prefix code: the encoding of one character cannot be read as another. *)
Lemma utf8_char_prefix c d r1 r2 :
  is_scalar c = true → is_scalar d = true →
  utf8_char c ++ r1 = utf8_char d ++ r2 → c = d ∧ r1 = r2.
Proof.
  intros Hc Hd Heq.
  destruct (utf8_char_cases c Hc) as [[? Ec]|[[? Ec]|[[? Ec]|[? Ec]]]];
  destruct (utf8_char_cases d Hd) as [[? Ed]|[[? Ed]|[[? Ed]|[? Ed]]]];
  rewrite Ec, Ed in Heq; simpl in Heq; simplify_list_eq;
  split; try done; Z.to_euclidean_division_equations; lia.
Qed.

Lemma utf8_char_ne c : utf8_char c ≠ [].
Proof. unfold utf8_char. repeat case_match; done. Qed.

Lemma as_bytes_cons c s : as_bytes (c :: s) = utf8_char c ++ as_bytes s.
Proof. done. Qed.

(** Distinct strings have distinct bytes. *)
Lemma as_bytes_inj s t : valid_str s → valid_str t → as_bytes s = as_bytes t → s = t.
Proof.
  intros Hs. revert t. induction Hs as [|c s Hc Hs IH]; intros [|d t] Ht Heq.
  - done.
  - symmetry in Heq. rewrite as_bytes_cons in Heq.
    by apply app_eq_nil in Heq as [?%utf8_char_ne _].
  - rewrite as_bytes_cons in Heq. by apply app_eq_nil in Heq as [?%utf8_char_ne _].
  - inversion_clear Ht. rewrite !as_bytes_cons in Heq.
    apply utf8_char_prefix in Heq as [-> Heq]; [|done..]. f_equal. by apply IH.
Qed.

Lemma length_utf8_char c : (1 ≤ length (utf8_char c) ≤ 4)%nat.
Proof. unfold utf8_char. repeat case_match; simpl; lia. Qed.

(** [len] counts between one and four bytes per character. *)
Lemma str_len_bounds s : chars_count s ≤ str_len s ≤ 4 * chars_count s.
Proof.
  unfold chars_count, str_len. induction s as [|c s IH]; [done|].
  rewrite as_bytes_cons, length_app. simpl length. pose proof (length_utf8_char c). lia.
Qed.

(** A string of graphic bytes is a string of graphic characters, one byte each. *)
Lemma as_bytes_graphic s :
  Forall (λ b, is_ascii_graphic b = true) (as_bytes s) ↔
  Forall (λ c, is_ascii_graphic c = true) s.
Proof.
  induction s as [|c s IH]; [done|].
  rewrite as_bytes_cons, Forall_app, Forall_cons, IH. apply and_iff_compat_r.
  assert (∀ n, 0x80 ≤ c → 0 ≤ Z.shiftr c n) as Hs by (intros; apply Z.shiftr_nonneg; lia).
  unfold utf8_char. destruct (Z.ltb_spec c 0x80).
  { by rewrite Forall_cons, Forall_nil; intuition. }
  pose proof (Hs 6 H). pose proof (Hs 12 H). pose proof (Hs 18 H).
  unfold is_ascii_graphic. split; [|lia].
  repeat case_match; rewrite Forall_cons; intros [? _]; lia.
Qed.

Lemma as_bytes_ascii s : Forall (λ c, 0 ≤ c < 0x80) s → as_bytes s = s.
Proof.
  induction 1 as [|c s Hc _ IH]; [done|]. rewrite as_bytes_cons, IH.
  unfold utf8_char. by rewrite (proj2 (Z.ltb_lt c 0x80)) by lia.
Qed.

Lemma graphic_ascii s :
  Forall (λ c, is_ascii_graphic c = true) s → Forall (λ c, 0 ≤ c < 0x80) s.
Proof. intros H. eapply Forall_impl; [exact H|]. unfold is_ascii_graphic. simpl. lia. Qed.

Lemma graphic_valid s : Forall (λ c, is_ascii_graphic c = true) s → valid_str s.
Proof. intros H. eapply Forall_impl; [exact H|]. unfold is_ascii_graphic, is_scalar. simpl. lia. Qed.

(** ** Facts on [trim] *)

Lemma trim_start_spec s : ∃ w, s = w ++ trim_start s ∧ Forall (λ c, is_whitespace c = true) w ∧
  match trim_start s with [] => True | c :: _ => is_whitespace c = false end.
Proof.
  induction s as [|c s (w & IH & Hw & Hh)]; simpl; [by exists []|].
  destruct (is_whitespace c) eqn:E; [|by exists []].
  exists (c :: w). simpl. rewrite <-IH. by repeat constructor.
Qed.

Lemma trim_start_nil s : trim_start s = [] ↔ Forall (λ c, is_whitespace c = true) s.
Proof.
  induction s as [|c s IH]; simpl; [done|]. rewrite Forall_cons.
  destruct (is_whitespace c); [by rewrite IH; intuition|]. split; [done|by intros []].
Qed.

(** Trimming leaves nothing exactly when every character is white space. *)
Lemma trim_nil s : trim s = [] ↔ Forall (λ c, is_whitespace c = true) s.
Proof.
  unfold trim, trim_end. destruct (trim_start_spec s) as (w & Hs & Hw & _).
  rewrite <-(reverse_nil (A:=Z)) at 1. split.
  - intros H%(inj reverse). rewrite trim_start_nil, Forall_reverse in H.
    rewrite Hs. by apply Forall_app.
  - intros ->%trim_start_nil. done.
Qed.

Lemma trim_start_idemp s : trim_start (trim_start s) = trim_start s.
Proof.
  destruct (trim_start_spec s) as (w & _ & _ & H). destruct (trim_start s) as [|c t]; [done|].
  simpl. by rewrite H.
Qed.

Lemma trim_start_snoc s c : is_whitespace c = false →
  trim_start (s ++ [c]) = trim_start s ++ [c].
Proof.
  intros Hc. induction s as [|d s IH]; simpl; [by rewrite Hc|].
  destruct (is_whitespace d); [done|by simpl].
Qed.

Lemma trim_start_trim_end s : trim_start s = s → trim_start (trim_end s) = trim_end s.
Proof.
  intros Hs. unfold trim_end. destruct s as [|c s]; [done|].
  assert (is_whitespace c = false) as Hc.
  { destruct (trim_start_spec (c :: s)) as (w & _ & _ & H). by rewrite Hs in H. }
  rewrite reverse_cons, trim_start_snoc, reverse_app by done. simpl. by rewrite Hc.
Qed.

Lemma trim_idemp s : trim (trim s) = trim s.
Proof.
  unfold trim. rewrite (trim_start_trim_end (trim_start s)) by apply trim_start_idemp.
  unfold trim_end. by rewrite reverse_involutive, trim_start_idemp.
Qed.

Lemma trim_start_none s : Forall (λ c, is_whitespace c = false) s → trim_start s = s.
Proof. intros [|c t Hc _]; simpl; [done|]. by rewrite Hc. Qed.

(** Text without white space is not changed. *)
Lemma trim_none s : Forall (λ c, is_whitespace c = false) s → trim s = s.
Proof.
  intros H. unfold trim, trim_end. rewrite (trim_start_none s) by done.
  rewrite trim_start_none by by rewrite Forall_reverse. apply reverse_involutive.
Qed.

(** ** Facts on [split] *)

Lemma split_none p s : Forall (λ c, p c = false) s → split p s = [s].
Proof. induction 1 as [|c s Hc _ IH]; simpl; [done|]. by rewrite Hc, IH. Qed.

Lemma split_sep p a c b : p c = true → split p (a ++ c :: b) = split p a ++ split p b.
Proof.
  intros Hc. induction a as [|d a IH]; simpl; [by rewrite Hc|].
  destruct (p d); simpl; [by rewrite IH|]. rewrite IH.
  by destruct a as [|e a]; simpl; [|destruct (p e); [|destruct (split p a)]].
Qed.

(** The first piece is the longest prefix without a separator. *)
Lemma split_first p s :
  (Forall (λ c, p c = false) s ∧ next_or_default (split p s) = s) ∨
  ∃ c b, s = next_or_default (split p s) ++ c :: b ∧ p c = true ∧
    Forall (λ c, p c = false) (next_or_default (split p s)).
Proof.
  destruct (Exists_Forall_first p s) as [Hs|(a & c & b & -> & Ha & Hc)].
  - left. by rewrite (split_none p s).
  - right. exists c, b. by rewrite split_sep, (split_none p a).
Qed.

(** The first piece from the end is the longest suffix without a separator. *)
Lemma rsplit_first p s :
  (Forall (λ c, p c = false) s ∧ next_or_default (rsplit p s) = s) ∨
  ∃ a c, s = a ++ c :: next_or_default (rsplit p s) ∧ p c = true ∧
    Forall (λ c, p c = false) (next_or_default (rsplit p s)).
Proof.
  unfold rsplit. destruct (Exists_Forall_first p (reverse s)) as [Hs|(b & c & a & E & Hb & Hc)].
  - left. rewrite Forall_reverse in Hs. by rewrite (split_none p s).
  - right. apply (f_equal reverse) in E. rewrite reverse_involutive, reverse_app, reverse_cons in E.
    exists (reverse a), c. rewrite E, <-app_assoc. simpl. rewrite split_sep by done.
    rewrite (split_none p (reverse b)) by by rewrite Forall_reverse.
    rewrite reverse_app. unfold next_or_default. simpl. by rewrite Forall_reverse.
Qed.

(** ** Facts on integers as text *)

Lemma to_digit_range c d : to_digit c = Some d → 0 ≤ d ≤ 9.
Proof. unfold to_digit, is_ascii_digit. intros. case_match; simplify_eq. lia. Qed.

Lemma parse_digits_range max acc s n :
  0 ≤ acc ≤ max → parse_digits max acc s = Some n → 0 ≤ n ≤ max.
Proof.
  revert acc; induction s as [|c s IH]; simpl; intros acc Hacc H; [by simplify_eq|].
  destruct (to_digit c) as [d|] eqn:Hd; simpl in H; [|done].
  apply to_digit_range in Hd. destruct (Z.leb_spec (acc * 10 + d) max); [|done].
  eapply IH; [|done]. lia.
Qed.

(** A parsed [u64] fits in 64 bits. *)
Lemma parse_u64_range s n : parse_u64 s = Some n → 0 ≤ n ≤ u64_max.
Proof.
  unfold parse_u64. intros H. assert (0 ≤ 0 ≤ u64_max) by done.
  repeat case_match; simplify_eq; eauto using parse_digits_range.
Qed.

Lemma parse_decimal_aux max fuel n acc :
  0 ≤ n ≤ max → n < 2 ^ Z.of_nat fuel →
  parse_digits max 0 (decimal_aux fuel n acc) = parse_digits max n acc.
Proof.
  revert n acc. induction fuel as [|fuel IH]; intros n acc Hn Hf.
  { simpl in *. by replace n with 0 by lia. }
  rewrite Nat2Z.inj_succ, Z.pow_succ_r in Hf by lia. cbn [decimal_aux].
  assert (to_digit (48 + n mod 10) = Some (n mod 10)) as Hd.
  { pose proof (Z.mod_pos_bound n 10). unfold to_digit, is_ascii_digit.
    destruct (_ && _) eqn:?; [f_equal|]; lia. }
  destruct (Z.ltb_spec n 10).
  - cbn. rewrite Hd. cbn. rewrite Z.mod_small by lia.
    by rewrite (proj2 (Z.leb_le _ _)) by lia.
  - rewrite IH by (Z.to_euclidean_division_equations; lia). cbn [parse_digits].
    rewrite Hd. cbn [mbind option_bind].
    replace (n / 10 * 10 + n mod 10) with n by (Z.to_euclidean_division_equations; lia).
    by rewrite (proj2 (Z.leb_le _ _)) by lia.
Qed.

Lemma decimal_head n : 0 ≤ n → ∃ d s, decimal n = d :: s ∧ 48 ≤ d ≤ 57.
Proof.
  unfold decimal. intros Hn. generalize (Z.to_nat (Z.log2 n)); intros f.
  assert (∀ f n acc, 0 ≤ n → ∃ d s, decimal_aux (S f) n acc = d :: s ∧ 48 ≤ d ≤ 57) as Haux.
  { clear n Hn f. induction f as [|f IH]; intros n acc Hn; simpl decimal_aux;
      pose proof (Z.mod_pos_bound n 10); destruct (n <? 10).
    1-3: by eexists _, _; split; [done|lia].
    apply IH. by apply Z.div_pos. }
  by apply Haux.
Qed.

Lemma parse_digits_decimal max n : 0 ≤ n ≤ max → parse_digits max 0 (decimal n) = Some n.
Proof.
  intros Hn. unfold decimal. rewrite parse_decimal_aux; [done|done|].
  destruct (Z.eq_dec n 0) as [->|]; [done|].
  rewrite Nat2Z.inj_succ, Z2Nat.id by apply Z.log2_nonneg. apply Z.log2_spec. lia.
Qed.

(** Printing a [u64] and parsing it back is the identity. *)
Lemma parse_decimal n : 0 ≤ n ≤ u64_max → parse_u64 (decimal n) = Some n.
Proof.
  intros Hn. unfold parse_u64. destruct (decimal_head n) as (d & s & E & Hd); [lia|].
  rewrite E, <-E. rewrite (proj2 (Z.eqb_neq d 43)) by lia. by apply parse_digits_decimal.
Qed.

Lemma decimal_inj n m : 0 ≤ n → 0 ≤ m → decimal n = decimal m → n = m.
Proof.
  intros Hn Hm E. assert (Some n = Some m) as [= ->]; [|done].
  rewrite <-(parse_digits_decimal (Z.max n m) n), <-(parse_digits_decimal (Z.max n m) m) by lia.
  by rewrite E.
Qed.

Lemma decimal_digits n : 0 ≤ n → Forall (λ c, 48 ≤ c ≤ 57) (decimal n).
Proof.
  intros Hn. unfold decimal. generalize (S (Z.to_nat (Z.log2 n))); intros f.
  assert (Forall (λ c, 48 ≤ c ≤ 57) []) as H by done. revert H. generalize (@nil Z).
  revert n Hn. induction f as [|f IH]; intros n Hn acc Hacc; simpl; [done|].
  pose proof (Z.mod_pos_bound n 10).
  assert (Forall (λ c, 48 ≤ c ≤ 57) ((48 + n mod 10) :: acc)) by (constructor; [lia|done]).
  destruct (n <? 10); [done|]. apply IH; [by apply Z.div_pos|done].
Qed.

Lemma trim_decimal n : 0 ≤ n → trim (decimal n) = decimal n.
Proof.
  intros Hn. apply trim_none. eapply Forall_impl; [by apply decimal_digits|].
  simpl. unfold is_whitespace. lia.
Qed.
