(* ===== verification/Json.v ===== *)
(** * [serde_json::Value]

    The JSON values the crates pass around. The number type of [serde_json] and
    its serializer are not part of the repository: they are the parameters
    [Number] and [to_writer]. A map is the list of its entries in iteration
    order, with distinct keys ([wf_value]). *)

From S2P Require Import Prelude Text.

Class SerdeJson := {
  Number : Type;
  Number_eq_dec :: EqDecision Number
}.

Inductive Value `{SerdeJson} : Type :=
| VNull
| VBool (b : bool)
| VNumber (n : Number)
| VString (s : str)
| VArray (items : list Value)
| VObject (entries : list (str * Value)).

(** [serde_json::to_writer] into a byte vector. *)
Class SerdeJsonWriter `{SerdeJson} := { to_writer : Value → bytes }.

(** The bytes [, : ] }] that follow a complete value inside a larger one. *)
Definition delimited (r : bytes) : Prop :=
  match r with [] => True | b :: _ => b ∈ [44; 58; 93; 125] end.

Section value.
Context `{SJ : SerdeJson}.
Implicit Types (v w : Value).

(** [Value::is_null]. *)
Definition is_null v : bool := match v with VNull => true | _ => false end.

(** Neither an array nor an object: what [write_scalar] gets. *)
Definition is_scalar_value v : bool :=
  match v with VArray _ | VObject _ => false | _ => true end.

(** Strings hold scalar values only and the keys of an object are distinct. *)
Fixpoint wf_value v : Prop :=
  match v with
  | VString s => valid_str s
  | VArray items => foldr (λ i P, wf_value i ∧ P) True items
  | VObject entries =>
      NoDup entries.*1 ∧ foldr (λ e P, (valid_str e.1 ∧ wf_value e.2) ∧ P) True entries
  | _ => True
  end.

(** Equality of payloads: arrays in order, objects as maps from keys to values. *)
Inductive value_equiv : Value → Value → Prop :=
| equiv_scalar v : is_scalar_value v = true → value_equiv v v
| equiv_array l k : Forall2 value_equiv l k → value_equiv (VArray l) (VArray k)
| equiv_object l l' k k' :
    l ≡ₚ l' → k ≡ₚ k' → Forall2 (λ a b, a.1 = b.1 ∧ value_equiv a.2 b.2) l' k' →
    value_equiv (VObject l) (VObject k).

(** Documented behaviour of the serializer on scalars, from the JSON grammar: the
    text of a scalar starts with none of [, : [ ] { }], and the text up to the
    next delimiter determines the scalar. *)
Class SerdeJsonWriterLaws (SW : SerdeJsonWriter) : Prop := {
  to_writer_head v :
    is_scalar_value v = true → wf_value v →
    ∃ c r, to_writer v = c :: r ∧ c ∉ [44; 58; 91; 93; 123; 125];
  to_writer_prefix v w r1 r2 :
    is_scalar_value v = true → is_scalar_value w = true → wf_value v → wf_value w →
    delimited r1 → delimited r2 → to_writer v ++ r1 = to_writer w ++ r2 → v = w ∧ r1 = r2
}.

(** ** Induction and decidable equality *)

Lemma Value_nested_ind (P : Value → Prop) :
  (∀ v, is_scalar_value v = true → P v) →
  (∀ l, Forall P l → P (VArray l)) →
  (∀ l, Forall (λ e, P e.2) l → P (VObject l)) →
  ∀ v, P v.
Proof.
  intros Hs Ha Ho. fix IH 1. intros [ | | | |l|l]; try by apply Hs.
  - apply Ha. induction l as [|v l IHl]; constructor; [apply IH|apply IHl].
  - apply Ho. induction l as [|e l IHl]; constructor; [apply IH|apply IHl].
Qed.

Definition Value_eq_dec_aux : ∀ v w, {v = w} + {v ≠ w}.
Proof.
  fix IH 1. intros [ |b|n|s|l|l] [ |b'|n'|s'|l'|l'];
    try (right; discriminate).
  - by left.
  - destruct (decide (b = b')) as [->|]; [by left|right; congruence].
  - destruct (decide (n = n')) as [->|]; [by left|right; congruence].
  - destruct (decide (s = s')) as [->|]; [by left|right; congruence].
  - assert ({l = l'} + {l ≠ l'}) as [->|]; [|by left|right; congruence].
    revert l'. induction l as [|v l IHl]; intros [|w l']; [by left|by right|by right|].
    destruct (IH v w) as [->|]; [|right; congruence].
    destruct (IHl l') as [->|]; [by left|right; congruence].
  - assert ({l = l'} + {l ≠ l'}) as [->|]; [|by left|right; congruence].
    revert l'. induction l as [|[k v] l IHl]; intros [|[k' w] l']; [by left|by right|by right|].
    destruct (decide (k = k')) as [->|]; [|right; congruence].
    destruct (IH v w) as [->|]; [|right; congruence].
    destruct (IHl l') as [->|]; [by left|right; congruence].
Defined.

#[global] Instance Value_eq_dec : EqDecision Value := Value_eq_dec_aux.

Lemma wf_array l : wf_value (VArray l) ↔ Forall wf_value l.
Proof. simpl. induction l; simpl; rewrite ?Forall_cons, ?Forall_nil; intuition. Qed.

Lemma wf_object l :
  wf_value (VObject l) ↔ NoDup l.*1 ∧ Forall (λ e, valid_str e.1 ∧ wf_value e.2) l.
Proof.
  simpl. apply and_iff_compat_l.
  induction l; simpl; rewrite ?Forall_cons, ?Forall_nil; intuition.
Qed.

Lemma value_equiv_refl v : value_equiv v v.
Proof.
  induction v using Value_nested_ind.
  - by apply equiv_scalar.
  - apply equiv_array. by apply Forall_Forall2_diag.
  - eapply equiv_object; [done|done|]. apply Forall_Forall2_diag.
    eapply Forall_impl; [done|]. by simpl.
Qed.
End value.
