(* ===== verification/Crates.v ===== *)
(** * Third-party crates and services

    Code that is not part of the repository enters the development through
    these classes: an operational class per crate, and a class of laws in [Prop]
    for the documented behaviour a theorem relies on. [serde_json] is in [Json],
    PostgreSQL in [Schema]. *)

From S2P Require Import Prelude Text.

(** A UUID is its 128-bit value. *)
Abbreviation Uuid := Z (only parsing).

(** Nanoseconds since the Unix epoch, and nanoseconds. *)
Abbreviation SystemTime := Z (only parsing).
Abbreviation Duration := Z (only parsing).

(** ** The [uuid] crate *)

Class UuidCrate := {
  uuid_try_parse : str → option Uuid;
  uuid_fmt : Uuid → str
}.

Definition valid_uuid (u : Uuid) : Prop := 0 ≤ u < 2 ^ 128.

(** The [Display] form of a UUID parses back, and parsing yields UUIDs. *)
Class UuidLaws (U : UuidCrate) : Prop := {
  uuid_parse_fmt u : valid_uuid u → uuid_try_parse (uuid_fmt u) = Some u;
  uuid_parse_valid s u : uuid_try_parse s = Some u → valid_uuid u
}.

(** ** The [sha2] crate *)

Class Sha2 := { sha256 : bytes → bytes }.

(** A SHA-256 digest is 32 bytes long. *)
Class Sha2Laws (S : Sha2) : Prop := { sha256_length m : length (sha256 m) = 32%nat }.
