(* ===== verification/Reference.v ===== *)
(** * Concrete instances of the third-party parameters

    Executable functions that satisfy the laws of [Crates] and [Json]: a JSON
    serializer for scalars with integers, integral floats and [serde_json]'s escapes, the
    hyphenated form of UUIDs, and SHA-256 (FIPS 180-4). The witnesses of the
    development run on them. *)

From S2P Require Import Prelude Text Json Crates.

(** ** JSON scalars *)

(** An integer, or a float with an integral value; [1] and [1.0] are different. *)
Inductive ref_number := RInt (n : Z) | RFloat (n : Z).

#[global] Instance ref_number_eq_dec : EqDecision ref_number.
Proof. solve_decision. Defined.

#[global] Instance serde_ref : SerdeJson := {| Number := ref_number |}.

Definition hex_digit (d : Z) : char := if d <? 10 then 48 + d else 87 + d.

Definition escape_byte (b : Z) : bytes :=
  if b =? 34 then [92; 34]
  else if b =? 92 then [92; 92]
  else if b =? 8 then [92; 98]
  else if b =? 9 then [92; 116]
  else if b =? 10 then [92; 110]
  else if b =? 12 then [92; 102]
  else if b =? 13 then [92; 114]
  else if (0 <=? b) && (b <? 32) then [92; 117; 48; 48; hex_digit (b / 16); hex_digit (b mod 16)]
  else [b].

Definition write_int (n : Z) : bytes := if n <? 0 then 45 :: decimal (- n) else decimal n.

Definition write_number (n : ref_number) : bytes :=
  match n with RInt n => write_int n | RFloat n => write_int n ++ lit ".0" end.

#[global] Instance writer_ref : SerdeJsonWriter := {|
  to_writer v :=
    match v with
    | VNull => lit "null"
    | VBool true => lit "true"
    | VBool false => lit "false"
    | VNumber n => write_number n
    | VString s => 34 :: (as_bytes s ≫= escape_byte) ++ [34]
    | VArray _ | VObject _ => []
    end
|}.

(** ** UUIDs *)

(** The [n] low base-16 digits, most significant first. *)
Fixpoint nibbles (n : nat) (u : Z) : list Z :=
  match n with
  | O => []
  | S n => nibbles n (u / 16) ++ [u mod 16]
  end.

Definition hyphenate (d : str) : str :=
  take 8 d ++ 45 :: take 4 (drop 8 d) ++ 45 :: take 4 (drop 12 d) ++ 45 ::
  take 4 (drop 16 d) ++ 45 :: drop 20 d.

Definition unhyphenate (s : str) : str :=
  take 8 s ++ take 4 (drop 9 s) ++ take 4 (drop 14 s) ++ take 4 (drop 19 s) ++ drop 24 s.

Definition hex_value (c : char) : option Z :=
  if is_ascii_digit c then Some (c - 48)
  else if (97 <=? c) && (c <=? 102) then Some (c - 87) else None.

Definition uuid_fmt_ref (u : Uuid) : str := hyphenate (hex_digit <$> nibbles 32 u).

Definition uuid_parse_ref (s : str) : option Uuid :=
  let d := unhyphenate s in
  if bool_decide (hyphenate d = s ∧ length d = 32%nat) then
    (λ ds, foldl (λ acc x, acc * 16 + x) 0 ds) <$> mapM hex_value d
  else None.

#[global] Instance uuid_ref : UuidCrate := {|
  uuid_fmt := uuid_fmt_ref;
  uuid_try_parse := uuid_parse_ref
|}.

(** ** SHA-256 *)

Definition w32 (x : Z) : Z := Z.land x 0xFFFFFFFF.
Definition rotr (n x : Z) : Z := Z.lor (Z.shiftr x n) (w32 (Z.shiftl x (32 - n))).

(** The constants are the fractional parts of roots of the first primes. *)
Definition is_prime (n : Z) : bool :=
  forallb (λ d, negb (n mod Z.of_nat d =? 0)) (seq 2 (Z.to_nat n - 2)).

Definition primes (bound : nat) : list Z := filter (λ n, is_prime n = true) (Z.of_nat <$> seq 2 bound).

(** The integer cube root, bit by bit. *)
Fixpoint cube_root (bits : nat) (acc n : Z) : Z :=
  match bits with
  | O => acc
  | S bits =>
      let next := acc + 2 ^ Z.of_nat bits in
      cube_root bits (if next * next * next <=? n then next else acc) n
  end.

Definition sha_K : list Z :=
  Eval vm_compute in (λ p, w32 (cube_root 36 0 (p * 2 ^ 96))) <$> primes 310.

Definition sha_H0 : list Z :=
  Eval vm_compute in (λ p, w32 (Z.sqrt (p * 2 ^ 64))) <$> primes 18.

Definition sha_pad (m : bytes) : bytes :=
  let n := Z.of_nat (length m) in
  m ++ [0x80] ++ replicate (Z.to_nat ((55 - n) mod 64)) 0 ++ to_be_bytes 8 (8 * n).

Fixpoint sha_words (fuel : nat) (m : bytes) : list Z :=
  match fuel, m with
  | S fuel, a :: b :: c :: d :: m => from_be_bytes [a; b; c; d] :: sha_words fuel m
  | _, _ => []
  end.

(** The message schedule, newest word first. *)
Fixpoint sha_schedule (n : nat) (w : list Z) : list Z :=
  match n with
  | O => w
  | S n =>
      let w2 := nth 1 w 0 in let w7 := nth 6 w 0 in
      let w15 := nth 14 w 0 in let w16 := nth 15 w 0 in
      let s0 := Z.lxor (Z.lxor (rotr 7 w15) (rotr 18 w15)) (Z.shiftr w15 3) in
      let s1 := Z.lxor (Z.lxor (rotr 17 w2) (rotr 19 w2)) (Z.shiftr w2 10) in
      sha_schedule n (w32 (w16 + s0 + w7 + s1) :: w)
  end.

Definition sha_round (st : list Z) (kw : Z * Z) : list Z :=
  match st with
  | [a; b; c; d; e; f; g; h] =>
      let s1 := Z.lxor (Z.lxor (rotr 6 e) (rotr 11 e)) (rotr 25 e) in
      let ch := Z.lxor (Z.land e f) (Z.land (Z.lxor e 0xFFFFFFFF) g) in
      let t1 := h + s1 + ch + kw.1 + kw.2 in
      let s0 := Z.lxor (Z.lxor (rotr 2 a) (rotr 13 a)) (rotr 22 a) in
      let maj := Z.lxor (Z.lxor (Z.land a b) (Z.land a c)) (Z.land b c) in
      [w32 (t1 + s0 + maj); a; b; c; w32 (d + t1); e; f; g]
  | _ => st
  end.

Definition sha_block (st : list Z) (words : list Z) : list Z :=
  let w := reverse (sha_schedule 48 (reverse words)) in
  zip_with (λ x y, w32 (x + y)) st (foldl sha_round st (zip sha_K w)).

Fixpoint sha_blocks (fuel : nat) (st words : list Z) : list Z :=
  match fuel, words with
  | O, _ | _, [] => st
  | S fuel, _ => sha_blocks fuel (sha_block st (take 16 words)) (drop 16 words)
  end.

Definition sha256_ref (m : bytes) : bytes :=
  let p := sha_pad m in
  let words := sha_words (length p) p in
  sha_blocks (length words) sha_H0 words ≫= to_be_bytes 4.

#[global] Instance sha2_ref : Sha2 := {| sha256 := sha256_ref |}.

(** ** Laws *)

Lemma sha_round_length st kw : length st = 8%nat → length (sha_round st kw) = 8%nat.
Proof. by destruct st as [|? [|? [|? [|? [|? [|? [|? [|? [|]]]]]]]]]. Qed.

Lemma sha_block_length st words : length st = 8%nat → length (sha_block st words) = 8%nat.
Proof.
  intros H. unfold sha_block. rewrite length_zip_with, H.
  generalize (zip sha_K (reverse (sha_schedule 48 (reverse words)))); intros kws.
  assert (∀ st', length st' = 8%nat → length (foldl sha_round st' kws) = 8%nat) as Hf.
  { induction kws as [|kw kws IH]; intros st' Hst'; simpl; [done|].
    by apply IH, sha_round_length. }
  by rewrite Hf.
Qed.

Lemma sha_blocks_length fuel st words :
  length st = 8%nat → length (sha_blocks fuel st words) = 8%nat.
Proof.
  revert st words. induction fuel as [|fuel IH]; intros st words H; simpl; [done|].
  destruct words; [done|]. by apply IH, sha_block_length.
Qed.

#[global] Instance sha2_ref_laws : Sha2Laws sha2_ref.
Proof.
  constructor. intros m. simpl. unfold sha256_ref.
  pose proof (sha_blocks_length (length (sha_words (length (sha_pad m)) (sha_pad m))) sha_H0
    (sha_words (length (sha_pad m)) (sha_pad m)) eq_refl) as H.
  revert H. generalize (sha_blocks (length (sha_words (length (sha_pad m)) (sha_pad m))) sha_H0
    (sha_words (length (sha_pad m)) (sha_pad m))). intros l Hl.
  by destruct l as [|? [|? [|? [|? [|? [|? [|? [|? [|]]]]]]]]].
Qed.

Lemma hex_value_digit d : 0 ≤ d < 16 → hex_value (hex_digit d) = Some d.
Proof.
  intros Hd. unfold hex_value, hex_digit, is_ascii_digit.
  destruct (Z.ltb_spec d 10); repeat case_match; f_equal; lia.
Qed.

Lemma length_nibbles n u : length (nibbles n u) = n.
Proof. revert u; induction n; intros u; simpl; [done|]. rewrite length_app, IHn. simpl. lia. Qed.

Lemma nibbles_range n u : Forall (λ d, 0 ≤ d < 16) (nibbles n u).
Proof.
  revert u; induction n as [|n IH]; intros u; simpl; [done|].
  apply Forall_app. split; [apply IH|]. constructor; [|done]. by apply Z.mod_pos_bound.
Qed.

Lemma nibbles_value n u :
  foldl (λ acc x, acc * 16 + x) 0 (nibbles n u) = u mod 16 ^ Z.of_nat n.
Proof.
  revert u; induction n as [|n IH]; intros u; [by rewrite Z.mod_1_r|].
  cbn [nibbles]. rewrite foldl_app, IH. cbn [foldl].
  replace (Z.of_nat (S n)) with (1 + Z.of_nat n) by lia.
  assert (0 < 16 ^ Z.of_nat n) by (apply Z.pow_pos_nonneg; lia).
  rewrite Z.pow_add_r, Z.pow_1_r, Z.rem_mul_r by lia. lia.
Qed.

Lemma unhyphenate_hyphenate d : length d = 32%nat → unhyphenate (hyphenate d) = d.
Proof.
  intros Hd. do 32 (destruct d as [|? d]; [done|]). by destruct d.
Qed.

Lemma hex_fold_range ds acc :
  Forall (λ d, 0 ≤ d < 16) ds → 0 ≤ acc →
  0 ≤ foldl (λ acc x, acc * 16 + x) acc ds < (acc + 1) * 16 ^ Z.of_nat (length ds).
Proof.
  intros H. revert acc. induction H as [|d ds Hd _ IH]; intros acc Hacc; [simpl; lia|].
  cbn [foldl length]. specialize (IH (acc * 16 + d)).
  rewrite Nat2Z.inj_succ, Z.pow_succ_r by lia.
  assert (0 < 16 ^ Z.of_nat (length ds)) by (apply Z.pow_pos_nonneg; lia). nia.
Qed.

#[global] Instance uuid_ref_laws : UuidLaws uuid_ref.
Proof.
  constructor.
  - intros u Hu. cbn [uuid_try_parse uuid_fmt uuid_ref]. unfold uuid_parse_ref, uuid_fmt_ref.
    assert (length (hex_digit <$> nibbles 32 u) = 32%nat) as Hl
      by by rewrite length_fmap, length_nibbles.
    rewrite unhyphenate_hyphenate, bool_decide_true by done.
    assert (mapM hex_value (hex_digit <$> nibbles 32 u) = Some (nibbles 32 u)) as ->.
    + apply mapM_Some, Forall2_fmap_l, Forall_Forall2_diag.
      eapply Forall_impl; [apply nibbles_range|]. intros d Hd. by apply hex_value_digit.
    + cbn [fmap option_fmap option_map]. rewrite nibbles_value. by rewrite Z.mod_small.
  - intros s u. cbn [uuid_try_parse uuid_ref]. unfold uuid_parse_ref.
    case_bool_decide as Hd; [|done]. destruct Hd as [_ Hlen].
    destruct (mapM hex_value (unhyphenate s)) as [ds|] eqn:E; [|done]. intros [= <-].
    apply mapM_Some in E. pose proof (Forall2_length _ _ _ E) as HL.
    pose proof (hex_fold_range ds 0) as H. rewrite <-HL, Hlen in H. apply H; [|done].
    clear -E. induction E as [|c d cs ds Hd _ IH]; constructor; [|done].
    unfold hex_value, is_ascii_digit in Hd. repeat case_match; simplify_eq; lia.
Qed.

(** What can follow the digits of a number. *)
Definition no_digit (r : bytes) : Prop :=
  match r with [] => True | b :: _ => ¬ (48 ≤ b ≤ 57) end.

Lemma delimited_no_digit r : delimited r → no_digit r.
Proof. destruct r as [|b r]; [done|]. simpl. intros H. set_unfold in H. lia. Qed.

Lemma digits_prefix a b r1 r2 :
  Forall (λ c, 48 ≤ c ≤ 57) a → Forall (λ c, 48 ≤ c ≤ 57) b →
  no_digit r1 → no_digit r2 → a ++ r1 = b ++ r2 → a = b ∧ r1 = r2.
Proof.
  intros Ha. revert b. induction Ha as [|x a Hx Ha IH]; intros [|y b] Hb H1 H2 E; simplify_list_eq.
  - done.
  - apply Forall_cons in Hb as [Hy _]. by simpl in H1.
  - by simpl in H2.
  - apply Forall_cons in Hb as [_ Hb]. destruct (IH b) as [-> ->]; done.
Qed.

Lemma write_int_head n : ∃ c r, write_int n = c :: r ∧ (c = 45 ∨ 48 ≤ c ≤ 57).
Proof.
  unfold write_int. destruct (Z.ltb_spec n 0); [by eexists _, _; split; [|left]|].
  destruct (decimal_head n) as (d & s & -> & Hd); [lia|]. eexists _, _. split; [done|lia].
Qed.

Lemma write_number_head n : ∃ c r, write_number n = c :: r ∧ (c = 45 ∨ 48 ≤ c ≤ 57).
Proof.
  destruct n as [n|n]; simpl; destruct (write_int_head n) as (c & r & -> & Hc); by eexists _, _.
Qed.

Lemma write_int_prefix n m r1 r2 :
  no_digit r1 → no_digit r2 → write_int n ++ r1 = write_int m ++ r2 → n = m ∧ r1 = r2.
Proof.
  intros H1 H2 E. unfold write_int in E.
  destruct (Z.ltb_spec n 0), (Z.ltb_spec m 0).
  - simplify_list_eq. apply digits_prefix in E as [E ->]; try done; try (apply decimal_digits; lia).
    apply decimal_inj in E; [split; [lia|done]|lia..].
  - destruct (decimal_head m) as (d & s & E' & Hd); [lia|]. rewrite E' in E. simplify_list_eq. lia.
  - destruct (decimal_head n) as (d & s & E' & Hd); [lia|]. rewrite E' in E. simplify_list_eq. lia.
  - apply digits_prefix in E as [E ->]; try done; try (apply decimal_digits; lia).
    apply decimal_inj in E; [split; [lia|done]|lia..].
Qed.

Lemma write_number_prefix n m r1 r2 :
  delimited r1 → delimited r2 → write_number n ++ r1 = write_number m ++ r2 → n = m ∧ r1 = r2.
Proof.
  intros H1 H2. pose proof (delimited_no_digit _ H1). pose proof (delimited_no_digit _ H2).
  destruct n as [n|n], m as [m|m]; simpl; rewrite <-?app_assoc;
    intros [-> E]%write_int_prefix; simpl; try done; try lia; simplify_eq/=; try done.
  - simpl in H1. set_unfold in H1. lia.
  - simpl in H2. set_unfold in H2. lia.
Qed.

Lemma hex_digit_inj a b : 0 ≤ a < 16 → 0 ≤ b < 16 → hex_digit a = hex_digit b → a = b.
Proof.
  intros Ha Hb E. apply (f_equal hex_value) in E. rewrite !hex_value_digit in E by done.
  congruence.
Qed.

(** The escape of a byte is an escape sequence that determines it, or the byte itself. *)
Lemma escape_byte_prefix a b r1 r2 :
  escape_byte a ++ r1 = escape_byte b ++ r2 → a = b ∧ r1 = r2.
Proof.
  unfold escape_byte. intros E.
  repeat (case_match; simplify_list_eq; try (split; [lia|done]); try lia; try done).
  split; [|done].
  repeat match goal with H : hex_digit _ = hex_digit _ |- _ =>
    apply hex_digit_inj in H; [|Z.to_euclidean_division_equations; lia..] end.
  Z.to_euclidean_division_equations; lia.
Qed.

Lemma escape_byte_cases b : ∃ c r, escape_byte b = c :: r ∧ c ≠ 34.
Proof. unfold escape_byte. repeat case_match; eexists _, _; (split; [done|lia]). Qed.

Lemma escape_prefix (s t : bytes) r1 r2 :
  (s ≫= escape_byte) ++ 34 :: r1 = (t ≫= escape_byte) ++ 34 :: r2 → s = t ∧ r1 = r2.
Proof.
  revert t. induction s as [|a s IH]; intros [|b t] E; simpl in E.
  - by simplify_list_eq.
  - destruct (escape_byte_cases b) as (c & r & Eb & Hc). rewrite Eb in E. by simplify_list_eq.
  - destruct (escape_byte_cases a) as (c & r & Eb & Hc). rewrite Eb in E. by simplify_list_eq.
  - rewrite <-!app_assoc in E. apply escape_byte_prefix in E as [-> E].
    destruct (IH t E) as [-> ->]. done.
Qed.

#[global] Instance writer_ref_laws : SerdeJsonWriterLaws writer_ref.
Proof.
  constructor.
  - intros [ |[]|n|s| | ] Hs _; try done; try (eexists _, _; split; [done|set_solver]).
    simpl. destruct (write_number_head n) as (c & r & -> & Hc). exists c, r. split; [done|].
    set_unfold. lia.
  - intros v w r1 r2 Hv Hw Hwv Hww H1 H2 E.
    assert (∀ n c r (r' : list Z), write_number n ++ r = c :: r' → c = 45 ∨ 48 ≤ c ≤ 57) as Hn.
    { intros n c r r' En. destruct (write_number_head n) as (d & r'' & E' & Hd).
      rewrite E' in En. by simplify_list_eq. }
    destruct v as [ |[]|n|s| | ], w as [ |[]|m|t| | ]; try done; simpl in E; simplify_list_eq;
      try done; try (symmetry in E; apply Hn in E; lia); try (apply Hn in E; lia).
    + apply write_number_prefix in E as [-> ->]; done.
    + apply escape_prefix in E as [E ->]. apply as_bytes_inj in E as ->; done.
Qed.
