(* ===== verification/Event.v ===== *)
(** * The validated event domain model (pulsestream-core, event.rs and lib.rs)

    Labels are validated once, when an [EventSource], an [EventType] or an
    [Event] is built. Fresh identifiers and the clock are arguments of the
    operations that draw them. *)

From S2P Require Import Prelude Text Json Crates.

(** ** Service identity *)

Inductive ServiceName := Api | Worker.

Definition ServiceName_as_str (s : ServiceName) : str :=
  match s with
  | Api => lit "pulsestream-api"
  | Worker => lit "pulsestream-worker"
  end.

(** ** Validation errors *)

Definition MAX_SOURCE_CHARS : Z := 100.
Definition MAX_EVENT_TYPE_CHARS : Z := 150.

Inductive ValidationError :=
| VE_Empty (field : str)
| VE_TooLong (field : str) (max : Z)
| VE_ControlCharacter (field : str)
| VE_NullPayload.

#[global] Instance ValidationError_eq_dec : EqDecision ValidationError.
Proof. solve_decision. Defined.

Definition ValidationError_to_string (e : ValidationError) : str :=
  match e with
  | VE_Empty field => field ++ lit " must not be empty"
  | VE_TooLong field max => field ++ lit " must be at most " ++ decimal max ++ lit " characters"
  | VE_ControlCharacter field => field ++ lit " must not contain control characters"
  | VE_NullPayload => lit "payload must not be null"
  end.

(** ** Identities *)

Record EventId := mkEventId { EventId_as_uuid : Uuid }.
Record WorkerId := mkWorkerId { WorkerId_as_uuid : Uuid }.

#[global] Instance EventId_eq_dec : EqDecision EventId.
Proof. solve_decision. Defined.
#[global] Instance WorkerId_eq_dec : EqDecision WorkerId.
Proof. solve_decision. Defined.

(** [EventId::new] and [WorkerId::new] draw a fresh version 4 UUID. *)
Definition EventId_new (v4 : Uuid) : EventId := mkEventId v4.
Definition WorkerId_new (v4 : Uuid) : WorkerId := mkWorkerId v4.
Definition EventId_from_uuid (uuid : Uuid) : EventId := mkEventId uuid.

Definition EventId_parse `{UuidCrate} (value : str) : option EventId :=
  mkEventId <$> uuid_try_parse value.

Definition EventId_to_string `{UuidCrate} (id : EventId) : str := uuid_fmt (EventId_as_uuid id).

(** ** Lifecycle status *)

Inductive EventStatus := Pending | Processing | Processed.

#[global] Instance EventStatus_eq_dec : EqDecision EventStatus.
Proof. solve_decision. Defined.

Definition as_db_str (s : EventStatus) : str :=
  match s with
  | Pending => lit "PENDING"
  | Processing => lit "PROCESSING"
  | Processed => lit "PROCESSED"
  end.

Definition from_db_str (value : str) : option EventStatus :=
  if bool_decide (value = lit "PENDING") then Some Pending
  else if bool_decide (value = lit "PROCESSING") then Some Processing
  else if bool_decide (value = lit "PROCESSED") then Some Processed
  else None.

Definition as_api_str (s : EventStatus) : str :=
  match s with
  | Pending => lit "pending"
  | Processing => lit "processing"
  | Processed => lit "processed"
  end.

(** ** Labels *)

Definition validate_label (field value : str) (max : Z) : result ValidationError unit :=
  if is_empty (trim value) then Err (VE_Empty field)
  else if max <? chars_count value then Err (VE_TooLong field max)
  else if existsb is_control value then Err (VE_ControlCharacter field)
  else Ok tt.

Record EventSource := mkEventSource { EventSource_as_str : str }.
Record EventType := mkEventType { EventType_as_str : str }.

Definition EventSource_parse (value : str) : result ValidationError EventSource :=
  _ ← validate_label (lit "source") value MAX_SOURCE_CHARS; Ok (mkEventSource value).

Definition EventType_parse (value : str) : result ValidationError EventType :=
  _ ← validate_label (lit "event_type") value MAX_EVENT_TYPE_CHARS; Ok (mkEventType value).

(** ** Events *)

Record Event `{SerdeJson} := mkEvent {
  event_id : EventId;
  event_source : EventSource;
  event_type : EventType;
  event_payload : Value;
  event_accepted_at : SystemTime
}.
Arguments mkEvent {_} _ _ _ _ _.

Definition Event_new `{SerdeJson} (v4 : Uuid) (now : SystemTime)
    (source event_type : str) (payload : Value) : result ValidationError Event :=
  source ← EventSource_parse source;
  event_type ← EventType_parse event_type;
  if is_null payload then Err VE_NullPayload
  else Ok {|
    event_id := EventId_new v4;
    event_source := source;
    event_type := event_type;
    event_payload := payload;
    event_accepted_at := now
  |}.

(** ** What validation guarantees *)

(** A label that can be stored and logged: not blank, bounded, without control characters. *)
Definition valid_label (max : Z) (value : str) : Prop :=
  Exists (λ c, is_whitespace c = false) value ∧
  chars_count value ≤ max ∧
  Forall (λ c, is_control c = false) value.

Definition valid_event `{SerdeJson} (e : Event) : Prop :=
  valid_label MAX_SOURCE_CHARS (EventSource_as_str (event_source e)) ∧
  valid_label MAX_EVENT_TYPE_CHARS (EventType_as_str (event_type e)) ∧
  event_payload e ≠ VNull.

Lemma existsb_false {A} (p : A → bool) l : existsb p l = false ↔ Forall (λ x, p x = false) l.
Proof.
  induction l as [|x l IH]; simpl; [done|]. rewrite orb_false_iff, IH, Forall_cons. done.
Qed.

Lemma existsb_true {A} (p : A → bool) l : existsb p l = true ↔ Exists (λ x, p x = true) l.
Proof.
  induction l as [|x l IH]; simpl; [by rewrite Exists_nil|].
  by rewrite orb_true_iff, IH, Exists_cons.
Qed.

Lemma is_empty_trim s :
  is_empty (trim s) = negb (existsb (λ c, negb (is_whitespace c)) s).
Proof.
  destruct (existsb _ s) eqn:E; simpl.
  - destruct (trim s) eqn:Ht; [|done]. apply trim_nil in Ht. exfalso.
    rewrite <-not_false_iff_true, existsb_false in E. apply E.
    eapply Forall_impl; [exact Ht|]. intros c ->. done.
  - apply existsb_false in E. assert (trim s = []) as ->; [|done]. apply trim_nil.
    eapply Forall_impl; [exact E|]. intros c. by apply negb_false_iff.
Qed.

Lemma existsb_nonblank s :
  existsb (λ c, negb (is_whitespace c)) s = true ↔ Exists (λ c, is_whitespace c = false) s.
Proof.
  rewrite existsb_true. split; intros H; (eapply Exists_impl; [exact H|]);
    intros c; by rewrite negb_true_iff.
Qed.

Lemma validate_label_ok field value max :
  validate_label field value max = Ok tt ↔ valid_label max value.
Proof.
  unfold validate_label, valid_label.
  rewrite is_empty_trim, <-existsb_nonblank, <-(existsb_false is_control).
  destruct (existsb _ value); simpl; [|intuition congruence].
  destruct (Z.ltb_spec max (chars_count value)); [intuition (congruence || lia)|].
  destruct (existsb is_control value); intuition congruence.
Qed.

(** [validate_label] decides, in this order, blankness, the length limit in
    characters and control characters: each result says exactly which of the
    three conditions hold, and the error names the field and the limit. *)
Theorem validate_label_spec field value max :
  match validate_label field value max with
  | Ok _ => valid_label max value
  | Err (VE_Empty f) => f = field ∧ Forall (λ c, is_whitespace c = true) value
  | Err (VE_TooLong f m) =>
      f = field ∧ m = max ∧ Exists (λ c, is_whitespace c = false) value ∧
      max < chars_count value
  | Err (VE_ControlCharacter f) =>
      f = field ∧ Exists (λ c, is_whitespace c = false) value ∧
      chars_count value ≤ max ∧ Exists (λ c, is_control c = true) value
  | Err VE_NullPayload => False
  end.
Proof.
  unfold validate_label. destruct (trim value) eqn:Ht; simpl; [by apply trim_nil in Ht|].
  assert (Exists (λ c, is_whitespace c = false) value) as Hne.
  { apply existsb_nonblank. apply negb_false_iff. by rewrite <-is_empty_trim, Ht. }
  destruct (Z.ltb_spec max (chars_count value)); [done|].
  destruct (existsb is_control value) eqn:E.
  - by apply existsb_true in E.
  - by apply existsb_false in E.
Qed.

Lemma EventSource_parse_ok value src :
  EventSource_parse value = Ok src ↔
  valid_label MAX_SOURCE_CHARS value ∧ src = mkEventSource value.
Proof.
  unfold EventSource_parse. rewrite <-(validate_label_ok (lit "source")).
  destruct (validate_label _ _ _) as [[]|]; simpl; intuition congruence.
Qed.

Lemma EventType_parse_ok value ty :
  EventType_parse value = Ok ty ↔
  valid_label MAX_EVENT_TYPE_CHARS value ∧ ty = mkEventType value.
Proof.
  unfold EventType_parse. rewrite <-(validate_label_ok (lit "event_type")).
  destruct (validate_label _ _ _) as [[]|]; simpl; intuition congruence.
Qed.

(** Parsing the text of a parsed label again changes nothing. *)
Lemma EventSource_parse_as_str src :
  valid_label MAX_SOURCE_CHARS (EventSource_as_str src) →
  EventSource_parse (EventSource_as_str src) = Ok src.
Proof. intros. apply EventSource_parse_ok. by destruct src. Qed.

Lemma EventType_parse_as_str ty :
  valid_label MAX_EVENT_TYPE_CHARS (EventType_as_str ty) →
  EventType_parse (EventType_as_str ty) = Ok ty.
Proof. intros. apply EventType_parse_ok. by destruct ty. Qed.

Lemma valid_label_ne max value : valid_label max value → 1 ≤ chars_count value ≤ max.
Proof.
  intros (Hw & Hl & _). split; [|done]. unfold chars_count.
  destruct value; [by apply Exists_nil in Hw|]. simpl; lia.
Qed.

Section event_facts.
Context `{SJ : SerdeJson}.

Lemma Event_new_ok v4 now source ty payload e :
  Event_new v4 now source ty payload = Ok e ↔
  valid_label MAX_SOURCE_CHARS source ∧ valid_label MAX_EVENT_TYPE_CHARS ty ∧
  payload ≠ VNull ∧
  e = mkEvent (mkEventId v4) (mkEventSource source) (mkEventType ty) payload now.
Proof.
  unfold Event_new.
  destruct (EventSource_parse source) as [src|] eqn:Es; simpl.
  2: { split; [done|]. intros (H & _).
       by rewrite (proj2 (EventSource_parse_ok source _) (conj H eq_refl)) in Es. }
  apply EventSource_parse_ok in Es as [Hs ->].
  destruct (EventType_parse ty) as [t|] eqn:Et; simpl.
  2: { split; [done|]. intros (_ & H & _).
       by rewrite (proj2 (EventType_parse_ok ty _) (conj H eq_refl)) in Et. }
  apply EventType_parse_ok in Et as [Ht ->].
  destruct payload; simpl; naive_solver.
Qed.

Lemma Event_new_valid v4 now source ty payload e :
  Event_new v4 now source ty payload = Ok e → valid_event e.
Proof. intros (? & ? & ? & ->)%Event_new_ok. done. Qed.
End event_facts.

(** C29. [Event::new] succeeds exactly when both labels are valid and the payload
    is not null, and then returns the fields unchanged under the drawn identity;
    when several fields are invalid the error is the one of the source, then of
    the event type, then of the payload. *)
Theorem Event_new_spec `{SerdeJson} v4 now source ty payload :
  match Event_new v4 now source ty payload with
  | Ok e =>
      valid_label MAX_SOURCE_CHARS source ∧ valid_label MAX_EVENT_TYPE_CHARS ty ∧
      payload ≠ VNull ∧
      e = mkEvent (mkEventId v4) (mkEventSource source) (mkEventType ty) payload now
  | Err err =>
      (¬ valid_label MAX_SOURCE_CHARS source ∧
       validate_label (lit "source") source MAX_SOURCE_CHARS = Err err) ∨
      (valid_label MAX_SOURCE_CHARS source ∧ ¬ valid_label MAX_EVENT_TYPE_CHARS ty ∧
       validate_label (lit "event_type") ty MAX_EVENT_TYPE_CHARS = Err err) ∨
      (valid_label MAX_SOURCE_CHARS source ∧ valid_label MAX_EVENT_TYPE_CHARS ty ∧
       payload = VNull ∧ err = VE_NullPayload)
  end.
Proof.
  destruct (Event_new _ _ _ _ _) as [e|err] eqn:E; [by apply Event_new_ok in E|].
  unfold Event_new, EventSource_parse, EventType_parse in E.
  rewrite <-(validate_label_ok (lit "source") source), <-(validate_label_ok (lit "event_type") ty).
  destruct (validate_label (lit "source") _ _) as [[]|]; simpl in E; [|naive_solver].
  destruct (validate_label (lit "event_type") _ _) as [[]|]; simpl in E; [|naive_solver].
  destruct payload; naive_solver.
Qed.

Lemma from_as_db_str s : from_db_str (as_db_str s) = Some s.
Proof. by destruct s. Qed.

(** The status column round-trips: every status reads back from the text it
    is stored as, no other text is accepted, and the API names are distinct. *)
Theorem status_roundtrip :
  (∀ s, from_db_str (as_db_str s) = Some s) ∧
  (∀ v s, from_db_str v = Some s → v = as_db_str s) ∧
  (∀ s t, as_api_str s = as_api_str t → s = t).
Proof.
  split; [apply from_as_db_str|]. split.
  - intros v s. unfold from_db_str. repeat case_bool_decide; naive_solver.
  - by intros [] [].
Qed.
