(* ===== verification/Idempotency.v ===== *)
(** * Idempotency keys and request fingerprints (pulsestream-core, idempotency.rs)

    The hash function is the parameter [Sha2]; a hasher is the list of bytes it
    was fed. *)

From S2P Require Import Prelude Text Json Crates Reference Event.

Definition MAX_IDEMPOTENCY_KEY_CHARS : Z := 128.
Definition FINGERPRINT_VERSION : bytes := lit "pulsestream.request-fingerprint.v1".

Inductive IdempotencyKeyError := IKE_Missing | IKE_Invalid.

#[global] Instance IdempotencyKeyError_eq_dec : EqDecision IdempotencyKeyError.
Proof. solve_decision. Defined.

(** ** Keys *)

Record IdempotencyKey := mkIdempotencyKey { IdempotencyKey_expose : str }.

Definition IdempotencyKey_parse (value : str) : result IdempotencyKeyError IdempotencyKey :=
  let valid :=
    negb (is_empty value) && (str_len value <=? MAX_IDEMPOTENCY_KEY_CHARS) &&
    forallb is_ascii_graphic (as_bytes value) in
  if valid then Ok (mkIdempotencyKey value) else Err IKE_Invalid.

(** [Debug] never shows the key. *)
Definition IdempotencyKey_debug (k : IdempotencyKey) : str := lit "IdempotencyKey(<redacted>)".

(** ** Canonical JSON *)

(** [String]'s order is the lexicographic order of the bytes. *)
Fixpoint bytes_leb (a b : bytes) : bool :=
  match a, b with
  | [], _ => true
  | _ :: _, [] => false
  | x :: a, y :: b => (x <? y) || ((x =? y) && bytes_leb a b)
  end.

Definition key_le {A} (x y : str * A) : Prop :=
  bytes_leb (as_bytes x.1) (as_bytes y.1) = true.

#[global] Instance key_le_dec {A} (x y : str * A) : Decision (key_le x y).
Proof. unfold key_le. apply _. Defined.

Section canonical.
Context `{SJ : SerdeJson, SW : !SerdeJsonWriter}.

Definition write_scalar (value : Value) (out : bytes) : bytes := out ++ to_writer value.

(** [for (i, item) in items.enumerate() { if i > 0 { out.push(b',') } ... }]. *)
Fixpoint write_each (i : nat) (writers : list (bytes → bytes)) (out : bytes) : bytes :=
  match writers with
  | [] => out
  | write :: writers =>
      let out := if (0 <? i)%nat then out ++ [44] else out in
      write_each (S i) writers (write out)
  end.

(** Each entry is paired with the write of its value before the entries are
    sorted by key; [write_canonical_object] states the equation in source order. *)
Fixpoint write_canonical (value : Value) (out : bytes) : bytes :=
  match value with
  | VObject entries =>
      let entries := merge_sort key_le ((λ e, (e.1, write_canonical e.2)) <$> entries) in
      let out := out ++ [123] in
      let out := write_each 0
        ((λ e out, e.2 (write_scalar (VString e.1) out ++ [58])) <$> entries) out in
      out ++ [125]
  | VArray items =>
      let out := out ++ [91] in
      let out := write_each 0 (write_canonical <$> items) out in
      out ++ [93]
  | scalar => write_scalar scalar out
  end.

(** ** Fingerprints *)

Context `{SH : Sha2}.

Record RequestFingerprint := mkRequestFingerprint { RequestFingerprint_as_bytes : bytes }.

#[global] Instance RequestFingerprint_eq_dec : EqDecision RequestFingerprint.
Proof. solve_decision. Defined.

(** [part.len() as u64] and [to_be_bytes]. *)
Definition len_be_bytes (part : bytes) : bytes :=
  to_be_bytes 8 (Z.of_nat (length part) mod 2 ^ 64).

Definition hasher_update (hasher part : bytes) : bytes := hasher ++ part.

(** What the hasher of [RequestFingerprint::compute] is fed. *)
Definition fingerprint_input (source : EventSource) (ty : EventType) (payload : Value) : bytes :=
  let hasher := foldl (λ hasher part,
      hasher_update (hasher_update hasher (len_be_bytes part)) part) []
    [FINGERPRINT_VERSION; as_bytes (EventSource_as_str source); as_bytes (EventType_as_str ty)] in
  let canonical := write_canonical payload [] in
  let hasher := hasher_update hasher (len_be_bytes canonical) in
  hasher_update hasher canonical.

Definition RequestFingerprint_compute (source : EventSource) (ty : EventType) (payload : Value)
    : RequestFingerprint :=
  mkRequestFingerprint (sha256 (fingerprint_input source ty payload)).

Definition RequestFingerprint_from_bytes (b : bytes) : RequestFingerprint :=
  mkRequestFingerprint b.
End canonical.

(** ** Facts on keys *)

Lemma forallb_Forall {A} (p : A → bool) l : forallb p l = true ↔ Forall (λ x, p x = true) l.
Proof.
  induction l as [|x l IH]; simpl; [done|]. by rewrite andb_true_iff, IH, Forall_cons.
Qed.

Definition valid_key (value : str) : Prop :=
  1 ≤ chars_count value ≤ MAX_IDEMPOTENCY_KEY_CHARS ∧
  Forall (λ c, 0x21 ≤ c ≤ 0x7E) value.

#[global] Instance valid_key_dec value : Decision (valid_key value).
Proof. unfold valid_key. apply _. Defined.

Lemma graphic_range s :
  Forall (λ c, is_ascii_graphic c = true) s ↔ Forall (λ c, 0x21 ≤ c ≤ 0x7E) s.
Proof.
  split; intros H; (eapply Forall_impl; [exact H|]); unfold is_ascii_graphic; simpl; lia.
Qed.

Lemma IdempotencyKey_parse_eq value :
  IdempotencyKey_parse value =
  if decide (valid_key value) then Ok (mkIdempotencyKey value) else Err IKE_Invalid.
Proof.
  unfold IdempotencyKey_parse, valid_key, MAX_IDEMPOTENCY_KEY_CHARS.
  destruct (forallb is_ascii_graphic (as_bytes value)) eqn:Hg.
  - apply forallb_Forall in Hg. rewrite as_bytes_graphic in Hg.
    unfold str_len. rewrite as_bytes_ascii by by apply graphic_ascii.
    apply graphic_range in Hg. unfold chars_count. rewrite andb_true_r.
    destruct value as [|c value]; [by rewrite decide_False by (simpl; lia)|].
    destruct (Z.leb_spec (Z.of_nat (length (c :: value))) 128).
    + rewrite decide_True by (simpl length in *; split; [lia|done]). done.
    + by rewrite decide_False by lia.
  - rewrite andb_false_r, decide_False; [done|]. intros [_ H].
    rewrite <-graphic_range, <-as_bytes_graphic, <-forallb_Forall in H. congruence.
Qed.

(** A key is accepted exactly when it has 1 to 128 characters, all visible
    ASCII (0x21 to 0x7E): the byte-wise checks of the code decide a property of
    the characters, and an accepted key is kept unchanged. *)
Theorem IdempotencyKey_parse_spec value :
  IdempotencyKey_parse value =
  if decide (valid_key value) then Ok (mkIdempotencyKey value) else Err IKE_Invalid.
Proof. apply IdempotencyKey_parse_eq. Qed.

(** ** Facts on the key order *)

Lemma bytes_leb_cons x a y b :
  bytes_leb (x :: a) (y :: b) = true ↔ x < y ∨ x = y ∧ bytes_leb a b = true.
Proof. simpl. by rewrite orb_true_iff, andb_true_iff, Z.ltb_lt, Z.eqb_eq. Qed.

Lemma bytes_leb_total a b : bytes_leb a b = true ∨ bytes_leb b a = true.
Proof.
  revert b; induction a as [|x a IH]; intros [|y b]; [by left..|by right|].
  rewrite !bytes_leb_cons. destruct (IH b), (Z.lt_total x y) as [?|[->|?]]; auto.
Qed.

Lemma bytes_leb_trans a b c :
  bytes_leb a b = true → bytes_leb b c = true → bytes_leb a c = true.
Proof.
  revert b c; induction a as [|x a IH]; intros [|y b] [|z c]; try done.
  rewrite !bytes_leb_cons. intros [?|[-> ?]] [?|[-> ?]]; eauto; left; lia.
Qed.

Lemma bytes_leb_antisym a b : bytes_leb a b = true → bytes_leb b a = true → a = b.
Proof.
  revert b; induction a as [|x a IH]; intros [|y b]; try done.
  rewrite !bytes_leb_cons. intros [?|[-> ?]] [?|[? ?]]; try lia. f_equal. by apply IH.
Qed.

#[global] Instance key_le_total {A} : Total (@key_le A).
Proof. intros x y. apply bytes_leb_total. Qed.

#[global] Instance key_le_trans {A} : Transitive (@key_le A).
Proof. intros x y z. apply bytes_leb_trans. Qed.

(** Entries with distinct keys have one sorted order. *)
Lemma sort_entries_unique {A} (l k : list (str * A)) :
  Forall (λ e, valid_str e.1) l → NoDup l.*1 → l ≡ₚ k →
  merge_sort key_le l = merge_sort key_le k.
Proof.
  intros Hv Hnd Hp. apply (Sorted_unique_strong key_le).
  - intros x y. rewrite !merge_sort_Permutation, <-Hp. intros Hx Hy Hxy Hyx.
    rewrite Forall_forall in Hv.
    assert (x.1 = y.1) as Hk.
    { apply as_bytes_inj; [by apply Hv..|]. by apply bytes_leb_antisym. }
    apply list_elem_of_lookup in Hx as [i Hi], Hy as [j Hj].
    assert (i = j) as ->; [|congruence].
    apply (NoDup_lookup l.*1 i j x.1); [done|..]; rewrite list_lookup_fmap, ?Hi, ?Hj;
      simpl; congruence.
  - apply (Sorted_merge_sort _ _).
  - apply (Sorted_merge_sort _ _).
  - by rewrite !merge_sort_Permutation.
Qed.

Lemma sort_entries_fmap {A B} (f : A → B) (l : list (str * A)) :
  merge_sort key_le ((λ e, (e.1, f e.2)) <$> l) =
  (λ e, (e.1, f e.2)) <$> merge_sort key_le l.
Proof. by apply (merge_sort_fmap key_le key_le (λ e, (e.1, f e.2))). Qed.

(** ** The canonical encoding *)

Section encoding.
Context `{SJ : SerdeJson, SW : !SerdeJsonWriter}.
Implicit Types (v w : Value).

(** Items separated by commas. *)
Fixpoint join_commas (items : list bytes) : bytes :=
  match items with
  | [] => []
  | [item] => item
  | item :: items => item ++ 44 :: join_commas items
  end.

(** The bytes of a canonical value, without the output buffer. *)
Fixpoint canon v : bytes :=
  match v with
  | VArray items => 91 :: join_commas (canon <$> items) ++ [93]
  | VObject entries =>
      123 :: join_commas ((λ e, to_writer (VString e.1) ++ 58 :: e.2) <$>
        merge_sort key_le ((λ e, (e.1, canon e.2)) <$> entries)) ++ [125]
  | scalar => to_writer scalar
  end.

Definition entry_bytes (e : str * Value) : bytes := to_writer (VString e.1) ++ 58 :: canon e.2.

Lemma canon_object entries :
  canon (VObject entries) =
  123 :: join_commas (entry_bytes <$> merge_sort key_le entries) ++ [125].
Proof.
  simpl. rewrite (sort_entries_fmap canon).
  by rewrite <-list_fmap_compose.
Qed.

(** A writer that appends the bytes [b] to its buffer. *)
Definition appends (write : bytes → bytes) (b : bytes) : Prop := ∀ out, write out = out ++ b.

Lemma write_each_appends writers bs out :
  Forall2 appends writers bs → write_each 0 writers out = out ++ join_commas bs.
Proof.
  assert (∀ i writers bs out, Forall2 appends writers bs →
    write_each (S i) writers out = out ++ concat ((λ b, 44 :: b) <$> bs)) as Htail.
  { clear. intros i writers bs out H. revert i out.
    induction H as [|write b writers bs Hw _ IH]; intros i out; simpl; [by rewrite app_nil_r|].
    rewrite IH, Hw. by rewrite <-!app_assoc. }
  intros H. destruct H as [|write b writers bs Hw H]; simpl; [by rewrite app_nil_r|].
  rewrite (Htail 0%nat _ bs) by done. rewrite Hw, <-app_assoc. f_equal.
  clear Hw H. revert b. induction bs as [|b' bs IH]; intros b; simpl; [by rewrite app_nil_r|].
  by rewrite IH.
Qed.

(** [write_canonical] only appends, and appends the canonical bytes. *)
Lemma write_canonical_canon v : appends (write_canonical v) (canon v).
Proof.
  induction v as [v Hv|l IH|l IH] using Value_nested_ind; intros out.
  - by destruct v.
  - simpl. rewrite (write_each_appends _ (canon <$> l)).
    + by rewrite <-!app_assoc.
    + by apply Forall2_fmap, Forall_Forall2_diag.
  - cbn [write_canonical canon]. rewrite (write_each_appends _ (
      (λ e, to_writer (VString e.1) ++ 58 :: e.2) <$>
        merge_sort key_le ((λ e, (e.1, canon e.2)) <$> l))).
    + by rewrite <-!app_assoc.
    + rewrite (sort_entries_fmap write_canonical), (sort_entries_fmap canon).
      rewrite <-!list_fmap_compose. apply Forall2_fmap, Forall_Forall2_diag.
      rewrite merge_sort_Permutation. eapply Forall_impl; [exact IH|].
      intros e He out'. simpl. rewrite He. unfold write_scalar. by rewrite <-!app_assoc.
Qed.

(** The object case in the order of the source: sort the entries by key, then
    write each key as a scalar and each value recursively. *)
Lemma write_canonical_object entries out :
  write_canonical (VObject entries) out =
  write_each 0 ((λ e out, write_canonical e.2 (write_scalar (VString e.1) out ++ [58])) <$>
    merge_sort key_le entries) (out ++ [123]) ++ [125].
Proof.
  cbn [write_canonical]. rewrite (sort_entries_fmap write_canonical).
  by rewrite <-list_fmap_compose.
Qed.

(** *** Unambiguity of comma-separated sequences *)

Lemma join_commas_tail b bs :
  join_commas (b :: bs) = b ++ concat ((λ b, 44 :: b) <$> bs).
Proof.
  revert b. induction bs as [|b' bs IH]; intros b; [simpl; by rewrite app_nil_r|].
  change (b ++ 44 :: join_commas (b' :: bs) = b ++ 44 :: b' ++ concat ((λ b, 44 :: b) <$> bs)).
  by rewrite IH.
Qed.

Section join_prefix.
Context {A : Type} (enc : A → bytes) (R : A → A → Prop) (close : Z).
Hypothesis close_delim : close ∈ [93; 125].

(** Reading [enc a] from a delimited text can only give an element related to [a]. *)
Definition unambiguous (l2 : list A) (a : A) : Prop :=
  ∀ b r1 r2, b ∈ l2 → delimited r1 → delimited r2 → enc a ++ r1 = enc b ++ r2 → R a b ∧ r1 = r2.

Definition opens (a : A) : Prop := ∃ c r, enc a = c :: r ∧ c ∉ [44; 58; 93; 125].

Lemma delimited_tail l r : delimited (concat ((λ b, 44 :: b) <$> (enc <$> l)) ++ close :: r).
Proof. destruct l; simpl; set_solver. Qed.

Lemma tail_prefix l1 l2 r1 r2 :
  Forall (unambiguous l2) l1 →
  concat ((λ b, 44 :: b) <$> (enc <$> l1)) ++ close :: r1 =
  concat ((λ b, 44 :: b) <$> (enc <$> l2)) ++ close :: r2 →
  Forall2 R l1 l2 ∧ r1 = r2.
Proof.
  intros Hl. revert l2 Hl. induction l1 as [|a l1 IH]; intros [|b l2] Hl Heq; simplify_list_eq.
  - done.
  - set_solver.
  - set_solver.
  - inversion_clear Hl as [|? ? Ha Hl1].
    apply Ha in Heq as [HR Heq]; [|set_solver|apply delimited_tail..].
    destruct (IH l2) as [HF ->]; [|done|by split; [constructor|]].
    eapply Forall_impl; [exact Hl1|]. intros x Hx y s1 s2 Hy. apply Hx. set_solver.
Qed.

Lemma join_prefix l1 l2 r1 r2 :
  Forall (unambiguous l2) l1 → Forall opens l1 → Forall opens l2 →
  join_commas (enc <$> l1) ++ close :: r1 = join_commas (enc <$> l2) ++ close :: r2 →
  Forall2 R l1 l2 ∧ r1 = r2.
Proof.
  destruct l1 as [|a l1], l2 as [|b l2]; intros Hl Ho1 Ho2 Heq.
  - simplify_list_eq. done.
  - apply Forall_cons in Ho2 as [(c & r & E & Hc) _]. rewrite fmap_cons, join_commas_tail, E in Heq.
    simplify_list_eq. set_solver.
  - apply Forall_cons in Ho1 as [(c & r & E & Hc) _]. rewrite fmap_cons, join_commas_tail, E in Heq.
    simplify_list_eq. set_solver.
  - rewrite !fmap_cons, !join_commas_tail, <-!app_assoc in Heq.
    apply Forall_cons in Hl as [Ha Hl].
    apply Ha in Heq as [HR Heq]; [|set_solver|apply delimited_tail..].
    apply tail_prefix in Heq as [HF ->]; [by split; [constructor|]|].
    eapply Forall_impl; [exact Hl|]. intros x Hx y s1 s2 Hy. apply Hx. set_solver.
Qed.
End join_prefix.

(** *** Soundness: equal canonical bytes mean equal payloads *)

Context {SL : SerdeJsonWriterLaws SW}.

Lemma canon_opens v : wf_value v → ∃ c r, canon v = c :: r ∧ c ∉ [44; 58; 93; 125].
Proof.
  intros Hv. destruct (is_scalar_value v) eqn:Hs.
  - destruct (to_writer_head v Hs Hv) as (c & r & E & Hc). exists c, r.
    split; [by destruct v|set_solver].
  - destruct v as [| | | |l|l]; try done; eexists _, _; (split; [done|set_solver]).
Qed.

Lemma canon_scalar v : is_scalar_value v = true → canon v = to_writer v.
Proof. by destruct v. Qed.

(** A scalar's text does not start like an array's or an object's. *)
Lemma canon_scalar_clash v c b r1 r2 :
  is_scalar_value v = true → wf_value v → c ∈ [91; 123] → canon v ++ r1 ≠ (c :: b) ++ r2.
Proof.
  intros Hs Hv Hc Heq. rewrite canon_scalar in Heq by done.
  destruct (to_writer_head v Hs Hv) as (d & r & E & Hd). rewrite E in Heq.
  simplify_list_eq. set_solver.
Qed.

(** The claim of [canon_prefix] for one value [v]. *)
Definition canon_reads (v : Value) : Prop := ∀ w r1 r2,
  wf_value v → wf_value w → delimited r1 → delimited r2 →
  canon v ++ r1 = canon w ++ r2 → value_equiv v w ∧ r1 = r2.

Lemma canon_reads_array l : Forall canon_reads l → canon_reads (VArray l).
Proof.
  intros IH w r1 r2 Hv Hw Hr1 Hr2 Heq.
  destruct (is_scalar_value w) eqn:Hsw.
  { exfalso. symmetry in Heq. eapply canon_scalar_clash; [done|done| |exact Heq]. set_solver. }
  destruct w as [| | | |k|k]; try done.
  simpl in Heq. rewrite <-!app_assoc in Heq. injection Heq as Heq. rewrite wf_array in Hv, Hw.
  apply (join_prefix canon value_equiv 93) in Heq as [HF ->];
    [split; [by apply equiv_array|done]|set_solver| | |].
  - rewrite Forall_forall in *. intros x Hx y s1 s2 Hy. apply IH; auto.
  - eapply Forall_impl; [exact Hv|]. apply canon_opens.
  - eapply Forall_impl; [exact Hw|]. apply canon_opens.
Qed.

Lemma entry_opens e : valid_str e.1 ∧ wf_value e.2 → opens entry_bytes e.
Proof.
  intros [Hk _]. destruct (to_writer_head (VString e.1)) as (c & r & E & Hc); [done|done|].
  unfold opens, entry_bytes. rewrite E. exists c, (r ++ 58 :: canon e.2). split; [done|set_solver].
Qed.

Lemma canon_reads_object l : Forall (λ e, canon_reads e.2) l → canon_reads (VObject l).
Proof.
  intros IH w r1 r2 Hv Hw Hr1 Hr2 Heq.
  destruct (is_scalar_value w) eqn:Hsw.
  { exfalso. symmetry in Heq. eapply canon_scalar_clash; [done|done| |exact Heq]. set_solver. }
  destruct w as [| | | |k|k]; try done.
  rewrite !canon_object in Heq. simpl in Heq. rewrite <-!app_assoc in Heq.
  injection Heq as Heq. rewrite wf_object in Hv, Hw. destruct Hv as [_ Hv], Hw as [_ Hw].
  rewrite <-(merge_sort_Permutation key_le l) in IH, Hv.
  rewrite <-(merge_sort_Permutation key_le k) in Hw.
  apply (join_prefix entry_bytes (λ a b, a.1 = b.1 ∧ value_equiv a.2 b.2) 125) in Heq as [HF ->];
    [split; [|done]|set_solver| | |].
  - by eapply equiv_object; [symmetry; apply (merge_sort_Permutation key_le)..|].
  - rewrite Forall_forall in *. intros x Hx y s1 s2 Hy Hs1 Hs2 Hxy.
    unfold entry_bytes in Hxy. rewrite <-!app_assoc in Hxy.
    destruct (Hv x Hx), (Hw y Hy).
    apply to_writer_prefix in Hxy as [Hk Hxy]; try done; [|simpl; set_solver..].
    injection Hk as Hk. injection Hxy as Hxy. apply IH in Hxy as [? ?]; auto.
  - eapply Forall_impl; [exact Hv|]. apply entry_opens.
  - eapply Forall_impl; [exact Hw|]. apply entry_opens.
Qed.

Lemma canon_prefix v : canon_reads v.
Proof.
  induction v as [v Hs|l IH|l IH] using Value_nested_ind.
  - intros w r1 r2 Hv Hw Hr1 Hr2 Heq. destruct (is_scalar_value w) eqn:Hsw.
    + rewrite !canon_scalar in Heq by done.
      apply to_writer_prefix in Heq as [-> ->]; try done. split; [by apply equiv_scalar|done].
    + exfalso. destruct w as [| | | |k|k]; try done;
        (eapply canon_scalar_clash; [exact Hs|exact Hv| |exact Heq]; set_solver).
  - by apply canon_reads_array.
  - by apply canon_reads_object.
Qed.

(** *** Completeness: equal payloads have equal canonical bytes *)

Lemma canon_equiv v w : wf_value v → wf_value w → value_equiv v w → canon v = canon w.
Proof.
  revert w. induction v as [v Hs|l IH|l IH] using Value_nested_ind; intros w Hv Hw He.
  - inversion He; by subst.
  - inversion He as [? ? |? k HF|]; subst; [done|].
    rewrite wf_array in Hv, Hw. simpl. do 3 f_equal.
    clear He. induction HF as [|x y l k Hxy HF IHF]; [done|].
    rewrite !Forall_cons in *. destruct_and?. simpl. f_equal; auto.
  - inversion He as [? ? | |? l' k k' Hl Hk HF]; subst; [done|].
    rewrite wf_object in Hv, Hw. destruct Hv as [Hnd Hv], Hw as [Hnd' Hw].
    simpl. do 4 f_equal.
    assert ((λ e, (e.1, canon e.2)) <$> l' = (λ e, (e.1, canon e.2)) <$> k') as Heq.
    { rewrite Hl in IH, Hv. rewrite Hk in Hw. clear -IH Hv Hw HF.
      induction HF as [|x y l k [Hk Hxy] HF IHF]; [done|].
      rewrite !Forall_cons in *. destruct_and?. simpl. rewrite Hk. f_equal; auto. f_equal; auto. }
    apply sort_entries_unique.
    + apply Forall_fmap. eapply Forall_impl; [exact Hv|]. by intros ? [].
    + by rewrite <-list_fmap_compose.
    + by rewrite Hl, Hk, Heq.
Qed.
End encoding.

(** C19. Two payloads have the same canonical bytes exactly when they are equal
    JSON values with objects read as maps: the order of object keys never
    matters, the order of array items, the values and the nesting always do. *)
Theorem canonical_iff {SJ : SerdeJson} {SW : SerdeJsonWriter} {SL : SerdeJsonWriterLaws SW} v w :
  wf_value v → wf_value w →
  write_canonical v [] = write_canonical w [] ↔ value_equiv v w.
Proof.
  intros Hv Hw. rewrite !write_canonical_canon. simpl. split.
  - intros E. apply (canon_prefix v w [] []); [done..|]. by rewrite !app_nil_r.
  - by apply canon_equiv.
Qed.

Definition sample_payload : Value :=
  VObject [(lit "a", VNumber (RInt 1)); (lit "b", VObject [(lit "x", VArray [VNumber (RInt 1); VNumber (RInt 2)]);
    (lit "y", VNull)])].

Definition sample_reordered : Value :=
  VObject [(lit "b", VObject [(lit "y", VNull); (lit "x", VArray [VNumber (RInt 1); VNumber (RInt 2)])]);
    (lit "a", VNumber (RInt 1))].

Lemma sample_wf : wf_value sample_payload ∧ wf_value sample_reordered.
Proof.
  assert (∀ s, bool_decide (valid_str s) = true → valid_str s) as Hv
    by (intros s; apply bool_decide_eq_true).
  split; simpl; (split; [by apply (bool_decide_unpack _)|]);
    repeat (split || apply Hv || by apply (bool_decide_unpack _)); done.
Defined.

(** The two objects of the unit test, whose keys are in different orders. *)
Lemma canonical_iff_witness :
  wf_value sample_payload ∧ wf_value sample_reordered ∧
  value_equiv sample_payload sample_reordered.
Proof.
  destruct sample_wf as [H1 H2]. split; [exact H1|]. split; [exact H2|].
  apply (canonical_iff sample_payload sample_reordered H1 H2). vm_compute. reflexivity.
Defined.

(** ** Facts on fingerprints *)

Section fingerprint_facts.
Context {SJ : SerdeJson} {SW : SerdeJsonWriter} {SL : SerdeJsonWriterLaws SW}.

Lemma fingerprint_input_eq source ty payload :
  fingerprint_input source ty payload =
  len_be_bytes FINGERPRINT_VERSION ++ FINGERPRINT_VERSION ++
  len_be_bytes (as_bytes (EventSource_as_str source)) ++ as_bytes (EventSource_as_str source) ++
  len_be_bytes (as_bytes (EventType_as_str ty)) ++ as_bytes (EventType_as_str ty) ++
  len_be_bytes (write_canonical payload []) ++ write_canonical payload [].
Proof.
  unfold fingerprint_input, hasher_update. cbn [foldl]. by rewrite <-!app_assoc.
Qed.

(** A length prefix makes a field self-delimiting when its length fits in 64 bits. *)
Lemma len_prefix_inj (a b r1 r2 : bytes) :
  Z.of_nat (length a) < 2 ^ 64 → Z.of_nat (length b) < 2 ^ 64 →
  len_be_bytes a ++ a ++ r1 = len_be_bytes b ++ b ++ r2 → a = b ∧ r1 = r2.
Proof.
  intros Ha Hb E. unfold len_be_bytes in E.
  apply app_inj_1 in E as [El E]; [|by rewrite !length_to_be_bytes].
  rewrite !Z.mod_small in El by lia.
  apply to_be_bytes_inj in El; [|change (256 ^ Z.of_nat 8) with (2 ^ 64); lia..].
  apply app_inj_1 in E; [done|lia].
Qed.

Lemma label_bytes_small max value :
  valid_label max value → max ≤ 150 → Z.of_nat (length (as_bytes value)) < 2 ^ 64.
Proof.
  intros H%valid_label_ne Hm. pose proof (str_len_bounds value). unfold str_len in *. lia.
Qed.

(** A request as the fingerprint sees it. *)
Definition wf_request (source : EventSource) (ty : EventType) (payload : Value) : Prop :=
  valid_str (EventSource_as_str source) ∧
  valid_label MAX_SOURCE_CHARS (EventSource_as_str source) ∧
  valid_str (EventType_as_str ty) ∧
  valid_label MAX_EVENT_TYPE_CHARS (EventType_as_str ty) ∧
  wf_value payload.

Lemma fingerprint_input_iff s t p s' t' p' :
  wf_request s t p → wf_request s' t' p' →
  fingerprint_input s t p = fingerprint_input s' t' p' ↔
  s = s' ∧ t = t' ∧ value_equiv p p'.
Proof.
  intros (Hs & Hsl & Ht & Htl & Hp) (Hs' & Hsl' & Ht' & Htl' & Hp').
  rewrite !fingerprint_input_eq, !write_canonical_canon, !app_nil_l. split.
  - intros E. apply app_inv_head, app_inv_head in E.
    apply len_prefix_inj in E as [Es E]; [|by eapply label_bytes_small..].
    apply len_prefix_inj in E as [Et E]; [|by eapply label_bytes_small..].
    apply as_bytes_inj in Es, Et; [|done..].
    apply app_inj_1 in E as [_ E]; [|unfold len_be_bytes; by rewrite !length_to_be_bytes].
    destruct s, s', t, t'; simpl in *. split_and!; [congruence..|].
    apply (canon_prefix p p' [] []); [done..|]. by rewrite !app_nil_r.
  - intros (-> & -> & E). by rewrite (canon_equiv p p').
Qed.
End fingerprint_facts.

(** C18. Two requests have the same fingerprint exactly when they have the same
    source, the same event type and equal payloads up to object key order,
    unless their two distinct encodings collide under SHA-256: the versioned,
    length-prefixed encoding itself is injective, field boundaries included. *)
Theorem fingerprint_iff {SJ : SerdeJson} {SW : SerdeJsonWriter} {SL : SerdeJsonWriterLaws SW} `{SH : Sha2}
    s t p s' t' p' :
  wf_request s t p → wf_request s' t' p' →
  RequestFingerprint_compute s t p = RequestFingerprint_compute s' t' p' ↔
  (s = s' ∧ t = t' ∧ value_equiv p p') ∨
  (fingerprint_input s t p ≠ fingerprint_input s' t' p' ∧
   sha256 (fingerprint_input s t p) = sha256 (fingerprint_input s' t' p')).
Proof.
  intros H H'. rewrite <-fingerprint_input_iff by done.
  unfold RequestFingerprint_compute. split.
  - intros [= E]. destruct (decide (fingerprint_input s t p = fingerprint_input s' t' p')); auto.
  - intros [E|[_ E]]; by rewrite E.
Qed.

Lemma sample_request :
  wf_request (mkEventSource (lit "s")) (mkEventType (lit "t")) sample_payload ∧
  wf_request (mkEventSource (lit "s")) (mkEventType (lit "t")) sample_reordered.
Proof.
  destruct sample_wf as [H1 H2].
  assert (valid_label MAX_SOURCE_CHARS (lit "s")) by (apply (validate_label_ok []); reflexivity).
  assert (valid_label MAX_EVENT_TYPE_CHARS (lit "t")) by (apply (validate_label_ok []); reflexivity).
  split; (split_and!; [by apply (bool_decide_unpack _)|done|by apply (bool_decide_unpack _)|done|
    first [exact H1|exact H2]]).
Defined.

Lemma sample_equiv : value_equiv sample_payload sample_reordered.
Proof.
  destruct sample_wf as [H1 H2].
  apply (canon_prefix sample_payload sample_reordered [] [] H1 H2 I I). vm_compute. reflexivity.
Defined.

Lemma fingerprint_iff_witness :
  RequestFingerprint_compute (mkEventSource (lit "s")) (mkEventType (lit "t")) sample_payload =
  RequestFingerprint_compute (mkEventSource (lit "s")) (mkEventType (lit "t")) sample_reordered.
Proof.
  destruct sample_request as [H1 H2].
  apply (fingerprint_iff _ _ _ _ _ _ H1 H2). left. split; [reflexivity|]. split; [reflexivity|].
  exact sample_equiv.
Defined.

(** The value the unit test pins, with SHA-256 computed in the kernel. *)
Definition pinned_fingerprint : bytes := [
  0x87; 0x05; 0x4a; 0xdc; 0xeb; 0x28; 0x13; 0xf7; 0x0c; 0xe6; 0x04; 0xe7; 0x05; 0xe6; 0xdc; 0x22;
  0xea; 0xd8; 0xb6; 0xe4; 0xdc; 0xf4; 0x51; 0x3d; 0xe5; 0xea; 0xfd; 0x3e; 0x3c; 0x16; 0xa7; 0x3a].

(** The encoding is the one whose fingerprint the repository pins: with the
    reference serializer and SHA-256, the request of the unit test
    [fingerprint_is_stable_across_releases] evaluates to the pinned bytes. *)
Example fingerprint_pinned :
  RequestFingerprint_as_bytes (RequestFingerprint_compute (mkEventSource (lit "orders-api"))
    (mkEventType (lit "order.created"))
    (VObject [(lit "order_id", VString (lit "12345"))])) = pinned_fingerprint.
Proof. vm_compute. reflexivity. Qed.
