(* ===== verification/Net.v ===== *)
(** * [std::net::SocketAddr] as text

    The parser of the standard library behind [str::parse::<SocketAddr>], as a
    function from the remaining bytes to a value and what is left of them. A
    reader that fails leaves the input where it was, as [read_atomically] does. *)

From S2P Require Import Prelude Text.

Inductive SocketAddr :=
| SocketAddrV4 (octets : list Z) (port : Z)
| SocketAddrV6 (segments : list Z) (port scope_id : Z).

#[global] Instance SocketAddr_eq_dec : EqDecision SocketAddr.
Proof. solve_decision. Defined.

Definition reader (A : Type) : Type := bytes → option (A * bytes).

(** [char::to_digit] for radix 10 and 16. *)
Definition to_digit_radix (radix : Z) (c : Z) : option Z :=
  let d :=
    if is_ascii_digit c then c - 48
    else if (97 <=? c) && (c <=? 122) then c - 87
    else if (65 <=? c) && (c <=? 90) then c - 55
    else radix in
  if d <? radix then Some d else None.

Definition read_given_char (target : Z) : reader unit := λ s,
  match s with c :: s => if c =? target then Some (tt, s) else None | [] => None end.

(** The separator is only read in front of the second and later items. *)
Definition read_separator {A} (sep : Z) (index : nat) (inner : reader A) : reader A := λ s,
  if (0 <? index)%nat then '(_, s) ← read_given_char sep s; inner s else inner s.

Fixpoint read_digits (radix : Z) (over : Z → nat → bool) (result : Z) (count : nat) (s : bytes)
    : option (Z * nat * bytes) :=
  match s with
  | [] => Some (result, count, [])
  | c :: s' =>
      match to_digit_radix radix c with
      | None => Some (result, count, s)
      | Some d =>
          let result := result * radix + d in
          let count := S count in
          if over result count then None else read_digits radix over result count s'
      end
  end.

(** [read_number] into a type whose largest value is [tmax]. *)
Definition read_number (radix : Z) (max_digits : option nat) (allow_zero_prefix : bool) (tmax : Z)
    : reader Z := λ s,
  let has_leading_zero := match s with c :: _ => c =? 48 | [] => false end in
  let over result count :=
    match max_digits with Some m => (m <? count)%nat | None => tmax <? result end in
  '(result, count, s) ← read_digits radix over 0 0 s;
  if (count =? 0)%nat then None
  else if negb allow_zero_prefix && has_leading_zero && (1 <? count)%nat then None
  else if result <=? tmax then Some (result, s) else None.

Definition read_ipv4_addr : reader (list Z) := λ s,
  let octet i := read_separator 46 i (read_number 10 (Some 3%nat) false 255) in
  '(a, s) ← octet 0%nat s;
  '(b, s) ← octet 1%nat s;
  '(c, s) ← octet 2%nat s;
  '(d, s) ← octet 3%nat s;
  Some ([a; b; c; d], s).

(** [read_groups]: up to [room] groups, the last two possibly an embedded IPv4 address. *)
Fixpoint read_groups (room i : nat) (s : bytes) : list Z * bool * bytes :=
  match room with
  | O => ([], false, s)
  | S room =>
      let ipv4 := if (0 <? room)%nat then read_separator 58 i read_ipv4_addr s else None in
      match ipv4 with
      | Some ([a; b; c; d], s) => ([a * 256 + b; c * 256 + d], true, s)
      | _ =>
          match read_separator 58 i (read_number 16 (Some 4%nat) true 65535) s with
          | Some (g, s) => let '(gs, v4, s) := read_groups room (S i) s in (g :: gs, v4, s)
          | None => ([], false, s)
          end
      end
  end.

Definition read_ipv6_addr : reader (list Z) := λ s,
  let '(head, head_ipv4, s) := read_groups 8 0 s in
  let head_size := length head in
  if (head_size =? 8)%nat then Some (head, s)
  else if head_ipv4 then None
  else
    '(_, s) ← read_given_char 58 s;
    '(_, s) ← read_given_char 58 s;
    let '(tail, _, s) := read_groups (8 - (head_size + 1)) 0 s in
    Some (head ++ replicate (8 - head_size - length tail) 0 ++ tail, s).

Definition read_port : reader Z := λ s,
  '(_, s) ← read_given_char 58 s; read_number 10 None true 65535 s.

Definition read_scope_id : reader Z := λ s,
  '(_, s) ← read_given_char 37 s; read_number 10 None true u32_max s.

Definition read_socket_addr_v4 : reader SocketAddr := λ s,
  '(ip, s) ← read_ipv4_addr s; '(port, s) ← read_port s; Some (SocketAddrV4 ip port, s).

Definition read_socket_addr_v6 : reader SocketAddr := λ s,
  '(_, s) ← read_given_char 91 s;
  '(ip, s) ← read_ipv6_addr s;
  let '(scope_id, s) := default (0, s) (read_scope_id s) in
  '(_, s) ← read_given_char 93 s;
  '(port, s) ← read_port s;
  Some (SocketAddrV6 ip port scope_id, s).

(** The whole input must be consumed. *)
Definition parse_socket_addr (s : str) : option SocketAddr :=
  let b := as_bytes s in
  let parsed := match read_socket_addr_v4 b with Some r => Some r | None => read_socket_addr_v6 b end in
  match parsed with Some (addr, []) => Some addr | _ => None end.

(** [Display] of an IPv4 socket address. *)
Definition socket_addr_v4_fmt (a b c d port : Z) : str :=
  decimal a ++ [46] ++ decimal b ++ [46] ++ decimal c ++ [46] ++ decimal d ++ [58] ++ decimal port.

(** [IpAddr::is_loopback]. *)
Definition is_loopback (addr : SocketAddr) : bool :=
  match addr with
  | SocketAddrV4 (a :: _) _ => a =? 127
  | SocketAddrV6 segments _ _ => bool_decide (segments = [0; 0; 0; 0; 0; 0; 0; 1])
  | _ => false
  end.

Example parse_v4 : parse_socket_addr (lit "127.0.0.1:8088") = Some (SocketAddrV4 [127; 0; 0; 1] 8088).
Proof. reflexivity. Qed.

Example parse_v6 :
  parse_socket_addr (lit "[fe80::1:192.0.2.33%3]:80") =
  Some (SocketAddrV6 [0xfe80; 0; 0; 0; 0; 1; 0xc000; 0x0221] 80 3).
Proof. reflexivity. Qed.

Example parse_not_addr :
  parse_socket_addr (lit "localhost") = None ∧ parse_socket_addr (lit "127.0.0.01:1") = None ∧
  parse_socket_addr (lit "127.0.0.1:65536") = None ∧ parse_socket_addr (lit "[::1]") = None ∧
  parse_socket_addr (lit "[::]:0") = Some (SocketAddrV6 [0; 0; 0; 0; 0; 0; 0; 0] 0 0).
Proof. repeat split. Qed.
