(* ===== verification/Config.v ===== *)
(** * Environment-based configuration (pulsestream-core, config.rs)

    Parsing takes a lookup function. [from_env] wraps [std::env::var], whose
    error tells an unset variable from one that is not Unicode. *)

From S2P Require Import Prelude Text Net Crates.

Definition API_BIND_VAR : str := lit "PULSESTREAM_API_BIND".
Definition DATABASE_URL_VAR : str := lit "DATABASE_URL".
Definition DB_MAX_CONNECTIONS_VAR : str := lit "PULSESTREAM_DB_MAX_CONNECTIONS".
Definition DB_ACQUIRE_TIMEOUT_MS_VAR : str := lit "PULSESTREAM_DB_ACQUIRE_TIMEOUT_MS".
Definition MIGRATE_ON_START_VAR : str := lit "PULSESTREAM_MIGRATE_ON_START".
Definition WORKER_CONCURRENCY_VAR : str := lit "PULSESTREAM_WORKER_CONCURRENCY".
Definition POLL_INTERVAL_MS_VAR : str := lit "PULSESTREAM_POLL_INTERVAL_MS".
Definition PROCESSING_LEASE_MS_VAR : str := lit "PULSESTREAM_PROCESSING_LEASE_MS".
Definition SHUTDOWN_TIMEOUT_MS_VAR : str := lit "PULSESTREAM_SHUTDOWN_TIMEOUT_MS".

Definition DEFAULT_API_BIND : str := lit "127.0.0.1:8088".

(** An inclusive range [start..=end]. *)
Definition DEFAULT_DB_MAX_CONNECTIONS : Z := 10.
Definition DB_MAX_CONNECTIONS_RANGE : Z * Z := (1, 50).
Definition DEFAULT_DB_ACQUIRE_TIMEOUT_MS : Z := 3000.
Definition DB_ACQUIRE_TIMEOUT_MS_RANGE : Z * Z := (100, 60000).
Definition DEFAULT_WORKER_CONCURRENCY : Z := 4.
Definition WORKER_CONCURRENCY_RANGE : Z * Z := (1, 64).
Definition DEFAULT_POLL_INTERVAL_MS : Z := 250.
Definition POLL_INTERVAL_MS_RANGE : Z * Z := (10, 60000).
Definition DEFAULT_PROCESSING_LEASE_MS : Z := 30000.
Definition PROCESSING_LEASE_MS_RANGE : Z * Z := (1000, 3600000).
Definition DEFAULT_SHUTDOWN_TIMEOUT_MS : Z := 10000.
Definition SHUTDOWN_TIMEOUT_MS_RANGE : Z * Z := (1, 300000).

Inductive ConfigError :=
| CE_Missing (var : str)
| CE_InvalidBindAddress (var value : str)
| CE_Empty (var : str)
| CE_UnsupportedDatabaseScheme (var : str)
| CE_MissingDatabaseHost (var : str)
| CE_OutOfRange (var value : str) (min max : Z)
| CE_InvalidBool (var value : str).

#[global] Instance ConfigError_eq_dec : EqDecision ConfigError.
Proof. solve_decision. Defined.

(** ** Database URLs *)

Record DatabaseUrl := mkDatabaseUrl { DatabaseUrl_expose : str }.

Definition DatabaseUrl_parse (value : str) : result ConfigError DatabaseUrl :=
  let var := DATABASE_URL_VAR in
  let value := trim value in
  if is_empty value then Err (CE_Empty var)
  else
    rest ← ok_or
      (match strip_prefix (lit "postgres://") value with
       | Some rest => Some rest
       | None => strip_prefix (lit "postgresql://") value
       end) (CE_UnsupportedDatabaseScheme var);
    let authority := next_or_default (split (λ c, (c =? 47) || (c =? 63)) rest) in
    let host := next_or_default (rsplit (λ c, c =? 64) authority) in
    if is_empty host || starts_with (lit ":") host then Err (CE_MissingDatabaseHost var)
    else Ok (mkDatabaseUrl value).

(** [Debug] never shows the URL. *)
Definition DatabaseUrl_debug (url : DatabaseUrl) : str := lit "DatabaseUrl(<redacted>)".

(** ** Single variables *)

Section lookup.
Variable lookup : str → option str.

Definition api_bind : result ConfigError SocketAddr :=
  let raw := default DEFAULT_API_BIND (lookup API_BIND_VAR) in
  ok_or (parse_socket_addr (trim raw)) (CE_InvalidBindAddress API_BIND_VAR raw).

Definition bounded_integer (var : str) (dflt : Z) (range : Z * Z) : result ConfigError Z :=
  match lookup var with
  | None => Ok dflt
  | Some raw =>
      let error := Err (CE_OutOfRange var raw range.1 range.2) in
      match parse_u64 (trim raw) with
      | Some value => if (range.1 <=? value) && (value <=? range.2) then Ok value else error
      | None => error
      end
  end.

(** [Duration::from_millis]. *)
Definition from_millis (ms : Z) : Duration := ms * 1000000.

Definition millis (var : str) (dflt : Z) (range : Z * Z) : result ConfigError Duration :=
  from_millis <$> bounded_integer var dflt range.

Definition boolean (var : str) (dflt : bool) : result ConfigError bool :=
  match trim <$> lookup var with
  | None => Ok dflt
  | Some value =>
      if bool_decide (value = lit "true") then Ok true
      else if bool_decide (value = lit "false") then Ok false
      else Err (CE_InvalidBool var value)
  end.

(** ** Configurations *)

Record DatabaseConfig := mkDatabaseConfig {
  url : DatabaseUrl;
  max_connections : Z;
  acquire_timeout : Duration;
  migrate_on_start : bool
}.

Definition DatabaseConfig_from_lookup : result ConfigError DatabaseConfig :=
  raw ← ok_or (lookup DATABASE_URL_VAR) (CE_Missing DATABASE_URL_VAR);
  url ← DatabaseUrl_parse raw;
  max_connections ← bounded_integer DB_MAX_CONNECTIONS_VAR DEFAULT_DB_MAX_CONNECTIONS
    DB_MAX_CONNECTIONS_RANGE;
  acquire_timeout ← millis DB_ACQUIRE_TIMEOUT_MS_VAR DEFAULT_DB_ACQUIRE_TIMEOUT_MS
    DB_ACQUIRE_TIMEOUT_MS_RANGE;
  migrate_on_start ← boolean MIGRATE_ON_START_VAR true;
  Ok (mkDatabaseConfig url (as_u32 max_connections) acquire_timeout migrate_on_start).

Definition DatabaseConfig_with_url (u : DatabaseUrl) : DatabaseConfig :=
  mkDatabaseConfig u DEFAULT_DB_MAX_CONNECTIONS (from_millis DEFAULT_DB_ACQUIRE_TIMEOUT_MS) true.

Record WorkerRuntimeConfig := mkWorkerRuntimeConfig {
  concurrency : Z;
  poll_interval : Duration;
  lease : Duration;
  shutdown_timeout : Duration
}.

#[global] Instance WorkerRuntimeConfig_eq_dec : EqDecision WorkerRuntimeConfig.
Proof. solve_decision. Defined.

Definition WorkerRuntimeConfig_from_lookup : result ConfigError WorkerRuntimeConfig :=
  concurrency ← bounded_integer WORKER_CONCURRENCY_VAR DEFAULT_WORKER_CONCURRENCY
    WORKER_CONCURRENCY_RANGE;
  poll_interval ← millis POLL_INTERVAL_MS_VAR DEFAULT_POLL_INTERVAL_MS POLL_INTERVAL_MS_RANGE;
  lease ← millis PROCESSING_LEASE_MS_VAR DEFAULT_PROCESSING_LEASE_MS PROCESSING_LEASE_MS_RANGE;
  shutdown_timeout ← millis SHUTDOWN_TIMEOUT_MS_VAR DEFAULT_SHUTDOWN_TIMEOUT_MS
    SHUTDOWN_TIMEOUT_MS_RANGE;
  Ok (mkWorkerRuntimeConfig (as_usize concurrency) poll_interval lease shutdown_timeout).

Definition WorkerRuntimeConfig_default : WorkerRuntimeConfig :=
  mkWorkerRuntimeConfig DEFAULT_WORKER_CONCURRENCY (from_millis DEFAULT_POLL_INTERVAL_MS)
    (from_millis DEFAULT_PROCESSING_LEASE_MS) (from_millis DEFAULT_SHUTDOWN_TIMEOUT_MS).

Record ApiConfig := mkApiConfig { bind : SocketAddr; api_database : DatabaseConfig }.

Definition ApiConfig_from_lookup : result ConfigError ApiConfig :=
  bind ← api_bind;
  database ← DatabaseConfig_from_lookup;
  Ok (mkApiConfig bind database).

Record WorkerConfig := mkWorkerConfig {
  worker_database : DatabaseConfig;
  worker_runtime : WorkerRuntimeConfig
}.

Definition WorkerConfig_from_lookup : result ConfigError WorkerConfig :=
  database ← DatabaseConfig_from_lookup;
  runtime ← WorkerRuntimeConfig_from_lookup;
  Ok (mkWorkerConfig database runtime).
End lookup.

(** ** The process environment *)

(** [std::env::VarError]. *)
Inductive VarError := NotPresent | NotUnicode.

(** [std::env::var] for each name. *)
Definition environment : Type := str → result VarError str.

Definition ApiConfig_from_env (env : environment) : result ConfigError ApiConfig :=
  ApiConfig_from_lookup (λ key, ok (env key)).

Definition WorkerConfig_from_env (env : environment) : result ConfigError WorkerConfig :=
  WorkerConfig_from_lookup (λ key, ok (env key)).

(** ** Facts on database URLs *)

Lemma strip_prefix_spec p s r : strip_prefix p s = Some r ↔ s = p ++ r.
Proof.
  revert s. induction p as [|c p IH]; intros s; simpl; [naive_solver|].
  destruct s as [|d s]; [naive_solver|]. destruct (Z.eqb_spec c d) as [->|].
  - rewrite IH. naive_solver.
  - naive_solver.
Qed.

Lemma starts_with_spec p s : starts_with p s = true ↔ ∃ r, s = p ++ r.
Proof.
  unfold starts_with. rewrite bool_decide_eq_true. unfold is_Some.
  by setoid_rewrite strip_prefix_spec.
Qed.

(** The host of [credentials@host:port/path?query]: between the last [@] of the
    authority and its end, the first [/] or [?]. *)
Definition url_host (rest host : str) : Prop := ∃ cred tail,
  rest = cred ++ host ++ tail ∧
  (cred = [] ∨ ∃ c, cred = c ++ [64]) ∧
  Forall (λ c, c ≠ 64) host ∧
  Forall (λ c, c ≠ 47 ∧ c ≠ 63) (cred ++ host) ∧
  (tail = [] ∨ ∃ c t, tail = c :: t ∧ (c = 47 ∨ c = 63)).

(** The two schemes the code accepts. *)
Definition url_rest (value rest : str) : Prop :=
  value = lit "postgres://" ++ rest ∨ value = lit "postgresql://" ++ rest.

Definition authority_end (c : char) : bool := (c =? 47) || (c =? 63).

Lemma authority_end_Forall s :
  Forall (λ c, c ≠ 47 ∧ c ≠ 63) s ↔ Forall (λ c, authority_end c = false) s.
Proof.
  split; intros H; (eapply Forall_impl; [exact H|]); unfold authority_end; simpl; lia.
Qed.

Lemma no_at_Forall s : Forall (λ c, c ≠ 64) s ↔ Forall (λ c, (c =? 64) = false) s.
Proof. split; intros H; (eapply Forall_impl; [exact H|]); simpl; lia. Qed.

Lemma split_authority a t :
  Forall (λ c, authority_end c = false) a →
  (t = [] ∨ ∃ c t', t = c :: t' ∧ (c = 47 ∨ c = 63)) →
  next_or_default (split authority_end (a ++ t)) = a.
Proof.
  intros Ha [->|(c & t' & -> & Hc)].
  - rewrite app_nil_r. by rewrite split_none.
  - rewrite split_sep by (unfold authority_end; lia). by rewrite split_none.
Qed.

Lemma rsplit_host cred host :
  Forall (λ c, (c =? 64) = false) host → (cred = [] ∨ ∃ c, cred = c ++ [64]) →
  next_or_default (rsplit (λ c, c =? 64) (cred ++ host)) = host.
Proof.
  intros Hh [->|(c & ->)]; unfold rsplit; simpl.
  - by rewrite split_none.
  - rewrite <-app_assoc. simpl. rewrite split_sep, (split_none _ host), reverse_app by done. done.
Qed.

(** The code computes the host. *)
Lemma url_host_computed rest host :
  url_host rest host ↔
  host = next_or_default (rsplit (λ c, c =? 64) (next_or_default (split authority_end rest))).
Proof.
  split.
  - intros (cred & tail & -> & Hc & Hh & Ha & Ht).
    rewrite authority_end_Forall in Ha. rewrite no_at_Forall in Hh.
    rewrite app_assoc, split_authority by done. by rewrite rsplit_host.
  - intros ->. set (auth := next_or_default (split authority_end rest)).
    assert (∃ tail, rest = auth ++ tail ∧ Forall (λ c, authority_end c = false) auth ∧
      (tail = [] ∨ ∃ c t, tail = c :: t ∧ (c = 47 ∨ c = 63))) as (tail & Hr & Ha & Ht).
    { destruct (split_first authority_end rest) as [[H E]|(c & b & E & Hc & H)]; fold auth in E.
      - exists []. rewrite app_nil_r, E. auto.
      - exists (c :: b). split; [done|]. split; [done|]. right. exists c, b.
        split; [done|]. unfold authority_end in Hc. lia. }
    clearbody auth. subst rest. rewrite <-authority_end_Forall in Ha.
    destruct (rsplit_first (λ c, c =? 64) auth) as [[H E]|(a & c & E & Hc & H)].
    + exists [], tail. rewrite E. rewrite no_at_Forall. auto.
    + apply Z.eqb_eq in Hc as ->. rewrite <-no_at_Forall in H.
      remember (next_or_default (rsplit (λ c, c =? 64) auth)) as host eqn:Eh. clear Eh. subst auth.
      exists (a ++ [64]), tail. rewrite <-!app_assoc in *. simpl in *. eauto 10.
Qed.

Lemma url_rest_computed value rest :
  url_rest value rest ↔
  match strip_prefix (lit "postgres://") value with
  | Some rest => Some rest
  | None => strip_prefix (lit "postgresql://") value
  end = Some rest.
Proof.
  unfold url_rest. rewrite <-!strip_prefix_spec.
  destruct (strip_prefix (lit "postgres://") value) as [r|] eqn:E; [|naive_solver].
  split; [|naive_solver]. intros [H|H]; [done|]. exfalso.
  rewrite strip_prefix_spec in E, H. rewrite E in H. by vm_compute in H.
Qed.

Definition good_host (host : str) : Prop := host ≠ [] ∧ ¬ ∃ port, host = 58 :: port.

Lemma good_host_computed host :
  is_empty host || starts_with (lit ":") host = false ↔ good_host host.
Proof.
  rewrite orb_false_iff, <-(not_true_iff_false (starts_with _ _)), starts_with_spec.
  apply and_iff_compat_r. by destruct host.
Qed.

Lemma DatabaseUrl_parse_unfold value :
  DatabaseUrl_parse value =
  if is_empty (trim value) then Err (CE_Empty DATABASE_URL_VAR)
  else match
    match strip_prefix (lit "postgres://") (trim value) with
    | Some rest => Some rest
    | None => strip_prefix (lit "postgresql://") (trim value)
    end with
  | None => Err (CE_UnsupportedDatabaseScheme DATABASE_URL_VAR)
  | Some rest =>
      let host := next_or_default (rsplit (λ c, c =? 64)
        (next_or_default (split authority_end rest))) in
      if is_empty host || starts_with (lit ":") host
      then Err (CE_MissingDatabaseHost DATABASE_URL_VAR) else Ok (mkDatabaseUrl (trim value))
  end.
Proof.
  unfold DatabaseUrl_parse. cbv zeta. destruct (is_empty (trim value)); [done|].
  by destruct (match strip_prefix (lit "postgres://") (trim value) with
    | Some rest => Some rest | None => strip_prefix (lit "postgresql://") (trim value) end).
Qed.

Lemma DatabaseUrl_parse_ok value u :
  DatabaseUrl_parse value = Ok u ↔
  u = mkDatabaseUrl (trim value) ∧
  ∃ rest host, url_rest (trim value) rest ∧ url_host rest host ∧ good_host host.
Proof.
  rewrite DatabaseUrl_parse_unfold. setoid_rewrite url_rest_computed.
  setoid_rewrite url_host_computed. setoid_rewrite <-good_host_computed.
  destruct (trim value) as [|c v] eqn:E; [naive_solver|]. cbn [is_empty]. cbv zeta.
  destruct (match strip_prefix _ _ with Some _ => _ | None => _ end) as [rest|]; [|naive_solver].
  set (host := next_or_default (rsplit _ _)).
  destruct (is_empty host || starts_with (lit ":") host) eqn:Hh; split.
  - done.
  - intros (_ & r & h & [= <-] & -> & H). fold host in H. congruence.
  - intros [= <-]. split; [done|]. by exists rest, host.
  - by intros [-> _].
Qed.

(** A database URL is accepted exactly when, after trimming, it has one of the
    two PostgreSQL schemes and a host that is neither empty nor only a port; the
    accepted value is the trimmed text, and each rejection names its one cause. *)
Theorem DatabaseUrl_parse_spec value :
  match DatabaseUrl_parse value with
  | Ok u => u = mkDatabaseUrl (trim value) ∧
      ∃ rest host, url_rest (trim value) rest ∧ url_host rest host ∧ good_host host
  | Err e =>
      (e = CE_Empty DATABASE_URL_VAR ∧ Forall (λ c, is_whitespace c = true) value) ∨
      (e = CE_UnsupportedDatabaseScheme DATABASE_URL_VAR ∧ trim value ≠ [] ∧
       ¬ ∃ rest, url_rest (trim value) rest) ∨
      (e = CE_MissingDatabaseHost DATABASE_URL_VAR ∧
       ∃ rest, url_rest (trim value) rest ∧ ¬ ∃ host, url_host rest host ∧ good_host host)
  end.
Proof.
  destruct (DatabaseUrl_parse value) as [u|e] eqn:E; [by apply DatabaseUrl_parse_ok in E|].
  rewrite DatabaseUrl_parse_unfold in E. setoid_rewrite url_rest_computed.
  setoid_rewrite url_host_computed. setoid_rewrite <-good_host_computed. rewrite <-trim_nil.
  destruct (trim value) as [|c v]; [left; naive_solver|right]. cbn [is_empty] in E. cbv zeta in E.
  destruct (match strip_prefix _ _ with Some _ => _ | None => _ end) as [rest|];
    [right|left; naive_solver].
  set (host := next_or_default (rsplit _ _)) in E.
  destruct (is_empty host || starts_with (lit ":") host) eqn:Hh; [|done]. split; [congruence|].
  exists rest. split; [done|]. intros (h & -> & H). fold host in H. congruence.
Qed.

(** ** Facts on the configuration *)

(** What the rest of the system relies on. *)
Definition wf_database_config (c : DatabaseConfig) : Prop :=
  1 ≤ max_connections c ≤ 50 ∧
  from_millis 100 ≤ acquire_timeout c ≤ from_millis 60000 ∧
  ∃ value, DatabaseUrl_parse value = Ok (url c).

Definition wf_runtime_config (c : WorkerRuntimeConfig) : Prop :=
  1 ≤ concurrency c ≤ 64 ∧
  from_millis 10 ≤ poll_interval c ≤ from_millis 60000 ∧
  from_millis 1000 ≤ lease c ≤ from_millis 3600000 ∧
  from_millis 1 ≤ shutdown_timeout c ≤ from_millis 300000.

Section config_facts.
Variable lookup : str → option str.

Lemma bounded_integer_ok var dflt range v :
  bounded_integer lookup var dflt range = Ok v ↔
  (lookup var = None ∧ v = dflt) ∨
  (∃ raw, lookup var = Some raw ∧ parse_u64 (trim raw) = Some v ∧ range.1 ≤ v ≤ range.2).
Proof.
  unfold bounded_integer. destruct (lookup var) as [raw|]; [|naive_solver].
  split.
  - destruct (parse_u64 (trim raw)) as [n|] eqn:Ep; [|done].
    destruct ((range.1 <=? n) && (n <=? range.2)) eqn:Hr; [|done]. intros [= <-].
    right. exists raw. split_and!; [done|done|lia..].
  - intros [[? _]|(r & [= <-] & -> & Hr)]; [done|].
    by rewrite (proj2 (andb_true_iff _ _) (conj (proj2 (Z.leb_le _ _) (proj1 Hr))
      (proj2 (Z.leb_le _ _) (proj2 Hr)))).
Qed.

Lemma bounded_integer_range var dflt range v :
  range.1 ≤ dflt ≤ range.2 → bounded_integer lookup var dflt range = Ok v →
  range.1 ≤ v ≤ range.2.
Proof. intros Hd [[_ ->]|(? & _ & _ & ?)]%bounded_integer_ok; done. Qed.

Lemma millis_range var dflt range v :
  range.1 ≤ dflt ≤ range.2 → millis lookup var dflt range = Ok v →
  from_millis range.1 ≤ v ≤ from_millis range.2.
Proof.
  intros Hd. unfold millis. destruct (bounded_integer _ _ _ _) as [n|] eqn:E; simpl; [|done].
  intros [= <-]. apply bounded_integer_range in E; [|done]. unfold from_millis. lia.
Qed.

Lemma DatabaseConfig_from_lookup_wf c :
  DatabaseConfig_from_lookup lookup = Ok c → wf_database_config c.
Proof.
  unfold DatabaseConfig_from_lookup. intros H. bind_inv.
  apply bounded_integer_range in E1; [|done]. apply millis_range in E2; [|done].
  unfold wf_database_config, as_u32. simpl in *. rewrite Z.mod_small by lia. eauto.
Qed.

Lemma WorkerRuntimeConfig_from_lookup_wf c :
  WorkerRuntimeConfig_from_lookup lookup = Ok c → wf_runtime_config c.
Proof.
  unfold WorkerRuntimeConfig_from_lookup. intros H. bind_inv.
  apply bounded_integer_range in E; [|done].
  apply millis_range in E0, E1, E2; [|done..].
  unfold wf_runtime_config, as_usize. simpl in *. rewrite Z.mod_small by lia. done.
Qed.
End config_facts.

(** C34. A configuration that parses is within the documented limits, whichever
    variables were set: between 1 and 50 connections (the cast to 32 bits loses
    nothing), between 1 and 64 concurrent events, so the worker's assertion on
    its concurrency holds, and every duration within its range. *)
Theorem worker_config_bounds lookup c :
  WorkerConfig_from_lookup lookup = Ok c →
  wf_database_config (worker_database c) ∧ wf_runtime_config (worker_runtime c).
Proof.
  unfold WorkerConfig_from_lookup. intros H. bind_inv.
  eauto using DatabaseConfig_from_lookup_wf, WorkerRuntimeConfig_from_lookup_wf.
Qed.

(** An environment given as a list of variables. *)
Fixpoint vars (l : list (str * str)) (key : str) : option str :=
  match l with
  | [] => None
  | (k, v) :: l => if bool_decide (k = key) then Some v else vars l key
  end.

Definition sample_url : str := lit "postgres://user:pw@127.0.0.1:55432/pulsestream".

Lemma worker_config_bounds_witness :
  ∃ c, WorkerConfig_from_lookup (vars [(DATABASE_URL_VAR, sample_url);
    (PROCESSING_LEASE_MS_VAR, lit " 1000 ")]) = Ok c ∧
  wf_database_config (worker_database c) ∧ wf_runtime_config (worker_runtime c).
Proof.
  eexists. split; [vm_compute; reflexivity|].
  apply (worker_config_bounds (vars [(DATABASE_URL_VAR, sample_url);
    (PROCESSING_LEASE_MS_VAR, lit " 1000 ")])).
  vm_compute. reflexivity.
Defined.

Lemma DatabaseUrl_parse_expose value u :
  DatabaseUrl_parse value = Ok u → DatabaseUrl_parse (DatabaseUrl_expose u) = Ok u.
Proof.
  rewrite !DatabaseUrl_parse_ok. intros [-> H]. simpl. rewrite trim_idemp. done.
Qed.

Lemma bounded_integer_decimal lookup var dflt range n :
  lookup var = Some (decimal n) → 0 ≤ range.1 ≤ n → n ≤ range.2 → range.2 ≤ u64_max →
  bounded_integer lookup var dflt range = Ok n.
Proof.
  intros Hl H1 H2 H3. apply bounded_integer_ok. right. exists (decimal n).
  split; [done|]. rewrite trim_decimal, parse_decimal by lia. split; [done|lia].
Qed.

Lemma millis_decimal lookup var dflt range n :
  lookup var = Some (decimal n) → 0 ≤ range.1 ≤ n → n ≤ range.2 → range.2 ≤ u64_max →
  millis lookup var dflt range = Ok (from_millis n).
Proof. intros. unfold millis. by rewrite (bounded_integer_decimal _ _ _ _ n). Qed.

(** The variables that spell out a worker configuration. *)
Definition render_worker (u : DatabaseUrl) (conns acquire : Z) (migrate : bool)
    (conc poll lease_ms shutdown : Z) : list (str * str) :=
  [(DATABASE_URL_VAR, DatabaseUrl_expose u);
   (DB_MAX_CONNECTIONS_VAR, decimal conns);
   (DB_ACQUIRE_TIMEOUT_MS_VAR, decimal acquire);
   (MIGRATE_ON_START_VAR, if migrate then lit "true" else lit "false");
   (WORKER_CONCURRENCY_VAR, decimal conc);
   (POLL_INTERVAL_MS_VAR, decimal poll);
   (PROCESSING_LEASE_MS_VAR, decimal lease_ms);
   (SHUTDOWN_TIMEOUT_MS_VAR, decimal shutdown)].

(** C35. Every configuration within the documented limits can be expressed: the
    variables that spell it out parse back to exactly that configuration. *)
Theorem worker_config_roundtrip value u conns acquire migrate conc poll lease_ms shutdown :
  DatabaseUrl_parse value = Ok u →
  1 ≤ conns ≤ 50 → 100 ≤ acquire ≤ 60000 → 1 ≤ conc ≤ 64 → 10 ≤ poll ≤ 60000 →
  1000 ≤ lease_ms ≤ 3600000 → 1 ≤ shutdown ≤ 300000 →
  WorkerConfig_from_lookup
    (vars (render_worker u conns acquire migrate conc poll lease_ms shutdown)) =
  Ok (mkWorkerConfig
    (mkDatabaseConfig u conns (from_millis acquire) migrate)
    (mkWorkerRuntimeConfig conc (from_millis poll) (from_millis lease_ms)
      (from_millis shutdown))).
Proof.
  intros Hu%DatabaseUrl_parse_expose ? ? ? ? ? ?.
  unfold WorkerConfig_from_lookup, DatabaseConfig_from_lookup, WorkerRuntimeConfig_from_lookup.
  set (env := vars _).
  assert (lookup_db : env DATABASE_URL_VAR = Some (DatabaseUrl_expose u)) by reflexivity.
  rewrite lookup_db. simpl ok_or. cbn [mbind result_bind]. rewrite Hu.
  rewrite (bounded_integer_decimal env DB_MAX_CONNECTIONS_VAR _ _ conns),
    (millis_decimal env DB_ACQUIRE_TIMEOUT_MS_VAR _ _ acquire),
    (bounded_integer_decimal env WORKER_CONCURRENCY_VAR _ _ conc),
    (millis_decimal env POLL_INTERVAL_MS_VAR _ _ poll),
    (millis_decimal env PROCESSING_LEASE_MS_VAR _ _ lease_ms),
    (millis_decimal env SHUTDOWN_TIMEOUT_MS_VAR _ _ shutdown);
    try reflexivity; try (simpl; unfold u64_max; lia).
  assert (boolean env MIGRATE_ON_START_VAR true = Ok migrate) as -> by by destruct migrate.
  cbn [mbind result_bind]. unfold as_u32, as_usize. rewrite !Z.mod_small by lia. done.
Qed.

Lemma worker_config_roundtrip_witness :
  is_ok (WorkerConfig_from_lookup (vars (render_worker (mkDatabaseUrl sample_url)
    50 100 false 1 60000 1000 300000))) = true.
Proof.
  rewrite (worker_config_roundtrip sample_url (mkDatabaseUrl sample_url)
    50 100 false 1 60000 1000 300000); [reflexivity|vm_compute; reflexivity|lia..].
Defined.

(** With only [DATABASE_URL] set, the worker runs with exactly the documented
    defaults and the API binds to the loopback interface. *)
Theorem unset_defaults lookup value u :
  lookup DATABASE_URL_VAR = Some value → DatabaseUrl_parse value = Ok u →
  (∀ var, var ≠ DATABASE_URL_VAR → lookup var = None) →
  WorkerConfig_from_lookup lookup =
    Ok (mkWorkerConfig (DatabaseConfig_with_url u) WorkerRuntimeConfig_default) ∧
  ∃ addr, ApiConfig_from_lookup lookup = Ok (mkApiConfig addr (DatabaseConfig_with_url u)) ∧
    is_loopback addr = true.
Proof.
  intros Hl Hu Hn.
  assert (DatabaseConfig_from_lookup lookup = Ok (DatabaseConfig_with_url u)) as Hdb.
  { unfold DatabaseConfig_from_lookup, millis, bounded_integer, boolean.
    rewrite Hl. cbn [ok_or mbind result_bind]. rewrite Hu, !Hn by (by intros ?).
    reflexivity. }
  unfold WorkerConfig_from_lookup, ApiConfig_from_lookup, WorkerRuntimeConfig_from_lookup,
    api_bind, millis, bounded_integer. rewrite Hdb, !Hn by (by intros ?).
  split; [reflexivity|]. by eexists.
Qed.

Lemma unset_defaults_witness :
  WorkerConfig_from_lookup (vars [(DATABASE_URL_VAR, sample_url)]) =
    Ok (mkWorkerConfig (DatabaseConfig_with_url (mkDatabaseUrl sample_url))
      WorkerRuntimeConfig_default).
Proof.
  apply (unset_defaults (vars [(DATABASE_URL_VAR, sample_url)]) sample_url);
    [reflexivity|vm_compute; reflexivity|].
  intros var Hvar. cbn [vars]. rewrite bool_decide_false by congruence. reflexivity.
Defined.

(** [from_env] discards the reason of a failed [std::env::var]: a variable that
    is set but not Unicode is treated as unset, so a worker whose concurrency
    variable is not Unicode starts with the default of 4 instead of stopping. *)
Theorem from_env_ignores_non_unicode env c :
  env WORKER_CONCURRENCY_VAR = Err NotUnicode → WorkerConfig_from_env env = Ok c →
  concurrency (worker_runtime c) = DEFAULT_WORKER_CONCURRENCY.
Proof.
  unfold WorkerConfig_from_env, WorkerConfig_from_lookup, WorkerRuntimeConfig_from_lookup.
  intros Hv H. bind_inv.
  match goal with Hb : bounded_integer _ WORKER_CONCURRENCY_VAR _ _ = Ok _ |- _ =>
    apply bounded_integer_ok in Hb as [[_ ->]|(raw & Hr & _)]; [done|by rewrite Hv in Hr] end.
Qed.

Definition non_unicode_env : environment := λ key,
  if bool_decide (key = DATABASE_URL_VAR) then Ok sample_url
  else if bool_decide (key = WORKER_CONCURRENCY_VAR) then Err NotUnicode
  else Err NotPresent.

Lemma from_env_ignores_non_unicode_witness :
  ∃ c, WorkerConfig_from_env non_unicode_env = Ok c ∧ concurrency (worker_runtime c) = 4.
Proof.
  eexists. split; [vm_compute; reflexivity|].
  apply (from_env_ignores_non_unicode non_unicode_env); vm_compute; reflexivity.
Defined.
