(* ===== verification/Process.v ===== *)
(** * Signals and logging (shutdown.rs and telemetry.rs of both processes)

    The two processes carry the same two files. [signal] is the future both pass to
    their main loop as the request to stop: it is polled again and again, and each
    poll sees the signals the operating system has delivered since the one before.
    [telemetry_init] decides the log filter from [RUST_LOG]. *)

From S2P Require Import Prelude Text Config.

(** ** shutdown.rs *)

Inductive OsSignal := SIGINT | SIGTERM.

#[global] Instance OsSignal_eq_dec : EqDecision OsSignal.
Proof. solve_decision. Defined.

(** One poll of [signal]: the signals delivered since the previous poll, and which
    branch of the select is polled first (the select is not biased). *)
Record Poll := mkPoll { poll_delivered : list OsSignal; poll_interrupt_first : bool }.

(** A future that waits for a signal. A listener that could not be installed has
    warned and waits for [std::future::pending] instead. *)
Definition listen (installed : result str unit) (s : OsSignal) (p : Poll) : option OsSignal :=
  match installed with
  | Ok _ => if bool_decide (s ∈ poll_delivered p) then Some s else None
  | Err _ => None
  end.

(** The futures [interrupt] and [terminate]; the second only listens on Unix. *)
Definition interrupt (ctrl_c : result str unit) (p : Poll) : option OsSignal :=
  listen ctrl_c SIGINT p.
Definition terminate (unix : bool) (sigterm : result str unit) (p : Poll) : option OsSignal :=
  if unix then listen sigterm SIGTERM p else None.

(** [tokio::select!] over both, polled until one of them is ready; what is left of
    the polls is returned with the answer. *)
Fixpoint signal (unix : bool) (ctrl_c sigterm : result str unit) (polls : list Poll)
    : option (OsSignal * list Poll) :=
  match polls with
  | [] => None
  | p :: polls =>
      let i := interrupt ctrl_c p in
      let t := terminate unix sigterm p in
      match (if poll_interrupt_first p then union i t else union t i) with
      | Some s => Some (s, polls)
      | None => signal unix ctrl_c sigterm polls
      end
  end.

(** The copy in pulsestream-worker. *)
Definition worker_signal := signal.

(** ** telemetry.rs *)

(** The filters of [tracing_subscriber]: parsing that may fail, and parsing that
    ignores what it does not understand. *)
Class EnvFilterCrate := {
  EnvFilter : Type;
  EnvFilter_try_new : str → result str EnvFilter;
  EnvFilter_new : str → EnvFilter
}.

Definition DEFAULT_FILTER : str := lit "info".

(** [EnvFilter::DEFAULT_ENV]. *)
Definition RUST_LOG : str := lit "RUST_LOG".

Record Subscriber `{EnvFilterCrate} := mkSubscriber { sub_filter : EnvFilter; sub_ansi : bool }.
Arguments mkSubscriber {_} _ _.

(** The subscriber that is installed, and the error that is then logged, if any. *)
Definition telemetry_init `{EnvFilterCrate} (env : environment) (terminal : bool)
    : Subscriber * option str :=
  let '(filter, invalid) :=
    match env RUST_LOG with
    | Ok raw =>
        match EnvFilter_try_new raw with
        | Ok filter => (filter, None)
        | Err err => (EnvFilter_new DEFAULT_FILTER, Some err)
        end
    | Err _ => (EnvFilter_new DEFAULT_FILTER, None)
    end in
  (mkSubscriber filter terminal, invalid).

(** The copy in pulsestream-worker. *)
Definition worker_telemetry_init `{EnvFilterCrate} := telemetry_init.

(** ** Facts *)

(** The signals [signal] reacts to. *)
Definition listened (unix : bool) (ctrl_c sigterm : result str unit) (s : OsSignal) : bool :=
  match s with SIGINT => is_ok ctrl_c | SIGTERM => unix && is_ok sigterm end.

(** Does a poll deliver a signal that is listened to? *)
Definition wakes (unix : bool) (ctrl_c sigterm : result str unit) (p : Poll) (s : OsSignal) : Prop :=
  s ∈ poll_delivered p ∧ listened unix ctrl_c sigterm s = true.

(** The signal a poll prefers when it has both. *)
Definition preferred (p : Poll) : OsSignal := if poll_interrupt_first p then SIGINT else SIGTERM.

Lemma select_poll unix ctrl_c sigterm p :
  let i := interrupt ctrl_c p in
  let t := terminate unix sigterm p in
  match (if poll_interrupt_first p then union i t else union t i) with
  | Some s => wakes unix ctrl_c sigterm p s ∧
      (wakes unix ctrl_c sigterm p (preferred p) → s = preferred p)
  | None => ∀ s, ¬ wakes unix ctrl_c sigterm p s
  end.
Proof.
  unfold interrupt, terminate, listen, wakes, preferred.
  destruct ctrl_c, sigterm, unix, (poll_interrupt_first p);
    repeat case_bool_decide; simpl; try intros []; naive_solver.
Qed.

(** C33. The shutdown future resolves with exactly the first signal that is listened
    to: all earlier polls delivered none, and if the poll that ends it delivers
    both, the branch the select polled first wins. SIGTERM counts on Unix only. As
    long as no such signal is delivered it stays pending; in particular a process
    whose listeners both failed is never asked to stop. *)
Theorem signal_spec unix ctrl_c sigterm polls :
  match signal unix ctrl_c sigterm polls with
  | Some (s, rest) => ∃ before p, polls = before ++ p :: rest ∧
      (∀ q s', q ∈ before → ¬ wakes unix ctrl_c sigterm q s') ∧
      wakes unix ctrl_c sigterm p s ∧
      (wakes unix ctrl_c sigterm p (preferred p) → s = preferred p)
  | None => ∀ p s, p ∈ polls → ¬ wakes unix ctrl_c sigterm p s
  end.
Proof.
  induction polls as [|p polls IH]; [by intros p s ?%not_elem_of_nil|]. cbn [signal].
  pose proof (select_poll unix ctrl_c sigterm p) as Hp. simpl in Hp.
  destruct (if poll_interrupt_first p then _ else _) as [s|].
  - exists [], p. split_and!; [done|by intros q s' ?%not_elem_of_nil|apply Hp..].
  - destruct (signal _ _ _ _) as [[s rest]|].
    + destruct IH as (before & q & -> & Hb & Hq). exists (p :: before), q.
      split_and!; [done| |apply Hq..]. intros q' s' [->|Hin]%elem_of_cons; [apply Hp|by apply Hb].
    + intros q s [->|Hin]%elem_of_cons; [apply Hp|by apply IH].
Qed.

(** An error is logged exactly when [RUST_LOG] holds text that does not parse. *)
Lemma telemetry_reports `{EnvFilterCrate} env terminal err :
  (telemetry_init env terminal).2 = Some err ↔
  ∃ raw, env RUST_LOG = Ok raw ∧ EnvFilter_try_new raw = Err err.
Proof.
  unfold telemetry_init.
  destruct (env RUST_LOG) as [raw|]; [destruct (EnvFilter_try_new raw) eqn:E|]; simpl;
    (split; [intros [= <-]; by eauto|intros (? & ? & ?); congruence]).
Qed.

(** So a value that is not Unicode becomes the default without a report. *)
Lemma telemetry_drops_non_unicode `{EnvFilterCrate} env terminal :
  env RUST_LOG = Err NotUnicode →
  telemetry_init env terminal = (mkSubscriber (EnvFilter_new DEFAULT_FILTER) terminal, None).
Proof. intros E. unfold telemetry_init. by rewrite E. Qed.
