(* ===== verification/Outage.v ===== *)
(** * The outage proxy (testing.rs of pulsestream-store)

    A TCP proxy that tests put in front of PostgreSQL. Three threads of control
    share it: the accept loop, one task per connection, and the test that calls
    [go_down] and [come_up]. The steps below are their atomic actions: the accept
    loop reads the flag and then subscribes to the outage channel, and [go_down]
    clears the flag and then bumps the channel. *)

From S2P Require Import Prelude Text.

(** ** State *)

Inductive ConnPhase := CP_connecting | CP_open | CP_closed.

#[global] Instance ConnPhase_eq_dec : EqDecision ConnPhase.
Proof. solve_decision. Defined.

(** The task of a connection: the generation its receiver has seen, and whether it
    is connecting to the server, copying bytes, or has dropped both sockets. *)
Record Conn := mkConn { conn_seen : Z; conn_phase : ConnPhase }.

(** The accept loop: waiting for a client, between its check of the flag and its
    subscription, or ended by an error of the listener. *)
Inductive AcceptPc := AL_wait | AL_subscribe | AL_ended.

#[global] Instance AcceptPc_eq_dec : EqDecision AcceptPc.
Proof. solve_decision. Defined.

(** [proxy_lowering]: the test is inside [go_down], before [send_modify]. *)
Record OutageProxy := mkOutageProxy {
  proxy_up : bool;
  proxy_generation : Z;
  proxy_lowering : bool;
  proxy_accept : AcceptPc;
  proxy_conns : list Conn
}.
Implicit Types (p : OutageProxy) (c : Conn).

(** [OutageProxy::start]. *)
Definition proxy_start : OutageProxy := mkOutageProxy true 0 false AL_wait [].

(** ** Atomic actions *)

(** [self.up.store(false)], [self.generation.send_modify(|g| *g += 1)],
    [self.up.store(true)]. *)
Definition lower_flag p : OutageProxy :=
  mkOutageProxy false (proxy_generation p) true (proxy_accept p) (proxy_conns p).
Definition bump p : OutageProxy :=
  mkOutageProxy (proxy_up p) (proxy_generation p + 1) false (proxy_accept p) (proxy_conns p).

Definition go_down p : OutageProxy := bump (lower_flag p).
Definition come_up p : OutageProxy :=
  mkOutageProxy true (proxy_generation p) (proxy_lowering p) (proxy_accept p) (proxy_conns p).

(** A client was accepted: [continue] drops it while the flag is down. *)
Definition accept_client p : OutageProxy :=
  mkOutageProxy (proxy_up p) (proxy_generation p) (proxy_lowering p)
    (if proxy_up p then AL_subscribe else AL_wait) (proxy_conns p).

(** [accept_generation.subscribe()], which has seen what was sent before, and the
    spawned task. *)
Definition subscribe p : OutageProxy :=
  mkOutageProxy (proxy_up p) (proxy_generation p) (proxy_lowering p) AL_wait
    (proxy_conns p ++ [mkConn (proxy_generation p) CP_connecting]).

Definition end_accept p : OutageProxy :=
  mkOutageProxy (proxy_up p) (proxy_generation p) (proxy_lowering p) AL_ended (proxy_conns p).

Definition set_conn (i : nat) (phase : ConnPhase) p : OutageProxy :=
  mkOutageProxy (proxy_up p) (proxy_generation p) (proxy_lowering p) (proxy_accept p)
    (alter (λ c, mkConn (conn_seen c) phase) i (proxy_conns p)).

(** [outage.changed()] is ready. *)
Definition outage_seen p c : bool := conn_seen c <? proxy_generation p.

Inductive ProxyAction :=
| PA_accept
| PA_accept_error
| PA_subscribe
| PA_connected (i : nat) (ok : bool)
| PA_copied (i : nat)
| PA_outage (i : nat)
| PA_lower
| PA_bump
| PA_come_up.

(** One action; [None] when it is not enabled. The test runs one call at a time. *)
Definition proxy_step (a : ProxyAction) p : option OutageProxy :=
  match a with
  | PA_accept => if bool_decide (proxy_accept p = AL_wait) then Some (accept_client p) else None
  | PA_accept_error => if bool_decide (proxy_accept p = AL_wait) then Some (end_accept p) else None
  | PA_subscribe => if bool_decide (proxy_accept p = AL_subscribe) then Some (subscribe p) else None
  | PA_connected i ok =>
      c ← proxy_conns p !! i;
      if bool_decide (conn_phase c = CP_connecting)
      then Some (set_conn i (if ok then CP_open else CP_closed) p) else None
  | PA_copied i =>
      c ← proxy_conns p !! i;
      if bool_decide (conn_phase c = CP_open) then Some (set_conn i CP_closed p) else None
  | PA_outage i =>
      c ← proxy_conns p !! i;
      if bool_decide (conn_phase c = CP_open) && outage_seen p c
      then Some (set_conn i CP_closed p) else None
  | PA_lower => if proxy_lowering p then None else Some (lower_flag p)
  | PA_bump => if proxy_lowering p then Some (bump p) else None
  | PA_come_up => if proxy_lowering p then None else Some (come_up p)
  end.

Fixpoint proxy_run (l : list ProxyAction) p : option OutageProxy :=
  match l with
  | [] => Some p
  | a :: l => p' ← proxy_step a p; proxy_run l p'
  end.

(** ** An outage *)

Definition conn_live c : bool := negb (bool_decide (conn_phase c = CP_closed)).

(** The outage is complete: the flag is down, no accept is past its check of the
    flag, and every connection that is not closed will see the change. *)
Record in_outage p : Prop := {
  io_up : proxy_up p = false;
  io_accept : proxy_accept p ≠ AL_subscribe;
  io_conns : Forall (λ c, conn_live c = true → outage_seen p c = true) (proxy_conns p)
}.

(** What is left to do until every connection is closed. *)
Definition conn_work c : nat :=
  match conn_phase c with CP_connecting => 2 | CP_open => 1 | CP_closed => 0 end.
Definition proxy_work p : nat := sum_list_with conn_work (proxy_conns p).

(** No receiver is ahead of the channel. *)
Definition seen_bounded p : Prop := Forall (λ c, conn_seen c ≤ proxy_generation p) (proxy_conns p).

(** The steps of connections. *)
Definition conn_action (a : ProxyAction) : bool :=
  match a with PA_connected _ _ | PA_copied _ | PA_outage _ => true | _ => false end.

Lemma set_conn_forall (P : Conn → Prop) i phase p :
  Forall P (proxy_conns p) →
  (∀ c, proxy_conns p !! i = Some c → P c → P (mkConn (conn_seen c) phase)) →
  Forall P (proxy_conns (set_conn i phase p)).
Proof.
  intros HP Hi. apply Forall_lookup. intros j c. simpl. rewrite Forall_lookup in HP.
  destruct (decide (i = j)) as [<-|]; [|rewrite list_lookup_alter_ne by done; by apply HP].
  rewrite list_lookup_alter_eq. destruct (proxy_conns p !! i) eqn:E; naive_solver.
Qed.

(** The cases of a step of a connection. *)
Lemma conn_step_inv a p p' :
  conn_action a = true → proxy_step a p = Some p' →
  ∃ i c phase, proxy_conns p !! i = Some c ∧ p' = set_conn i phase p ∧
    ((conn_phase c = CP_connecting ∧ phase ≠ CP_connecting) ∨
     (conn_phase c = CP_open ∧ phase = CP_closed)).
Proof.
  intros Ha Hs. destruct a as [| | |i ok|i|i| | |]; try done; simpl in Hs;
    destruct (proxy_conns p !! i) as [c|] eqn:Hi; simplify_eq/=; case_bool_decide; simplify_eq/=.
  - exists i, c, (if ok then CP_open else CP_closed). split_and!; [done..|]. left. by destruct ok.
  - exists i, c, CP_closed. by split_and!; [..|right].
  - destruct (outage_seen p c); simplify_eq. exists i, c, CP_closed. by split_and!; [..|right].
Qed.

Lemma set_conn_work i c phase p :
  proxy_conns p !! i = Some c → (conn_work (mkConn (conn_seen c) phase) < conn_work c)%nat →
  (proxy_work (set_conn i phase p) < proxy_work p)%nat.
Proof.
  intros Hi Hlt. unfold proxy_work. simpl. revert i Hi.
  induction (proxy_conns p) as [|d l IH]; intros [|i] Hi; simplify_eq/=; [|specialize (IH i Hi)];
    unfold conn_work in *; simpl in *; lia.
Qed.

Lemma proxy_step_seen a p p' : seen_bounded p → proxy_step a p = Some p' → seen_bounded p'.
Proof.
  unfold seen_bounded. intros Hs Hstep. destruct (conn_action a) eqn:Ha.
  - destruct (conn_step_inv _ _ _ Ha Hstep) as (i & c & phase & Hi & -> & _).
    by apply (set_conn_forall (λ c, conn_seen c ≤ proxy_generation p)).
  - destruct a; simplify_eq/=; try case_bool_decide; try case_match; simplify_eq/=; try done.
    + apply Forall_app. split; [done|]. by repeat constructor.
    + eapply Forall_impl; [done|]. simpl. lia.
Qed.

Lemma proxy_run_seen l p p' : seen_bounded p → proxy_run l p = Some p' → seen_bounded p'.
Proof.
  revert p. induction l as [|a l IH]; intros p Hs Hr; simplify_eq/=; [done|].
  destruct (proxy_step a p) as [q|] eqn:E; simplify_eq/=. eauto using proxy_step_seen.
Qed.

(** An outage lasts until the proxy comes up, and steps of connections use up the work. *)
Lemma in_outage_step a p p' :
  in_outage p → a ≠ PA_come_up → proxy_step a p = Some p' →
  in_outage p' ∧ length (proxy_conns p') = length (proxy_conns p) ∧
  (proxy_work p' + (if conn_action a then 1 else 0) ≤ proxy_work p)%nat.
Proof.
  intros [Hu Ha Hc] Hne Hs. destruct (conn_action a) eqn:Hca.
  - destruct (conn_step_inv _ _ _ Hca Hs) as (i & c & phase & Hi & -> & Hph).
    split_and!; [split; try done| |].
    + apply (set_conn_forall (λ c, conn_live c = true → outage_seen p c = true)); [done|].
      intros d Hd Hlv Hlive. simplify_eq. apply Hlv. unfold conn_live in *. case_bool_decide; [|done].
      destruct Hph as [[E _]|[E _]]; congruence.
    + by apply length_alter.
    + pose proof (set_conn_work i c phase p Hi) as Hw. unfold conn_work in Hw. simpl in Hw.
      destruct Hph as [[E Hp]|[E ->]]; rewrite E in Hw;
        [destruct phase; [done|specialize (Hw ltac:(lia))..]|specialize (Hw ltac:(lia))]; lia.
  - destruct a; simplify_eq/=; try case_bool_decide; try case_match; simplify_eq/=;
      (split_and!; [|done|unfold proxy_work; simpl; lia]); split; try done; simpl; try by rewrite Hu.
    eapply Forall_impl; [done|]. intros c Hlv Hlive. specialize (Hlv Hlive).
    unfold outage_seen in *. simpl. lia.
Qed.

Lemma in_outage_run l p p' :
  in_outage p → PA_come_up ∉ l → proxy_run l p = Some p' →
  in_outage p' ∧ length (proxy_conns p') = length (proxy_conns p) ∧
  (proxy_work p' + length (filter (λ a, conn_action a = true) l) ≤ proxy_work p)%nat.
Proof.
  revert p. induction l as [|a l IH]; intros p Ho Hn Hr; simplify_eq/=; [by split_and!; [..|lia]|].
  apply not_elem_of_cons in Hn as [Hne Hn].
  destruct (proxy_step a p) as [q|] eqn:E; simplify_eq/=.
  destruct (in_outage_step a p q Ho) as (Hq & Hlen & Hw); [congruence|done|].
  destruct (IH q Hq Hn Hr) as (Hp' & Hlen' & Hw'). split_and!; [done|congruence|].
  rewrite filter_cons. destruct (conn_action a); simpl; lia.
Qed.

(** While a connection is left, one of its steps is enabled. *)
Lemma in_outage_progress p :
  in_outage p → proxy_work p ≠ 0%nat → ∃ a, conn_action a = true ∧ is_Some (proxy_step a p).
Proof.
  intros [_ _ Hc] Hw.
  assert (∃ i c, proxy_conns p !! i = Some c ∧ conn_live c = true) as (i & c & Hi & Hl).
  { unfold proxy_work in Hw. clear Hc. induction (proxy_conns p) as [|d l IH]; simpl in Hw; [done|].
    destruct (conn_live d) eqn:Hd; [by exists 0%nat, d|].
    destruct IH as (i & c & ? & ?); [|by exists (S i), c].
    unfold conn_live in Hd. case_bool_decide as E; [|done]. unfold conn_work in Hw at 1. by rewrite E in Hw. }
  rewrite Forall_lookup in Hc. specialize (Hc i c Hi Hl).
  unfold conn_live in Hl. destruct (conn_phase c) eqn:Hph; try done.
  - exists (PA_connected i false). simpl. rewrite Hi. simpl. by rewrite Hph.
  - exists (PA_outage i). simpl. rewrite Hi. simpl. by rewrite Hph, Hc.
Qed.


Definition one_connection : list ProxyAction := [PA_accept; PA_subscribe; PA_connected 0 true].


(** ** The race *)

(** Connections that have seen the current generation are not closed by an outage
    that is already under way. *)
Lemma race_step a p p' i c :
  proxy_step a p = Some p' → a ≠ PA_bump → proxy_conns p !! i = Some c → outage_seen p c = false →
  ∃ c', proxy_conns p' !! i = Some c' ∧ outage_seen p' c' = false.
Proof.
  intros Hs Hne Hi Ho. destruct (conn_action a) eqn:Hca.
  - destruct (conn_step_inv _ _ _ Hca Hs) as (j & d & phase & Hj & -> & _). simpl.
    destruct (decide (j = i)) as [<-|]; [|exists c; by rewrite list_lookup_alter_ne].
    rewrite list_lookup_alter_eq, Hi. by eexists.
  - destruct a; simplify_eq/=; try case_bool_decide; try case_match; simplify_eq/=;
      try (by exists c). exists c. split; [|done]. by apply lookup_app_l_Some.
Qed.

(** C38. An outage that starts between the accept loop's check of the flag and its
    subscription misses that connection: there is an execution from the start in
    which the proxy is down, the call of [go_down] has returned, and a connection is
    open that no outage step can close, now or after any further steps, until
    [go_down] is called again. *)
Theorem outage_race :
  ∃ l p, proxy_run l proxy_start = Some p ∧ proxy_up p = false ∧ proxy_lowering p = false ∧
    (∃ c, proxy_conns p !! 0%nat = Some c ∧ conn_phase c = CP_open) ∧
    ∀ l' p', PA_bump ∉ l' → proxy_run l' p = Some p' → proxy_step (PA_outage 0) p' = None.
Proof.
  exists [PA_accept; PA_lower; PA_bump; PA_subscribe; PA_connected 0 true].
  eexists. split; [vm_compute; reflexivity|]. split_and!; [done|done|by eexists|].
  intros l' p'.
  assert (∃ c, proxy_conns (mkOutageProxy false 1 false AL_wait [mkConn 1 CP_open]) !! 0%nat = Some c ∧
    outage_seen (mkOutageProxy false 1 false AL_wait [mkConn 1 CP_open]) c = false) as Hc by by eexists.
  revert Hc. generalize (mkOutageProxy false 1 false AL_wait [mkConn 1 CP_open]).
  induction l' as [|a l' IH]; intros p (c & Hi & Hseen) Hn Hr; simplify_eq/=.
  - rewrite Hi. simpl. rewrite Hseen. by rewrite andb_false_r.
  - apply not_elem_of_cons in Hn as [Hne Hn]. destruct (proxy_step a p) as [q|] eqn:E; simplify_eq/=.
    apply (IH q); [|done|done]. eapply race_step; [done|congruence|done|done].
Qed.
