(* ===== verification/Schema.v ===== *)
(** * The [events] table (migrations/0001_create_events.sql)

    A table is a finite map from the primary key to rows. The CHECK constraints,
    the uniqueness constraint and the immutability trigger of the migration are
    decidable functions on rows and tables. Instants are microseconds on the
    database clock. PostgreSQL itself is a parameter where the program depends on
    more than the text of its statements ([Postgres]). *)

From S2P Require Import Prelude Text Json Crates Event Idempotency.

Record Row `{SerdeJson} := mkRow {
  r_event_id : Uuid;
  r_source : str;
  r_event_type : str;
  r_payload : Value;
  r_idempotency_key : str;
  r_request_fingerprint : bytes;
  r_accepted_at : Z;
  r_status : str;
  r_processing_owner : option Uuid;
  r_processing_started_at : option Z;
  r_lease_expires_at : option Z;
  r_processed_at : option Z;
  r_delivery_attempts : Z
}.
Arguments mkRow {_} _ _ _ _ _ _ _ _ _ _ _ _ _.

#[global] Instance Row_eq_dec `{SerdeJson} : EqDecision Row.
Proof. solve_decision. Defined.

Abbreviation Table := (gmap Uuid Row) (only parsing).

(** ** Errors of the driver *)

(** The constructors of [sqlx::Error] the program tells apart. *)
Inductive SqlxError :=
| SX_Io
| SX_Tls
| SX_Protocol
| SX_PoolTimedOut
| SX_PoolClosed
| SX_WorkerCrashed
| SX_Database (code : option str)
| SX_Other.

#[global] Instance SqlxError_eq_dec : EqDecision SqlxError.
Proof. solve_decision. Defined.

Definition sql_error (code : str) : SqlxError := SX_Database (Some code).
Definition unique_violation : SqlxError := sql_error (lit "23505").
Definition check_violation : SqlxError := sql_error (lit "23514").
Definition integrity_constraint_violation : SqlxError := sql_error (lit "23000").
Definition numeric_value_out_of_range : SqlxError := sql_error (lit "22003").

(** ** PostgreSQL *)

Class Postgres `{SerdeJson} := {
  (** The value a JSONB column holds for a bound payload, or the SQLSTATE of its refusal. *)
  jsonb_in : Value → result str Value;
  (** [to_char(ts AT TIME ZONE 'UTC', ...)], an RFC 3339 text. *)
  to_char_utc : Z → str;
  (** The microseconds of [make_interval(secs => d.as_secs_f64())]. *)
  make_interval : Duration → Z;
  (** The order in which [UPDATE ... RETURNING] emits the rows it updated. *)
  returning_order : list (Row * str) → list (Row * str)
}.

(** Documented behaviour: JSONB keeps null apart from every other value, an
    interval of whole milliseconds up to an hour is exact to the microsecond,
    and every updated row is returned once. *)
Class PostgresLaws `{SJ : SerdeJson} (PG : Postgres) : Prop := {
  jsonb_in_null v w : jsonb_in v = Ok w → is_null w = is_null v;
  make_interval_millis ms :
    0 ≤ ms ≤ 3600000 → make_interval (ms * 1000000) = ms * 1000;
  returning_order_perm l : returning_order l ≡ₚ l
}.

Section schema.
Context `{SJ : SerdeJson}.
Implicit Types (r : Row) (db : Table).

(** ** Constraints *)

Definition between (x lo hi : Z) : bool := (lo <=? x) && (x <=? hi).

Definition is_some {A} (o : option A) : bool := match o with Some _ => true | None => false end.

(** [events_lifecycle_consistent]. *)
Definition lifecycle_consistent r : bool :=
  (bool_decide (r_status r = lit "PENDING")
    && negb (is_some (r_processing_owner r))
    && negb (is_some (r_processing_started_at r))
    && negb (is_some (r_lease_expires_at r))
    && negb (is_some (r_processed_at r)))
  || (bool_decide (r_status r = lit "PROCESSING")
    && is_some (r_processing_owner r)
    && is_some (r_processing_started_at r)
    && is_some (r_lease_expires_at r)
    && negb (is_some (r_processed_at r))
    && (1 <=? r_delivery_attempts r))
  || (bool_decide (r_status r = lit "PROCESSED")
    && negb (is_some (r_processing_owner r))
    && negb (is_some (r_lease_expires_at r))
    && is_some (r_processed_at r)
    && (1 <=? r_delivery_attempts r)).

(** All CHECK constraints of a row. *)
Definition row_checks r : bool :=
  between (chars_count (r_source r)) 1 100
  && between (chars_count (r_event_type r)) 1 150
  && negb (is_null (r_payload r))
  && between (chars_count (r_idempotency_key r)) 1 128
  && (Z.of_nat (length (r_request_fingerprint r)) =? 32)
  && bool_decide (r_status r ∈ [lit "PENDING"; lit "PROCESSING"; lit "PROCESSED"])
  && (0 <=? r_delivery_attempts r)
  && lifecycle_consistent r.

(** [events_reject_content_update]: did an update change the content of a row? *)
Definition content_changed (old new : Row) : bool :=
  negb (bool_decide (r_event_id new = r_event_id old))
  || negb (bool_decide (r_source new = r_source old))
  || negb (bool_decide (r_event_type new = r_event_type old))
  || negb (bool_decide (r_payload new = r_payload old))
  || negb (bool_decide (r_idempotency_key new = r_idempotency_key old))
  || negb (bool_decide (r_request_fingerprint new = r_request_fingerprint old))
  || negb (bool_decide (r_accepted_at new = r_accepted_at old)).

(** ** Statements on single rows *)

(** An UPDATE of one row: the BEFORE trigger, then the CHECK constraints. *)
Definition update_row (old new : Row) : result SqlxError Row :=
  if content_changed old new then Err integrity_constraint_violation
  else if row_checks new then Ok new
  else Err check_violation.

(** The row [events_source_idempotency_key_key] finds for a scoped key. *)
Definition find_key db (source key : str) : option Row :=
  snd <$> list_find
    (λ r, r_source r = source ∧ r_idempotency_key r = key) (snd <$> map_to_list db).

(** [INSERT ... ON CONFLICT ON CONSTRAINT events_source_idempotency_key_key DO
    NOTHING RETURNING event_id]: the CHECK constraints, then the arbiter
    constraint, then the primary key. *)
Definition insert_row (new : Row) db : result SqlxError (option Uuid * Table) :=
  if negb (row_checks new) then Err check_violation
  else match find_key db (r_source new) (r_idempotency_key new) with
  | Some _ => Ok (None, db)
  | None =>
      match db !! r_event_id new with
      | Some _ => Err unique_violation
      | None => Ok (Some (r_event_id new), <[r_event_id new := new]> db)
      end
  end.
End schema.
