(* ===== verification/Store.v ===== *)
(** * The durable event store (pulsestream-store, lib.rs)

    Each method of [Store] is a function from the table to its result and the new
    table. What the environment decides is an argument: the database clock
    [now], the rows locked by other sessions, and a failure at each round trip to
    the server. A statement outside a transaction may fail after the server has
    applied it, and so may COMMIT; a transaction that is dropped is rolled back. *)

From S2P Require Import Prelude Text Json Crates Event Idempotency Config Schema.

(** ** Errors *)

Inductive StoreError :=
| SE_Unavailable (source : SqlxError)
| SE_Database (source : SqlxError)
| SE_Migration
| SE_Inconsistent (msg : str)
| SE_InvalidConfig.

#[global] Instance StoreError_eq_dec : EqDecision StoreError.
Proof. solve_decision. Defined.

Definition is_unavailable (e : StoreError) : bool :=
  match e with SE_Unavailable _ => true | _ => false end.

(** [impl From<sqlx::Error> for StoreError]. *)
Definition StoreError_from (err : SqlxError) : StoreError :=
  let unavailable :=
    match err with
    | SX_Io | SX_Tls | SX_Protocol | SX_PoolTimedOut | SX_PoolClosed | SX_WorkerCrashed => true
    | SX_Database code =>
        match code with
        | Some code =>
            starts_with (lit "08") code || starts_with (lit "57P") code
            || bool_decide (code = lit "53300")
        | None => false
        end
    | SX_Other => false
    end in
  if unavailable then SE_Unavailable err else SE_Database err.

(** A round trip: it fails in the driver, or returns what the server answered. *)
Definition round_trip {A} (fault : option SqlxError) (answer : result SqlxError A)
    : result StoreError A :=
  match fault with
  | Some e => Err (StoreError_from e)
  | None => map_err StoreError_from answer
  end.

(** A fault of a statement that commits by itself, or of COMMIT: the error the
    caller sees, and whether the server had applied the change. *)
Record CommitFault := mkCommitFault { cf_error : SqlxError; cf_applied : bool }.

(** ** Results *)

Inductive AdmitOutcome := Created (id : EventId) | Replayed (id : EventId) | Conflict.

#[global] Instance AdmitOutcome_eq_dec : EqDecision AdmitOutcome.
Proof. solve_decision. Defined.

Record EventRecord := mkEventRecord {
  rec_event_id : EventId;
  rec_source : str;
  rec_event_type : str;
  rec_status : EventStatus;
  rec_accepted_at : str;
  rec_processed_at : option str
}.

Record ClaimedEvent `{SerdeJson} := mkClaimedEvent {
  claim_event : Event;
  claim_attempt : Z;
  claim_reclaimed : bool
}.
Arguments mkClaimedEvent {_} _ _ _.

Section store.
Context `{SJ : SerdeJson, PG : !Postgres}.
Implicit Types (db : Table) (r : Row).

(** ** Admission *)

(** The row the INSERT of [admit] proposes. *)
Definition admitted_row (now : Z) (event : Event) (payload : Value) (key : IdempotencyKey)
    (fingerprint : RequestFingerprint) : Row := {|
  r_event_id := EventId_as_uuid (event_id event);
  r_source := EventSource_as_str (event_source event);
  r_event_type := EventType_as_str (event_type event);
  r_payload := payload;
  r_idempotency_key := IdempotencyKey_expose key;
  r_request_fingerprint := RequestFingerprint_as_bytes fingerprint;
  r_accepted_at := now;
  r_status := lit "PENDING";
  r_processing_owner := None;
  r_processing_started_at := None;
  r_lease_expires_at := None;
  r_processed_at := None;
  r_delivery_attempts := 0
|}.

Definition sql_insert (now : Z) (event : Event) (key : IdempotencyKey)
    (fingerprint : RequestFingerprint) db : result SqlxError (option Uuid * Table) :=
  payload ← map_err sql_error (jsonb_in (event_payload event));
  insert_row (admitted_row now event payload key fingerprint) db.

(** [SELECT event_id, request_fingerprint ... WHERE source = $1 AND idempotency_key = $2]. *)
Definition sql_select_key (source key : str) db : option (Uuid * bytes) :=
  (λ r, (r_event_id r, r_request_fingerprint r)) <$> find_key db source key.

(** Where the round trips of one admission fail. *)
Record AdmitFaults := mkAdmitFaults {
  af_begin : option SqlxError;
  af_insert : option SqlxError;
  af_select : option SqlxError;
  af_commit : option CommitFault
}.

(** The body of the transaction: the outcome and the table it would commit. *)
Definition admit_tx (faults : AdmitFaults) (now : Z) (event : Event) (key : IdempotencyKey)
    (fingerprint : RequestFingerprint) db : result StoreError (AdmitOutcome * Table) :=
  _ ← round_trip (af_begin faults) (Ok tt);
  '(inserted, tx) ← round_trip (af_insert faults) (sql_insert now event key fingerprint db);
  outcome ←
    match inserted with
    | Some id => Ok (Created (EventId_from_uuid id))
    | None =>
        existing ← round_trip (af_select faults) (Ok (sql_select_key
          (EventSource_as_str (event_source event)) (IdempotencyKey_expose key) tx));
        match existing with
        | Some (id, stored) =>
            if bool_decide (stored = RequestFingerprint_as_bytes fingerprint)
            then Ok (Replayed (EventId_from_uuid id)) else Ok Conflict
        | None => Err (SE_Inconsistent (lit "conflicting row not found"))
        end
    end;
  Ok (outcome, tx).

Definition store_admit (faults : AdmitFaults) (now : Z) (event : Event) (key : IdempotencyKey)
    (fingerprint : RequestFingerprint) db : result StoreError AdmitOutcome * Table :=
  match admit_tx faults now event key fingerprint db with
  | Err e => (Err e, db)
  | Ok (outcome, tx) =>
      match af_commit faults with
      | None => (Ok outcome, tx)
      | Some fault =>
          (Err (StoreError_from (cf_error fault)), if cf_applied fault then tx else db)
      end
  end.

(** ** Status lookup *)

Definition get (fault : option SqlxError) (id : EventId) db
    : result StoreError (option EventRecord) :=
  row ← round_trip fault (Ok (db !! EventId_as_uuid id));
  transpose ((λ r,
    status ← ok_or (from_db_str (r_status r)) (SE_Inconsistent (lit "unknown status"));
    Ok (mkEventRecord (EventId_from_uuid (r_event_id r)) (r_source r) (r_event_type r) status
      (to_char_utc (r_accepted_at r)) (to_char_utc <$> r_processed_at r))) <$> row).

(** ** Claims *)

(** The WHERE clause of [candidates]. *)
Definition claimable (now : Z) r : bool :=
  bool_decide (r_status r = lit "PENDING")
  || (bool_decide (r_status r = lit "PROCESSING")
      && match r_lease_expires_at r with Some t => t <=? now | None => false end).

(** [ORDER BY accepted_at, event_id]. *)
Definition claim_le (r s : Row) : Prop :=
  r_accepted_at r < r_accepted_at s ∨
  (r_accepted_at r = r_accepted_at s ∧ r_event_id r ≤ r_event_id s).

#[global] Instance claim_le_dec r s : Decision (claim_le r s).
Proof. unfold claim_le. apply _. Defined.

(** The CTE [candidates]: claimable rows oldest first, without those other
    sessions have locked, at most [limit] of them. *)
Definition candidates (now : Z) (limit : Z) (locked : gset Uuid) db : list Row :=
  take (Z.to_nat limit)
    (filter (λ r, r_event_id r ∉ locked)
      (merge_sort claim_le (filter (λ r, claimable now r = true) (snd <$> map_to_list db)))).

(** The SET clause of the claim. *)
Definition claim_set (now : Z) (owner : Uuid) (secs : Duration) r : Row := {|
  r_event_id := r_event_id r;
  r_source := r_source r;
  r_event_type := r_event_type r;
  r_payload := r_payload r;
  r_idempotency_key := r_idempotency_key r;
  r_request_fingerprint := r_request_fingerprint r;
  r_accepted_at := r_accepted_at r;
  r_status := lit "PROCESSING";
  r_processing_owner := Some owner;
  r_processing_started_at := Some now;
  r_lease_expires_at := Some (now + make_interval secs);
  r_processed_at := r_processed_at r;
  r_delivery_attempts := r_delivery_attempts r + 1
|}.

(** The update of one candidate; [delivery_attempts] is a 32-bit integer. *)
Definition claimed_row (now : Z) (owner : Uuid) (secs : Duration) r : result SqlxError Row :=
  if r_delivery_attempts r + 1 <=? i32_max then update_row r (claim_set now owner secs r)
  else Err numeric_value_out_of_range.

(** Writes updated rows back. *)
Definition store_rows (rows : list Row) db : Table :=
  foldr (λ r db, <[r_event_id r := r]> db) db rows.

Definition sql_claim (now : Z) (owner : Uuid) (limit : Z) (secs : Duration) (locked : gset Uuid)
    db : result SqlxError (list (Row * str) * Table) :=
  let cs := candidates now limit locked db in
  rows ← collect (claimed_row now owner secs <$> cs);
  Ok (returning_order (zip rows (r_status <$> cs)), store_rows rows db).

(** The closure that turns a returned row into a [ClaimedEvent]. *)
Definition claimed_event (row : Row * str) : result StoreError ClaimedEvent :=
  let '(r, previous) := row in
  let accepted_us := r_accepted_at r in
  let accepted_at := if 0 <=? accepted_us then accepted_us * 1000 else 0 in
  source ← map_err (λ _, SE_Inconsistent (lit "invalid stored source"))
    (EventSource_parse (r_source r));
  ty ← map_err (λ _, SE_Inconsistent (lit "invalid stored event_type"))
    (EventType_parse (r_event_type r));
  attempt ← ok_or (if 0 <=? r_delivery_attempts r then Some (r_delivery_attempts r) else None)
    (SE_Inconsistent (lit "negative delivery_attempts"));
  Ok (mkClaimedEvent
    (mkEvent (EventId_from_uuid (r_event_id r)) source ty (r_payload r) accepted_at)
    attempt (bool_decide (previous = as_db_str Processing))).

Definition claim (fault : option CommitFault) (now : Z) (locked : gset Uuid) (owner : WorkerId)
    (limit : Z) (lease : Duration) db : result StoreError (list ClaimedEvent) * Table :=
  if limit =? 0 then (Ok [], db)
  else
    let limit := if limit <=? i64_max then limit else i64_max in
    let answer := sql_claim now (WorkerId_as_uuid owner) limit lease locked db in
    let db' := match answer with Ok (_, db') => db' | Err _ => db end in
    match fault with
    | Some f => (Err (StoreError_from (cf_error f)), if cf_applied f then db' else db)
    | None =>
        (rows ← map_err StoreError_from answer; collect (claimed_event <$> rows.1), db')
    end.

(** ** Completion *)

(** The SET clause of the completion. *)
Definition complete_set (now : Z) r : Row := {|
  r_event_id := r_event_id r;
  r_source := r_source r;
  r_event_type := r_event_type r;
  r_payload := r_payload r;
  r_idempotency_key := r_idempotency_key r;
  r_request_fingerprint := r_request_fingerprint r;
  r_accepted_at := r_accepted_at r;
  r_status := lit "PROCESSED";
  r_processing_owner := None;
  r_processing_started_at := r_processing_started_at r;
  r_lease_expires_at := None;
  r_processed_at := Some now;
  r_delivery_attempts := r_delivery_attempts r
|}.

(** The UPDATE of [complete]: the number of rows affected and the new table. *)
Definition sql_complete (now : Z) (id owner : Uuid) db : result SqlxError (Z * Table) :=
  match db !! id with
  | Some r =>
      if bool_decide (r_status r = lit "PROCESSING" ∧ r_processing_owner r = Some owner) then
        r' ← update_row r (complete_set now r); Ok (1, <[id := r']> db)
      else Ok (0, db)
  | None => Ok (0, db)
  end.

Definition complete (fault : option CommitFault) (now : Z) (id : EventId) (owner : WorkerId) db
    : result StoreError bool * Table :=
  let answer := sql_complete now (EventId_as_uuid id) (WorkerId_as_uuid owner) db in
  let db' := match answer with Ok (_, db') => db' | Err _ => db end in
  match fault with
  | Some f => (Err (StoreError_from (cf_error f)), if cf_applied f then db' else db)
  | None => (rows_affected ← map_err StoreError_from answer; Ok (rows_affected.1 =? 1), db')
  end.

(** ** Connection, migrations and health *)

(** [Store::connect_lazy] only fails on a URL the driver refuses. *)
Record PoolOptions := mkPoolOptions {
  pool_url : str;
  pool_application_name : str;
  pool_statement_timeout : str;
  pool_max_connections : Z;
  pool_min_connections : Z;
  pool_acquire_timeout : Duration;
  pool_test_before_acquire : bool
}.

Definition STATEMENT_TIMEOUT : str := lit "10s".

Definition connect_lazy (driver_accepts : str → bool) (config : DatabaseConfig)
    (application_name : str) : result StoreError PoolOptions :=
  if driver_accepts (DatabaseUrl_expose (url config)) then
    Ok {|
      pool_url := DatabaseUrl_expose (url config);
      pool_application_name := application_name;
      pool_statement_timeout := STATEMENT_TIMEOUT;
      pool_max_connections := max_connections config;
      pool_min_connections := 0;
      pool_acquire_timeout := acquire_timeout config;
      pool_test_before_acquire := true
    |}
  else Err SE_InvalidConfig.

Definition migrate (migrator_succeeds : bool) : result StoreError unit :=
  if migrator_succeeds then Ok tt else Err SE_Migration.

Definition ping (fault : option SqlxError) : result StoreError unit := round_trip fault (Ok tt).
End store.
