(* ===== verification/Fixtures.v ===== *)
(** * Concrete instances

    A PostgreSQL that satisfies the laws of [Schema], and the sample requests and
    rows at which the theorems on the store, the API and the worker are
    evaluated. *)

From S2P Require Import Prelude Text Json Crates Reference Event Idempotency Config Schema Store.

(** JSONB refuses the character U+0000 inside strings. *)
Fixpoint has_nul (v : Value) : bool :=
  match v with
  | VString s => bool_decide (0 ∈ s)
  | VArray items => existsb has_nul items
  | VObject entries => existsb (λ e, bool_decide (0 ∈ e.1) || has_nul e.2) entries
  | _ => false
  end.

Definition jsonb_in_ref (v : Value) : result str Value :=
  if has_nul v then Err (lit "22P05") else Ok v.

(** An RFC 3339 text with six fractional digits, of microseconds since 1970 (the proleptic
    Gregorian calendar, counted in eras of 400 years from March 1st). *)
Definition civil_from_days (days : Z) : Z * Z * Z :=
  let z := days + 719468 in
  let era := z / 146097 in
  let doe := z mod 146097 in
  let yoe := (doe - doe / 1460 + doe / 36524 - doe / 146096) / 365 in
  let doy := doe - (365 * yoe + yoe / 4 - yoe / 100) in
  let mp := (5 * doy + 2) / 153 in
  let month := if mp <? 10 then mp + 3 else mp - 9 in
  (era * 400 + yoe + (if month <=? 2 then 1 else 0), month, doy - (153 * mp + 2) / 5 + 1).

Fixpoint pad (width : nat) (n : Z) : str :=
  match width with
  | O => []
  | S width => pad width (n / 10) ++ [48 + n mod 10]
  end.

Definition rfc3339 (us : Z) : str :=
  let '(year, month, day) := civil_from_days (us / 86400000000) in
  let t := us mod 86400000000 in
  pad 4 year ++ lit "-" ++ pad 2 month ++ lit "-" ++ pad 2 day ++ lit "T" ++
  pad 2 (t / 3600000000) ++ lit ":" ++ pad 2 (t / 60000000 mod 60) ++ lit ":" ++
  pad 2 (t / 1000000 mod 60) ++ lit "." ++ pad 6 (t mod 1000000) ++ lit "Z".

Example rfc3339_epoch :
  rfc3339 0 = lit "1970-01-01T00:00:00.000000Z" ∧
  rfc3339 1709210096000001 = lit "2024-02-29T12:34:56.000001Z".
Proof. vm_compute. split; reflexivity. Qed.

#[global] Instance pg_ref : Postgres := {|
  jsonb_in := jsonb_in_ref;
  to_char_utc := rfc3339;
  make_interval d := d / 1000;
  returning_order := @id _
|}.

#[global] Instance pg_ref_laws : PostgresLaws pg_ref.
Proof.
  split; simpl.
  - intros v w. unfold jsonb_in_ref. destruct (has_nul v); [done|]. by intros [= <-].
  - intros ms _. replace (ms * 1000000) with (ms * 1000 * 1000) by lia. by apply Z.div_mul.
  - done.
Qed.

(** ** Sample requests *)

Definition sample_source : EventSource := mkEventSource (lit "orders-api").
Definition sample_type : EventType := mkEventType (lit "order.created").
Definition sample_key : IdempotencyKey := mkIdempotencyKey (lit "order-1").
Definition sample_order : Value := VObject [(lit "order", VNumber (RInt 1))].

Definition sample_event (id : Uuid) : Event :=
  mkEvent (mkEventId id) sample_source sample_type sample_order 0.

(** Another request under the same key. *)
Definition sample_order2 : Value := VObject [(lit "order", VNumber (RInt 2))].
Definition sample_event2 (id : Uuid) : Event :=
  mkEvent (mkEventId id) sample_source sample_type sample_order2 0.

Definition sample_fp : RequestFingerprint :=
  Eval vm_compute in RequestFingerprint_compute sample_source sample_type sample_order.
Definition sample_fp2 : RequestFingerprint :=
  Eval vm_compute in RequestFingerprint_compute sample_source sample_type sample_order2.

Definition no_faults : AdmitFaults := mkAdmitFaults None None None None.

(** COMMIT fails with an I/O error after the server applied it, or before. *)
Definition lost_commit (applied : bool) : AdmitFaults :=
  mkAdmitFaults None None None (Some (mkCommitFault SX_Io applied)).

(** A table with one pending row, and the same row claimed by worker 7 at 100. *)
Definition sample_db : Table := (store_admit no_faults 5 (sample_event 1) sample_key sample_fp ∅).2.

Definition sample_lease : Duration := 30000 * 1000000.

Definition sample_claimed : Table :=
  (claim None 100 ∅ (mkWorkerId 7) 10 sample_lease sample_db).2.
