(* ===== verification/StoreSpec.v ===== *)
(** * What the store guarantees

    The invariant of the table, the functional behaviour of each method of
    [Store] on every branch, and what no sequence of operations can do. *)

From S2P Require Import Prelude Text Json Crates Reference Event Idempotency Config Schema Store Fixtures.

Section row_facts.
Context `{SJ : SerdeJson}.
Implicit Types (r : Row) (db : Table).

(** ** Rows *)

(** The CHECK constraints on the immutable columns. *)
Definition content_checks r : bool :=
  between (chars_count (r_source r)) 1 100
  && between (chars_count (r_event_type r)) 1 150
  && negb (is_null (r_payload r))
  && between (chars_count (r_idempotency_key r)) 1 128
  && (Z.of_nat (length (r_request_fingerprint r)) =? 32).

(** The three shapes a stored row can have. *)
Definition row_pending r : Prop :=
  r_status r = lit "PENDING" ∧ r_processing_owner r = None ∧ r_processing_started_at r = None ∧
  r_lease_expires_at r = None ∧ r_processed_at r = None.

Definition row_processing (owner : Uuid) (started expires : Z) r : Prop :=
  r_status r = lit "PROCESSING" ∧ r_processing_owner r = Some owner ∧
  r_processing_started_at r = Some started ∧ r_lease_expires_at r = Some expires ∧
  r_processed_at r = None ∧ 1 ≤ r_delivery_attempts r.

Definition row_processed (at_ : Z) r : Prop :=
  r_status r = lit "PROCESSED" ∧ r_processing_owner r = None ∧ r_lease_expires_at r = None ∧
  r_processed_at r = Some at_ ∧ 1 ≤ r_delivery_attempts r.

Lemma is_some_spec {A} (o : option A) : is_some o = true ↔ ∃ x, o = Some x.
Proof. destruct o; simpl; naive_solver. Qed.

Lemma is_some_neg {A} (o : option A) : negb (is_some o) = true ↔ o = None.
Proof. by destruct o. Qed.

Lemma lifecycle_consistent_spec r :
  lifecycle_consistent r = true ↔
  row_pending r ∨ (∃ o s l, row_processing o s l r) ∨ ∃ t, row_processed t r.
Proof.
  unfold lifecycle_consistent, row_pending, row_processing, row_processed.
  rewrite !orb_true_iff, !andb_true_iff, !bool_decide_eq_true, !is_some_neg, !is_some_spec,
    !Z.leb_le. naive_solver.
Qed.

Lemma row_checks_spec r :
  row_checks r = true ↔
  content_checks r = true ∧ 0 ≤ r_delivery_attempts r ∧
  (row_pending r ∨ (∃ o s l, row_processing o s l r) ∨ ∃ t, row_processed t r).
Proof.
  rewrite <-lifecycle_consistent_spec. unfold row_checks, content_checks.
  rewrite !andb_true_iff, bool_decide_eq_true, Z.leb_le. split; [naive_solver|].
  intros (Hc & Ha & Hl). split_and!; try naive_solver.
  apply lifecycle_consistent_spec in Hl as [H|[(o & s & l & H)|(t & H)]];
    destruct H as [-> _]; set_solver.
Qed.

(** ** The invariant of the table *)

(** A stored row: its key, its constraints, and the labels admission validated. *)
Record wf_row (id : Uuid) r : Prop := {
  wf_row_id : r_event_id r = id;
  wf_row_uuid : valid_uuid id;
  wf_row_checks : row_checks r = true;
  wf_row_source : valid_label MAX_SOURCE_CHARS (r_source r);
  wf_row_type : valid_label MAX_EVENT_TYPE_CHARS (r_event_type r);
  wf_row_attempts : r_delivery_attempts r ≤ i32_max
}.

Record wf_table db : Prop := {
  wf_rows : ∀ id r, db !! id = Some r → wf_row id r;
  wf_unique : ∀ id id' r r', db !! id = Some r → db !! id' = Some r' →
    r_source r = r_source r' → r_idempotency_key r = r_idempotency_key r' → id = id'
}.

Lemma wf_table_empty : wf_table ∅.
Proof. split; intros *; by rewrite lookup_empty. Qed.

Lemma elem_of_rows db r : r ∈ (snd <$> map_to_list db) ↔ ∃ id, db !! id = Some r.
Proof.
  rewrite list_elem_of_fmap. split.
  - intros ([id r'] & -> & H%elem_of_map_to_list). by exists id.
  - intros [id H]. exists (id, r). split; [done|]. by apply elem_of_map_to_list.
Qed.

Lemma find_key_Some db source key r :
  find_key db source key = Some r →
  r_source r = source ∧ r_idempotency_key r = key ∧ ∃ id, db !! id = Some r.
Proof.
  unfold find_key. destruct (list_find _ _) as [[i r']|] eqn:E; simpl; [|done].
  intros [= <-]. apply list_find_Some in E as (Hi & [? ?] & _).
  split_and!; [done|done|]. apply elem_of_rows. by eapply list_elem_of_lookup_2.
Qed.

Lemma find_key_None db source key :
  find_key db source key = None ↔
  ∀ id r, db !! id = Some r → ¬ (r_source r = source ∧ r_idempotency_key r = key).
Proof.
  unfold find_key. rewrite fmap_None, list_find_None, Forall_forall.
  setoid_rewrite elem_of_rows. naive_solver.
Qed.

Lemma find_key_unique db id r :
  wf_table db → db !! id = Some r → find_key db (r_source r) (r_idempotency_key r) = Some r.
Proof.
  intros Hwf Hr. destruct (find_key _ _ _) as [r'|] eqn:E.
  - apply find_key_Some in E as (Hs & Hk & id' & Hr').
    rewrite (wf_unique _ Hwf id id' r r') in Hr by done. congruence.
  - rewrite find_key_None in E. by destruct (E id r Hr).
Qed.
End row_facts.

Section admission.
Context `{SJ : SerdeJson} {PG : Postgres}.
Implicit Types (db : Table) (r : Row).

(** ** Admission *)

(** What the type system guarantees of the arguments of [admit]: the event, the
    key and the fingerprint come from their validating constructors. *)
Record admissible (event : Event) (key : IdempotencyKey) (fp : RequestFingerprint) : Prop := {
  admissible_id : valid_uuid (EventId_as_uuid (event_id event));
  admissible_event : valid_event event;
  admissible_key : valid_key (IdempotencyKey_expose key);
  admissible_fingerprint : length (RequestFingerprint_as_bytes fp) = 32%nat
}.

(** The answer to a request whose scoped key already has a row. *)
Definition resolve (fp : RequestFingerprint) r : AdmitOutcome :=
  if bool_decide (r_request_fingerprint r = RequestFingerprint_as_bytes fp)
  then Replayed (EventId_from_uuid (r_event_id r)) else Conflict.

Lemma admitted_row_checks {PGL : PostgresLaws PG} now event payload key fp :
  admissible event key fp → jsonb_in (event_payload event) = Ok payload →
  row_checks (admitted_row now event payload key fp) = true.
Proof.
  intros [_ (Hs%valid_label_ne & Ht%valid_label_ne & Hp) [Hk _] Hf] Hj. apply row_checks_spec.
  split_and!; [|done|by left].
  unfold content_checks, admitted_row, between; simpl.
  rewrite (jsonb_in_null _ _ Hj), Hf. unfold MAX_SOURCE_CHARS, MAX_EVENT_TYPE_CHARS in *.
  assert (is_null (event_payload event) = false) as -> by (by destruct (event_payload event)).
  unfold chars_count, MAX_IDEMPOTENCY_KEY_CHARS in *. rewrite !andb_true_iff, !Z.leb_le, Z.eqb_eq. split_and!; try done; lia.
Qed.

(** The INSERT never trips a CHECK constraint on an admissible request. *)
Lemma sql_insert_eq {PGL : PostgresLaws PG} now event key fp db :
  admissible event key fp →
  sql_insert now event key fp db =
    match jsonb_in (event_payload event) with
    | Err code => Err (sql_error code)
    | Ok payload =>
        match find_key db (EventSource_as_str (event_source event)) (IdempotencyKey_expose key) with
        | Some _ => Ok (None, db)
        | None =>
            match db !! EventId_as_uuid (event_id event) with
            | Some _ => Err unique_violation
            | None => Ok (Some (EventId_as_uuid (event_id event)),
                <[EventId_as_uuid (event_id event) := admitted_row now event payload key fp]> db)
            end
        end
    end.
Proof.
  intros Hadm. unfold sql_insert. destruct (jsonb_in _) as [payload|code] eqn:E; simpl; [|done].
  unfold insert_row. by rewrite admitted_row_checks.
Qed.

(** What a transaction that reaches COMMIT has done. *)
Lemma admit_tx_inv faults now event key fp db outcome tx :
  admit_tx faults now event key fp db = Ok (outcome, tx) →
  (∃ payload, outcome = Created (event_id event) ∧
    jsonb_in (event_payload event) = Ok payload ∧
    row_checks (admitted_row now event payload key fp) = true ∧
    find_key db (EventSource_as_str (event_source event)) (IdempotencyKey_expose key) = None ∧
    db !! EventId_as_uuid (event_id event) = None ∧
    tx = <[EventId_as_uuid (event_id event) := admitted_row now event payload key fp]> db) ∨
  (tx = db ∧ ∃ r, outcome = resolve fp r ∧
    find_key db (EventSource_as_str (event_source event)) (IdempotencyKey_expose key) = Some r).
Proof.
  unfold admit_tx, round_trip, sql_insert, insert_row. intros H.
  destruct (af_begin faults); [done|]. destruct (af_insert faults); [done|]. simpl in H.
  destruct (jsonb_in _) as [payload|] eqn:Hj; [|done]. simpl in H.
  destruct (row_checks _) eqn:Hc; [|done]. simpl in H.
  destruct (find_key _ _ _) as [r|] eqn:Hk; simpl in H.
  - right. destruct (af_select faults); [done|]. unfold sql_select_key in H.
    rewrite Hk in H. simpl in H. unfold resolve.
    case_bool_decide; simplify_eq/=; split; eauto; exists r; by case_bool_decide.
  - destruct (db !! _) eqn:Hi; [done|]. simplify_eq/=. left. exists payload.
    split_and!; try done. by destruct (event_id event).
Qed.

Lemma admit_inv faults now event key fp db :
  (store_admit faults now event key fp db).2 = db ∨
  ∃ payload, jsonb_in (event_payload event) = Ok payload ∧
    row_checks (admitted_row now event payload key fp) = true ∧
    find_key db (EventSource_as_str (event_source event)) (IdempotencyKey_expose key) = None ∧
    db !! EventId_as_uuid (event_id event) = None ∧
    (store_admit faults now event key fp db).2 =
      <[EventId_as_uuid (event_id event) := admitted_row now event payload key fp]> db.
Proof.
  unfold store_admit. destruct (admit_tx _ _ _ _ _ _) as [[outcome tx]|] eqn:E; [|by left].
  apply admit_tx_inv in E as [(payload & -> & ? & ? & ? & ? & ->)|(-> & r & -> & Hr)].
  - destruct (af_commit faults) as [[e []]|]; simpl; [right|left|right]; naive_solver.
  - left. destruct (af_commit faults) as [[e []]|]; done.
Qed.

Lemma admitted_row_wf now event payload key fp :
  admissible event key fp → row_checks (admitted_row now event payload key fp) = true →
  wf_row (EventId_as_uuid (event_id event)) (admitted_row now event payload key fp).
Proof. intros [? (? & ? & _) _ _] ?. by split. Qed.

Lemma wf_table_insert db id r :
  wf_table db → wf_row id r → find_key db (r_source r) (r_idempotency_key r) = None →
  wf_table (<[id := r]> db).
Proof.
  intros Hwf Hr Hk. rewrite find_key_None in Hk. split.
  - intros i s [[<- <-]|[? ?]]%lookup_insert_Some; [done|by apply Hwf].
  - intros i j s s' [[<- <-]|[? Hi]]%lookup_insert_Some [[<- <-]|[? Hj]]%lookup_insert_Some ? ?;
      [done| | |by eapply (wf_unique _ Hwf)].
    + by destruct (Hk _ _ Hj).
    + by destruct (Hk _ _ Hi).
Qed.

Lemma admit_wf faults now event key fp db :
  admissible event key fp → wf_table db → wf_table (store_admit faults now event key fp db).2.
Proof.
  intros Hev Hwf.
  destruct (admit_inv faults now event key fp db) as [->|(p & ? & ? & ? & ? & ->)]; [done|].
  apply wf_table_insert; [done|by apply admitted_row_wf|done].
Qed.

(** A stored scoped key decides every later admission under it. *)
Lemma admit_existing {PGL : PostgresLaws PG} faults now event key fp db r :
  admissible event key fp →
  find_key db (EventSource_as_str (event_source event)) (IdempotencyKey_expose key) = Some r →
  (store_admit faults now event key fp db).2 = db ∧
  match (store_admit faults now event key fp db).1 with
  | Ok outcome => outcome = resolve fp r
  | Err _ => faults ≠ mkAdmitFaults None None None None ∨
      is_ok (jsonb_in (event_payload event)) = false
  end.
Proof.
  intros Hadm Hk. unfold store_admit, admit_tx, round_trip. rewrite sql_insert_eq, Hk by done.
  destruct faults as [[e|] fi fs fc]; simpl; [by auto|]. destruct fi; simpl; [by auto|].
  destruct (jsonb_in _); simpl; [|by auto]. destruct fs; simpl; [by auto|].
  unfold sql_select_key. rewrite Hk. simpl. unfold resolve.
  case_bool_decide; simpl; destruct fc as [[? []]|]; simpl; auto.
Qed.

(** A fresh scoped key and a fresh identity are admitted. *)
Lemma admit_fresh {PGL : PostgresLaws PG} now event key fp db payload :
  admissible event key fp → jsonb_in (event_payload event) = Ok payload →
  find_key db (EventSource_as_str (event_source event)) (IdempotencyKey_expose key) = None →
  db !! EventId_as_uuid (event_id event) = None →
  store_admit no_faults now event key fp db =
    (Ok (Created (event_id event)),
     <[EventId_as_uuid (event_id event) := admitted_row now event payload key fp]> db).
Proof.
  intros Hadm Hj Hk Hid. unfold store_admit, admit_tx, round_trip.
  rewrite sql_insert_eq, Hj, Hk, Hid by done. simpl. by destruct (event_id event).
Qed.

Lemma find_key_insert db id r :
  wf_table (<[id := r]> db) →
  find_key (<[id := r]> db) (r_source r) (r_idempotency_key r) = Some r.
Proof. intros Hwf. apply (find_key_unique _ id); [done|by simplify_map_eq]. Qed.

(** An identity handed out is the identity of a stored row with the same fingerprint. *)
Lemma admit_answer faults now event key fp db id db' :
  wf_table db → admissible event key fp →
  store_admit faults now event key fp db = (Ok (Created id), db') ∨
  store_admit faults now event key fp db = (Ok (Replayed id), db') →
  ∃ r, find_key db' (EventSource_as_str (event_source event)) (IdempotencyKey_expose key) = Some r ∧
    r_event_id r = EventId_as_uuid id ∧
    r_request_fingerprint r = RequestFingerprint_as_bytes fp ∧ wf_table db'.
Proof.
  intros Hwf Hev Hres. pose proof (admit_wf faults now event key fp db Hev Hwf) as Hwf'.
  unfold store_admit in *. destruct (admit_tx _ _ _ _ _ _) as [[outcome tx]|] eqn:E; [|naive_solver].
  destruct (af_commit faults); [naive_solver|]. simpl in Hwf'.
  apply admit_tx_inv in E as [(payload & -> & ? & ? & ? & ? & ->)|(-> & r & -> & Hr)].
  - destruct Hres; simplify_eq. eexists. split; [by apply (find_key_insert _ _ _ Hwf')|done].
  - unfold resolve in Hres. exists r. case_bool_decide; destruct Hres; by simplify_eq.
Qed.

(** A failed round trip, COMMIT included, is never reported as an outcome; the
    SELECT is a round trip of an admission whose key is taken. *)
Lemma admit_fails faults now event key fp db :
  (af_begin faults ≠ None ∨ af_insert faults ≠ None ∨ af_commit faults ≠ None ∨
   (af_select faults ≠ None ∧
    is_Some (find_key db (EventSource_as_str (event_source event)) (IdempotencyKey_expose key)))) →
  ∃ e, (store_admit faults now event key fp db).1 = Err e.
Proof.
  intros Hf. unfold store_admit. destruct (admit_tx _ _ _ _ _ _) as [[outcome tx]|] eqn:E; [|by eexists].
  destruct (af_commit faults); [by eexists|]. exfalso. unfold admit_tx, round_trip in E.
  destruct (af_begin faults); [done|]. destruct (af_insert faults); [done|].
  destruct Hf as [?|[?|[?|[Hs [r Hk]]]]]; [done..|].
  unfold sql_insert in E. destruct (jsonb_in _); simpl in E; [|done].
  unfold insert_row in E. destruct (negb _); simpl in E; [done|]. rewrite Hk in E. simpl in E.
  by destruct (af_select faults).
Qed.

(** A created identity was free before, and a replayed one was stored already. *)
Lemma admit_identity faults now event key fp db id db' (replayed : bool) :
  store_admit faults now event key fp db =
    (Ok (if replayed then Replayed id else Created id), db') →
  if replayed then db !! EventId_as_uuid id = db' !! EventId_as_uuid id
  else db !! EventId_as_uuid id = None ∧
    ∃ payload, db' !! EventId_as_uuid id = Some (admitted_row now event payload key fp).
Proof.
  unfold store_admit. destruct (admit_tx _ _ _ _ _ _) as [[outcome tx]|] eqn:E; [|done].
  destruct (af_commit faults); [done|]. intros [= -> <-].
  apply admit_tx_inv in E as [(payload & Ho & ? & ? & ? & ? & ->)|(-> & r & Ho & Hr)].
  - destruct replayed; simplify_eq. split; [done|]. exists payload. by simplify_map_eq.
  - unfold resolve in Ho. destruct replayed; [done|]. by case_bool_decide.
Qed.
End admission.

#[export] Hint Resolve wf_table_empty admit_wf : pulse.

(** ** The contract of [admit] *)

Lemma sample_admissible' id payload :
  valid_uuid id → payload ≠ VNull →
  admissible (mkEvent (mkEventId id) sample_source sample_type payload 0) sample_key sample_fp.
Proof.
  intros Hid Hp. split; [done|split_and!; [by apply (validate_label_ok [])..|done]| |done].
  apply (bool_decide_eq_true_1 (valid_key (lit "order-1"))). by vm_compute.
Qed.

Lemma sample_admissible id : valid_uuid id → admissible (sample_event id) sample_key sample_fp.
Proof. intros. by apply sample_admissible'. Qed.

Lemma sample_admissible2 id : valid_uuid id → admissible (sample_event2 id) sample_key sample_fp.
Proof. intros. by apply sample_admissible'. Qed.

Lemma small_uuid id : bool_decide (0 ≤ id < 100) = true → valid_uuid id.
Proof. rewrite bool_decide_eq_true. unfold valid_uuid. lia. Qed.

Section admit_contract.
Context `{SJ : SerdeJson} {PG : Postgres}.
Implicit Types (db : Table) (r : Row).

(** C26. Without a driver failure, [admit] decides every case: a payload JSONB
    refuses is a database error; a scoped key that is already stored answers
    [Replayed] with the original identity when the fingerprints agree and
    [Conflict] otherwise, writing nothing; a fresh key inserts exactly one pending
    row under the event's identity, unless that identity is already taken. No
    CHECK constraint and no internal inconsistency can be the reason of a failure. *)
Theorem admit_spec {PGL : PostgresLaws PG} now event key fp db :
  admissible event key fp →
  store_admit no_faults now event key fp db =
    match jsonb_in (event_payload event) with
    | Err code => (Err (StoreError_from (sql_error code)), db)
    | Ok payload =>
        match find_key db (EventSource_as_str (event_source event)) (IdempotencyKey_expose key) with
        | Some r => (Ok (resolve fp r), db)
        | None =>
            match db !! EventId_as_uuid (event_id event) with
            | Some _ => (Err (SE_Database unique_violation), db)
            | None => (Ok (Created (event_id event)),
                <[EventId_as_uuid (event_id event) := admitted_row now event payload key fp]> db)
            end
        end
    end.
Proof.
  intros Hadm. unfold store_admit, admit_tx, round_trip; simpl. rewrite sql_insert_eq by done.
  destruct (jsonb_in _) as [payload|]; simpl; [|done].
  destruct (find_key _ _ _) as [r|] eqn:Hk; simpl.
  - unfold sql_select_key, resolve. rewrite Hk. simpl. by case_bool_decide.
  - destruct (db !! _); simpl; [done|]. by destruct (event_id event).
Qed.

(** C2. Durability: whatever fails on the way, when [admit] reports success the
    table it leaves holds a row for the scoped key. [Created] names the event's own
    identity and that row is new and pending; [Replayed] names the identity of an
    earlier row with the same fingerprint; [Conflict] means an earlier row with
    another fingerprint; in the last two cases nothing was written. When [admit]
    reports an error, the table is unchanged or holds exactly the new row. *)
Theorem admit_durable faults now event key fp db :
  wf_table db → admissible event key fp →
  let '(res, db') := store_admit faults now event key fp db in
  let stored := find_key db' (EventSource_as_str (event_source event)) (IdempotencyKey_expose key) in
  match res with
  | Ok (Created id) =>
      id = event_id event ∧ db !! EventId_as_uuid id = None ∧
      ∃ payload, jsonb_in (event_payload event) = Ok payload ∧
        db' !! EventId_as_uuid id = Some (admitted_row now event payload key fp) ∧
        stored = db' !! EventId_as_uuid id
  | Ok (Replayed id) =>
      db' = db ∧ ∃ r, stored = Some r ∧ db !! EventId_as_uuid id = Some r ∧
        r_request_fingerprint r = RequestFingerprint_as_bytes fp
  | Ok Conflict =>
      db' = db ∧ ∃ r, stored = Some r ∧
        r_request_fingerprint r ≠ RequestFingerprint_as_bytes fp
  | Err _ =>
      db' = db ∨
      (db !! EventId_as_uuid (event_id event) = None ∧
       ∃ payload, jsonb_in (event_payload event) = Ok payload ∧
         db' = <[EventId_as_uuid (event_id event) := admitted_row now event payload key fp]> db)
  end.
Proof.
  intros Hwf Hev. pose proof (admit_wf faults now event key fp db Hev Hwf) as Hwf'.
  unfold store_admit in *. destruct (admit_tx _ _ _ _ _ _) as [[outcome tx]|] eqn:E; [|by left].
  apply admit_tx_inv in E as [(payload & -> & ? & ? & ? & ? & ->)|(-> & r & -> & Hr)].
  - destruct (af_commit faults) as [[e []]|]; simpl in *; [right; eauto|by left|].
    split_and!; [done..|]. exists payload. rewrite lookup_insert_eq. split_and!; [done..|].
    by apply (find_key_insert _ _ _ Hwf').
  - destruct (af_commit faults) as [[e []]|]; simpl; [by left..|].
    unfold resolve. destruct (find_key_Some _ _ _ _ Hr) as (_ & _ & id & Hid).
    rewrite <-(wf_row_id _ _ (wf_rows _ Hwf _ _ Hid)) in Hid.
    case_bool_decide; simpl; eauto 6.
Qed.

End admit_contract.

Lemma admit_spec_witness :
  admissible (sample_event 3) sample_key sample_fp ∧
  (store_admit no_faults 9 (sample_event 3) sample_key sample_fp sample_db).1 =
    Ok (Replayed (mkEventId 1)).
Proof.
  split; [by apply sample_admissible, small_uuid|].
  rewrite (admit_spec 9 (sample_event 3) sample_key sample_fp sample_db (sample_admissible 3 (small_uuid 3 eq_refl))).
  vm_compute. reflexivity.
Defined.

Lemma sample_db_wf : wf_table sample_db.
Proof. apply admit_wf; [by apply sample_admissible, small_uuid|auto with pulse]. Qed.

Lemma admit_durable_witness :
  wf_table sample_db ∧ admissible (sample_event 3) sample_key sample_fp ∧
  ∃ r, sample_db !! 1 = Some r ∧ r_request_fingerprint r = RequestFingerprint_as_bytes sample_fp.
Proof.
  split; [apply sample_db_wf|]. split; [by apply sample_admissible, small_uuid|].
  pose proof (admit_durable no_faults 9 (sample_event 3) sample_key sample_fp sample_db
    sample_db_wf (sample_admissible 3 (small_uuid 3 eq_refl))) as H.
  assert ((store_admit no_faults 9 (sample_event 3) sample_key sample_fp sample_db) =
    (Ok (Replayed (mkEventId 1)), sample_db)) as E by (vm_compute; reflexivity).
  rewrite E in H. destruct H as (_ & r & _ & Hr & Hf). by exists r.
Defined.
