(* ===== verification/ClaimSpec.v ===== *)
(** * Claims, completion and status lookup

    The functional behaviour of [claim], [complete] and [get] on a table that
    satisfies its invariant: which rows a claim grants and in which order, who
    may complete an event, and that none of the three meets stored data it
    cannot read back. *)

From S2P Require Import Prelude Text Json Crates Reference Event Idempotency Config Schema Store.
From S2P Require Import Fixtures StoreSpec.

Section claims.
Context `{SJ : SerdeJson} {PG : Postgres}.
Implicit Types (db : Table) (r : Row) (cs rows : list Row).

(** ** The candidates *)

#[global] Instance claim_le_total : Total claim_le.
Proof. intros r s. unfold claim_le. lia. Qed.

#[global] Instance claim_le_trans : Transitive claim_le.
Proof. intros r s t. unfold claim_le. lia. Qed.

(** Claimable, unlocked rows, oldest first. *)
Definition queue (now : Z) (locked : gset Uuid) db : list Row :=
  filter (λ r, r_event_id r ∉ locked)
    (merge_sort claim_le (filter (λ r, claimable now r = true) (snd <$> map_to_list db))).

Lemma candidates_queue now limit locked db :
  candidates now limit locked db = take (Z.to_nat limit) (queue now locked db).
Proof. done. Qed.

Lemma queue_perm now locked db :
  queue now locked db ≡ₚ
  filter (λ r, r_event_id r ∉ locked)
    (filter (λ r, claimable now r = true) (snd <$> map_to_list db)).
Proof. unfold queue. by rewrite merge_sort_Permutation. Qed.

Lemma elem_of_queue now locked db r :
  r ∈ queue now locked db ↔
  (∃ id, db !! id = Some r) ∧ claimable now r = true ∧ (r_event_id r ∉ locked).
Proof. rewrite queue_perm, !list_elem_of_filter, elem_of_rows. naive_solver. Qed.

Lemma elem_of_queue_wf now locked db r :
  wf_table db → r ∈ queue now locked db → db !! r_event_id r = Some r.
Proof. intros Hwf ((id & Hr) & _)%elem_of_queue. by rewrite (wf_row_id id r) by by apply Hwf. Qed.

Lemma rows_NoDup db : wf_table db → NoDup (r_event_id <$> (snd <$> map_to_list db)).
Proof.
  intros Hwf. rewrite <-list_fmap_compose.
  rewrite (list_fmap_ext _ fst); [apply NoDup_fst_map_to_list|].
  intros i [id r] Hi%list_elem_of_lookup_2. apply elem_of_map_to_list in Hi. by apply Hwf.
Qed.

Lemma queue_NoDup now locked db : wf_table db → NoDup (r_event_id <$> queue now locked db).
Proof.
  intros Hwf. rewrite queue_perm. pose proof (rows_NoDup db Hwf) as H.
  eapply sublist_NoDup; [exact H|]. apply fmap_sublist.
  etransitivity; apply sublist_filter.
Qed.

Lemma queue_sorted now locked db : StronglySorted claim_le (queue now locked db).
Proof.
  unfold queue. apply StronglySorted_filter, Sorted_StronglySorted; [apply _|].
  apply Sorted_merge_sort, _.
Qed.

(** ** The update of the candidates *)

(** What the claim hands to the caller for a candidate. *)
Definition delivery r : ClaimedEvent :=
  mkClaimedEvent
    (mkEvent (EventId_from_uuid (r_event_id r)) (mkEventSource (r_source r))
      (mkEventType (r_event_type r)) (r_payload r)
      (if 0 <=? r_accepted_at r then r_accepted_at r * 1000 else 0))
    (r_delivery_attempts r + 1) (bool_decide (r_status r = lit "PROCESSING")).

(** Claimable rows are pending, or processing with an expired lease. *)
Lemma claimable_spec now r :
  row_checks r = true →
  claimable now r = true ↔
  row_pending r ∨ ∃ o s l, row_processing o s l r ∧ l ≤ now.
Proof.
  intros (_ & _ & Hs)%row_checks_spec. unfold claimable.
  rewrite orb_true_iff, andb_true_iff, !bool_decide_eq_true. split.
  - intros [Hp|[Hp Hl]]; destruct Hs as [H|[(o & s & l & H)|(t & H)]];
      try (destruct H as [Hq _]; rewrite Hp in Hq; discriminate Hq); [by left|].
    right. exists o, s, l. split; [done|]. destruct H as (_ & _ & _ & Hle & _).
    rewrite Hle in Hl. lia.
  - intros [[? _]|(o & s & l & (? & _ & _ & -> & _) & ?)]; [by left|right].
    split; [done|lia].
Qed.

Lemma content_claim_set now owner secs r :
  content_changed r (claim_set now owner secs r) = false ∧
  content_checks (claim_set now owner secs r) = content_checks r.
Proof. unfold content_changed; simpl. by rewrite !bool_decide_true. Qed.

Lemma claim_set_checks now owner secs r :
  row_checks r = true → claimable now r = true →
  row_checks (claim_set now owner secs r) = true.
Proof.
  intros Hr Hc. pose proof (proj1 (claimable_spec now r Hr) Hc) as Hs.
  apply row_checks_spec in Hr as (Hcc & Ha & _). apply row_checks_spec.
  rewrite (proj2 (content_claim_set _ _ _ _)). simpl. split_and!; [done|lia|right; left].
  exists owner, now, (now + make_interval secs).
  destruct Hs as [(_ & _ & _ & _ & ?)|(o & s & l & (_ & _ & _ & _ & ? & _) & _)];
    repeat split; simpl; done || lia.
Qed.

Lemma claimed_row_eq now owner secs r :
  row_checks r = true → claimable now r = true →
  claimed_row now owner secs r =
    if r_delivery_attempts r + 1 <=? i32_max then Ok (claim_set now owner secs r)
    else Err numeric_value_out_of_range.
Proof.
  intros Hr Hc. unfold claimed_row, update_row.
  by rewrite (proj1 (content_claim_set _ _ _ _)), claim_set_checks.
Qed.

(** Every row a claim returns reads back. *)
Lemma claimed_event_eq now owner secs id r :
  wf_row id r → claimed_event (claim_set now owner secs r, r_status r) = Ok (delivery r).
Proof.
  intros [_ _ Hc Hs Ht _]. apply row_checks_spec in Hc as (_ & Ha & _).
  unfold claimed_event, delivery, claim_set; simpl.
  rewrite (proj2 (EventSource_parse_ok _ _) (conj Hs eq_refl)),
    (proj2 (EventType_parse_ok _ _) (conj Ht eq_refl)); simpl.
  rewrite (proj2 (Z.leb_le 0 (r_delivery_attempts r + 1))) by lia. done.
Qed.

Lemma store_rows_notin rows db id :
  id ∉ (r_event_id <$> rows) → store_rows rows db !! id = db !! id.
Proof.
  induction rows as [|r rows IH]; simpl; [done|]. intros [? ?]%not_elem_of_cons.
  rewrite lookup_insert_ne by done. by apply IH.
Qed.

Lemma store_rows_in rows db r :
  NoDup (r_event_id <$> rows) → r ∈ rows → store_rows rows db !! r_event_id r = Some r.
Proof.
  induction rows as [|s rows IH]; simpl; [by intros _ ?%not_elem_of_nil|].
  intros [Hs Hnd]%NoDup_cons [->|Hr]%elem_of_cons; [by simplify_map_eq|].
  rewrite lookup_insert_ne; [by apply IH|]. intros E. apply Hs. rewrite E.
  by apply list_elem_of_fmap_2.
Qed.

(** The table after a claim granted [cs]. *)
Lemma store_rows_claimed now owner secs cs db id :
  NoDup (r_event_id <$> cs) → (∀ r, r ∈ cs → db !! r_event_id r = Some r) →
  store_rows (claim_set now owner secs <$> cs) db !! id =
    if decide (id ∈ (r_event_id <$> cs)) then claim_set now owner secs <$> db !! id else db !! id.
Proof.
  intros Hnd Hcs. set (rows := claim_set now owner secs <$> cs).
  assert (r_event_id <$> rows = r_event_id <$> cs) as Hids.
  { unfold rows. rewrite <-list_fmap_compose. by apply list_fmap_ext. }
  case_decide as Hid.
  - apply list_elem_of_fmap in Hid as (r & -> & Hr). rewrite Hcs by done. simpl.
    apply (store_rows_in rows db (claim_set now owner secs r)); [by rewrite Hids|].
    by apply list_elem_of_fmap_2.
  - apply store_rows_notin. by rewrite Hids.
Qed.

Lemma collect_claimed now owner secs cs :
  (∀ r, r ∈ cs → row_checks r = true ∧ claimable now r = true) →
  collect (claimed_row now owner secs <$> cs) =
    if forallb (λ r, r_delivery_attempts r + 1 <=? i32_max) cs
    then Ok (claim_set now owner secs <$> cs) else Err numeric_value_out_of_range.
Proof.
  induction cs as [|r cs IH]; intros Hcs; [done|]. rewrite !fmap_cons. cbn [collect forallb].
  destruct (Hcs r) as [? ?]; [by left|]. rewrite claimed_row_eq by done.
  destruct (_ <=? _); simpl; [|done].
  rewrite IH by (intros ? ?; apply Hcs; by right). by destruct (forallb _ cs).
Qed.

Lemma candidates_in now limit locked db r :
  r ∈ candidates now limit locked db → r ∈ queue now locked db.
Proof. rewrite candidates_queue. apply subseteq_take. Qed.

Lemma candidates_ok now limit locked db r :
  wf_table db → r ∈ candidates now limit locked db →
  db !! r_event_id r = Some r ∧ claimable now r = true ∧ (r_event_id r ∉ locked) ∧
  wf_row (r_event_id r) r.
Proof.
  intros Hwf Hr%candidates_in. pose proof (elem_of_queue_wf _ _ _ _ Hwf Hr) as Hid.
  apply elem_of_queue in Hr as (_ & ? & ?). split_and!; [done..|by apply Hwf].
Qed.

Lemma candidates_NoDup now limit locked db :
  wf_table db → NoDup (r_event_id <$> candidates now limit locked db).
Proof.
  intros Hwf. rewrite candidates_queue, fmap_take.
  eapply sublist_NoDup; [by apply queue_NoDup|apply sublist_take].
Qed.

(** A claim takes the oldest rows of the queue: a row left behind is younger
    than every row taken, and the limit is used up. *)
Lemma candidates_oldest now limit locked db r :
  r ∈ queue now locked db → r ∉ candidates now limit locked db →
  length (candidates now limit locked db) = Z.to_nat limit ∧
  ∀ c, c ∈ candidates now limit locked db → claim_le c r.
Proof.
  rewrite candidates_queue. intros Hr Hn. pose proof (queue_sorted now locked db) as Hs.
  rewrite <-(take_drop (Z.to_nat limit) (queue now locked db)) in Hr, Hs.
  apply elem_of_app in Hr as [?|Hd]; [done|]. split.
  - apply list_elem_of_lookup_1 in Hd as (i & Hi%lookup_lt_Some).
    rewrite length_drop in Hi. apply length_take_le. lia.
  - intros c Hc. by eapply StronglySorted_app_1_elem_of.
Qed.

(** A row with few enough rows before it is a candidate. *)
Lemma candidates_enough now limit locked db r :
  wf_table db → 0 ≤ limit → r ∈ queue now locked db →
  Z.of_nat (length (filter (λ c, claim_le c r) (queue now locked db))) ≤ limit →
  r ∈ candidates now limit locked db.
Proof.
  intros Hwf Hl Hr Hlen. destruct (decide (r ∈ candidates now limit locked db)) as [|Hn]; [done|].
  exfalso. destruct (candidates_oldest now limit locked db r Hr Hn) as [Hc Hle].
  assert (r :: candidates now limit locked db ⊆+
    filter (λ c, claim_le c r) (queue now locked db)) as Hs%submseteq_length.
  { apply NoDup_submseteq.
    - constructor; [done|]. eapply NoDup_fmap_1, (candidates_NoDup now limit locked db Hwf).
    - intros c [->|Hcin]%elem_of_cons; apply list_elem_of_filter; split; [right; lia|done|auto|].
      by eapply candidates_in. }
  simpl in Hs. lia.
Qed.

Lemma sql_claim_eq now owner limit secs locked db :
  wf_table db →
  let cs := candidates now limit locked db in
  sql_claim now owner limit secs locked db =
    if forallb (λ r, r_delivery_attempts r + 1 <=? i32_max) cs
    then Ok (returning_order (zip (claim_set now owner secs <$> cs) (r_status <$> cs)),
      store_rows (claim_set now owner secs <$> cs) db)
    else Err numeric_value_out_of_range.
Proof.
  intros Hwf cs. unfold sql_claim. fold cs. rewrite collect_claimed.
  - by destruct (forallb _ cs).
  - intros r Hr. apply candidates_ok in Hr as (_ & ? & _ & [_ _ ? _ _ _]); done.
Qed.

Lemma zip_fmap {A B C} (f : A → B) (g : A → C) l : zip (f <$> l) (g <$> l) = (λ x, (f x, g x)) <$> l.
Proof. induction l; simpl; by f_equal. Qed.

Lemma collect_deliveries {PGL : PostgresLaws PG} now owner secs cs :
  (∀ r, r ∈ cs → wf_row (r_event_id r) r) →
  ∃ evs,
    collect (claimed_event <$> returning_order
      (zip (claim_set now owner secs <$> cs) (r_status <$> cs))) = Ok evs ∧
    evs ≡ₚ delivery <$> cs.
Proof.
  intros Hcs. rewrite zip_fmap. apply (collect_perm (claimed_event <$>
    ((λ r, (claim_set now owner secs r, r_status r)) <$> cs))).
  - apply fmap_Permutation, returning_order_perm.
  - rewrite <-list_fmap_compose. apply collect_fmap_Ok, Forall_forall.
    intros r Hr. by apply (claimed_event_eq now owner secs (r_event_id r)), Hcs.
Qed.

(** ** What a claim grants *)

(** [cs] is what a claim may take: distinct stored rows that are claimable and
    not locked by another session, at most [limit] of them, and no older row is
    passed over. *)
Record grants (now limit : Z) (locked : gset Uuid) db cs : Prop := {
  grants_NoDup : NoDup (r_event_id <$> cs);
  grants_limit : Z.of_nat (length cs) ≤ limit;
  grants_rows : ∀ r, r ∈ cs →
    db !! r_event_id r = Some r ∧ (r_event_id r ∉ locked) ∧
    (row_pending r ∨ ∃ o s l, row_processing o s l r ∧ l ≤ now);
  grants_oldest : ∀ id r, db !! id = Some r → id ∉ locked →
    (row_pending r ∨ ∃ o s l, row_processing o s l r ∧ l ≤ now) → r ∉ cs →
    Z.of_nat (length cs) = limit ∧ ∀ c, c ∈ cs → claim_le c r
}.

Lemma candidates_grants now limit locked db :
  0 ≤ limit → wf_table db → grants now limit locked db (candidates now limit locked db).
Proof.
  intros Hl Hwf. split.
  - by apply candidates_NoDup.
  - rewrite candidates_queue, length_take. lia.
  - intros r (? & ? & ? & Hr)%candidates_ok; [|done].
    split_and!; [done..|]. by apply claimable_spec; [apply Hr|].
  - intros id r Hr Hid Hc Hn. pose proof (wf_rows _ Hwf _ _ Hr) as Hwr.
    apply (candidates_oldest now limit locked db r) in Hn as [Hlen ?].
    { split; [|done]. rewrite Hlen. lia. }
    apply elem_of_queue. rewrite (wf_row_id _ _ Hwr).
    split_and!; [by exists id| |done]. apply claimable_spec; [apply Hwr|done].
Qed.

(** The table after a claim: granted rows are updated, all others untouched. *)
Definition claimed_table (now : Z) (owner : Uuid) (secs : Duration) cs db db' : Prop :=
  ∀ id, db' !! id =
    if decide (id ∈ (r_event_id <$> cs)) then claim_set now owner secs <$> db !! id else db !! id.

Lemma sql_claim_cases now owner limit secs locked db :
  0 ≤ limit → wf_table db →
  let cs := candidates now limit locked db in
  (sql_claim now owner limit secs locked db = Err numeric_value_out_of_range ∧
   ∃ r, r ∈ cs ∧ r_delivery_attempts r = i32_max) ∨
  (∃ db', sql_claim now owner limit secs locked db =
     Ok (returning_order (zip (claim_set now owner secs <$> cs) (r_status <$> cs)), db') ∧
   (∀ r, r ∈ cs → r_delivery_attempts r < i32_max) ∧
   claimed_table now owner secs cs db db').
Proof.
  intros Hl Hwf cs. rewrite sql_claim_eq by done. fold cs.
  destruct (forallb _ cs) eqn:E; [right|left].
  - eexists. split; [done|]. rewrite forallb_Forall, Forall_forall in E. split.
    { intros r Hr. apply E in Hr. lia. }
    intros id. apply store_rows_claimed; [by apply candidates_NoDup|].
    intros r Hr. by eapply candidates_ok.
  - split; [done|]. apply not_true_iff_false in E.
    rewrite forallb_Forall, <-Exists_Forall_neg in E by (intros; by destruct (_ <=? _); auto).
    apply Exists_exists in E as (r & Hr & Hm). exists r. split; [done|].
    apply candidates_ok in Hr as (_ & _ & _ & [_ _ _ _ _ ?]); [|done]. lia.
Qed.

(** Under any fault, a claim leaves the table alone or grants what it may. *)
Lemma claim_inv fault now locked owner limit lease db :
  wf_table db →
  (claim fault now locked owner limit lease db).2 = db ∨
  ∃ cs, (∀ r, r ∈ cs → db !! r_event_id r = Some r ∧ claimable now r = true ∧
           r_delivery_attempts r < i32_max) ∧
    claimed_table now (WorkerId_as_uuid owner) lease cs db
      (claim fault now locked owner limit lease db).2.
Proof.
  intros Hwf. unfold claim. destruct (limit =? 0); [by left|].
  set (lim := if limit <=? i64_max then limit else i64_max). set (cs := candidates now lim locked db).
  destruct (Z.le_gt_cases 0 lim) as [Hl|Hl].
  - destruct (sql_claim_cases now (WorkerId_as_uuid owner) lim lease locked db Hl Hwf)
      as [[-> _]|(db' & -> & Hmax & Ht)]; simpl; [left; by repeat case_match|].
    destruct fault as [[e []]|]; simpl; [right|by left|right]; exists cs;
      (split; [|done]); intros r Hr; (split; [by eapply candidates_ok|]);
      (split; [by eapply candidates_ok|by apply Hmax]).
  - left. unfold sql_claim.
    assert (candidates now lim locked db = []) as ->; [|by simpl; repeat case_match].
    rewrite candidates_queue. by replace (Z.to_nat lim) with 0%nat by lia.
Qed.

(** The event a row delivers; it only depends on the immutable columns. *)
Definition stored_event r : Event := claim_event (delivery r).

(** What a successful claim hands out, and the table it leaves. *)
Lemma claim_deliveries {PGL : PostgresLaws PG} fault now locked owner limit lease db evs db' :
  wf_table db → 0 ≤ limit → claim fault now locked owner limit lease db = (Ok evs, db') →
  ∃ cs, evs ≡ₚ delivery <$> cs ∧ claimed_table now (WorkerId_as_uuid owner) lease cs db db' ∧
    ∀ r, r ∈ cs → db !! r_event_id r = Some r.
Proof.
  intros Hwf Hl. unfold claim. destruct (Z.eqb_spec limit 0) as [->|Hne].
  { intros [= <- <-]. exists []. split_and!; [done| |by intros ? ?%not_elem_of_nil].
    intros id. by rewrite decide_False by apply not_elem_of_nil. }
  destruct fault as [[]|]; [done|]. set (lim := if limit <=? i64_max then limit else i64_max).
  assert (0 ≤ lim) as Hlim by (unfold lim, i64_max; case_match; lia).
  destruct (sql_claim_cases now (WorkerId_as_uuid owner) lim lease locked db Hlim Hwf)
    as [[-> _]|(db1 & -> & _ & Ht)]; [done|]. simpl.
  destruct (collect_deliveries now (WorkerId_as_uuid owner) lease (candidates now lim locked db))
    as (evs' & -> & Hp); [intros r Hr; by eapply candidates_ok|].
  intros [= <- <-]. exists (candidates now lim locked db). split_and!; [done|done|].
  intros r Hr. by eapply candidates_ok.
Qed.

(** A claim hands out at most [limit] events. *)
Lemma claim_length {PGL : PostgresLaws PG} fault now locked owner limit lease db evs db' :
  0 ≤ limit → claim fault now locked owner limit lease db = (Ok evs, db') →
  Z.of_nat (length evs) ≤ limit.
Proof.
  intros Hl. unfold claim. destruct (limit =? 0); [by intros [= <- _]|].
  destruct fault as [[]|]; [done|]. unfold sql_claim. intros [= H _].
  destruct (collect (claimed_row _ _ _ <$> _)) as [rows|] eqn:Hc; simpl in H; [|done].
  apply collect_Ok, (f_equal length) in H. rewrite !length_fmap in H. rewrite <-H.
  rewrite returning_order_perm, length_zip_with, !length_fmap.
  etransitivity; [apply Nat2Z.inj_le, Nat.le_min_r|].
  rewrite candidates_queue, length_take. case_match; lia.
Qed.

Lemma claim_set_wf now owner secs id r :
  wf_row id r → claimable now r = true → r_delivery_attempts r < i32_max →
  wf_row id (claim_set now owner secs r).
Proof. intros [] ? ?. split; simpl; [done|done|by apply claim_set_checks|done|done|lia]. Qed.
End claims.

Section completion.
Context `{SJ : SerdeJson}.
Implicit Types (db : Table) (r : Row).

(** ** Completion *)

Lemma complete_set_checks now owner started expires r :
  row_checks r = true → row_processing owner started expires r →
  row_checks (complete_set now r) = true.
Proof.
  intros (Hc & Ha & _)%row_checks_spec (_ & _ & _ & _ & _ & ?). apply row_checks_spec.
  split_and!; [exact Hc|done|]. right; right. exists now. by repeat split.
Qed.

Lemma update_complete now owner started expires r :
  row_checks r = true → row_processing owner started expires r →
  update_row r (complete_set now r) = Ok (complete_set now r).
Proof.
  intros Hc Hp. unfold update_row.
  assert (content_changed r (complete_set now r) = false) as ->.
  { unfold content_changed; simpl. by rewrite !bool_decide_true. }
  by rewrite (complete_set_checks now owner started expires).
Qed.

(** Who holds the claim of an event. *)
Definition holder db (id : Uuid) : option Uuid :=
  r ← db !! id;
  if bool_decide (r_status r = lit "PROCESSING") then r_processing_owner r else None.

Lemma holder_Some db id owner :
  wf_table db →
  holder db id = Some owner ↔ ∃ r s l, db !! id = Some r ∧ row_processing owner s l r.
Proof.
  intros Hwf. unfold holder. destruct (db !! id) as [r|] eqn:Hr; simpl; [|naive_solver].
  pose proof (wf_row_checks _ _ (wf_rows _ Hwf _ _ Hr)) as Hc.
  apply row_checks_spec in Hc as (_ & _ & Hs).
  case_bool_decide as Hp; (split; [|intros (? & s & l & [= <-] & H); by destruct H as (? & ? & _)]);
    [|done].
  intros Ho. exists r.
  destruct Hs as [H|[(o & s & l & H)|(t & H)]];
    try (destruct H as [Hq _]; rewrite Hp in Hq; discriminate Hq).
  exists s, l. split; [done|]. destruct H as (? & ? & ?). by simplify_eq.
Qed.

Lemma sql_complete_eq now id owner db :
  wf_table db →
  sql_complete now id owner db =
    if decide (holder db id = Some owner) then Ok (1, alter (complete_set now) id db)
    else Ok (0, db).
Proof.
  intros Hwf. unfold sql_complete. case_decide as Hh.
  - pose proof Hh as (r & s & l & Hr & Hp)%holder_Some; [|done].
    rewrite Hr, bool_decide_true by (by destruct Hp as (? & ? & _)).
    rewrite (update_complete now owner s l); [|by eapply wf_row_checks, Hwf|done]. simpl.
    do 2 f_equal. apply map_eq. intros i. destruct (decide (i = id)) as [->|].
    + by rewrite lookup_insert_eq, lookup_alter_eq, Hr.
    + by rewrite lookup_insert_ne, lookup_alter_ne.
  - unfold holder in Hh. destruct (db !! id) as [r|]; [|done]. simpl in Hh.
    rewrite bool_decide_false; [done|]. intros [H ?].
    by rewrite bool_decide_true in Hh.
Qed.

Lemma complete_inv fault now id owner db :
  wf_table db →
  (complete fault now id owner db).2 = db ∨
  (holder db (EventId_as_uuid id) = Some (WorkerId_as_uuid owner) ∧
   (complete fault now id owner db).2 = alter (complete_set now) (EventId_as_uuid id) db).
Proof.
  intros Hwf. unfold complete. rewrite sql_complete_eq by done.
  case_decide; simpl; [|left; by repeat case_match].
  destruct fault as [[e []]|]; simpl; auto.
Qed.

Lemma holder_completed now id db : holder (alter (complete_set now) id db) id = None.
Proof. unfold holder. rewrite lookup_alter_eq. by destruct (db !! id). Qed.

Lemma complete_set_wf now id owner s l r :
  wf_row id r → row_processing owner s l r → wf_row id (complete_set now r).
Proof.
  intros [] ?. split; simpl; [done|done|by eapply complete_set_checks|done..].
Qed.
End completion.

(** ** Both keep the table well formed *)

Section preservation.
Context `{SJ : SerdeJson} {PG : Postgres}.
Implicit Types (db : Table) (r : Row).

(** Updating rows in place, without touching source and key. *)
Lemma wf_table_update db db' :
  wf_table db →
  (∀ id r', db' !! id = Some r' → ∃ r, db !! id = Some r ∧ r_source r' = r_source r ∧
    r_idempotency_key r' = r_idempotency_key r ∧ wf_row id r') →
  wf_table db'.
Proof.
  intros Hwf Hup. split.
  - intros id r' (r & _ & _ & _ & ?)%Hup. done.
  - intros i j r' s' (r & ? & -> & -> & _)%Hup (s & ? & -> & -> & _)%Hup. by apply Hwf.
Qed.

Lemma claim_wf fault now locked owner limit lease db :
  wf_table db → wf_table (claim fault now locked owner limit lease db).2.
Proof.
  intros Hwf. destruct (claim_inv fault now locked owner limit lease db Hwf)
    as [->|(cs & Hcs & Ht)]; [done|].
  apply (wf_table_update db); [done|]. intros id r'. rewrite Ht. case_decide as Hid.
  - apply list_elem_of_fmap in Hid as (r & -> & Hr). destruct (Hcs r Hr) as (Hdb & ? & ?).
    rewrite Hdb. intros [= <-]. exists r. split_and!; [done..|].
    apply claim_set_wf; [by apply Hwf|done..].
  - intros Hr. exists r'. split_and!; [done..|by apply Hwf].
Qed.

Lemma complete_wf fault now id owner db :
  wf_table db → wf_table (complete fault now id owner db).2.
Proof.
  intros Hwf. destruct (complete_inv fault now id owner db Hwf) as [->|[Hh ->]]; [done|].
  apply holder_Some in Hh as (r & s & l & Hr & Hp); [|done].
  apply (wf_table_update db); [done|]. intros i r'.
  intros [(<- & x & Hx & ->)|[? ?]]%lookup_alter_Some.
  - exists x. split_and!; [done..|]. rewrite Hr in Hx. injection Hx as <-.
    eapply complete_set_wf; [by apply Hwf|done].
  - exists r'. split_and!; [done..|by apply Hwf].
Qed.
End preservation.

#[export] Hint Resolve claim_wf complete_wf : pulse.

(** ** The contracts of [claim], [complete] and [get] *)

Section contracts.
Context `{SJ : SerdeJson} {PG : Postgres}.
Implicit Types (db : Table) (r : Row).

(** C12. [claim] on a well-formed table, without a driver failure: it grants
    distinct claimable rows (pending, or processing under a lease that has
    expired) not locked by another session, at most [limit] of them and never
    past an older claimable row; each becomes PROCESSING under the caller with a
    lease from now and one more attempt, all other rows stay as they were, and the
    caller gets one readable delivery per granted row. The only failure is the
    overflow of a 32-bit attempt counter, and then nothing changes. *)
Theorem claim_spec {PGL : PostgresLaws PG} now locked owner limit lease db :
  wf_table db → 0 ≤ limit ≤ i64_max →
  let '(res, db') := claim None now locked owner limit lease db in
  ∃ cs, grants now limit locked db cs ∧
    match res with
    | Ok evs =>
        evs ≡ₚ delivery <$> cs ∧ claimed_table now (WorkerId_as_uuid owner) lease cs db db'
    | Err e =>
        e = SE_Database numeric_value_out_of_range ∧ db' = db ∧
        ∃ r, r ∈ cs ∧ r_delivery_attempts r = i32_max
    end.
Proof.
  intros Hwf Hl. pose proof (candidates_grants now limit locked db (proj1 Hl) Hwf) as Hg.
  unfold claim. destruct (Z.eqb_spec limit 0) as [->|Hne].
  { exists (candidates now 0 locked db). by rewrite candidates_queue in *. }
  rewrite (proj2 (Z.leb_le _ _)) by lia.
  destruct (sql_claim_cases now (WorkerId_as_uuid owner) limit lease locked db (proj1 Hl) Hwf)
    as [[-> ?]|(db' & -> & _ & Ht)]; simpl; [by eexists|].
  destruct (collect_deliveries now (WorkerId_as_uuid owner) lease
    (candidates now limit locked db)) as (evs & -> & Hp); [|by eexists].
  intros r Hr. by eapply candidates_ok.
Qed.

(** Crash recovery: an event left PROCESSING by a worker that died is handed to
    the next claim with room for it once its lease has expired. If fewer than
    [limit] claimable rows come before it (and no attempt counter is exhausted),
    the claim succeeds, delivers the event marked as reclaimed with the next
    attempt number, and makes the caller its holder. *)
Theorem expired_lease_reclaimed {PGL : PostgresLaws PG} now locked owner limit lease db id r o s l :
  wf_table db → db !! id = Some r → row_processing o s l r → l ≤ now → id ∉ locked →
  Z.of_nat (length (filter (λ c, claim_le c r) (queue now locked db))) ≤ limit ≤ i64_max →
  (∀ id' r', db !! id' = Some r' → r_delivery_attempts r' < i32_max) →
  ∃ evs db' c, claim None now locked owner limit lease db = (Ok evs, db') ∧
    c ∈ evs ∧ event_id (claim_event c) = mkEventId id ∧ claim_reclaimed c = true ∧
    claim_attempt c = r_delivery_attempts r + 1 ∧
    holder db' id = Some (WorkerId_as_uuid owner).
Proof.
  intros Hwf Hr Hp Hexp Hlock [Hlim Hmax] Hatt.
  pose proof (wf_row_id _ _ (wf_rows _ Hwf _ _ Hr)) as Hid.
  assert (r ∈ queue now locked db) as Hq.
  { apply elem_of_queue. rewrite Hid. split_and!; [by exists id| |done].
    apply claimable_spec; [by apply (wf_rows _ Hwf id)|]. right. by exists o, s, l. }
  assert (0 ≤ limit) as Hl by lia.
  pose proof (candidates_enough now limit locked db r Hwf Hl Hq Hlim) as Hin.
  unfold claim. destruct (Z.eqb_spec limit 0) as [->|Hne].
  { by rewrite candidates_queue in Hin; apply not_elem_of_nil in Hin. }
  rewrite (proj2 (Z.leb_le _ _) Hmax).
  destruct (sql_claim_cases now (WorkerId_as_uuid owner) limit lease locked db Hl Hwf)
    as [[_ (x & Hx & Hov)]|(db' & -> & _ & Ht)].
  { apply candidates_ok in Hx as (Hx & _); [|done]. apply Hatt in Hx. lia. }
  simpl. destruct (collect_deliveries now (WorkerId_as_uuid owner) lease
    (candidates now limit locked db)) as (evs & -> & Hpm); [intros x Hx; by eapply candidates_ok|].
  exists evs, db', (delivery r). split; [done|]. split.
  { rewrite Hpm. by apply list_elem_of_fmap_2. }
  unfold delivery; simpl. rewrite Hid. destruct Hp as (Hst & _). split_and!; try done.
  - by rewrite bool_decide_true.
  - unfold holder. rewrite Ht, decide_True, Hr; [done|]. rewrite <-Hid. by apply list_elem_of_fmap_2.
Qed.

(** C13. [complete] on a well-formed table, without a driver failure, always
    answers: [true] exactly when the caller holds the claim of the event, in which
    case the row becomes PROCESSED and nothing else changes, and [false] with an
    unchanged table otherwise (unknown event, pending, processed, or held by
    another worker). A completed event cannot be completed again by anybody. *)
Theorem complete_spec now id owner db :
  wf_table db →
  complete None now id owner db =
    (if decide (holder db (EventId_as_uuid id) = Some (WorkerId_as_uuid owner))
     then (Ok true, alter (complete_set now) (EventId_as_uuid id) db) else (Ok false, db)) ∧
  ∀ now' owner',
    complete None now' id owner' (alter (complete_set now) (EventId_as_uuid id) db) =
      (Ok false, alter (complete_set now) (EventId_as_uuid id) db).
Proof.
  intros Hwf. split.
  - unfold complete. rewrite sql_complete_eq by done. by case_decide.
  - intros now' owner'. unfold complete, sql_complete. rewrite lookup_alter_eq.
    by destruct (db !! EventId_as_uuid id).
Qed.

(** [get] without a failure, on every branch. *)
Lemma get_ok id db :
  wf_table db →
  ∃ o, get None id db = Ok o ∧
    match o with
    | None => db !! EventId_as_uuid id = None
    | Some rec =>
        ∃ r, db !! EventId_as_uuid id = Some r ∧
          rec_event_id rec = id ∧ rec_source rec = r_source r ∧
          rec_event_type rec = r_event_type r ∧ as_db_str (rec_status rec) = r_status r ∧
          rec_accepted_at rec = to_char_utc (r_accepted_at r) ∧
          rec_processed_at rec = to_char_utc <$> r_processed_at r ∧
          (rec_status rec = Processed ↔ is_some (rec_processed_at rec) = true)
    end.
Proof.
  intros Hwf. unfold get. simpl. destruct (db !! _) as [r|] eqn:Hr; simpl; [|by exists None].
  destruct (wf_rows _ Hwf _ _ Hr) as [Hid _ Hc _ _ _]. apply row_checks_spec in Hc as (_ & _ & Hs).
  destruct Hs as [(Hst & _ & _ & _ & Hp)|[(o & s & l & Hst & _ & _ & _ & Hp & _)|
    (t & Hst & _ & _ & Hp & _)]]; rewrite Hst; simpl; eexists; (split; [done|]); exists r;
    simpl; rewrite Hst, Hp, Hid; destruct id; simpl; split_and!; done || by split.
Qed.

(** C28. [get] on a well-formed table never meets a status it cannot read: it
    returns nothing for an unknown event and otherwise the row's own fields, with
    a processing time exactly when the status is PROCESSED. *)
Theorem get_spec id db :
  wf_table db →
  match get None id db with
  | Err _ => False
  | Ok None => db !! EventId_as_uuid id = None
  | Ok (Some rec) =>
      ∃ r, db !! EventId_as_uuid id = Some r ∧
        rec_event_id rec = id ∧ rec_source rec = r_source r ∧
        rec_event_type rec = r_event_type r ∧ as_db_str (rec_status rec) = r_status r ∧
        rec_accepted_at rec = to_char_utc (r_accepted_at r) ∧
        rec_processed_at rec = to_char_utc <$> r_processed_at r ∧
        (rec_status rec = Processed ↔ is_some (rec_processed_at rec) = true)
  end.
Proof. intros Hwf. destruct (get_ok id db Hwf) as (o & -> & Ho). by destruct o. Qed.
End contracts.

Lemma sample_claimed_wf : wf_table sample_claimed.
Proof. unfold sample_claimed. auto using sample_db_wf with pulse. Qed.

Lemma claim_spec_witness :
  wf_table sample_db ∧ 0 ≤ 10 ≤ i64_max ∧
  ∃ cs, grants 100 10 ∅ sample_db cs ∧ length cs = 1%nat.
Proof.
  split; [apply sample_db_wf|]. assert (0 ≤ 10 ≤ i64_max) as Hl by (unfold i64_max; lia). split; [exact Hl|].
  pose proof (claim_spec 100 ∅ (mkWorkerId 7) 10 sample_lease sample_db sample_db_wf Hl) as H.
  assert (match (claim None 100 ∅ (mkWorkerId 7) 10 sample_lease sample_db).1 with
    Ok [_] => true | _ => false end = true) as Hc by (vm_compute; reflexivity).
  destruct (claim None 100 ∅ (mkWorkerId 7) 10 sample_lease sample_db) as [res db'].
  cbn [fst] in Hc. destruct res as [[|e [|]]|]; try discriminate Hc.
  destruct H as (cs & Hg & Hp & _). exists cs. split; [exact Hg|].
  apply Permutation_length in Hp. rewrite length_fmap in Hp. exact (eq_sym Hp).
Defined.

Lemma complete_spec_witness :
  wf_table sample_claimed ∧
  (complete None 200 (mkEventId 1) (mkWorkerId 7) sample_claimed).1 = Ok true ∧
  (complete None 200 (mkEventId 1) (mkWorkerId 8) sample_claimed).1 = Ok false.
Proof.
  split; [apply sample_claimed_wf|].
  rewrite (proj1 (complete_spec 200 (mkEventId 1) (mkWorkerId 7) sample_claimed sample_claimed_wf)).
  rewrite (proj1 (complete_spec 200 (mkEventId 1) (mkWorkerId 8) sample_claimed sample_claimed_wf)).
  split; vm_compute; reflexivity.
Defined.

Lemma get_spec_witness :
  wf_table sample_claimed ∧
  ∃ rec, get None (mkEventId 1) sample_claimed = Ok (Some rec) ∧ rec_event_id rec = mkEventId 1.
Proof.
  split; [apply sample_claimed_wf|].
  pose proof (get_spec (mkEventId 1) sample_claimed sample_claimed_wf) as H.
  destruct (get None (mkEventId 1) sample_claimed) as [[rec|]|e] eqn:E.
  - exists rec. split; [reflexivity|]. by destruct H as (r & _ & ? & _).
  - vm_compute in E. discriminate E.
  - destruct H.
Defined.

Lemma expired_lease_reclaimed_witness :
  ∃ evs db' c, claim None 30000100 ∅ (mkWorkerId 8) 1 sample_lease sample_claimed = (Ok evs, db') ∧
    c ∈ evs ∧ claim_attempt c = 2.
Proof.
  destruct (sample_claimed !! 1) as [r|] eqn:E; [|vm_compute in E; discriminate E].
  assert (row_processing 7 100 30000100 r) as Hp.
  { vm_compute in E. injection E as <-. repeat split. discriminate. }
  assert (Z.of_nat (length (filter (λ c, claim_le c r) (queue 30000100 ∅ sample_claimed))) ≤ 1 ≤
    i64_max) as Hl.
  { vm_compute in E. injection E as <-. split; vm_compute; discriminate. }
  assert (∀ id' r', sample_claimed !! id' = Some r' → r_delivery_attempts r' < i32_max) as Ha.
  { assert (map_Forall (λ _ r, r_delivery_attempts r < i32_max) sample_claimed) as H.
    { apply (bool_decide_eq_true_1 (map_Forall (λ _ r, r_delivery_attempts r < i32_max) sample_claimed)).
      vm_compute. reflexivity. }
    exact H. }
  destruct (expired_lease_reclaimed 30000100 ∅ (mkWorkerId 8) 1 sample_lease sample_claimed 1 r
    7 100 30000100 sample_claimed_wf E Hp (Z.le_refl _) (not_elem_of_empty 1) Hl Ha)
    as (evs & db' & c & Hc & Hin & _ & _ & Hat & _).
  exists evs, db', c. split; [exact Hc|]. split; [exact Hin|]. rewrite Hat.
  vm_compute in E. injection E as <-. reflexivity.
Defined.
