(* ===== verification/History.v ===== *)
(** * Histories of the store

    The store is shared by API processes, which admit, and workers, which claim
    and complete. A history is any sequence of these operations, by any callers,
    at any times of the database clock, with any failures. The theorems say what
    every history preserves: the invariant of the table, the content of stored
    events, the answer to a repeated admission, and the exclusivity of a lease. *)

From S2P Require Import Prelude Text Json Crates Reference Event Idempotency Config Schema Store.
From S2P Require Import Fixtures StoreSpec ClaimSpec.

Section history.
Context `{SJ : SerdeJson} {PG : Postgres}.
Implicit Types (db : Table) (r : Row).

(** ** Operations *)

Inductive StoreOp :=
| OpAdmit (faults : AdmitFaults) (now : Z) (event : Event) (key : IdempotencyKey)
    (fp : RequestFingerprint)
| OpClaim (fault : option CommitFault) (now : Z) (locked : gset Uuid) (owner : WorkerId)
    (limit : Z) (lease : Duration)
| OpComplete (fault : option CommitFault) (now : Z) (id : EventId) (owner : WorkerId).

Definition apply_op (op : StoreOp) db : Table :=
  match op with
  | OpAdmit faults now event key fp => (store_admit faults now event key fp db).2
  | OpClaim fault now locked owner limit lease => (claim fault now locked owner limit lease db).2
  | OpComplete fault now id owner => (complete fault now id owner db).2
  end.

Definition run_ops (ops : list StoreOp) db : Table := foldl (λ db op, apply_op op db) db ops.

(** Arguments come from their validating constructors. *)
Definition op_ok (op : StoreOp) : Prop :=
  match op with OpAdmit _ _ event key fp => admissible event key fp | _ => True end.

(** ** One row, one operation *)

(** What an operation may do to a stored row. *)
Inductive row_step : StoreOp → Uuid → Row → Row → Prop :=
| row_stay op id r : row_step op id r r
| row_claim fault now locked owner limit lease id r :
    claimable now r = true →
    row_step (OpClaim fault now locked owner limit lease) id r
      (claim_set now (WorkerId_as_uuid owner) lease r)
| row_complete fault now eid owner s l r :
    row_processing (WorkerId_as_uuid owner) s l r →
    row_step (OpComplete fault now eid owner) (EventId_as_uuid eid) r (complete_set now r).

Lemma apply_op_wf op db : op_ok op → wf_table db → wf_table (apply_op op db).
Proof. destruct op; simpl; auto with pulse. Qed.

Lemma apply_op_row op db id r :
  wf_table db → db !! id = Some r →
  ∃ r', apply_op op db !! id = Some r' ∧ row_step op id r r'.
Proof.
  intros Hwf Hr. destruct op as [faults now event key fp|fault now locked owner limit lease
    |fault now eid owner]; simpl.
  - exists r. split; [|constructor].
    destruct (admit_inv faults now event key fp db) as [->|(p & _ & _ & _ & Hn & ->)]; [done|].
    rewrite lookup_insert_ne; [done|]. congruence.
  - destruct (claim_inv fault now locked owner limit lease db Hwf) as [->|(cs & Hcs & Ht)];
      [exists r; by repeat constructor|]. rewrite Ht. case_decide as Hid.
    + rewrite Hr. eexists. split; [done|]. apply list_elem_of_fmap in Hid as (c & -> & Hc).
      destruct (Hcs c Hc) as (Hdb & Hcl & _). constructor. by simplify_eq.
    + exists r. by repeat constructor.
  - destruct (complete_inv fault now eid owner db Hwf) as [->|[Hh ->]];
      [exists r; by repeat constructor|].
    destruct (decide (EventId_as_uuid eid = id)) as [<-|].
    + rewrite lookup_alter_eq, Hr. eexists. split; [done|].
      apply holder_Some in Hh as (x & s & l & Hx & Hp); [|done]. simplify_eq. by econstructor.
    + exists r. rewrite lookup_alter_ne by done. by repeat constructor.
Qed.

(** The order in which a row evolves: content fixed, attempts growing, never
    back to pending, final once processed. *)
Record row_le r r' : Prop := {
  row_le_content : content_changed r r' = false;
  row_le_attempts : r_delivery_attempts r ≤ r_delivery_attempts r';
  row_le_pending : r_status r' = lit "PENDING" → r' = r;
  row_le_processed : r_status r = lit "PROCESSED" → r' = r
}.

Lemma content_changed_false r r' :
  content_changed r r' = false ↔
  r_event_id r' = r_event_id r ∧ r_source r' = r_source r ∧ r_event_type r' = r_event_type r ∧
  r_payload r' = r_payload r ∧ r_idempotency_key r' = r_idempotency_key r ∧
  r_request_fingerprint r' = r_request_fingerprint r ∧ r_accepted_at r' = r_accepted_at r.
Proof.
  unfold content_changed. rewrite !orb_false_iff, !negb_false_iff, !bool_decide_eq_true. tauto.
Qed.

#[global] Instance row_le_preorder : PreOrder row_le.
Proof.
  split.
  - intros r. by split; [apply content_changed_false| | |].
  - intros r s t [Hc1 Ha1 Hp1 Hd1] [Hc2 Ha2 Hp2 Hd2]. split; [|lia| |].
    + rewrite content_changed_false in *. destruct_and!. split_and!; congruence.
    + intros H. specialize (Hp2 H). subst s. by apply Hp1.
    + intros H. specialize (Hd1 H). subst s. by apply Hd2.
Qed.

Lemma row_step_le op id r r' : row_step op id r r' → row_le r r'.
Proof.
  intros [op' id' r0|fault now locked owner limit lease id' r0 Hc|fault now eid owner s l r0 Hp];
    [reflexivity| |].
  - split; [by apply content_claim_set|simpl; lia|done|].
    intros H. unfold claimable in Hc. by rewrite H in Hc.
  - split; [by apply content_changed_false|done|done|].
    intros H. destruct Hp as [H' _]. by rewrite H in H'.
Qed.

(** Operations that respect a lease on [id] held by [owner] until [expires]. *)
Definition respects_lease (id owner : Uuid) (expires : Z) (op : StoreOp) : Prop :=
  match op with
  | OpAdmit _ _ _ _ _ => True
  | OpClaim _ now _ _ _ _ => now < expires
  | OpComplete _ _ id' owner' => EventId_as_uuid id' = id → WorkerId_as_uuid owner' ≠ owner
  end.

(** A leased row only moves when its lease has expired or its owner completes it. *)
Lemma row_step_leased op id owner started expires r r' :
  row_processing owner started expires r →
  respects_lease id owner expires op → row_step op id r r' → r' = r.
Proof.
  intros (Hst & Ho & _ & Hl & _) Hop Hstep. destruct Hstep as [| |? ? ? ? ? ? ? Hp]; [done| |].
  - unfold claimable in *. rewrite Hst, Hl in *. simpl in *. lia.
  - destruct Hp as (_ & Ho' & _). naive_solver.
Qed.

(** ** All histories *)

Lemma run_ops_wf ops db : Forall op_ok ops → wf_table db → wf_table (run_ops ops db).
Proof.
  intros Hops. revert db. induction Hops as [|op ops ? ? IH]; intros db Hwf; [done|].
  apply IH. by apply apply_op_wf.
Qed.

Lemma run_ops_row ops db id r :
  Forall op_ok ops → wf_table db → db !! id = Some r →
  ∃ r', run_ops ops db !! id = Some r' ∧ row_le r r'.
Proof.
  intros Hops. revert db r. induction Hops as [|op ops Hok ? IH]; intros db r Hwf Hr.
  { by exists r. }
  destruct (apply_op_row op db id r Hwf Hr) as (s & Hs & Hle%row_step_le).
  destruct (IH (apply_op op db) s) as (t & ? & ?); [by apply apply_op_wf|done|].
  exists t. split; [done|]. by trans s.
Qed.

Lemma run_ops_key ops db r source key :
  Forall op_ok ops → wf_table db → find_key db source key = Some r →
  ∃ r', find_key (run_ops ops db) source key = Some r' ∧ row_le r r'.
Proof.
  intros Hops Hwf (<- & <- & id & Hr)%find_key_Some.
  destruct (run_ops_row ops db id r) as (r' & Hr' & Hle); [done..|]. exists r'. split; [|done].
  destruct Hle as [(_ & <- & _ & _ & <- & _)%content_changed_false _ _ _].
  eapply find_key_unique; [by apply run_ops_wf|done].
Qed.
End history.

#[export] Hint Resolve apply_op_wf run_ops_wf : pulse.

(** ** What every history preserves *)

Section guarantees.
Context `{SJ : SerdeJson} {PG : Postgres}.
Implicit Types (db : Table) (r : Row).

(** C8. Every history of admissions, claims and completions from an empty table,
    with any failures, reaches a well-formed table: each row meets all CHECK
    constraints, its labels read back, its attempt counter fits in 32 bits, and
    no two rows share a source and an idempotency key. *)
Theorem history_wf ops : Forall op_ok ops → wf_table (run_ops ops ∅).
Proof. auto with pulse. Qed.

(** C9. No history loses or rewrites an event: a stored row stays stored with the
    same identity, source, type, payload, key, fingerprint and acceptance time;
    its attempt counter never decreases, it never becomes pending again, and once
    processed it never changes. *)
Theorem history_stable ops db id r :
  Forall op_ok ops → wf_table db → db !! id = Some r →
  ∃ r', run_ops ops db !! id = Some r' ∧
    content_changed r r' = false ∧ r_delivery_attempts r ≤ r_delivery_attempts r' ∧
    (r_status r' = lit "PENDING" → r' = r) ∧ (r_status r = lit "PROCESSED" → r' = r).
Proof.
  intros Hops Hwf Hr. destruct (run_ops_row ops db id r) as (r' & ? & []); eauto 6.
Qed.

(** An answered admission decides every later one under its scoped key. *)
Lemma admit_again {PGL : PostgresLaws PG} faults now event key fp db id db1 ops
    faults' now' event' fp' :
  wf_table db → admissible event key fp → admissible event' key fp' → Forall op_ok ops →
  store_admit faults now event key fp db = (Ok (Created id), db1) ∨
  store_admit faults now event key fp db = (Ok (Replayed id), db1) →
  event_source event' = event_source event →
  let db2 := run_ops ops db1 in
  let '(res, db3) := store_admit faults' now' event' key fp' db2 in
  db3 = db2 ∧
  match res with
  | Ok outcome => outcome = (if decide (fp' = fp) then Replayed id else Conflict)
  | Err _ => faults' ≠ no_faults ∨ is_ok (jsonb_in (event_payload event')) = false
  end.
Proof.
  intros Hwf Hadm Hadm' Hops Hfirst Hsrc db2.
  assert (∃ r, find_key db1 (EventSource_as_str (event_source event)) (IdempotencyKey_expose key)
      = Some r ∧ r_event_id r = EventId_as_uuid id ∧
      r_request_fingerprint r = RequestFingerprint_as_bytes fp ∧ wf_table db1)
    as (r & Hk & Hid & Hfp & Hwf1) by (eapply admit_answer; done).
  destruct (run_ops_key ops db1 r _ _ Hops Hwf1 Hk) as (r2 & Hk2 & [Hc _ _ _]).
  apply content_changed_false in Hc as (Hid2 & _ & _ & _ & _ & Hfp2 & _).
  destruct (admit_existing faults' now' event' key fp' db2 r2) as [Hdb Hres];
    [done|by rewrite Hsrc|].
  destruct (store_admit faults' now' event' key fp' db2) as [res db3]. simpl in *.
  split; [done|]. destruct res; [|done]. rewrite Hres. unfold resolve.
  rewrite Hid2, Hid, Hfp2, Hfp. destruct fp as [b], fp' as [b']; simpl.
  destruct id. repeat case_decide || case_bool_decide; naive_solver.
Qed.

(** C7. Idempotent admission: once an admission has answered with an identity,
    then after any history every admission under the same source and key, whatever
    fails, writes nothing; if it answers, it answers [Replayed] with that
    same identity when the fingerprints are equal and [Conflict] when they
    differ; and it does answer when nothing fails and JSONB takes the payload. *)
Theorem admission_converges {PGL : PostgresLaws PG} faults now event key fp db id db1 ops
    faults' now' event' fp' :
  wf_table db → admissible event key fp → admissible event' key fp' → Forall op_ok ops →
  store_admit faults now event key fp db = (Ok (Created id), db1) ∨
  store_admit faults now event key fp db = (Ok (Replayed id), db1) →
  event_source event' = event_source event →
  let db2 := run_ops ops db1 in
  let '(res, db3) := store_admit faults' now' event' key fp' db2 in
  db3 = db2 ∧
  match res with
  | Ok outcome => outcome = (if decide (fp' = fp) then Replayed id else Conflict)
  | Err _ => faults' ≠ no_faults ∨ is_ok (jsonb_in (event_payload event')) = false
  end.
Proof. apply admit_again. Qed.


(** C11. A lease is exclusive: while the database clock has not reached its expiry,
    no history of admissions, claims by anybody (the owner included) and
    completions by other workers changes the row in any way, so the owner's own
    completion still succeeds afterwards. *)
Theorem lease_exclusive ops db id owner started expires r now :
  wf_table db → Forall op_ok ops → db !! EventId_as_uuid id = Some r →
  row_processing (WorkerId_as_uuid owner) started expires r →
  Forall (respects_lease (EventId_as_uuid id) (WorkerId_as_uuid owner) expires) ops →
  run_ops ops db !! EventId_as_uuid id = Some r ∧
  (complete None now id owner (run_ops ops db)).1 = Ok true.
Proof.
  intros Hwf Hops Hr Hp Hresp.
  assert (run_ops ops db !! EventId_as_uuid id = Some r ∧ wf_table (run_ops ops db)) as [Hr' Hwf'].
  { revert db Hwf Hr. induction Hresp as [|op ops Hop _ IH]; intros db Hwf Hr; [done|].
    apply Forall_cons in Hops as [Hok Hops].
    destruct (apply_op_row op db _ r Hwf Hr) as (r' & Hr' & Hstep).
    apply (IH Hops (apply_op op db)); [by apply apply_op_wf|].
    rewrite Hr'. f_equal. by eapply row_step_leased. }
  split; [done|]. unfold complete. rewrite sql_complete_eq, decide_True by (done || by
    apply holder_Some; eauto). done.
Qed.
End guarantees.

(** A history with a lost COMMIT, a claim, a failed claim and a completion. *)
Definition sample_ops : list StoreOp := [
  OpAdmit (lost_commit true) 5 (sample_event 1) sample_key sample_fp;
  OpAdmit no_faults 6 (sample_event 2) sample_key sample_fp;
  OpClaim None 100 ∅ (mkWorkerId 7) 10 sample_lease;
  OpClaim (Some (mkCommitFault SX_Io true)) 200 ∅ (mkWorkerId 8) 10 sample_lease;
  OpComplete None 300 (mkEventId 1) (mkWorkerId 8)
].

Lemma sample_ops_ok : Forall op_ok sample_ops.
Proof.
  unfold sample_ops. rewrite !Forall_cons.
  split_and!; first [by apply sample_admissible, small_uuid|done|constructor].
Qed.

Lemma history_wf_witness :
  wf_table (run_ops sample_ops ∅) ∧ r_delivery_attempts <$> (run_ops sample_ops ∅ !! 1) = Some 1.
Proof. split; [apply (history_wf sample_ops sample_ops_ok)|vm_compute; reflexivity]. Defined.

Lemma history_stable_witness :
  ∃ r r', sample_db !! 1 = Some r ∧ run_ops sample_ops sample_db !! 1 = Some r' ∧
    content_changed r r' = false.
Proof.
  destruct (sample_db !! 1) as [r|] eqn:E; [|vm_compute in E; discriminate E].
  destruct (history_stable sample_ops sample_db 1 r sample_ops_ok sample_db_wf E)
    as (r' & Hr' & Hc & _).
  exists r, r'. split; [reflexivity|]. by split.
Defined.

Lemma admission_converges_witness :
  (store_admit (lost_commit false) 9 (sample_event2 4) sample_key sample_fp
    (run_ops sample_ops sample_db)).2 = run_ops sample_ops sample_db ∧
  (store_admit no_faults 5 (sample_event 1) sample_key sample_fp ∅).1 = Ok (Created (mkEventId 1)).
Proof.
  split; [|vm_compute; reflexivity].
  assert (store_admit no_faults 5 (sample_event 1) sample_key sample_fp ∅ =
    (Ok (Created (mkEventId 1)), sample_db)) as H1 by (vm_compute; reflexivity).
  pose proof (admission_converges no_faults 5 (sample_event 1) sample_key sample_fp ∅ (mkEventId 1)
    sample_db sample_ops (lost_commit false) 9 (sample_event2 4) sample_fp wf_table_empty
    (sample_admissible 1 (small_uuid 1 eq_refl)) (sample_admissible2 4 (small_uuid 4 eq_refl)) sample_ops_ok (or_introl H1) eq_refl) as H.
  cbv zeta in H. destruct (store_admit (lost_commit false) 9 _ _ _ _) as [res db3].
  exact (proj1 H).
Defined.


Lemma lease_exclusive_witness :
  (complete None 500 (mkEventId 1) (mkWorkerId 7) (run_ops sample_ops sample_claimed)).1 = Ok true.
Proof.
  destruct (sample_claimed !! 1) as [r|] eqn:E; [|vm_compute in E; discriminate E].
  refine (proj2 (lease_exclusive sample_ops sample_claimed (mkEventId 1) (mkWorkerId 7) 100
    30000100 r 500 sample_claimed_wf sample_ops_ok E _ _)).
  - vm_compute in E. injection E as <-. repeat split. discriminate.
  - unfold sample_ops. rewrite !Forall_cons. split_and!; first [done|constructor].
Defined.
