(* ===== verification/AdmitTx.v ===== *)
(** * Concurrent admissions (the transaction inside [Store::admit])

    [Store] takes an admission as one atomic step on the table. Here it is what
    the code does: BEGIN, the INSERT, perhaps the SELECT, and COMMIT, each a
    statement of a READ COMMITTED transaction, interleaved with the statements of
    other admissions and with the claims and completions of workers. An INSERT
    whose key or identity is held by the uncommitted row of another transaction
    waits for it; a SELECT sees what is committed. The theorem is that every
    interleaving behaves as a sequence of atomic admissions, in the order in which
    the transactions end, and that every admission returns within four statements. *)

From S2P Require Import Prelude Text Json Crates Reference Event Idempotency Config Schema Store.
From S2P Require Import Fixtures StoreSpec ClaimSpec History.

Section transactions.
Context `{SJ : SerdeJson} {PG : Postgres}.
Implicit Types (db : Table) (r : Row).

(** ** Sessions *)

(** The arguments of one call of [admit]; [rq_now] is its transaction's time. *)
Record Request := mkRequest {
  rq_now : Z;
  rq_event : Event;
  rq_key : IdempotencyKey;
  rq_fp : RequestFingerprint
}.

(** Where the call is: not begun, open, holding an uncommitted row, after an INSERT
    that found a conflict, with an outcome to commit, or returned. *)
Inductive TxPhase :=
| X_start
| X_open
| X_inserted (row : Row)
| X_lookup
| X_ready (outcome : AdmitOutcome)
| X_done (res : result StoreError AdmitOutcome).

Record Session := mkSession { ss_req : Request; ss_phase : TxPhase }.

Record TxState := mkTxState { tx_db : Table; tx_sessions : list Session }.

Definition rq_source (q : Request) : str := EventSource_as_str (event_source (rq_event q)).
Definition rq_keystr (q : Request) : str := IdempotencyKey_expose (rq_key q).
Definition rq_id (q : Request) : Uuid := EventId_as_uuid (event_id (rq_event q)).

(** The uncommitted rows. *)
Definition held_row (s : Session) : option Row :=
  match ss_phase s with X_inserted r => Some r | _ => None end.

Definition same_key r (q : Request) : bool :=
  bool_decide (r_source r = rq_source q ∧ r_idempotency_key r = rq_keystr q).

(** ** Statements *)

(** The INSERT: it waits ([None]), fails, finds a conflict, or holds its row. *)
Definition tx_insert db (held : list Row) (q : Request) : option (result SqlxError TxPhase) :=
  match jsonb_in (event_payload (rq_event q)) with
  | Err code => Some (Err (sql_error code))
  | Ok payload =>
      let new := admitted_row (rq_now q) (rq_event q) payload (rq_key q) (rq_fp q) in
      if negb (row_checks new) then Some (Err check_violation)
      else match find_key db (rq_source q) (rq_keystr q) with
      | Some _ => Some (Ok X_lookup)
      | None =>
          if existsb (λ r, same_key r q) held then None
          else match db !! rq_id q with
          | Some _ => Some (Err unique_violation)
          | None =>
              if existsb (λ r, bool_decide (r_event_id r = rq_id q)) held then None
              else Some (Ok (X_inserted new))
          end
      end
  end.

(** The SELECT and the match on its answer. *)
Definition tx_select db (q : Request) : TxPhase :=
  match sql_select_key (rq_source q) (rq_keystr q) db with
  | Some (id, stored) =>
      X_ready (if bool_decide (stored = RequestFingerprint_as_bytes (rq_fp q))
        then Replayed (EventId_from_uuid id) else Conflict)
  | None => X_done (Err (SE_Inconsistent (lit "conflicting row not found")))
  end.

(** Steps: a statement of session [i], with its failure, or an operation of a worker. *)
Inductive TxAction :=
| TX_begin (i : nat) (fault : option SqlxError)
| TX_insert (i : nat) (fault : option SqlxError)
| TX_select (i : nat) (fault : option SqlxError)
| TX_commit (i : nat) (fault : option CommitFault)
| TX_worker (op : StoreOp).

Definition set_phase (i : nat) (q : Request) (p : TxPhase) (st : TxState) : TxState :=
  mkTxState (tx_db st) (<[i := mkSession q p]> (tx_sessions st)).

Definition fail (e : SqlxError) : TxPhase := X_done (Err (StoreError_from e)).

(** COMMIT of a transaction that would leave [tx], with its outcome. *)
Definition tx_commit (fault : option CommitFault) (outcome : AdmitOutcome) (tx db : Table)
    : result StoreError AdmitOutcome * Table :=
  match fault with
  | None => (Ok outcome, tx)
  | Some f => (Err (StoreError_from (cf_error f)), if cf_applied f then tx else db)
  end.

Definition tx_step (a : TxAction) (st : TxState) : option TxState :=
  let db := tx_db st in
  match a with
  | TX_worker op => match op with
      | OpAdmit _ _ _ _ _ => None
      | _ => Some (mkTxState (apply_op op db) (tx_sessions st))
      end
  | TX_begin i fault =>
      s ← tx_sessions st !! i;
      match ss_phase s with
      | X_start => Some (set_phase i (ss_req s)
          (match fault with Some e => fail e | None => X_open end) st)
      | _ => None
      end
  | TX_insert i fault =>
      s ← tx_sessions st !! i;
      match ss_phase s, fault with
      | X_open, Some e => Some (set_phase i (ss_req s) (fail e) st)
      | X_open, None =>
          answer ← tx_insert db (omap held_row (tx_sessions st)) (ss_req s);
          Some (set_phase i (ss_req s) (match answer with Ok p => p | Err e => fail e end) st)
      | _, _ => None
      end
  | TX_select i fault =>
      s ← tx_sessions st !! i;
      match ss_phase s with
      | X_lookup => Some (set_phase i (ss_req s)
          (match fault with Some e => fail e | None => tx_select db (ss_req s) end) st)
      | _ => None
      end
  | TX_commit i fault =>
      s ← tx_sessions st !! i;
      let q := ss_req s in
      '(outcome, tx) ←
        match ss_phase s with
        | X_inserted row => Some (Created (EventId_from_uuid (rq_id q)), <[rq_id q := row]> db)
        | X_ready outcome => Some (outcome, db)
        | _ => None
        end;
      let '(res, db') := tx_commit fault outcome tx db in
      Some (mkTxState db' (<[i := mkSession q (X_done res)]> (tx_sessions st)))
  end.

(** ** The invariant *)

(** What is true of a session, given the committed table. *)
Definition phase_ok db (q : Request) (p : TxPhase) : Prop :=
  let found := find_key db (rq_source q) (rq_keystr q) in
  match p with
  | X_start | X_open => True
  | X_inserted row =>
      found = None ∧ db !! rq_id q = None ∧
      ∃ payload, jsonb_in (event_payload (rq_event q)) = Ok payload ∧
        row = admitted_row (rq_now q) (rq_event q) payload (rq_key q) (rq_fp q)
  | X_lookup => is_Some found ∧ is_ok (jsonb_in (event_payload (rq_event q))) = true
  | X_ready outcome =>
      is_ok (jsonb_in (event_payload (rq_event q))) = true ∧
      ∃ r, found = Some r ∧ outcome = resolve (rq_fp q) r
  | X_done (Ok (Created id)) => id = event_id (rq_event q) ∧
      ∃ r, found = Some r ∧ resolve (rq_fp q) r = Replayed id
  | X_done (Ok outcome) => ∃ r, found = Some r ∧ resolve (rq_fp q) r = outcome
  | X_done (Err e) => ∃ x, e = StoreError_from x
  end.

(** Sessions that hold, or have created, the row of their key. *)
Definition owns_key (p : TxPhase) : bool :=
  match p with X_inserted _ | X_done (Ok (Created _)) => true | _ => false end.

(** The pairwise part of the invariant. *)
Definition compatible (a b : Session) : Prop :=
  (owns_key (ss_phase a) = true → owns_key (ss_phase b) = true →
    ¬ (rq_source (ss_req a) = rq_source (ss_req b) ∧ rq_keystr (ss_req a) = rq_keystr (ss_req b))) ∧
  (is_Some (held_row a) → is_Some (held_row b) → rq_id (ss_req a) ≠ rq_id (ss_req b)).

Lemma compatible_sym a b : compatible a b → compatible b a.
Proof. intros [H1 H2]. split; [|naive_solver]. intros Hb Ha [E1 E2]. by apply H1. Qed.
Record tx_inv (st : TxState) : Prop := {
  ti_wf : wf_table (tx_db st);
  ti_sessions : ∀ i s, tx_sessions st !! i = Some s →
    admissible (rq_event (ss_req s)) (rq_key (ss_req s)) (rq_fp (ss_req s)) ∧
    phase_ok (tx_db st) (ss_req s) (ss_phase s);
  ti_pairs : ∀ i j s s', tx_sessions st !! i = Some s → tx_sessions st !! j = Some s' → i ≠ j →
    compatible s s'
}.

(** *** The committed table grows without touching what is there *)

(** [db'] keeps the rows of [db] up to their lifecycle. *)
Definition extends db db' : Prop :=
  ∀ id r, db !! id = Some r → ∃ r', db' !! id = Some r' ∧ row_le r r'.

Lemma extends_key db db' source key r :
  wf_table db' → extends db db' → find_key db source key = Some r →
  ∃ r', find_key db' source key = Some r' ∧ row_le r r'.
Proof.
  intros Hwf Hext (<- & <- & id & Hr)%find_key_Some.
  destruct (Hext id r Hr) as (r' & Hr' & Hle). exists r'. split; [|done].
  destruct Hle as [(_ & <- & _ & _ & <- & _)%content_changed_false _ _ _].
  by eapply find_key_unique.
Qed.

Lemma resolve_le fp r r' : row_le r r' → resolve fp r' = resolve fp r.
Proof.
  intros [(E1 & _ & _ & _ & _ & E2 & _)%content_changed_false _ _ _].
  unfold resolve. by rewrite E1, E2.
Qed.

(** Phases other than a held row only depend on keys that are already there. *)
Lemma phase_ok_extends db db' q p :
  wf_table db' → extends db db' →
  (∀ row, p = X_inserted row →
    find_key db' (rq_source q) (rq_keystr q) = None ∧ db' !! rq_id q = None) →
  phase_ok db q p → phase_ok db' q p.
Proof.
  intros Hwf Hext Hheld.
  assert (∀ r, find_key db (rq_source q) (rq_keystr q) = Some r →
    ∃ r', find_key db' (rq_source q) (rq_keystr q) = Some r' ∧
      resolve (rq_fp q) r' = resolve (rq_fp q) r) as Hkeep.
  { intros r Hr. destruct (extends_key db db' _ _ r Hwf Hext Hr) as (r' & Hr' & Hle).
    exists r'. by rewrite (resolve_le _ r r'). }
  unfold phase_ok. destruct p as [| |row| |o|[[id|id|]|e]]; try done.
  - intros (_ & _ & Hp). by destruct (Hheld row eq_refl).
  - intros ([r Hr] & Hj). destruct (Hkeep r Hr) as (r' & -> & _). by split; [eexists|].
  - intros (Hj & r & Hr & ->). destruct (Hkeep r Hr) as (r' & ? & <-). eauto.
  - intros (Hid & r & Hr & <-). destruct (Hkeep r Hr) as (r' & ? & <-). eauto.
  - intros (r & Hr & <-). destruct (Hkeep r Hr) as (r' & ? & <-). eauto.
  - intros (r & Hr & <-). destruct (Hkeep r Hr) as (r' & ? & <-). eauto.
Qed.

(** *** Steps of workers *)

Definition is_worker_op (op : StoreOp) : bool :=
  match op with OpAdmit _ _ _ _ _ => false | _ => true end.

Lemma apply_op_extends op db : wf_table db → extends db (apply_op op db).
Proof.
  intros Hwf id r Hr. destruct (apply_op_row op db id r Hwf Hr) as (r' & ? & ?%row_step_le). eauto.
Qed.

(** Workers add no rows. *)
Lemma worker_op_none op db id :
  is_worker_op op = true → wf_table db → db !! id = None → apply_op op db !! id = None.
Proof.
  intros Hop Hwf Hn. destruct op as [|fault now locked owner limit ls|fault now eid owner];
    [done| |]; simpl.
  - destruct (claim_inv fault now locked owner limit ls db Hwf) as [->|(cs & _ & Ht)]; [done|].
    rewrite Ht, Hn. by case_decide.
  - destruct (complete_inv fault now eid owner db Hwf) as [->|[_ ->]]; [done|].
    by apply lookup_alter_None.
Qed.

Lemma worker_op_key_none op db source key :
  is_worker_op op = true → wf_table db → wf_table (apply_op op db) →
  find_key db source key = None → find_key (apply_op op db) source key = None.
Proof.
  intros Hop Hwf Hwf' Hk. destruct (find_key (apply_op op db) source key) as [r'|] eqn:E; [|done].
  apply find_key_Some in E as (Hs & Hik & id & Hr').
  destruct (db !! id) as [r|] eqn:Hr; [|by rewrite worker_op_none in Hr'].
  destruct (apply_op_extends op db Hwf id r Hr) as (r2 & Hr2 & [Hc _ _ _]).
  apply content_changed_false in Hc as (_ & Hs2 & _ & _ & Hk2 & _).
  rewrite find_key_None in Hk. destruct (Hk id r Hr). by simplify_eq.
Qed.

Lemma tx_worker_inv op st :
  is_worker_op op = true → tx_inv st → tx_inv (mkTxState (apply_op op (tx_db st)) (tx_sessions st)).
Proof.
  intros Hop [Hwf Hs Hp].
  assert (wf_table (apply_op op (tx_db st))) as Hwf' by (apply apply_op_wf; [by destruct op|done]).
  split; simpl; [done| |done]. intros i s Hsi. destruct (Hs i s Hsi) as [Hadm Hph].
  split; [done|]. apply (phase_ok_extends (tx_db st)); [done|by apply apply_op_extends| |done].
  intros row Hrow. rewrite Hrow in Hph. destruct Hph as (Hf & Hid & _).
  split; [by apply worker_op_key_none|by apply worker_op_none].
Qed.

(** *** Steps of a session that do not commit *)

(** A pairwise property of the sessions, after one of them changed. *)
Lemma sessions_insert_pairs (P : Session → Session → Prop) (l : list Session) i s :
  (∀ a b, P a b → P b a) →
  (∀ j k a b, l !! j = Some a → l !! k = Some b → j ≠ k → P a b) →
  (∀ j a, l !! j = Some a → i ≠ j → P s a) →
  ∀ j k a b, <[i := s]> l !! j = Some a → <[i := s]> l !! k = Some b → j ≠ k → P a b.
Proof.
  intros Hsym Hl Hs j k a b [(<- & <- & _)|[? Hj]]%list_lookup_insert_Some
    [(<- & <- & _)|[? Hk]]%list_lookup_insert_Some Hne; [done|by eapply Hs| |by eapply Hl].
  apply Hsym. by eapply Hs.
Qed.


(** Session [i] moves to phase [p] and the table to [db']. *)
Lemma tx_move_inv st i s p db' :
  tx_inv st → tx_sessions st !! i = Some s → wf_table db' → extends (tx_db st) db' →
  phase_ok db' (ss_req s) p →
  (∀ j a, tx_sessions st !! j = Some a → i ≠ j → compatible (mkSession (ss_req s) p) a) →
  (∀ j a row, tx_sessions st !! j = Some a → i ≠ j → ss_phase a = X_inserted row →
    find_key db' (rq_source (ss_req a)) (rq_keystr (ss_req a)) = None ∧
    db' !! rq_id (ss_req a) = None) →
  tx_inv (mkTxState db' (<[i := mkSession (ss_req s) p]> (tx_sessions st))).
Proof.
  intros [Hwf Hs Hpairs] Hsi Hwf' Hext Hp Hc Hheld. split; simpl; [done| |].
  - intros j a [(<- & <- & _)|[Hne Hj]]%list_lookup_insert_Some; simpl.
    { split; [|done]. by apply (Hs i). }
    destruct (Hs j a Hj) as [Hadm Hph]. split; [done|].
    apply (phase_ok_extends (tx_db st)); [done|done| |done]. intros row Hrow. by eapply Hheld.
  - apply sessions_insert_pairs; [apply compatible_sym|done|done].
Qed.

Lemma extends_refl db : extends db db.
Proof. intros id r Hr. by exists r. Qed.

(** A move that leaves the table alone and acquires nothing. *)
Lemma tx_quiet_inv st i s p :
  tx_inv st → tx_sessions st !! i = Some s → phase_ok (tx_db st) (ss_req s) p →
  owns_key p = false → tx_inv (set_phase i (ss_req s) p st).
Proof.
  intros Hinv Hsi Hp Ho. apply tx_move_inv; [done..|apply Hinv|apply extends_refl|done| |].
  - intros j a Ha Hne. split; [simpl; congruence|].
    unfold held_row; simpl. by destruct p; [intros []..].
  - intros j a row Ha Hne Hrow. destruct (ti_sessions _ Hinv j a Ha) as [_ H].
    rewrite Hrow in H. by destruct H as (? & ? & _).
Qed.

(** The INSERT that holds its row. *)
Lemma tx_hold_inv st i s row :
  tx_inv st → tx_sessions st !! i = Some s → phase_ok (tx_db st) (ss_req s) (X_inserted row) →
  (∀ r, r ∈ omap held_row (tx_sessions st) →
    same_key r (ss_req s) = false ∧ r_event_id r ≠ rq_id (ss_req s)) →
  tx_inv (set_phase i (ss_req s) (X_inserted row) st).
Proof.
  intros Hinv Hsi Hp Hfree. pose proof Hp as (Hfound & _).
  assert (∀ j a r, tx_sessions st !! j = Some a → ss_phase a = X_inserted r →
    r ∈ omap held_row (tx_sessions st) ∧ r_source r = rq_source (ss_req a) ∧
    r_idempotency_key r = rq_keystr (ss_req a) ∧ r_event_id r = rq_id (ss_req a)) as Hrows.
  { intros j a r Ha Hr. split.
    - apply list_elem_of_omap. exists a. split; [by eapply list_elem_of_lookup_2|].
      unfold held_row. by rewrite Hr.
    - destruct (ti_sessions _ Hinv j a Ha) as [_ H]. rewrite Hr in H.
      by destruct H as (_ & _ & payload & _ & ->). }
  apply tx_move_inv; [done..|apply Hinv|apply extends_refl|done| |].
  - intros j a Ha Hne. destruct (ti_sessions _ Hinv j a Ha) as [_ Hpa]. split; simpl.
    + intros _ Ho [E1 E2]. destruct (ss_phase a) as [| |r| | |[[id| |]|]] eqn:Ephase; try done.
      * destruct (Hrows j a r Ha Ephase) as (Hin & Hs & Hk & _).
        destruct (Hfree r Hin) as [Hsk _]. unfold same_key in Hsk.
        rewrite bool_decide_true in Hsk; [done|]. by rewrite Hs, Hk, E1, E2.
      * destruct Hpa as (_ & r & Hr & _). simpl in Hr. congruence.
    + intros _ [r Hr] E. unfold held_row in Hr. destruct (ss_phase a) eqn:Ephase; simplify_eq/=.
      destruct (Hrows j a r Ha Ephase) as (Hin & _ & _ & Hid). destruct (Hfree r Hin). congruence.
  - intros j a r Ha Hne Hr. destruct (ti_sessions _ Hinv j a Ha) as [_ H].
    rewrite Hr in H. by destruct H as (? & ? & _).
Qed.

(** ** The atomic admission a step corresponds to *)

Definition atomic (faults : AdmitFaults) (q : Request) db : result StoreError AdmitOutcome * Table :=
  store_admit faults (rq_now q) (rq_event q) (rq_key q) (rq_fp q) db.

Lemma atomic_insert_error db held q e :
  tx_insert db held q = Some (Err e) → atomic no_faults q db = (Err (StoreError_from e), db).
Proof.
  unfold tx_insert, atomic, store_admit, admit_tx, round_trip, sql_insert, insert_row. simpl.
  destruct (jsonb_in _) as [payload|code]; simpl; [|by intros [= <-]].
  destruct (row_checks _); simpl; [|by intros [= <-]].
  unfold rq_source, rq_keystr, rq_id. destruct (find_key _ _ _); [done|].
  destruct (existsb _ held); [done|]. destruct (db !! _); [by intros [= <-]|].
  by destruct (existsb _ held).
Qed.

Lemma atomic_existing {PGL : PostgresLaws PG} faults q db r :
  admissible (rq_event q) (rq_key q) (rq_fp q) →
  af_begin faults = None → af_insert faults = None →
  find_key db (rq_source q) (rq_keystr q) = Some r →
  is_ok (jsonb_in (event_payload (rq_event q))) = true →
  atomic faults q db =
    match af_select faults with
    | Some e => (Err (StoreError_from e), db)
    | None => tx_commit (af_commit faults) (resolve (rq_fp q) r) db db
    end.
Proof.
  intros Hadm Hb Hi Hk [payload Hj]%is_ok_spec. unfold atomic, store_admit, admit_tx, round_trip.
  rewrite sql_insert_eq, Hj, Hb, Hi by done. unfold rq_source, rq_keystr in Hk. rewrite Hk. simpl.
  destruct (af_select faults); [done|]. unfold sql_select_key. rewrite Hk. simpl.
  unfold resolve, tx_commit. case_bool_decide; by destruct (af_commit faults) as [[]|].
Qed.

Lemma atomic_created {PGL : PostgresLaws PG} fault q db row :
  admissible (rq_event q) (rq_key q) (rq_fp q) → phase_ok db q (X_inserted row) →
  atomic (mkAdmitFaults None None None fault) q db =
    tx_commit fault (Created (EventId_from_uuid (rq_id q))) (<[rq_id q := row]> db) db.
Proof.
  intros Hadm (Hk & Hid & payload & Hj & ->).
  unfold atomic, store_admit, admit_tx, round_trip, tx_commit. simpl.
  rewrite sql_insert_eq, Hj by done. unfold rq_source, rq_keystr, rq_id in *.
  rewrite Hk, Hid. simpl. by destruct fault as [[]|].
Qed.

(** What a step of session [i] does, seen from outside: it returns the result of an
    atomic admission and leaves its table, or it leaves the table alone. *)
Definition simulated (st st' : TxState) (i : nat) : Prop :=
  ∃ s s', tx_sessions st !! i = Some s ∧ tx_sessions st' !! i = Some s' ∧ ss_req s' = ss_req s ∧
    (∀ res, ss_phase s ≠ X_done res) ∧
    match ss_phase s' with
    | X_done res => ∃ faults, atomic faults (ss_req s) (tx_db st) = (res, tx_db st')
    | _ => tx_db st' = tx_db st
    end.

Lemma simulated_set st i s p :
  tx_sessions st !! i = Some s → (∀ res, ss_phase s ≠ X_done res) →
  (∀ res, p = X_done res → ∃ faults, atomic faults (ss_req s) (tx_db st) = (res, tx_db st)) →
  simulated st (set_phase i (ss_req s) p st) i.
Proof.
  intros Hs Hn Hp. exists s, (mkSession (ss_req s) p). simpl.
  rewrite list_lookup_insert_eq by by eapply lookup_lt_Some.
  split_and!; [done..|]. destruct p; try done. by apply Hp.
Qed.

Lemma fail_ok db q e : phase_ok db q (fail e).
Proof. by exists e. Qed.

Lemma tx_begin_sim st i fault st' :
  tx_inv st → tx_step (TX_begin i fault) st = Some st' → tx_inv st' ∧ simulated st st' i.
Proof.
  intros Hinv. simpl. destruct (tx_sessions st !! i) as [s|] eqn:Hs; simpl; [|done].
  destruct (ss_phase s) eqn:Hp; try done. intros [= <-]. split.
  - apply tx_quiet_inv; [done|done| |by destruct fault]. destruct fault; [apply fail_ok|done].
  - apply simulated_set; [done|congruence|]. intros res H. destruct fault as [e|]; [|done].
    injection H as <-. by exists (mkAdmitFaults (Some e) None None None).
Qed.

Lemma existsb_None {A} (f : A → bool) l x : existsb f l = false → x ∈ l → f x = false.
Proof. rewrite existsb_false, Forall_forall. auto. Qed.

(** What the INSERT leads to. *)
Lemma tx_insert_ok db held q p :
  tx_insert db held q = Some (Ok p) →
  (p = X_lookup ∧ phase_ok db q X_lookup) ∨
  (∃ row, p = X_inserted row ∧ phase_ok db q (X_inserted row) ∧
    ∀ r, r ∈ held → same_key r q = false ∧ r_event_id r ≠ rq_id q).
Proof.
  unfold tx_insert. destruct (jsonb_in _) as [payload|] eqn:Hj; [|done].
  destruct (row_checks _); [|done]. simpl.
  destruct (find_key _ _ _) as [r0|] eqn:Hk.
  { intros [= <-]. left. split; [done|]. split; [by exists r0|by rewrite Hj]. }
  destruct (existsb _ held) eqn:He1; [done|]. destruct (db !! rq_id q) eqn:Hid; [done|].
  destruct (existsb (λ r, bool_decide _) held) eqn:He2; [done|]. intros [= <-]. right.
  eexists. split; [done|]. split; [by split_and!; eauto|]. intros r Hr. split.
  - by apply (existsb_None _ _ r He1).
  - apply (existsb_None _ _ r He2) in Hr. by apply bool_decide_eq_false in Hr.
Qed.

Lemma tx_insert_sim st i fault st' :
  tx_inv st → tx_step (TX_insert i fault) st = Some st' → tx_inv st' ∧ simulated st st' i.
Proof.
  intros Hinv. simpl. destruct (tx_sessions st !! i) as [s|] eqn:Hs; simpl; [|done].
  destruct (ss_phase s) eqn:Hp; try done. destruct fault as [e|].
  - intros [= <-]. split; [by apply tx_quiet_inv; [..|apply fail_ok|]|].
    apply simulated_set; [done|congruence|]. intros res [= <-].
    by exists (mkAdmitFaults None (Some e) None None).
  - destruct (tx_insert _ _ _) as [[p|e]|] eqn:Hins; simpl; [| |done]; intros [= <-].
    + apply tx_insert_ok in Hins as [[-> Hok]|(row & -> & Hok & Hfree)].
      * split; [by apply tx_quiet_inv|]. by apply simulated_set; [|congruence|].
      * split; [by apply tx_hold_inv|]. by apply simulated_set; [|congruence|].
    + split; [by apply tx_quiet_inv; [..|apply fail_ok|]|].
      apply simulated_set; [done|congruence|]. intros res [= <-]. exists no_faults.
      by eapply atomic_insert_error.
Qed.

Lemma tx_select_sim {PGL : PostgresLaws PG} st i fault st' :
  tx_inv st → tx_step (TX_select i fault) st = Some st' → tx_inv st' ∧ simulated st st' i.
Proof.
  intros Hinv. simpl. destruct (tx_sessions st !! i) as [s|] eqn:Hs; simpl; [|done].
  destruct (ss_phase s) eqn:Hp; try done. intros [= <-].
  destruct (ti_sessions _ Hinv i s Hs) as [Hadm Hph]. rewrite Hp in Hph.
  destruct Hph as [[r Hk] Hj]. destruct fault as [e|].
  - split; [by apply tx_quiet_inv; [..|apply fail_ok|]|].
    apply simulated_set; [done|congruence|]. intros res [= <-].
    exists (mkAdmitFaults None None (Some e) None). by rewrite (atomic_existing _ _ _ r).
  - assert (tx_select (tx_db st) (ss_req s) = X_ready (resolve (rq_fp (ss_req s)) r)) as ->.
    { unfold tx_select, sql_select_key. by rewrite Hk. }
    split; [|by apply simulated_set; [|congruence|]].
    apply tx_quiet_inv; [done|done| |done]. split; [done|]. by exists r.
Qed.

(** The table with the row of a session that commits. *)
Lemma find_key_insert_ne db id row source key :
  find_key db source key = None →
  ¬ (r_source row = source ∧ r_idempotency_key row = key) →
  find_key (<[id := row]> db) source key = None.
Proof.
  rewrite !find_key_None. intros Hdb Hne j r [[<- <-]|[_ Hj]]%lookup_insert_Some; [done|].
  by eapply Hdb.
Qed.

Lemma tx_apply_inv {PGL : PostgresLaws PG} st i s row p :
  tx_inv st → tx_sessions st !! i = Some s → ss_phase s = X_inserted row →
  (p = X_done (Ok (Created (event_id (rq_event (ss_req s))))) ∨ ∃ e, p = fail e) →
  tx_inv (mkTxState (<[rq_id (ss_req s) := row]> (tx_db st))
    (<[i := mkSession (ss_req s) p]> (tx_sessions st))).
Proof.
  intros Hinv Hs Hrow Hp. destruct (ti_sessions _ Hinv i s Hs) as [Hadm Hph]. rewrite Hrow in Hph.
  destruct Hph as (Hk & Hid & payload & Hj & Hr).
  assert (wf_table (<[rq_id (ss_req s) := row]> (tx_db st))) as Hwf'.
  { apply wf_table_insert; [apply Hinv| |by subst row].
    subst row. apply admitted_row_wf; [done|]. by apply admitted_row_checks. }
  apply tx_move_inv; try done.
  - intros j r Hjr. exists r. split; [|done]. rewrite lookup_insert_ne; [done|]. congruence.
  - destruct Hp as [->|[e ->]]; [|apply fail_ok]. split; [done|]. exists row. split.
    + subst row. apply (find_key_insert _ _ _ Hwf').
    + subst row. unfold resolve; simpl. rewrite bool_decide_true by done.
      by destruct (event_id (rq_event (ss_req s))).
  - intros j a Ha Hne. destruct (ti_pairs _ Hinv i j s a Hs Ha Hne) as [Hc _]. split; simpl.
    + intros Ho Hoa. apply Hc; [by rewrite Hrow|done].
    + destruct Hp as [->|[e ->]]; by intros [].
  - intros j a r Ha Hne Hr'. destruct (ti_sessions _ Hinv j a Ha) as [_ Hpa].
    destruct (ti_pairs _ Hinv i j s a Hs Ha Hne) as [Hkeys Hids].
    unfold held_row in Hids. rewrite Hr', Hrow in *. destruct Hpa as (Hka & Hida & _). split.
    + apply find_key_insert_ne; [done|]. subst row. by apply Hkeys.
    + rewrite lookup_insert_ne; [done|]. apply Hids; by eexists.
Qed.

Lemma tx_commit_sim {PGL : PostgresLaws PG} st i fault st' :
  tx_inv st → tx_step (TX_commit i fault) st = Some st' → tx_inv st' ∧ simulated st st' i.
Proof.
  intros Hinv. simpl. destruct (tx_sessions st !! i) as [s|] eqn:Hs; simpl; [|done].
  destruct (ti_sessions _ Hinv i s Hs) as [Hadm Hph].
  assert (∀ res db', simulated st (mkTxState db' (<[i := mkSession (ss_req s) (X_done res)]>
    (tx_sessions st))) i ↔ (∀ res, ss_phase s ≠ X_done res) ∧
      ∃ faults, atomic faults (ss_req s) (tx_db st) = (res, db')) as Hsim.
  { intros res db'. unfold simulated. simpl. rewrite list_lookup_insert_eq by by eapply lookup_lt_Some.
    split; [intros (? & ? & ? & ? & ?); naive_solver|]. intros [Hn Ha]. eexists _, _. by split_and!. }
  destruct (ss_phase s) as [| |row| |o|] eqn:Hp; simpl; try done.
  - pose proof (atomic_created fault (ss_req s) (tx_db st) row Hadm Hph) as Hat.
    destruct fault as [[e []]|]; simpl in *; intros [= <-]; (split; [|apply Hsim; eauto]).
    + apply (tx_apply_inv st i s row (fail e)); eauto.
    + apply tx_quiet_inv; [done|done|apply fail_ok|done].
    + replace (EventId_from_uuid (rq_id (ss_req s))) with (event_id (rq_event (ss_req s)))
        by (unfold rq_id; by destruct (event_id _)).
      apply (tx_apply_inv st i s row); eauto.
  - destruct Hph as (Hj & r & Hk & ->).
    pose proof (atomic_existing (mkAdmitFaults None None None fault) (ss_req s) (tx_db st) r
      Hadm eq_refl eq_refl Hk Hj) as Hat.
    destruct fault as [[e b]|]; simpl in *; intros [= <-]; (split; [|apply Hsim; eauto]).
    + destruct b; (apply tx_quiet_inv; [done|done|apply fail_ok|done]).
    + apply tx_quiet_inv; [done|done| |unfold resolve; by case_bool_decide].
      unfold resolve. case_bool_decide as Hb; simpl; exists r; (split; [done|]);
        unfold resolve; by rewrite ?(bool_decide_true _ Hb), ?(bool_decide_false _ Hb).
Qed.

(** ** Executions *)

Definition tx_init (st : TxState) : Prop :=
  wf_table (tx_db st) ∧
  ∀ i s, tx_sessions st !! i = Some s → ss_phase s = X_start ∧
    admissible (rq_event (ss_req s)) (rq_key (ss_req s)) (rq_fp (ss_req s)).

Definition tx_next (st st' : TxState) : Prop := ∃ a, tx_step a st = Some st'.

Lemma tx_step_sim {PGL : PostgresLaws PG} a st st' :
  tx_inv st → tx_step a st = Some st' →
  tx_inv st' ∧
  match a with
  | TX_worker op => tx_db st' = apply_op op (tx_db st) ∧ tx_sessions st' = tx_sessions st
  | TX_begin i _ | TX_insert i _ | TX_select i _ | TX_commit i _ => simulated st st' i
  end.
Proof.
  intros Hinv. destruct a as [i f|i f|i f|i f|op];
    [by apply tx_begin_sim|by apply tx_insert_sim|by apply tx_select_sim|by apply tx_commit_sim|].
  simpl. intros Hstep. assert (is_worker_op op = true) as Hop by (by destruct op).
  assert (st' = mkTxState (apply_op op (tx_db st)) (tx_sessions st)) as ->
    by (by destruct op; simplify_eq). by split; [apply tx_worker_inv|].
Qed.

Lemma tx_reach_inv {PGL : PostgresLaws PG} st st' : tx_init st → rtc tx_next st st' → tx_inv st'.
Proof.
  intros [Hwf Hs] Hr. assert (tx_inv st) as Hinv.
  { split; [done| |].
    - intros i s Hi. destruct (Hs i s Hi) as [-> ?]. by split.
    - intros i j s s' Hi Hj _. destruct (Hs i s Hi) as [Hp _]. unfold compatible, held_row.
      rewrite Hp. by split; [|intros []]. }
  clear Hwf Hs. induction Hr as [|st st1 st2 [a Ha] _ IH]; [done|].
  apply IH. by eapply tx_step_sim.
Qed.
End transactions.

(** ** Guarantees *)

Section guarantees.
Context `{SJ : SerdeJson} {PG : Postgres}.
Implicit Types (db : Table) (st : TxState).

(** C6. Concurrent admissions are atomic: in every interleaving of the statements
    of any number of admissions with the operations of workers, a step of an
    admission either leaves the committed table alone and does not return, or it
    returns exactly the result, and leaves exactly the table, of one atomic
    [admit] of its request on the table committed at that moment; a step of a worker
    is its own operation. *)
Theorem admissions_atomic {PGL : PostgresLaws PG} st0 st a st' :
  tx_init st0 → rtc tx_next st0 st → tx_step a st = Some st' →
  match a with
  | TX_worker op => tx_db st' = apply_op op (tx_db st) ∧ tx_sessions st' = tx_sessions st
  | TX_begin i _ | TX_insert i _ | TX_select i _ | TX_commit i _ => simulated st st' i
  end.
Proof.
  intros Hi Hr Hs. by destruct (tx_step_sim a st st' (tx_reach_inv st0 st Hi Hr) Hs).
Qed.

(** The identity an outcome names. *)
Definition outcome_id (o : AdmitOutcome) : option EventId :=
  match o with Created id | Replayed id => Some id | Conflict => None end.

Lemma done_outcome st i s o :
  tx_inv st → tx_sessions st !! i = Some s → ss_phase s = X_done (Ok o) →
  ∃ r, find_key (tx_db st) (rq_source (ss_req s)) (rq_keystr (ss_req s)) = Some r ∧
    outcome_id o = outcome_id (resolve (rq_fp (ss_req s)) r).
Proof.
  intros Hinv Hs Hp. destruct (ti_sessions _ Hinv i s Hs) as [_ H]. rewrite Hp in H.
  destruct o as [id|id|]; [destruct H as (_ & r & Hr & E)|destruct H as (r & Hr & E)..];
    exists r; by rewrite E.
Qed.


(** How far a call of [admit] is from returning. *)
Definition tx_rank (p : TxPhase) : nat :=
  match p with
  | X_start => 4 | X_open => 3 | X_inserted _ => 1 | X_lookup => 2 | X_ready _ => 1 | X_done _ => 0
  end.

Definition acts_on (a : TxAction) (i : nat) : Prop :=
  match a with
  | TX_begin j _ | TX_insert j _ | TX_select j _ | TX_commit j _ => j = i
  | TX_worker _ => False
  end.

Lemma tx_step_rank a st st' i :
  tx_step a st = Some st' → acts_on a i →
  ∃ s s', tx_sessions st !! i = Some s ∧ tx_sessions st' !! i = Some s' ∧
    (tx_rank (ss_phase s') < tx_rank (ss_phase s))%nat.
Proof.
  destruct a as [j f|j f|j f|j f|op]; simpl; intros Hstep Ha; try done; subst j;
    (destruct (tx_sessions st !! i) as [s|] eqn:Hs; simpl in Hstep; [|done]);
    pose proof (lookup_lt_Some _ _ _ Hs) as Hlt; exists s.
  - destruct (ss_phase s) eqn:Hp; try done. injection Hstep as <-. eexists. split; [done|].
    simpl. rewrite list_lookup_insert_eq by done. split; [done|]. destruct f; simpl; lia.
  - destruct (ss_phase s) eqn:Hp; try done. destruct f as [e|].
    + injection Hstep as <-. eexists. split; [done|]. simpl.
      rewrite list_lookup_insert_eq by done. split; [done|]. simpl; lia.
    + destruct (tx_insert _ _ _) as [[p|e]|] eqn:Hins; simplify_eq/=; eexists; (split; [done|]);
        rewrite list_lookup_insert_eq by done; (split; [done|]); simpl; [|lia].
      apply tx_insert_ok in Hins as [[-> _]|(row & -> & _)]; simpl; lia.
  - destruct (ss_phase s) eqn:Hp; try done. injection Hstep as <-. eexists. split; [done|].
    simpl. rewrite list_lookup_insert_eq by done. split; [done|].
    destruct f; simpl; [lia|]. unfold tx_select. repeat case_match; simpl; lia.
  - destruct (ss_phase s) eqn:Hp; try done; simpl in Hstep;
      (destruct (tx_commit _ _ _ _) as [res db']); injection Hstep as <-; eexists; (split; [done|]);
      simpl; rewrite list_lookup_insert_eq by done; (split; [done|]); simpl; lia.
Qed.

#[global] Instance acts_on_dec a i : Decision (acts_on a i).
Proof. destruct a; simpl; apply _. Defined.

(** A statement of session [i] changes that session. *)
Lemma tx_step_session a st st' i :
  tx_step a st = Some st' → acts_on a i → ∃ s', tx_sessions st' = <[i := s']> (tx_sessions st).
Proof.
  destruct a as [j f|j f|j f|j f|op]; simpl; intros Hstep Ha; try done; subst j;
    (destruct (tx_sessions st !! i) as [s|]; simpl in Hstep; [|done]);
    destruct (ss_phase s); try done; simpl in Hstep.
  - injection Hstep as <-. by eexists.
  - destruct f; [injection Hstep as <-; by eexists|].
    destruct (tx_insert _ _ _); simplify_eq/=. by eexists.
  - injection Hstep as <-. by eexists.
  - destruct (tx_commit _ _ _ _). injection Hstep as <-. by eexists.
  - destruct (tx_commit _ _ _ _). injection Hstep as <-. by eexists.
Qed.

(** Any other step leaves it alone. *)
Lemma tx_step_others a st st' i :
  tx_step a st = Some st' → ¬ acts_on a i → tx_sessions st' !! i = tx_sessions st !! i.
Proof.
  intros Hstep Ha. destruct a as [j f|j f|j f|j f|op]; simpl in Ha;
    try (destruct (tx_step_session _ st st' j Hstep eq_refl) as [s' ->];
      by rewrite list_lookup_insert_ne).
  simpl in Hstep. by destruct op; simplify_eq.
Qed.

(** The statements of session [i] in an execution. *)
Definition own_steps (i : nat) (acts : list TxAction) : nat := length (filter (λ a, acts_on a i) acts).

(** An execution: every step of [acts] is taken. *)
Fixpoint tx_exec (acts : list TxAction) st : option TxState :=
  match acts with [] => Some st | a :: acts => st' ← tx_step a st; tx_exec acts st' end.

Lemma tx_exec_rank acts st st' i s :
  tx_exec acts st = Some st' → tx_sessions st !! i = Some s →
  ∃ s', tx_sessions st' !! i = Some s' ∧
    (own_steps i acts + tx_rank (ss_phase s') ≤ tx_rank (ss_phase s))%nat.
Proof.
  unfold own_steps. revert st s. induction acts as [|a acts IH]; simpl; intros st s.
  { intros [= <-] Hs. by exists s. }
  destruct (tx_step a st) as [st1|] eqn:Hstep; simpl; [|done]. intros Hexec Hs.
  rewrite filter_cons. destruct (decide (acts_on a i)) as [Ha|Ha].
  - destruct (tx_step_rank a st st1 i Hstep Ha) as (s0 & s1 & Hs0 & Hs1 & Hlt). simplify_eq.
    destruct (IH st1 s1 Hexec Hs1) as (s' & ? & ?). exists s'. split; [done|]. simpl. lia.
  - apply (IH st1 s Hexec). by rewrite (tx_step_others a st).
Qed.

(** A statement the driver answers. *)
Definition answered (a : TxAction) : bool :=
  match a with
  | TX_begin _ f | TX_insert _ f | TX_select _ f => bool_decide (f = None)
  | TX_commit _ f => match f with None => true | Some _ => false end
  | TX_worker _ => false
  end.

Definition returned (p : TxPhase) : bool := match p with X_done _ => true | _ => false end.

(** A transaction that holds a row can commit. *)
Lemma tx_commit_enabled st j t row fault :
  tx_sessions st !! j = Some t → ss_phase t = X_inserted row →
  is_Some (tx_step (TX_commit j fault) st).
Proof.
  intros Ht Hp. simpl. rewrite Ht. simpl. rewrite Hp. simpl. by destruct (tx_commit _ _ _ _).
Qed.

(** An admission that cannot go on waits for one that can commit. *)
Lemma tx_enabled st i s :
  tx_sessions st !! i = Some s → returned (ss_phase s) = false →
  (∃ a, acts_on a i ∧ answered a = true ∧ is_Some (tx_step a st)) ∨
  (∃ j t row, j ≠ i ∧ tx_sessions st !! j = Some t ∧ ss_phase t = X_inserted row ∧
    ∀ fault, is_Some (tx_step (TX_commit j fault) st)).
Proof.
  intros Hs Hret. destruct (ss_phase s) as [| |row| |o|] eqn:Hp; simpl in Hret; [..|done].
  - left. exists (TX_begin i None). simpl. rewrite Hs. simpl. rewrite Hp. eauto.
  - destruct (omap held_row (tx_sessions st)) as [|row rows] eqn:Hheld.
    + left. exists (TX_insert i None). simpl. rewrite Hs. simpl. rewrite Hp, Hheld.
      unfold tx_insert. repeat case_match; simpl in *; eauto; discriminate.
    + assert (row ∈ omap held_row (tx_sessions st)) as Hin by (rewrite Hheld; by left).
      apply list_elem_of_omap in Hin as (t & (j & Hj)%list_elem_of_lookup_1 & Ht).
      unfold held_row in Ht. destruct (ss_phase t) eqn:Hpt; simplify_eq.
      right. exists j, t, row. split_and!; [congruence|done..|].
      intros fault. by eapply tx_commit_enabled.
  - left. exists (TX_commit i None). split_and!; [done..|]. by eapply tx_commit_enabled.
  - left. exists (TX_select i None). simpl. rewrite Hs. simpl. rewrite Hp. eauto.
  - left. exists (TX_commit i None). simpl. rewrite Hs. simpl. rewrite Hp. eauto.
Qed.

(** C22. Admissions make progress in every execution, with any failures and any steps
    of other admissions and workers in between: an admission takes at most four
    statements of its own, each strictly decreases the number it can still take, and
    after the fourth at the latest it has returned; as long as it has not returned,
    its next statement can be answered without a failure, or another admission holds
    an uncommitted row and can commit, with success or any failure. *)
Theorem admissions_progress acts st st' i s :
  tx_sessions st !! i = Some s → tx_exec acts st = Some st' →
  ∃ s', tx_sessions st' !! i = Some s' ∧
    (own_steps i acts + tx_rank (ss_phase s') ≤ tx_rank (ss_phase s) ≤ 4)%nat ∧
    (own_steps i acts = 4%nat → returned (ss_phase s') = true) ∧
    (returned (ss_phase s') = false →
      (∃ a, acts_on a i ∧ answered a = true ∧ is_Some (tx_step a st')) ∨
      (∃ j t row, j ≠ i ∧ tx_sessions st' !! j = Some t ∧ ss_phase t = X_inserted row ∧
        ∀ fault, is_Some (tx_step (TX_commit j fault) st'))).
Proof.
  intros Hs Hexec. destruct (tx_exec_rank acts st st' i s Hexec Hs) as (s' & Hs' & Hle).
  assert (tx_rank (ss_phase s) ≤ 4)%nat as H4 by (destruct (ss_phase s); simpl; lia).
  exists s'. split_and!; [done|lia|done| |by apply tx_enabled].
  intros H. destruct (ss_phase s'); simpl in *; [lia..|done].
Qed.
End guarantees.

(** ** Two identical requests *)

Definition sample_rq (id : Uuid) : Request := mkRequest 5 (sample_event id) sample_key sample_fp.

Definition sample_tx0 : TxState :=
  mkTxState ∅ [mkSession (sample_rq 1) X_start; mkSession (sample_rq 2) X_start].

Fixpoint tx_run (acts : list TxAction) (st : TxState) : TxState :=
  match acts with
  | [] => st
  | a :: acts => match tx_step a st with Some st' => tx_run acts st' | None => tx_run acts st end
  end.

Lemma tx_run_reach acts st : rtc tx_next st (tx_run acts st).
Proof.
  revert st. induction acts as [|a acts IH]; intros st; simpl; [done|].
  destruct (tx_step a st) as [st'|] eqn:E; [|apply IH]. eapply rtc_l; [by exists a|apply IH].
Qed.

Lemma sample_tx0_init : tx_init sample_tx0.
Proof.
  split; [apply wf_table_empty|]. intros [|[|i]] s; simpl; intros H; simplify_eq; simpl;
    (split; [done|]); by apply sample_admissible, small_uuid.
Qed.

(** Both begin, the first holds its row (the second would wait), and commits; then
    the second finds the conflict, looks it up and commits. *)
Definition sample_tx1 : TxState :=
  tx_run [TX_begin 0 None; TX_begin 1 None; TX_insert 0 None; TX_insert 1 None] sample_tx0.
Definition sample_tx2 : TxState :=
  tx_run [TX_commit 0 None; TX_insert 1 None; TX_select 1 None; TX_commit 1 None] sample_tx1.

Lemma sample_tx1_reach : rtc tx_next sample_tx0 sample_tx1.
Proof. apply tx_run_reach. Qed.

Lemma sample_tx2_reach : rtc tx_next sample_tx0 sample_tx2.
Proof. etransitivity; [apply sample_tx1_reach|apply tx_run_reach]. Qed.

Lemma admissions_atomic_witness :
  tx_step (TX_insert 1 None) sample_tx1 = None ∧
  ∃ st', tx_step (TX_commit 0 None) sample_tx1 = Some st' ∧ simulated sample_tx1 st' 0.
Proof.
  split; [vm_compute; reflexivity|].
  destruct (tx_step (TX_commit 0 None) sample_tx1) as [st'|] eqn:E; [|vm_compute in E; discriminate E].
  exists st'. split; [reflexivity|].
  exact (admissions_atomic sample_tx0 sample_tx1 (TX_commit 0 None) st' sample_tx0_init
    sample_tx1_reach E).
Defined.


Lemma admissions_progress_witness :
  ∃ s', tx_sessions sample_tx2 !! 1%nat = Some s' ∧ returned (ss_phase s') = true.
Proof.
  assert (tx_exec [TX_begin 0 None; TX_begin 1 None; TX_insert 0 None; TX_commit 0 None;
    TX_insert 1 None; TX_select 1 None; TX_commit 1 None] sample_tx0 = Some sample_tx2) as He
    by (vm_compute; reflexivity).
  destruct (admissions_progress _ sample_tx0 sample_tx2 1 (mkSession (sample_rq 2) X_start)
    eq_refl He) as (s' & Hs' & _ & Hret & _).
  exists s'. split; [exact Hs'|]. apply Hret. vm_compute. reflexivity.
Defined.
