(* ===== verification/Winner.v ===== *)
(** * A race for one idempotency key has one winner

    What [AdmitTx] says of pairs of admissions, for all the admissions of a key
    together: when every one of them got an answer and the key was free, exactly
    one created the event and the others learned of it. *)

From S2P Require Import Prelude Text Json Crates Reference Event Idempotency Config Schema Store.
From S2P Require Import Fixtures StoreSpec ClaimSpec History AdmitTx.

Section race.
Context `{SJ : SerdeJson} {PG : Postgres} {PGL : PostgresLaws PG}.
Context (source key : str).
Implicit Types (st : TxState) (s : Session) (db : Table).

(** A session of the race. *)
Definition races s : Prop := rq_source (ss_req s) = source ∧ rq_keystr (ss_req s) = key.

(** A session that may have put the row of the key into the table: it reported the
    creation, or it failed. *)
Definition may_have_created s : Prop :=
  races s ∧
  ((∃ id, ss_phase s = X_done (Ok (Created id))) ∨ ∃ e, ss_phase s = X_done (Err e)).

Definition accounted_for st : Prop :=
  is_Some (find_key (tx_db st) source key) → ∃ i s, tx_sessions st !! i = Some s ∧ may_have_created s.

(** A session that has returned stays as it is. *)
Lemma creator_kept a st st' i s :
  tx_inv st → tx_step a st = Some st' → tx_sessions st !! i = Some s → may_have_created s →
  tx_sessions st' !! i = Some s.
Proof.
  intros Hinv Hstep Hi [_ Hp].
  assert (∃ res, ss_phase s = X_done res) as [res Hres] by (destruct Hp as [[? ?]|[? ?]]; eauto).
  destruct (decide (acts_on a i)) as [Ha|Ha].
  - destruct (tx_step_rank a st st' i Hstep Ha) as (s0 & s' & Hs0 & _ & Hlt).
    rewrite Hi in Hs0. injection Hs0 as <-. rewrite Hres in Hlt. simpl in Hlt. lia.
  - by rewrite (tx_step_others a st st').
Qed.

(** The row of the key enters the table by the commit of a session of the race. *)
Lemma tx_step_accounted a st st' :
  tx_inv st → tx_step a st = Some st' → accounted_for st → accounted_for st'.
Proof.
  intros Hinv Hstep Hacc Hk'.
  destruct (find_key (tx_db st) source key) as [r|] eqn:Hk.
  { destruct Hacc as (i & s & Hi & Hs); [by rewrite Hk|].
    exists i, s. split; [by eapply creator_kept|done]. }
  clear Hacc. destruct Hk' as [r' Hk'].
  assert (tx_db st' = tx_db st → False) as Hchange by (intros E; rewrite E in Hk'; congruence).
  destruct a as [i f|i f|i f|i f|op]; simpl in Hstep;
    try (destruct (tx_sessions st !! i) as [s|] eqn:Hi; simpl in Hstep; [|done]).
  - destruct (ss_phase s); simplify_eq; by destruct Hchange.
  - destruct (ss_phase s); try done. destruct f; [simplify_eq; by destruct Hchange|].
    destruct (tx_insert _ _ _); simplify_eq/=; by destruct Hchange.
  - destruct (ss_phase s); simplify_eq; by destruct Hchange.
  - destruct (ti_sessions _ Hinv i s Hi) as [_ Hph].
    destruct (ss_phase s) as [| |row| |o|] eqn:Hp; simpl in Hstep; try done.
    2: { destruct f as [[e []]|]; simpl in Hstep; simplify_eq; by destruct Hchange. }
    destruct Hph as (_ & Hid & payload & _ & Hrow).
    assert (races s) as Hrace.
    { destruct (decide (races s)) as [|Hn]; [done|]. exfalso.
      assert (find_key (<[rq_id (ss_req s) := row]> (tx_db st)) source key = None) as Hnone.
      { apply find_key_insert_ne; [done|]. subst row. exact Hn. }
      destruct f as [[e []]|]; simpl in Hstep; simplify_eq/=; congruence. }
    exists i. destruct f as [[e b]|]; simpl in Hstep; injection Hstep as <-; simpl;
      rewrite list_lookup_insert_eq by (by eapply lookup_lt_Some); eexists; (split; [done|]);
      (split; [exact Hrace|]); simpl; eauto.
  - assert (is_worker_op op = true) as Hop by by destruct op.
    assert (st' = mkTxState (apply_op op (tx_db st)) (tx_sessions st)) as ->
      by (by destruct op; simplify_eq).
    simpl in Hk'. rewrite worker_op_key_none in Hk'; [done|done|apply Hinv| |done].
    apply apply_op_wf; [by destruct op|apply Hinv].
Qed.

Lemma tx_reach_accounted st st' :
  tx_inv st → rtc tx_next st st' → accounted_for st → accounted_for st'.
Proof.
  intros Hinv Hr. revert Hinv. induction Hr as [|st st1 st2 [a Ha] _ IH]; intros Hinv Hacc; [done|].
  apply IH; [by eapply tx_step_sim|by eapply tx_step_accounted].
Qed.
End race.

(** C3. A race for a free idempotency key has exactly one winner: when any number of
    concurrent admissions of one source and key, interleaved with workers and with
    other admissions in any way, have all returned an outcome, exactly one of them
    created its event; every other one was answered with a replay of that event if
    its fingerprint is the winner's, and with a conflict if not; and the table holds
    the winner's row under the key. *)
Theorem one_winner `{SJ : SerdeJson} {PG : Postgres} {PGL : PostgresLaws PG} source key st0 st :
  tx_init st0 → rtc tx_next st0 st → find_key (tx_db st0) source key = None →
  (∃ i s, tx_sessions st !! i = Some s ∧ races source key s) →
  (∀ i s, tx_sessions st !! i = Some s → races source key s → ∃ o, ss_phase s = X_done (Ok o)) →
  ∃ w sw r, tx_sessions st !! w = Some sw ∧ races source key sw ∧
    let id := event_id (rq_event (ss_req sw)) in
    ss_phase sw = X_done (Ok (Created id)) ∧
    find_key (tx_db st) source key = Some r ∧ r_event_id r = EventId_as_uuid id ∧
    ∀ i s, i ≠ w → tx_sessions st !! i = Some s → races source key s →
      ss_phase s = X_done (Ok (if decide (rq_fp (ss_req s) = rq_fp (ss_req sw))
        then Replayed id else Conflict)).
Proof.
  intros Hi Hr Hfree (i0 & s0 & Hi0 & Hs0) Hdone.
  pose proof (tx_reach_inv st0 st Hi Hr) as Hinv.
  assert (accounted_for source key st) as Hacc.
  { apply (tx_reach_accounted source key st0); [by apply (tx_reach_inv st0)|done|].
    unfold accounted_for. rewrite Hfree. by intros []. }
  destruct (Hdone i0 s0 Hi0 Hs0) as [o0 Ho0].
  destruct (done_outcome st i0 s0 o0 Hinv Hi0 Ho0) as (r & Hk & _).
  destruct Hs0 as [Hsrc0 Hkey0]. rewrite Hsrc0, Hkey0 in Hk.
  destruct Hacc as (w & sw & Hw & Hrw & Hpw); [by rewrite Hk|].
  destruct (Hdone w sw Hw Hrw) as [ow How].
  destruct Hpw as [[id Hid]|[e He]]; [|congruence].
  destruct (ti_sessions _ Hinv w sw Hw) as [_ Hph]. rewrite Hid in Hph.
  destruct Hph as (-> & r' & Hk' & Hres). destruct Hrw as [Hsrcw Hkeyw].
  rewrite Hsrcw, Hkeyw, Hk in Hk'. injection Hk' as <-.
  unfold resolve in Hres. case_bool_decide as Hfp; [|done]. injection Hres as Hrid.
  exists w, sw, r. split; [done|]. split; [done|]. split; [done|]. split; [done|].
  split; [by rewrite <-Hrid|]. intros i s Hne Hsi [Hsrc Hkey].
  destruct (Hdone i s Hsi (conj Hsrc Hkey)) as [o Ho]. rewrite Ho. do 2 f_equal.
  destruct (ti_sessions _ Hinv i s Hsi) as [_ Hps]. rewrite Ho in Hps.
  destruct o as [id'|id'|].
  { destruct (ti_pairs _ Hinv i w s sw Hsi Hw Hne) as [Hc _]. exfalso.
    apply Hc; [by rewrite Ho|by rewrite Hid|]. by rewrite Hsrc, Hkey, Hsrcw, Hkeyw. }
  all: destruct Hps as (r1 & Hk1 & Hr1); rewrite Hsrc, Hkey, Hk in Hk1; injection Hk1 as <-;
    rewrite <-Hr1; unfold resolve; rewrite Hfp, Hrid.
  all: case_bool_decide as Hf; case_decide as Hd; try done; exfalso.
  all: try (by apply Hf; rewrite Hd); apply Hd; destruct (rq_fp (ss_req s)), (rq_fp (ss_req sw));
    simpl in Hf; congruence.
Qed.

(** Two identical requests and a different one, under one key. *)
Definition race0 : TxState := mkTxState ∅ [
  mkSession (sample_rq 1) X_start;
  mkSession (sample_rq 2) X_start;
  mkSession (mkRequest 5 (sample_event2 3) sample_key sample_fp2) X_start].

Definition race1 : TxState := tx_run [
  TX_begin 2 None; TX_begin 1 None; TX_begin 0 None; TX_insert 1 None; TX_insert 0 None;
  TX_commit 1 None; TX_insert 0 None; TX_insert 2 None; TX_select 2 None; TX_select 0 None;
  TX_commit 2 None; TX_commit 0 None] race0.

Lemma race0_init : tx_init race0.
Proof.
  split; [apply wf_table_empty|]. intros [|[|[|i]]] s H; cbn in H; [injection H as <-..|done];
    (split; [reflexivity|]).
  - apply (sample_admissible 1), small_uuid; reflexivity.
  - apply (sample_admissible 2), small_uuid; reflexivity.
  - destruct (sample_admissible2 3 (small_uuid 3 eq_refl)) as [? ? ? _]. by split.
Qed.

(** The session with identity 2 commits first; the other two look its row up. *)
Lemma race1_phases : ss_phase <$> tx_sessions race1 = [
  X_done (Ok (Replayed (mkEventId 2))); X_done (Ok (Created (mkEventId 2))); X_done (Ok Conflict)].
Proof. vm_compute. reflexivity. Qed.

Lemma one_winner_witness :
  ∃ w sw, tx_sessions race1 !! w = Some sw ∧
    ss_phase sw = X_done (Ok (Created (event_id (rq_event (ss_req sw))))).
Proof.
  destruct (one_winner (lit "orders-api") (lit "order-1") race0 race1) as (w & sw & r & Hw & _ & Hp & _).
  - exact race0_init.
  - apply tx_run_reach.
  - reflexivity.
  - assert (tx_sessions race1 !! 1%nat =
      Some (mkSession (sample_rq 2) (X_done (Ok (Created (mkEventId 2)))))) as H by (vm_compute; reflexivity).
    eexists 1%nat, _. split; [exact H|]. split; reflexivity.
  - intros i s Hi _. pose proof race1_phases as H. apply (f_equal (λ l, l !! i)) in H.
    rewrite list_lookup_fmap, Hi in H. simpl in H.
    destruct i as [|[|[|i]]]; simpl in H; [injection H as ->; eexists; reflexivity..|discriminate H].
  - exists w, sw. split; [exact Hw|exact Hp].
Defined.
