(* ===== verification/Api.v ===== *)
(** * The HTTP API (pulsestream-api)

    The request handlers and the error responses. What axum and the http crate
    provide is a parameter ([Http]): header maps, header text, and the outcome of
    the JSON extractor, which a handler receives as a [result]. The store is used
    through the interface [StoreOps]; [StoreContract] states what the handlers
    rely on, and [pg_contract] shows that [Store] keeps it. *)

From S2P Require Import Prelude Text Json Crates Event Idempotency Config Schema Store StoreSpec.
From S2P Require Import ClaimSpec.

(** ** axum and http *)

Class Http := {
  HeaderMap : Type;
  hm_get : str → HeaderMap → option bytes;
  hm_insert : str → bytes → HeaderMap → HeaderMap;
  (** [HeaderValue::to_str]. *)
  header_to_str : bytes → option str;
  (** The headers of a [Json] response. *)
  json_headers : HeaderMap
}.

(** Header names of the program. *)
Definition IDEMPOTENCY_KEY : str := lit "idempotency-key".
Definition IDEMPOTENCY_REPLAYED : str := lit "idempotency-replayed".
Definition RETRY_AFTER : str := lit "retry-after".

(** Inserting a header replaces it and keeps the others, text read from a header
    is the header's bytes, visible ASCII reads back, and a [Json] response only
    describes its content. *)
Class HttpLaws (HT : Http) : Prop := {
  hm_get_insert k v h : hm_get k (hm_insert k v h) = Some v;
  hm_get_insert_ne k k' v h : k ≠ k' → hm_get k' (hm_insert k v h) = hm_get k' h;
  header_to_str_bytes b s : header_to_str b = Some s → as_bytes s = b;
  header_to_str_graphic s :
    Forall (λ c, 0x21 ≤ c ≤ 0x7E) s → header_to_str (as_bytes s) = Some s;
  json_headers_replayed : hm_get IDEMPOTENCY_REPLAYED json_headers = None;
  json_headers_retry : hm_get RETRY_AFTER json_headers = None
}.

(** [JsonRejection], with the status of a failure to read the body. *)
Inductive JsonRejection :=
| JR_MissingJsonContentType
| JR_BytesRejection (status : Z)
| JR_JsonSyntaxError
| JR_JsonDataError
| JR_Other.

Inductive Method := GET | POST.

(** Status codes. *)
Definition OK : Z := 200.
Definition ACCEPTED : Z := 202.
Definition BAD_REQUEST : Z := 400.
Definition NOT_FOUND : Z := 404.
Definition CONFLICT : Z := 409.
Definition PAYLOAD_TOO_LARGE : Z := 413.
Definition UNSUPPORTED_MEDIA_TYPE : Z := 415.
Definition INTERNAL_SERVER_ERROR : Z := 500.
Definition SERVICE_UNAVAILABLE : Z := 503.

(** ** Bodies *)

Record AcceptedResponse := mkAcceptedResponse { ar_event_id : str; ar_status : str }.

Record EventStatusResponse := mkEventStatusResponse {
  es_event_id : str;
  es_source : str;
  es_event_type : str;
  es_status : str;
  es_accepted_at : str;
  es_processed_at : option str
}.

Record ErrorBody := mkErrorBody { eb_code : str; eb_message : str }.
Record Liveness := mkLiveness { live_status : str; live_service : str }.

Record Readiness := mkReadiness {
  ready_status : str;
  ready_service : str;
  ready_checks : list (str * str)
}.

Inductive Body :=
| BAccepted (b : AcceptedResponse)
| BStatus (b : EventStatusResponse)
| BError (b : ErrorBody)
| BLive (b : Liveness)
| BReady (b : Readiness).

Record Response `{Http} := mkResponse {
  resp_status : Z;
  resp_headers : HeaderMap;
  resp_body : Body
}.
Arguments mkResponse {_} _ _ _.

(** ** error.rs *)

Definition RETRY_AFTER_SECS : Z := 1.

Inductive ApiError :=
| AE_InvalidEvent (message : str)
| AE_PayloadTooLarge
| AE_UnsupportedMediaType
| AE_IdempotencyKeyRequired
| AE_IdempotencyKeyInvalid
| AE_IdempotencyConflict
| AE_InvalidEventId
| AE_EventNotFound
| AE_PersistenceUnavailable
| AE_Internal.

#[global] Instance ApiError_eq_dec : EqDecision ApiError.
Proof. solve_decision. Defined.

Definition from_json_rejection (rejection : JsonRejection) : ApiError :=
  match rejection with
  | JR_MissingJsonContentType => AE_UnsupportedMediaType
  | JR_BytesRejection status =>
      if status =? PAYLOAD_TOO_LARGE then AE_PayloadTooLarge
      else AE_InvalidEvent (lit "request body could not be read")
  | JR_JsonSyntaxError => AE_InvalidEvent (lit "request body is not valid JSON")
  | JR_JsonDataError => AE_InvalidEvent (lit "request body must be a JSON object with string fields `source` and `event_type`, a `payload`, and no other fields")
  | JR_Other => AE_InvalidEvent (lit "request body could not be read")
  end.

Definition parts (e : ApiError) : Z * str * str :=
  match e with
  | AE_InvalidEvent message => (BAD_REQUEST, lit "INVALID_EVENT", message)
  | AE_PayloadTooLarge =>
      (PAYLOAD_TOO_LARGE, lit "PAYLOAD_TOO_LARGE", lit "request body exceeds the 64 KiB limit")
  | AE_UnsupportedMediaType =>
      (UNSUPPORTED_MEDIA_TYPE, lit "UNSUPPORTED_MEDIA_TYPE",
       lit "Content-Type must be application/json")
  | AE_IdempotencyKeyRequired =>
      (BAD_REQUEST, lit "IDEMPOTENCY_KEY_REQUIRED", lit "Idempotency-Key header is required")
  | AE_IdempotencyKeyInvalid =>
      (BAD_REQUEST, lit "IDEMPOTENCY_KEY_INVALID",
       lit "Idempotency-Key must be 1-128 characters of visible ASCII (no spaces)")
  | AE_IdempotencyConflict =>
      (CONFLICT, lit "IDEMPOTENCY_CONFLICT",
       lit "Idempotency-Key was already used for a different event from this source")
  | AE_InvalidEventId => (BAD_REQUEST, lit "INVALID_EVENT_ID", lit "event_id must be a UUID")
  | AE_EventNotFound => (NOT_FOUND, lit "EVENT_NOT_FOUND", lit "event not found")
  | AE_PersistenceUnavailable =>
      (SERVICE_UNAVAILABLE, lit "PERSISTENCE_UNAVAILABLE",
       lit "event persistence is temporarily unavailable")
  | AE_Internal => (INTERNAL_SERVER_ERROR, lit "INTERNAL_ERROR", lit "internal server error")
  end.

(** [impl From<IdempotencyKeyError> for ApiError]. *)
Definition ApiError_from (e : IdempotencyKeyError) : ApiError :=
  match e with
  | IKE_Missing => AE_IdempotencyKeyRequired
  | IKE_Invalid => AE_IdempotencyKeyInvalid
  end.

(** [impl IntoResponse for ApiError]. *)
Definition ApiError_into_response `{Http} (e : ApiError) : Response :=
  let '(status, code, message) := parts e in
  let response := mkResponse status json_headers (BError (mkErrorBody code message)) in
  if bool_decide (e = AE_PersistenceUnavailable) then
    mkResponse (resp_status response)
      (hm_insert RETRY_AFTER (decimal RETRY_AFTER_SECS) (resp_headers response))
      (resp_body response)
  else response.

(** [impl IntoResponse for Result<Response, ApiError>]. *)
Definition into_response `{Http} (r : result ApiError Response) : Response :=
  match r with Ok response => response | Err e => ApiError_into_response e end.

(** ** events.rs *)

Definition MAX_BODY_BYTES : Z := 64 * 1024.

Record EventRequest `{SerdeJson} := mkEventRequest {
  req_source : str;
  req_event_type : str;
  req_payload : Value
}.
Arguments mkEventRequest {_} _ _ _.

(** The store as the handlers see it; [op_ping] also says how long the answer takes. *)
Record StoreOps `{SerdeJson} (S : Type) := mkStoreOps {
  op_admit : Event → IdempotencyKey → RequestFingerprint → S → result StoreError AdmitOutcome * S;
  op_get : EventId → S → result StoreError (option EventRecord);
  op_ping : S → Duration * result StoreError unit
}.
Arguments mkStoreOps {_ _} _ _ _.
Arguments op_admit {_ _} _ _ _ _ _.
Arguments op_get {_ _} _ _ _.
Arguments op_ping {_ _} _ _.

Definition store_error (err : StoreError) : ApiError :=
  if is_unavailable err then AE_PersistenceUnavailable else AE_Internal.

Definition idempotency_key `{Http} (headers : HeaderMap)
    : result IdempotencyKeyError IdempotencyKey :=
  value ← ok_or (hm_get IDEMPOTENCY_KEY headers) IKE_Missing;
  value ← ok_or (header_to_str value) IKE_Invalid;
  IdempotencyKey_parse value.

Section handlers.
Context `{SJ : SerdeJson, SW : !SerdeJsonWriter, SH : Sha2, HT : Http, UC : UuidCrate}.
Context {S : Type} (store : StoreOps S).
Implicit Types (s : S).

(** The events the response to an admission names. *)
Definition accepted_response (id : EventId) (replayed : bool) : Response :=
  let response := mkResponse ACCEPTED json_headers
    (BAccepted (mkAcceptedResponse (EventId_to_string id) (lit "accepted"))) in
  mkResponse (resp_status response)
    (hm_insert IDEMPOTENCY_REPLAYED (if replayed then lit "true" else lit "false")
      (resp_headers response))
    (resp_body response).

(** [POST /v1/events]; [v4] and [now] are what [Event::new] draws. *)
Definition ingest (v4 : Uuid) (now : SystemTime) (headers : HeaderMap)
    (body : result JsonRejection EventRequest) s : result ApiError Response * S :=
  match
    key ← map_err ApiError_from (idempotency_key headers);
    request ← map_err from_json_rejection body;
    event ← map_err (λ err, AE_InvalidEvent (ValidationError_to_string err))
      (Event_new v4 now (req_source request) (req_event_type request) (req_payload request));
    Ok (key, event)
  with
  | Err e => (Err e, s)
  | Ok (key, event) =>
      let fingerprint :=
        RequestFingerprint_compute (event_source event) (event_type event) (event_payload event) in
      let '(admitted, s') := op_admit store event key fingerprint s in
      (outcome ← map_err store_error admitted;
       '(id, replayed) ←
         match outcome with
         | Created id => Ok (id, false)
         | Replayed id => Ok (id, true)
         | Conflict => Err AE_IdempotencyConflict
         end;
       Ok (accepted_response id replayed), s')
  end.

(** [GET /v1/events/{event_id}]. *)
Definition events_get (event_id : str) s : result ApiError Response :=
  id ← ok_or (EventId_parse event_id) AE_InvalidEventId;
  record ← map_err store_error (op_get store id s);
  record ← ok_or record AE_EventNotFound;
  Ok (mkResponse OK json_headers (BStatus {|
    es_event_id := EventId_to_string (rec_event_id record);
    es_source := rec_source record;
    es_event_type := rec_event_type record;
    es_status := as_api_str (rec_status record);
    es_accepted_at := rec_accepted_at record;
    es_processed_at := rec_processed_at record
  |})).

(** ** health.rs *)

Definition SERVICE : ServiceName := Api.
Definition READINESS_TIMEOUT : Duration := 2 * 1000000000.

Definition live : Response :=
  mkResponse OK json_headers (BLive (mkLiveness (lit "ok") (ServiceName_as_str SERVICE))).

(** [tokio::time::timeout]: the future's answer unless the time is up first. *)
Definition timeout {A} (limit : Duration) (future : Duration * A) : option A :=
  if future.1 <=? limit then Some future.2 else None.

Definition ready s : Response :=
  let database_ready :=
    match timeout READINESS_TIMEOUT (op_ping store s) with
    | Some (Ok _) => true
    | Some (Err _) => false
    | None => false
    end in
  let checks := [(lit "database", if database_ready then lit "ready" else lit "unavailable")] in
  let '(code, status) :=
    if database_ready then (OK, lit "ok") else (SERVICE_UNAVAILABLE, lit "unavailable") in
  mkResponse code json_headers (BReady (mkReadiness status (ServiceName_as_str SERVICE) checks)).

(** ** app.rs *)

Inductive Handler := H_live | H_ready | H_ingest | H_get.

(** A route: its path, method, handler and the limit on the body, where it sets one. *)
Record Route := mkRoute {
  route_path : str;
  route_method : Method;
  route_handler : Handler;
  route_body_limit : option Z
}.

Definition router : list Route := [
  mkRoute (lit "/health/live") GET H_live None;
  mkRoute (lit "/health/ready") GET H_ready None;
  mkRoute (lit "/v1/events") POST H_ingest (Some MAX_BODY_BYTES);
  mkRoute (lit "/v1/events/{event_id}") GET H_get None
].
End handlers.
