(* ===== verification/ApiSpec.v ===== *)
(** * What the API promises its clients

    The interface between the handlers and the store as a class of laws
    ([StoreContract]), the proofs that [Store] keeps it under any failure
    ([pg_contract]), and the guarantees of the HTTP responses, proved against the
    interface. *)

From S2P Require Import Prelude Text Json Crates Reference Event Idempotency Config Schema Store.
From S2P Require Import Fixtures StoreSpec ClaimSpec History Api.

(** ** The interface *)

(** What a row says of the request that made it. *)
Definition records `{SerdeJson} (r : Row) (id : EventId) (source : str) (key : IdempotencyKey)
    (fp : RequestFingerprint) : Prop :=
  r_event_id r = EventId_as_uuid id ∧ r_source r = source ∧
  r_idempotency_key r = IdempotencyKey_expose key ∧
  r_request_fingerprint r = RequestFingerprint_as_bytes fp.

(** [inv] is the store's invariant and [row s id] what it durably holds for [id]. *)
Class StoreContract `{SJ : SerdeJson} {S : Type} (store : StoreOps S)
    (inv : S → Prop) (row : S → EventId → option Row) : Prop := {
  sc_admit_inv event key fp s :
    inv s → admissible event key fp → inv (op_admit store event key fp s).2;
  sc_admit_durable event key fp s id s' replayed :
    inv s → admissible event key fp →
    op_admit store event key fp s = (Ok (if replayed : bool then Replayed id else Created id), s') →
    valid_uuid (EventId_as_uuid id) ∧
    row s id = (if replayed then row s' id else None) ∧
    ∃ r, row s' id = Some r ∧ records r id (EventSource_as_str (event_source event)) key fp ∧
      (replayed = false →
       row_pending r ∧ r_event_type r = EventType_as_str (event_type event));
  sc_admit_keeps event key fp s id r :
    inv s → row s id = Some r → row (op_admit store event key fp s).2 id = Some r;
  sc_get id s :
    inv s →
    match op_get store id s with
    | Ok None => row s id = None
    | Ok (Some rec) => ∃ r, row s id = Some r ∧ rec_event_id rec = id ∧
        rec_source rec = r_source r ∧ rec_event_type rec = r_event_type r ∧
        as_db_str (rec_status rec) = r_status r
    | Err e => ∃ x, e = StoreError_from x
    end
}.

(** ** The implementation *)

(** What the environment decides during one request. *)
Record RequestEnv := mkRequestEnv {
  env_now : Z;
  env_admit : AdmitFaults;
  env_get : option SqlxError;
  env_ping : Duration * option SqlxError
}.

Definition pg_store `{SerdeJson, Postgres} (env : RequestEnv) : StoreOps (gmap Uuid Row) := {|
  op_admit := store_admit (env_admit env) (env_now env);
  op_get := get (env_get env);
  op_ping _ := ((env_ping env).1, ping (env_ping env).2)
|}.

Section contract.
Context `{SJ : SerdeJson} {PG : Postgres}.
Implicit Types (db : Table).

Lemma get_fault_spec fault id db :
  wf_table db →
  match get fault id db with
  | Ok None => db !! EventId_as_uuid id = None
  | Ok (Some rec) => ∃ r, db !! EventId_as_uuid id = Some r ∧ rec_event_id rec = id ∧
      rec_source rec = r_source r ∧ rec_event_type rec = r_event_type r ∧
      as_db_str (rec_status rec) = r_status r
  | Err e => ∃ x, e = StoreError_from x
  end.
Proof.
  intros Hwf. destruct fault as [e|]; [by exists e|].
  destruct (get_ok id db Hwf) as (rec & -> & Hrec). destruct rec; naive_solver.
Qed.

(** [Store] keeps the contract, whatever fails during the request. *)
#[global] Instance pg_contract env :
  StoreContract (pg_store env) wf_table (λ db id, db !! EventId_as_uuid id).
Proof.
  split; simpl.
  - intros. by apply admit_wf.
  - intros event key fp db id db' replayed Hwf Hadm Hres.
    pose proof (admit_wf (env_admit env) (env_now env) event key fp db Hadm Hwf) as Hwf'.
    rewrite Hres in Hwf'. simpl in Hwf'.
    destruct (admit_answer (env_admit env) (env_now env) event key fp db id db') as
      (r & Hk & Hid & Hfp & _); [done|done|by destruct replayed; auto|].
    apply find_key_Some in Hk as (Hs & Hik & i & Hr).
    pose proof (wf_rows _ Hwf' _ _ Hr) as Hwr.
    assert (i = EventId_as_uuid id) as -> by (rewrite <-Hid; by rewrite (wf_row_id _ _ Hwr)).
    pose proof (admit_identity _ _ _ _ _ _ _ _ _ Hres) as Hident.
    split; [apply Hwr|]. destruct replayed.
    + split; [done|]. by exists r.
    + destruct Hident as (Hn & payload & Hr'). split; [done|]. exists r.
      split; [done|]. split; [done|]. intros _. rewrite Hr in Hr'. by injection Hr' as ->.
  - intros event key fp db id r Hwf Hr.
    destruct (apply_op_row (OpAdmit (env_admit env) (env_now env) event key fp) db _ r Hwf Hr)
      as (r' & Hr' & Hstep). simpl in Hr'. rewrite Hr'. by inversion Hstep.
  - intros id db Hwf. by apply get_fault_spec.
Qed.
End contract.

(** ** Requests the handler takes to the store *)

Section requests.
Context `{SJ : SerdeJson} {SW : SerdeJsonWriter} {SH : Sha2} {HT : Http} {UC : UuidCrate}.

(** A request that passes validation: a valid key header, a body of the right
    shape, valid labels and a payload that is not null. *)
Record acceptable (headers : HeaderMap) (body : result JsonRejection EventRequest)
    (key : IdempotencyKey) (request : EventRequest) : Prop := {
  acc_key : idempotency_key headers = Ok key;
  acc_body : body = Ok request;
  acc_source : valid_label MAX_SOURCE_CHARS (req_source request);
  acc_type : valid_label MAX_EVENT_TYPE_CHARS (req_event_type request);
  acc_payload : req_payload request ≠ VNull
}.

(** The event and the fingerprint built from a request. *)
Definition request_event (v4 : Uuid) (now : SystemTime) (request : EventRequest) : Event :=
  mkEvent (mkEventId v4) (mkEventSource (req_source request))
    (mkEventType (req_event_type request)) (req_payload request) now.

Definition request_fp (request : EventRequest) : RequestFingerprint :=
  RequestFingerprint_compute (mkEventSource (req_source request))
    (mkEventType (req_event_type request)) (req_payload request).

(** The answer to an admission. *)
Definition admission_answer (admitted : result StoreError AdmitOutcome) : result ApiError Response :=
  match admitted with
  | Ok (Created id) => Ok (accepted_response id false)
  | Ok (Replayed id) => Ok (accepted_response id true)
  | Ok Conflict => Err AE_IdempotencyConflict
  | Err e => Err (store_error e)
  end.

Lemma error_status e : resp_status (ApiError_into_response e) = (parts e).1.1.
Proof.
  unfold ApiError_into_response. destruct (parts e) as [[st code] msg]. by case_bool_decide.
Qed.

Lemma error_body e :
  resp_body (ApiError_into_response e) = BError (mkErrorBody (parts e).1.2 (parts e).2).
Proof.
  unfold ApiError_into_response. destruct (parts e) as [[st code] msg]. by case_bool_decide.
Qed.

Lemma idempotency_key_valid headers key :
  idempotency_key headers = Ok key → valid_key (IdempotencyKey_expose key).
Proof.
  unfold idempotency_key. intros. bind_inv. rewrite IdempotencyKey_parse_eq in *.
  by case_decide; simplify_eq.
Qed.

Lemma acceptable_admissible {SHL : Sha2Laws SH} v4 now headers body key request :
  valid_uuid v4 → acceptable headers body key request →
  admissible (request_event v4 now request) key (request_fp request).
Proof.
  intros Hv [Hk _ Hs Ht Hp]. split; [done|done|by eapply idempotency_key_valid|].
  apply sha256_length.
Qed.

Context {S : Type} (store : StoreOps S).
Implicit Types (s : S).

Lemma ingest_acceptable v4 now headers body key request s :
  acceptable headers body key request →
  ingest store v4 now headers body s =
    (admission_answer (op_admit store (request_event v4 now request) key (request_fp request) s).1,
     (op_admit store (request_event v4 now request) key (request_fp request) s).2).
Proof.
  intros [Hk -> Hs Ht Hp]. unfold ingest. rewrite Hk. simpl.
  rewrite (proj2 (Event_new_ok v4 now _ _ _ _) (conj Hs (conj Ht (conj Hp eq_refl)))). simpl.
  change (RequestFingerprint_compute _ _ _) with (request_fp request).
  change (mkEvent _ _ _ _ _) with (request_event v4 now request).
  destruct (op_admit _ _ _ _ _) as [[[id|id|]|e] s']; done.
Qed.

(** Whatever [ingest] does, it validates first. *)
Lemma ingest_cases v4 now headers body s :
  (∃ key request, acceptable headers body key request) ∨
  ((¬ ∃ key request, acceptable headers body key request) ∧
   ∃ e, ingest store v4 now headers body s = (Err e, s) ∧
     ((parts e).1.1 = 400 ∨ (parts e).1.1 = 413 ∨ (parts e).1.1 = 415)).
Proof.
  unfold ingest. destruct (idempotency_key headers) as [key|e] eqn:Hk; simpl.
  2: { right. split; [intros (? & ? & [Hk' _ _ _ _]); congruence|]. eexists. split; [done|].
       destruct e; simpl; auto. }
  destruct body as [request|rej]; simpl.
  2: { right. split; [by intros (? & ? & [_ ? _ _ _])|]. eexists. split; [done|].
       destruct rej; simpl; repeat case_match; simpl; auto. }
  destruct (Event_new _ _ _ _ _) as [event|e] eqn:He; simpl.
  - left. exists key, request. apply Event_new_ok in He as (? & ? & ? & _). by split.
  - right. split; [|eexists; by auto].
    intros (k & q & [_ [= <-] Hs Ht Hp]).
    by rewrite (proj2 (Event_new_ok v4 now _ _ _ _) (conj Hs (conj Ht (conj Hp eq_refl)))) in He.
Qed.
End requests.

(** ** Status lookup of a stored row *)

Lemma events_get_found `{SJ : SerdeJson} {HT : Http} {UC : UuidCrate} {PG : Postgres}
    {UCL : UuidLaws UC} env (db : Table) id r :
  wf_table db → valid_uuid (EventId_as_uuid id) → env_get env = None →
  db !! EventId_as_uuid id = Some r →
  ∃ b, events_get (pg_store env) (EventId_to_string id) db =
      Ok (mkResponse OK json_headers (BStatus b)) ∧
    es_event_id b = EventId_to_string id ∧ es_source b = r_source r ∧
    es_event_type b = r_event_type r ∧
    es_status b ∈ [lit "pending"; lit "processing"; lit "processed"].
Proof.
  intros Hwf Hid Henv Hr. unfold events_get, EventId_parse, EventId_to_string.
  rewrite uuid_parse_fmt by done. simpl. rewrite Henv.
  replace (mkEventId (EventId_as_uuid id)) with id by (by destruct id).
  destruct (get_ok id db Hwf) as ([rec|] & -> & Hrec); [|congruence]. simpl.
  destruct Hrec as (r' & Hr' & Hi & Hs & Ht & _).
  assert (r' = r) as -> by congruence. eexists. split; [done|]. simpl.
  rewrite Hi. split_and!; [done..|]. destruct (rec_status rec); set_solver.
Qed.

(** ** Guarantees of the responses *)

Section guarantees.
Context `{SJ : SerdeJson} {SW : SerdeJsonWriter} {SH : Sha2} {HT : Http} {UC : UuidCrate}.
Context {PG : Postgres}.

(** C25. [POST /v1/events] validates before it touches the store, and touches it
    only with arguments the store's contract allows: a request without a valid
    key header, a readable body of the right shape, valid labels and a payload
    that is not null leaves the store alone and gets a 4xx error; every other
    request makes exactly one admission, of an admissible event that carries the
    request's own fields, and its answer is the answer to that admission. *)
Theorem ingest_validates_first {SHL : Sha2Laws SH} {S} (store : StoreOps S) v4 now headers body s :
  valid_uuid v4 →
  (∃ key request, acceptable headers body key request ∧
    let event := request_event v4 now request in
    let fp := request_fp request in
    admissible event key fp ∧
    ingest store v4 now headers body s =
      (admission_answer (op_admit store event key fp s).1, (op_admit store event key fp s).2)) ∨
  ((¬ ∃ key request, acceptable headers body key request) ∧
   ∃ e, ingest store v4 now headers body s = (Err e, s) ∧
     ((parts e).1.1 = 400 ∨ (parts e).1.1 = 413 ∨ (parts e).1.1 = 415)).
Proof.
  intros Hv. destruct (ingest_cases store v4 now headers body s) as [(key & request & Hacc)|?];
    [left|by right].
  exists key, request. split; [done|]. split; [by eapply acceptable_admissible|].
  by apply ingest_acceptable.
Qed.

Lemma ingest_Ok {S} (store : StoreOps S) v4 now headers body s resp s' :
  ingest store v4 now headers body s = (Ok resp, s') →
  ∃ key request id (replayed : bool), acceptable headers body key request ∧
    resp = accepted_response id replayed ∧
    op_admit store (request_event v4 now request) key (request_fp request) s =
      (Ok (if replayed then Replayed id else Created id), s').
Proof.
  intros Hi. destruct (ingest_cases store v4 now headers body s) as [(key & request & Hacc)|
    (_ & e & He & _)]; [|congruence].
  rewrite (ingest_acceptable _ _ _ _ _ key request) in Hi by done.
  destruct (op_admit _ _ _ _ _) as [admitted s1] eqn:E. simpl in Hi. injection Hi as Hi <-.
  exists key, request. destruct admitted as [[id|id|]|]; simpl in Hi; simplify_eq.
  - by exists id, false.
  - by exists id, true.
Qed.

(** C10. Against any store that keeps its contract, a 202 means a committed event:
    the response names an identity whose text parses back, the store afterwards
    holds a row under that identity with the request's source, key and
    fingerprint, and the [Idempotency-Replayed] header is [false] exactly when the
    row was created by this request, [true] when it was there before. *)
Theorem accepted_is_committed {SHL : Sha2Laws SH} {HTL : HttpLaws HT} {UCL : UuidLaws UC} {S}
    (store : StoreOps S) inv row {SC : StoreContract store inv row}
    v4 now headers body s resp s' :
  inv s → valid_uuid v4 → ingest store v4 now headers body s = (Ok resp, s') →
  inv s' ∧ resp_status resp = 202 ∧
  ∃ key request id replayed r,
    acceptable headers body key request ∧
    resp_body resp = BAccepted (mkAcceptedResponse (EventId_to_string id) (lit "accepted")) ∧
    EventId_parse (EventId_to_string id) = Some id ∧
    hm_get IDEMPOTENCY_REPLAYED (resp_headers resp) =
      Some (if replayed : bool then lit "true" else lit "false") ∧
    row s' id = Some r ∧ records r id (req_source request) key (request_fp request) ∧
    row s id = (if replayed then Some r else None) ∧
    (replayed = false → row_pending r ∧ r_event_type r = req_event_type request).
Proof.
  intros Hinv Hv Hi. apply ingest_Ok in Hi as (key & request & id & replayed & Hacc & -> & Ha).
  pose proof (acceptable_admissible v4 now _ _ _ _ Hv Hacc) as Hadm.
  destruct (sc_admit_durable _ _ _ _ _ _ _ Hinv Hadm Ha) as (Hid & Hbefore & r & Hr & Hrec & Hnew).
  split; [|split; [done|]].
  { pose proof (sc_admit_inv (store := store) _ _ _ _ Hinv Hadm) as H. by rewrite Ha in H. }
  exists key, request, id, replayed, r. split_and!; try done.
  - unfold EventId_parse, EventId_to_string. rewrite uuid_parse_fmt by done. by destruct id.
  - simpl. by rewrite hm_get_insert.
  - rewrite Hbefore. by destruct replayed.
Qed.


(** C30. What a client can tell from an error: every error is a 4xx or a 5xx, a 5xx
    exactly for the two server-side failures, [Retry-After: 1] exactly for the
    unavailable database, and no two different errors have the same body. *)
Theorem error_contract {HTL : HttpLaws HT} e e' :
  let resp := ApiError_into_response e in
  400 ≤ resp_status resp < 600 ∧
  (500 ≤ resp_status resp ↔ e = AE_PersistenceUnavailable ∨ e = AE_Internal) ∧
  hm_get RETRY_AFTER (resp_headers resp) =
    (if decide (e = AE_PersistenceUnavailable) then Some (lit "1") else None) ∧
  (resp_body resp = resp_body (ApiError_into_response e') → e = e').
Proof.
  intros resp. subst resp. rewrite error_status. split; [by destruct e|].
  split; [destruct e; simpl; intuition (done || congruence)|]. split.
  - unfold ApiError_into_response. destruct (parts e) as [[st code] msg].
    case_decide as Hd; [rewrite bool_decide_true by done|rewrite bool_decide_false by done]; simpl.
    + apply hm_get_insert.
    + apply json_headers_retry.
  - rewrite !error_body. intros H. destruct e, e'; simpl in H; first [congruence|vm_compute in H; discriminate H].
Qed.

(** C24. An accepted event can be looked up for ever: the identity text of a 202,
    after any later history of the store, resolves to 200 with that identity and
    the request's source (and its event type if the request created the event), a
    status of [pending], [processing] or [processed], and never to 404. *)
Theorem accepted_can_be_read {SHL : Sha2Laws SH} {UCL : UuidLaws UC} {HTL : HttpLaws HT}
    env env' v4 now headers body db resp db' ops :
  wf_table db → valid_uuid v4 → Forall op_ok ops → env_get env' = None →
  ingest (pg_store env) v4 now headers body db = (Ok resp, db') →
  ∃ text request b,
    resp_body resp = BAccepted (mkAcceptedResponse text (lit "accepted")) ∧ body = Ok request ∧
    events_get (pg_store env') text (run_ops ops db') =
      Ok (mkResponse OK json_headers (BStatus b)) ∧
    es_event_id b = text ∧ es_source b = req_source request ∧
    (hm_get IDEMPOTENCY_REPLAYED (resp_headers resp) = Some (lit "false") →
     es_event_type b = req_event_type request) ∧
    es_status b ∈ [lit "pending"; lit "processing"; lit "processed"].
Proof.
  intros Hwf Hv Hops Henv Hi.
  apply ingest_Ok in Hi as (key & request & id & replayed & Hacc & -> & Ha).
  pose proof (acceptable_admissible v4 now _ _ _ _ Hv Hacc) as Hadm.
  destruct (sc_admit_durable (store := pg_store env) _ _ _ _ _ _ _ Hwf Hadm Ha)
    as (Hid & _ & r & Hr & (_ & Hsrc & _) & Hnew).
  pose proof (sc_admit_inv (store := pg_store env) _ _ _ _ Hwf Hadm) as Hwf'. rewrite Ha in Hwf'.
  destruct (run_ops_row ops db' _ r Hops Hwf' Hr) as (r' & Hr' & [Hc _ _ _]).
  apply content_changed_false in Hc as (_ & Hs' & Ht' & _).
  destruct (events_get_found env' (run_ops ops db') id r') as (b & Hb & Hbid & Hbs & Hbt & Hst);
    [by apply run_ops_wf|done|done|done|].
  exists (EventId_to_string id), request, b. split_and!; try done.
  - apply Hacc.
  - by rewrite Hbs, Hs'.
  - simpl. rewrite hm_get_insert. destruct replayed; [done|]. intros _.
    rewrite Hbt, Ht'. by apply Hnew.
Qed.

(** Liveness never depends on the database; readiness is 200 exactly when the
    database answers a ping without error within two seconds, and 503 with the
    check marked unavailable otherwise. *)
Theorem health_contract {S} (store : StoreOps S) (s : S) :
  resp_status live = 200 ∧
  (resp_status (ready store s) = 200 ↔
     (op_ping store s).1 ≤ 2000000000 ∧ is_ok (op_ping store s).2 = true) ∧
  (resp_status (ready store s) = 200 ∨ resp_status (ready store s) = 503) ∧
  ∃ b, resp_body (ready store s) = BReady b ∧ ready_service b = lit "pulsestream-api" ∧
    ready_checks b = [(lit "database",
      if resp_status (ready store s) =? 200 then lit "ready" else lit "unavailable")].
Proof.
  split; [done|]. unfold ready, timeout, READINESS_TIMEOUT.
  destruct (op_ping store s) as [t r]; simpl. change (2 * 1000000000) with 2000000000.
  destruct (Z.leb_spec t 2000000000) as [Ht|Ht], r; simpl;
    (split; [intuition (done || lia)|]); (split; [auto|]); by eexists.
Qed.
End guarantees.

(** ** A concrete http crate and sample requests *)

Definition visible_ascii (b : Z) : bool := ((32 <=? b) && (b <=? 126)) || (b =? 9).

Fixpoint assoc_get (k : str) (h : list (str * bytes)) : option bytes :=
  match h with
  | [] => None
  | (k', v) :: h => if decide (k = k') then Some v else assoc_get k h
  end.

Fixpoint assoc_remove (k : str) (h : list (str * bytes)) : list (str * bytes) :=
  match h with
  | [] => []
  | (k', v) :: h => if decide (k = k') then assoc_remove k h else (k', v) :: assoc_remove k h
  end.

#[global] Instance http_ref : Http := {|
  HeaderMap := list (str * bytes);
  hm_get := assoc_get;
  hm_insert k v h := (k, v) :: assoc_remove k h;
  header_to_str b := if forallb visible_ascii b then Some b else None;
  json_headers := [(lit "content-type", lit "application/json")]
|}.

#[global] Instance http_ref_laws : HttpLaws http_ref.
Proof.
  split; simpl; [intros k v h; by rewrite decide_True| | | |done|done].
  - intros k k' v h Hne. rewrite decide_False by done.
    induction h as [|[k0 v0] h IH]; simpl; [done|].
    case_decide; subst; simpl; [|by rewrite IH]. by rewrite decide_False.
  - intros b s. destruct (forallb visible_ascii b) eqn:E; [|done]. intros [= <-].
    apply as_bytes_ascii. apply forallb_Forall in E. eapply Forall_impl; [exact E|].
    unfold visible_ascii. intros c Hc. simpl in *. lia.
  - intros s Hs. rewrite as_bytes_ascii.
    + rewrite (proj2 (forallb_Forall visible_ascii s)); [done|].
      eapply Forall_impl; [exact Hs|]. unfold visible_ascii. intros c Hc. simpl in *. lia.
    + eapply Forall_impl; [exact Hs|]. intros c Hc. simpl in *. lia.
Qed.

Definition sample_headers : HeaderMap := [(IDEMPOTENCY_KEY, lit "order-1")].
Definition sample_request : EventRequest :=
  mkEventRequest (lit "orders-api") (lit "order.created") sample_order.
Definition calm : RequestEnv := mkRequestEnv 5 no_faults None (1000, None).

Lemma sample_acceptable :
  acceptable sample_headers (Ok sample_request) sample_key sample_request.
Proof. split; [done|done|by apply (validate_label_ok [])..|done]. Qed.

Lemma ingest_validates_first_witness :
  valid_uuid 1 ∧
  ∃ key request, acceptable sample_headers (Ok sample_request) key request.
Proof.
  split; [by apply small_uuid|].
  destruct (ingest_validates_first (pg_store calm) 1 0 sample_headers (Ok sample_request) ∅
    (small_uuid 1 eq_refl)) as [(key & request & Hacc & _)|[Hn _]].
  - by exists key, request.
  - destruct Hn. exists sample_key, sample_request. exact sample_acceptable.
Defined.

(** The answer to the sample request on an empty table. *)
Definition sample_response : Response := accepted_response (mkEventId 1) false.

Lemma sample_ingest :
  ingest (pg_store calm) 1 0 sample_headers (Ok sample_request) ∅ = (Ok sample_response, sample_db).
Proof. vm_compute. reflexivity. Qed.

Lemma accepted_is_committed_witness :
  wf_table ∅ ∧ valid_uuid 1 ∧ ∃ r, sample_db !! 1 = Some r ∧ row_pending r.
Proof.
  split; [apply wf_table_empty|]. split; [by apply small_uuid|].
  destruct (accepted_is_committed (pg_store calm) wf_table (λ db id, db !! EventId_as_uuid id)
    1 0 sample_headers (Ok sample_request) ∅ sample_response sample_db
    wf_table_empty (small_uuid 1 eq_refl) sample_ingest)
    as (_ & _ & key & request & id & replayed & r & _ & Hb & Hp & Hh & Hr & _ & _ & Hnew).
  destruct replayed; [vm_compute in Hh; discriminate Hh|].
  assert (id = mkEventId 1) as ->.
  { apply (f_equal (λ b, match b with BAccepted b => ar_event_id b | _ => [] end)) in Hb.
    cbn [ar_event_id] in Hb. rewrite <-Hb in Hp. vm_compute in Hp. by injection Hp as <-. }
  exists r. split; [exact Hr|]. by apply Hnew.
Defined.

(** The database is lost at the SELECT of a repeated request. *)
Definition lost_select : RequestEnv :=
  mkRequestEnv 6 (mkAdmitFaults None None (Some SX_Io) None) None (1000, None).


Lemma error_contract_witness :
  hm_get RETRY_AFTER (resp_headers (ApiError_into_response AE_PersistenceUnavailable)) =
    Some (lit "1") ∧
  resp_body (ApiError_into_response AE_Internal) ≠
    resp_body (ApiError_into_response AE_PersistenceUnavailable).
Proof.
  destruct (error_contract AE_PersistenceUnavailable AE_Internal) as (_ & _ & H & _).
  destruct (error_contract AE_Internal AE_PersistenceUnavailable) as (_ & _ & _ & Hne).
  split; [exact H|]. intros E. discriminate (Hne E).
Defined.

Lemma accepted_can_be_read_witness :
  ∃ text b, resp_body sample_response = BAccepted (mkAcceptedResponse text (lit "accepted")) ∧
    events_get (pg_store calm) text (run_ops sample_ops sample_db) =
      Ok (mkResponse OK json_headers (BStatus b)) ∧ es_source b = lit "orders-api".
Proof.
  destruct (accepted_can_be_read calm calm 1 0 sample_headers (Ok sample_request) ∅
    sample_response sample_db sample_ops wf_table_empty (small_uuid 1 eq_refl) sample_ops_ok
    eq_refl sample_ingest) as (text & request & b & Hb & Hq & Hg & _ & Hs & _).
  exists text, b. split; [exact Hb|]. split; [exact Hg|]. rewrite Hs. by injection Hq as <-.
Defined.
