(* ===== verification/Request.v ===== *)
(** * Requests on the wire (app.rs, and the body of events.rs)

    From bytes to handlers: the shape of the request body, the extractors and the
    routes. Reading JSON text is [serde_json]'s part and matching a path, checking
    the content type and collecting a limited body are axum's: they are parameters
    ([JsonReader], [Axum]) with laws from their documentation. What the program
    declares, the struct [EventRequest] with its serde attributes and the route
    table, is defined here and in [Api]. *)

From S2P Require Import Prelude Text Json Crates Event Idempotency Config Schema Store Api.

(** ** Documents *)

(** A JSON text: the entries of an object in order, repeated keys included. *)
Inductive Doc `{SerdeJson} : Type :=
| DNull
| DBool (b : bool)
| DNumber (n : Number)
| DString (s : str)
| DArray (items : list Doc)
| DObject (entries : list (str * Doc)).

(** [BTreeMap::insert] on the entries in key order: the last value of a key stays. *)
Fixpoint map_insert {A} (k : str) (v : A) (m : list (str * A)) : list (str * A) :=
  match m with
  | [] => [(k, v)]
  | (k', v') :: m' =>
      if bool_decide (k = k') then (k, v) :: m'
      else if bytes_leb (as_bytes k) (as_bytes k') then (k, v) :: m
      else (k', v') :: map_insert k v m'
  end.

Section documents.
Context `{SJ : SerdeJson}.
Implicit Types (d : Doc).

(** [Value] as it is deserialized from a document. *)
Fixpoint doc_value d : Value :=
  match d with
  | DNull => VNull
  | DBool b => VBool b
  | DNumber n => VNumber n
  | DString s => VString s
  | DArray items => VArray (doc_value <$> items)
  | DObject entries =>
      VObject (foldl (λ m e, map_insert e.1 e.2 m) [] ((λ e, (e.1, doc_value e.2)) <$> entries))
  end.

(** ** The request body *)

(** The categories of [serde_json::Error] the extractor tells apart. *)
Inductive JsonCategory := J_Syntax | J_Data.

#[global] Instance JsonCategory_eq_dec : EqDecision JsonCategory.
Proof. solve_decision. Defined.
#[global] Instance EventRequest_eq_dec : EqDecision EventRequest.
Proof. solve_decision. Defined.

(** The fields the derived visitor has seen. *)
Record Fields := mkFields {
  f_source : option str;
  f_event_type : option str;
  f_payload : option Value
}.

Definition doc_string d : result JsonCategory str :=
  match d with DString s => Ok s | _ => Err J_Data end.

(** One entry: a field of the struct, once, with a value of its type; with
    [deny_unknown_fields] everything else is an error. *)
Definition visit_entry (fs : Fields) (e : str * Doc) : result JsonCategory Fields :=
  if bool_decide (e.1 = lit "source") then
    match f_source fs with
    | Some _ => Err J_Data
    | None => s ← doc_string e.2; Ok (mkFields (Some s) (f_event_type fs) (f_payload fs))
    end
  else if bool_decide (e.1 = lit "event_type") then
    match f_event_type fs with
    | Some _ => Err J_Data
    | None => t ← doc_string e.2; Ok (mkFields (f_source fs) (Some t) (f_payload fs))
    end
  else if bool_decide (e.1 = lit "payload") then
    match f_payload fs with
    | Some _ => Err J_Data
    | None => Ok (mkFields (f_source fs) (f_event_type fs) (Some (doc_value e.2)))
    end
  else Err J_Data.

Fixpoint visit_map (fs : Fields) (entries : list (str * Doc)) : result JsonCategory Fields :=
  match entries with
  | [] => Ok fs
  | e :: entries => fs ← visit_entry fs e; visit_map fs entries
  end.

(** The derived [Deserialize] of [EventRequest]: from an object, or from a sequence
    of the fields in order, which every derived struct also accepts; a missing
    field is an error, and so is what follows the last element of a sequence. *)
Definition EventRequest_deserialize d : result JsonCategory EventRequest :=
  match d with
  | DObject entries =>
      fs ← visit_map (mkFields None None None) entries;
      source ← ok_or (f_source fs) J_Data;
      event_type ← ok_or (f_event_type fs) J_Data;
      payload ← ok_or (f_payload fs) J_Data;
      Ok (mkEventRequest source event_type payload)
  | DArray items =>
      match items with
      | [] => Err J_Data
      | d1 :: items =>
          source ← doc_string d1;
          match items with
          | [] => Err J_Data
          | d2 :: items =>
              event_type ← doc_string d2;
              match items with
              | [] => Err J_Data
              | [d3] => Ok (mkEventRequest source event_type (doc_value d3))
              | _ => Err J_Syntax
              end
          end
      end
  | _ => Err J_Data
  end.
End documents.

(** ** serde_json *)

(** The documents [serde_json] reads (within its recursion limit), and
    [serde_json::from_slice::<EventRequest>]. *)
Class JsonReader `{SerdeJson} := {
  document : bytes → option Doc;
  request_from_slice : bytes → result JsonCategory EventRequest
}.

(** A document is deserialized as the struct says; any other text is an error, of
    either category, since what precedes the fault is already deserialized. *)
Class JsonReaderLaws `{SJ : SerdeJson} (JR : JsonReader) : Prop := {
  from_slice_document b d : document b = Some d → request_from_slice b = EventRequest_deserialize d;
  from_slice_garbage b : document b = None → ∃ c, request_from_slice b = Err c
}.

(** ** axum *)

Inductive ReqMethod := M_GET | M_HEAD | M_POST | M_Other.

(** A request; the frames of its body may end with an error ([None]). *)
Record HttpRequest `{Http} := mkHttpRequest {
  hr_method : ReqMethod;
  hr_path : str;
  hr_headers : HeaderMap;
  hr_frames : list (option bytes)
}.
Arguments mkHttpRequest {_} _ _ _ _.

(** Is the content type JSON; [Json::<EventRequest>] under a body limit; and the
    captures with which a path matches the path of a route ([None] where the
    text is not UTF-8). *)
Class Axum `{HT : Http} `{SJ : SerdeJson} := {
  json_content_type : HeaderMap → bool;
  json_extract : Z → HttpRequest → result JsonRejection EventRequest;
  match_path : str → str → option (list (option str))
}.

Definition body_length (chunks : list bytes) : Z := Z.of_nat (length (concat chunks)).

(** What the deserializer's answer becomes. *)
Definition json_rejection {A} (r : result JsonCategory A) : result JsonRejection A :=
  map_err (λ c, match c with J_Syntax => JR_JsonSyntaxError | J_Data => JR_JsonDataError end) r.

Class AxumLaws `{HT : Http} `{SJ : SerdeJson} (AX : Axum) (JR : JsonReader) : Prop := {
  ax_content_type limit r :
    json_content_type (hr_headers r) = false → json_extract limit r = Err JR_MissingJsonContentType;
  ax_body limit r chunks :
    json_content_type (hr_headers r) = true → hr_frames r = Some <$> chunks →
    body_length chunks ≤ limit →
    json_extract limit r = json_rejection (request_from_slice (concat chunks));
  ax_too_large limit r chunks :
    json_content_type (hr_headers r) = true → hr_frames r = Some <$> chunks →
    0 ≤ limit < body_length chunks → json_extract limit r = Err (JR_BytesRejection PAYLOAD_TOO_LARGE);
  ax_broken limit r :
    json_content_type (hr_headers r) = true → None ∈ hr_frames r →
    ∃ status, json_extract limit r = Err (JR_BytesRejection status);
  ax_literal path path' :
    Forall (λ c, c ≠ 123) path → match_path path path' = if bool_decide (path = path') then Some [] else None;
  ax_capture prefix name segment :
    Forall (λ c, c ≠ 123) prefix → segment ≠ [] →
    Forall (λ c, is_ascii_graphic c = true ∧ c ∉ [35; 37; 47; 63]) segment →
    match_path (prefix ++ [123] ++ name ++ [125]) (prefix ++ segment) = Some [Some segment]
}.

(** ** Routes *)

Definition method_allows (m : Method) (rm : ReqMethod) : bool :=
  match m, rm with
  | GET, (M_GET | M_HEAD) => true
  | POST, M_POST => true
  | _, _ => false
  end.

Section service.
Context `{SJ : SerdeJson, SW : !SerdeJsonWriter, SH : Sha2, HT : Http, UC : UuidCrate}.
Context `{AX : !Axum} {S : Type} (store : StoreOps S).
Implicit Types (s : S) (r : HttpRequest).

(** A reply of a handler, without its body for HEAD, or one of axum's own, which
    have no JSON body. *)
Record Reply := mkReply { rp_status : Z; rp_response : option Response; rp_body : option Body }.

Definition METHOD_NOT_ALLOWED : Z := 405.

(** The limit axum sets where a route sets none. *)
Definition DEFAULT_BODY_LIMIT : Z := 2 * 1024 * 1024.

Definition axum_reply (status : Z) : Reply := mkReply status None None.
Definition handler_reply (m : ReqMethod) (resp : Response) : Reply :=
  mkReply (resp_status resp) (Some resp)
    (match m with M_HEAD => None | _ => Some (resp_body resp) end).

(** The first route whose path matches, with its captures. *)
Fixpoint find_route (routes : list Route) (path : str) : option (Route * list (option str)) :=
  match routes with
  | [] => None
  | route :: routes =>
      match match_path (route_path route) path with
      | Some captures => Some (route, captures)
      | None => find_route routes path
      end
  end.

(** Extraction and the handler; [v4] and [now] are what [ingest] draws. *)
Definition call_handler (v4 : Uuid) (now : SystemTime) (route : Route)
    (captures : list (option str)) r s : Reply * S :=
  match route_handler route with
  | H_live => (handler_reply (hr_method r) live, s)
  | H_ready => (handler_reply (hr_method r) (ready store s), s)
  | H_ingest =>
      let body := json_extract (default DEFAULT_BODY_LIMIT (route_body_limit route)) r in
      let '(res, s') := ingest store v4 now (hr_headers r) body s in
      (handler_reply (hr_method r) (into_response res), s')
  | H_get =>
      match captures with
      | [Some event_id] =>
          (handler_reply (hr_method r) (into_response (events_get store event_id s)), s)
      | _ => (axum_reply BAD_REQUEST, s)
      end
  end.

(** The service [app::router] builds. *)
Definition app_service (v4 : Uuid) (now : SystemTime) r s : Reply * S :=
  match find_route router (hr_path r) with
  | None => (axum_reply NOT_FOUND, s)
  | Some (route, captures) =>
      if method_allows (route_method route) (hr_method r)
      then call_handler v4 now route captures r s
      else (axum_reply METHOD_NOT_ALLOWED, s)
  end.
End service.
