(* ===== verification/Reader.v ===== *)
(** * A reader for JSON text and a web framework

    Concrete instances of [JsonReader] and [Axum], at which the theorems on requests
    are evaluated: UTF-8, the JSON grammar of RFC 8259 (with integers and integral
    floats for numbers, and without surrogate escapes), media types, body limits
    and paths. *)

From S2P Require Import Prelude Text Json Crates Reference Event Idempotency Config Schema Store.
From S2P Require Import Fixtures Api ApiSpec Request.

(** ** UTF-8 *)

(** A character and the bytes after it. *)
Definition utf8_first (b : bytes) : option (char * bytes) :=
  let try (c : char) (n : nat) :=
    if is_scalar c && bool_decide (utf8_char c = take n b) then Some (c, drop n b) else None in
  match b with
  | [] => None
  | x :: _ =>
      let y := nth 1%nat b 0 in let z := nth 2%nat b 0 in let w := nth 3%nat b 0 in
      if x <? 0x80 then try x 1%nat
      else if x <? 0xE0 then try ((x - 0xC0) * 64 + (y - 0x80)) 2%nat
      else if x <? 0xF0 then try (((x - 0xE0) * 64 + (y - 0x80)) * 64 + (z - 0x80)) 3%nat
      else try ((((x - 0xF0) * 64 + (y - 0x80)) * 64 + (z - 0x80)) * 64 + (w - 0x80)) 4%nat
  end.

Fixpoint utf8_decode (fuel : nat) (b : bytes) : option str :=
  match fuel, b with
  | _, [] => Some []
  | O, _ => None
  | S fuel, _ => '(c, b) ← utf8_first b; s ← utf8_decode fuel b; Some (c :: s)
  end.

(** ** JSON *)

Definition is_json_space (c : char) : bool :=
  (c =? 32) || (c =? 9) || (c =? 10) || (c =? 13).

Fixpoint skip_space (s : str) : str :=
  match s with
  | c :: s' => if is_json_space c then skip_space s' else s
  | [] => []
  end.

(** The character an escape stands for, after the backslash. *)
Definition read_escape (s : str) : option (char * str) :=
  match s with
  | [] => None
  | e :: s =>
      if e =? 34 then Some (34, s)
      else if e =? 92 then Some (92, s)
      else if e =? 47 then Some (47, s)
      else if e =? 98 then Some (8, s)
      else if e =? 102 then Some (12, s)
      else if e =? 110 then Some (10, s)
      else if e =? 114 then Some (13, s)
      else if e =? 116 then Some (9, s)
      else if e =? 117 then
        digits ← mapM hex_value (take 4 s);
        let c := foldl (λ acc x, acc * 16 + x) 0 digits in
        if bool_decide (length digits = 4%nat) && is_scalar c then Some (c, drop 4 s) else None
      else None
  end.

(** The rest of a string, after its opening quote. *)
Fixpoint read_string (fuel : nat) (s : str) : option (str * str) :=
  match fuel, s with
  | O, _ | _, [] => None
  | S fuel, c :: s =>
      if c =? 34 then Some ([], s)
      else if c =? 92 then
        '(c, s) ← read_escape s; '(t, s) ← read_string fuel s; Some (c :: t, s)
      else if c <? 32 then None
      else '(t, s) ← read_string fuel s; Some (c :: t, s)
  end.

Fixpoint read_digits (s : str) : str * str :=
  match s with
  | c :: s' =>
      if is_ascii_digit c then let '(d, r) := read_digits s' in (c :: d, r) else ([], s)
  | [] => ([], [])
  end.

Definition digits_value (d : str) : Z := foldl (λ acc c, acc * 10 + (c - 48)) 0 d.

(** A number, after its sign. *)
Definition read_number (negative : bool) (s : str) : option (Doc * str) :=
  let '(d, r) := read_digits s in
  let ok := match d with [] => false | [_] => true | c :: _ => negb (c =? 48) end in
  let n := if negative then - digits_value d else digits_value d in
  if ok then
    match strip_prefix (lit ".0") r with
    | Some r => Some (DNumber (RFloat n), r)
    | None => Some (DNumber (RInt n), r)
    end
  else None.

(** A value, the items of an array after its bracket, the entries of an object
    after its brace. *)
Fixpoint read_value (fuel : nat) (s : str) : option (Doc * str) :=
  match fuel, skip_space s with
  | O, _ | _, [] => None
  | S fuel, c :: s =>
      if c =? 34 then '(t, s) ← read_string (length s) s; Some (DString t, s)
      else if c =? 91 then
        match skip_space s with
        | 93 :: s => Some (DArray [], s)
        | _ => '(l, s) ← read_items fuel s; Some (DArray l, s)
        end
      else if c =? 123 then
        match skip_space s with
        | 125 :: s => Some (DObject [], s)
        | _ => '(l, s) ← read_entries fuel s; Some (DObject l, s)
        end
      else if c =? 45 then read_number true s
      else if is_ascii_digit c then read_number false (c :: s)
      else match strip_prefix (lit "null") (c :: s) with
      | Some s => Some (DNull, s)
      | None =>
          match strip_prefix (lit "true") (c :: s) with
          | Some s => Some (DBool true, s)
          | None => s ← strip_prefix (lit "false") (c :: s); Some (DBool false, s)
          end
      end
  end
with read_items (fuel : nat) (s : str) : option (list Doc * str) :=
  match fuel with
  | O => None
  | S fuel =>
      '(d, s) ← read_value fuel s;
      match skip_space s with
      | 44 :: s => '(l, s) ← read_items fuel s; Some (d :: l, s)
      | 93 :: s => Some ([d], s)
      | _ => None
      end
  end
with read_entries (fuel : nat) (s : str) : option (list (str * Doc) * str) :=
  match fuel with
  | O => None
  | S fuel =>
      match skip_space s with
      | 34 :: s =>
          '(k, s) ← read_string (length s) s;
          match skip_space s with
          | 58 :: s =>
              '(d, s) ← read_value fuel s;
              match skip_space s with
              | 44 :: s => '(l, s) ← read_entries fuel s; Some ((k, d) :: l, s)
              | 125 :: s => Some ([(k, d)], s)
              | _ => None
              end
          | _ => None
          end
      | _ => None
      end
  end.

Definition document_ref (b : bytes) : option Doc :=
  s ← utf8_decode (length b) b;
  '(d, rest) ← read_value (2 * length s + 2) s;
  if is_empty (skip_space rest) then Some d else None.

#[global] Instance reader_ref : JsonReader := {|
  document := document_ref;
  request_from_slice b :=
    match document_ref b with Some d => EventRequest_deserialize d | None => Err J_Syntax end
|}.

#[global] Instance reader_ref_laws : JsonReaderLaws reader_ref.
Proof. split; simpl; intros b; [intros d ->; done|intros ->; by eexists]. Qed.

(** ** The web framework *)

Definition CONTENT_TYPE : str := lit "content-type".

(** The frames of a body up to an error or the limit. *)
Fixpoint read_frames (limit : Z) (frames : list (option bytes)) : result Z bytes :=
  match frames with
  | [] => Ok []
  | None :: _ => Err BAD_REQUEST
  | Some chunk :: frames =>
      let left := limit - Z.of_nat (length chunk) in
      if left <? 0 then Err PAYLOAD_TOO_LARGE
      else rest ← read_frames left frames; Ok (chunk ++ rest)
  end.

Definition match_path_ref (path path' : str) : option (list (option str)) :=
  match find_char 123 path with
  | None => if bool_decide (path = path') then Some [] else None
  | Some i =>
      segment ← strip_prefix (take i path) path';
      if negb (is_empty segment) && negb (existsb (λ c, c =? 47) segment)
      then Some [Some segment] else None
  end.

#[global] Instance axum_ref : Axum := {|
  json_content_type h := bool_decide (assoc_get CONTENT_TYPE h = Some (lit "application/json"));
  json_extract limit r :=
    if bool_decide (assoc_get CONTENT_TYPE (hr_headers r) = Some (lit "application/json")) then
      match read_frames limit (hr_frames r) with
      | Err status => Err (JR_BytesRejection status)
      | Ok b => json_rejection (request_from_slice b)
      end
    else Err JR_MissingJsonContentType;
  match_path := match_path_ref
|}.

Lemma read_frames_ok limit chunks :
  body_length chunks ≤ limit → read_frames limit (Some <$> chunks) = Ok (concat chunks).
Proof.
  revert limit. induction chunks as [|c chunks IH]; intros limit; [done|].
  unfold body_length in *. simpl. rewrite length_app. intros H.
  destruct (Z.ltb_spec (limit - Z.of_nat (length c)) 0); [lia|].
  by rewrite IH by lia.
Qed.

Lemma read_frames_large limit chunks :
  limit < body_length chunks → 0 ≤ limit → read_frames limit (Some <$> chunks) = Err PAYLOAD_TOO_LARGE.
Proof.
  revert limit. induction chunks as [|c chunks IH]; intros limit; unfold body_length in *; simpl; [lia|].
  rewrite length_app. intros H H0. destruct (Z.ltb_spec (limit - Z.of_nat (length c)) 0); [done|].
  by rewrite IH by lia.
Qed.

Lemma read_frames_broken limit frames :
  None ∈ frames → ∃ status, read_frames limit frames = Err status.
Proof.
  revert limit. induction frames as [|[c|] frames IH]; intros limit Hin; simpl.
  - by apply not_elem_of_nil in Hin.
  - apply elem_of_cons in Hin as [?|Hin]; [done|].
    destruct (_ <? 0); [by eexists|]. destruct (IH (limit - Z.of_nat (length c)) Hin) as [st ->].
    by eexists.
  - by eexists.
Qed.

Lemma find_char_absent c s : Forall (λ d, d ≠ c) s → find_char c s = None.
Proof. induction 1 as [|d s Hd _ IH]; simpl; [done|]. destruct (Z.eqb_spec d c); [done|]. by rewrite IH. Qed.

Lemma find_char_app c a b : Forall (λ d, d ≠ c) a → find_char c (a ++ c :: b) = Some (length a).
Proof.
  induction 1 as [|d a Hd _ IH]; simpl; [by rewrite Z.eqb_refl|].
  destruct (Z.eqb_spec d c); [done|]. by rewrite IH.
Qed.

#[global] Instance axum_ref_laws : AxumLaws axum_ref reader_ref.
Proof.
  split; cbn [json_content_type json_extract match_path axum_ref].
  - intros limit r ->. done.
  - intros limit r chunks -> -> H. by rewrite read_frames_ok.
  - intros limit r chunks -> -> [H0 H]. by rewrite read_frames_large.
  - intros limit r -> H. destruct (read_frames_broken limit _ H) as [st ->]. by eexists.
  - intros path path' H. unfold match_path_ref. by rewrite find_char_absent.
  - intros prefix name segment Hp Hne Hs. unfold match_path_ref. simpl.
    rewrite find_char_app, take_app_length by done.
    rewrite (proj2 (strip_prefix_spec prefix (prefix ++ segment) segment) eq_refl). simpl.
    assert (existsb (λ c, c =? 47) segment = false) as ->; [|by destruct segment].
    apply not_true_iff_false. intros (c & Hin & E)%existsb_exists. apply list_elem_of_In in Hin.
    rewrite Forall_forall in Hs. destruct (Hs c Hin) as [_ Hc]. set_unfold in Hc. lia.
Qed.
