(* ===== verification/RequestSpec.v ===== *)
(** * What a client can rely on, from the bytes it sends

    The shape of accepted bodies, the type of every reply, and idempotency end to
    end: from the text of two requests through the extractor, the handler and the
    fingerprint to the table. *)

From S2P Require Import Prelude Text Json Crates Reference Event Idempotency Config Schema Store.
From S2P Require Import Fixtures StoreSpec ClaimSpec History Api ApiSpec Request Reader.

(** ** Accepted bodies *)

Section shape.
Context `{SJ : SerdeJson}.
Implicit Types (d : Doc).

(** The three entries of a request in any order. *)
Definition request_entries (source event_type : str) (payload : Doc) : list (str * Doc) :=
  [(lit "source", DString source); (lit "event_type", DString event_type); (lit "payload", payload)].

Lemma perm_three {A} (l : list A) a b c :
  l ≡ₚ [a; b; c] →
  l = [a; b; c] ∨ l = [a; c; b] ∨ l = [b; a; c] ∨ l = [b; c; a] ∨ l = [c; a; b] ∨ l = [c; b; a].
Proof.
  intros (l1 & l2 & -> & Hp)%Permutation_cons_inv_r.
  apply Permutation_length_2_inv in Hp as [E|E];
    destruct l1 as [|x [|y [|z l1]]]; simplify_eq/=; try tauto; by destruct l1.
Qed.

(** The six orders of three elements. *)
Ltac perm_three :=
  first
  [ reflexivity
  | apply perm_swap
  | apply perm_skip, perm_swap
  | etransitivity; [apply perm_swap|apply perm_skip, perm_swap]
  | etransitivity; [apply perm_skip, perm_swap|apply perm_swap]
  | etransitivity; [apply perm_swap|etransitivity; [apply perm_skip, perm_swap|apply perm_swap]] ].

(** A field can only be filled once, so at most three entries are visited. *)
Lemma visit_entry_inv fs e fs' :
  visit_entry fs e = Ok fs' →
  (∃ s, e = (lit "source", DString s) ∧ f_source fs = None ∧
    fs' = mkFields (Some s) (f_event_type fs) (f_payload fs)) ∨
  (∃ t, e = (lit "event_type", DString t) ∧ f_event_type fs = None ∧
    fs' = mkFields (f_source fs) (Some t) (f_payload fs)) ∨
  (∃ d, e = (lit "payload", d) ∧ f_payload fs = None ∧
    fs' = mkFields (f_source fs) (f_event_type fs) (Some (doc_value d))).
Proof.
  destruct e as [k d]. unfold visit_entry. cbn [fst snd].
  case_bool_decide as Hs; [|case_bool_decide as Ht; [|case_bool_decide as Hp; [|done]]]; subst k.
  - destruct (f_source fs); [done|]. destruct d; simpl; try done. intros [= <-]. left. eauto.
  - destruct (f_event_type fs); [done|]. destruct d; simpl; try done. intros [= <-]. right; left. eauto.
  - destruct (f_payload fs) eqn:E; [done|]. intros [= <-]. right; right. eauto.
Qed.

(** No entry can follow once all fields are filled. *)
Lemma visit_map_full s t p entries fs :
  visit_map (mkFields (Some s) (Some t) (Some p)) entries = Ok fs → entries = [].
Proof.
  destruct entries as [|e entries]; [done|]. simpl.
  destruct (visit_entry _ e) as [fs'|] eqn:E; [|done].
  by apply visit_entry_inv in E as [(? & _ & ? & _)|[(? & _ & ? & _)|(? & _ & ? & _)]].
Qed.

Lemma deserialize_shape d source event_type payload :
  EventRequest_deserialize d = Ok (mkEventRequest source event_type payload) ↔
  ∃ pd, payload = doc_value pd ∧
    ((∃ entries, d = DObject entries ∧ entries ≡ₚ request_entries source event_type pd) ∨
     d = DArray [DString source; DString event_type; pd]).
Proof.
  split.
  - destruct d as [ | | | |items|entries]; try done; simpl.
    + destruct items as [|[ | | | | | ] [|[ | | | | | ] [|d3 [|? ?]]]]; simpl; try done. intros [= <- <- <-]. eauto.
    + intros H. destruct (visit_map _ entries) as [fs|] eqn:Hv; simpl in H; [|done].
      destruct (f_source fs) as [s|] eqn:Es; simplify_eq/=.
      destruct (f_event_type fs) as [t|] eqn:Et; simplify_eq/=.
      destruct (f_payload fs) as [p|] eqn:Ep; simplify_eq/=.
      assert (∃ pd, payload = doc_value pd ∧ entries ≡ₚ request_entries source event_type pd)
        as (pd & -> & Hperm); [|by eauto 6].
      do 3 (destruct entries as [|? entries]; simpl in Hv;
        [by simplify_eq/=|]; match type of Hv with (visit_entry ?fs ?e ≫= _) = _ =>
          destruct (visit_entry fs e) eqn:E; simpl in Hv; [|done] end;
        apply visit_entry_inv in E as [(? & -> & ? & ->)|[(? & -> & ? & ->)|(? & -> & ? & ->)]];
        try discriminate; simpl in Hv);
      (pose proof (visit_map_full _ _ _ _ _ Hv) as ->); simplify_eq/=;
      eexists; (split; [reflexivity|]); unfold request_entries; perm_three.
  - intros (pd & -> & [(entries & -> & Hp)| ->]); [|done].
    by apply perm_three in Hp as [->|[->|[->|[->|[->| ->]]]]].
Qed.
(** C20. The body of [POST /v1/events]: a document is accepted exactly when it is an
    object whose entries are [source] and [event_type] with strings and [payload]
    with anything, each once, in any order and nothing else, or the array of these
    three values in this order; and the fields of the request are those values. *)
Theorem deserialize_iff d source event_type payload :
  EventRequest_deserialize d = Ok (mkEventRequest source event_type payload) ↔
  ∃ pd, payload = doc_value pd ∧
    ((∃ entries, d = DObject entries ∧ entries ≡ₚ request_entries source event_type pd) ∨
     d = DArray [DString source; DString event_type; pd]).
Proof. apply deserialize_shape. Qed.

(** ** Documents as values *)

(** Strings of a document are text. *)
Fixpoint valid_doc d : Prop :=
  match d with
  | DString s => valid_str s
  | DArray items => foldr (λ i P, valid_doc i ∧ P) True items
  | DObject entries => foldr (λ e P, (valid_str e.1 ∧ valid_doc e.2) ∧ P) True entries
  | _ => True
  end.

Lemma Doc_nested_ind (P : Doc → Prop) :
  P DNull → (∀ b, P (DBool b)) → (∀ n, P (DNumber n)) → (∀ s, P (DString s)) →
  (∀ l, Forall P l → P (DArray l)) → (∀ l, Forall (λ e, P e.2) l → P (DObject l)) →
  ∀ d, P d.
Proof.
  intros H1 H2 H3 H4 Ha Ho. fix IH 1. intros [ |b|n|s|l|l]; [exact H1|apply H2|apply H3|apply H4|..].
  - apply Ha. induction l as [|v l IHl]; constructor; [apply IH|apply IHl].
  - apply Ho. induction l as [|e l IHl]; constructor; [apply IH|apply IHl].
Qed.

Lemma valid_array l : valid_doc (DArray l) ↔ Forall valid_doc l.
Proof. simpl. induction l; simpl; rewrite ?Forall_cons, ?Forall_nil; intuition. Qed.

Lemma valid_object l : valid_doc (DObject l) ↔ Forall (λ e, valid_str e.1 ∧ valid_doc e.2) l.
Proof. simpl. induction l; simpl; rewrite ?Forall_cons, ?Forall_nil; intuition. Qed.

Lemma elem_of_map_insert {A} k (v : A) m x : x ∈ map_insert k v m → x = (k, v) ∨ x ∈ m.
Proof.
  induction m as [|[k' v'] m IH]; simpl; [set_solver|].
  case_bool_decide; [set_solver|]. destruct (bytes_leb _ _); set_solver.
Qed.

Lemma map_insert_Forall {A} (P : str * A → Prop) k v m :
  P (k, v) → Forall P m → Forall P (map_insert k v m).
Proof.
  rewrite !Forall_forall. intros Hkv Hm x [->|Hx]%elem_of_map_insert; [done|by apply Hm].
Qed.

(** What a map is made of: keys that are text, in increasing order, each once. *)
Record sorted_map {A} (m : list (str * A)) : Prop := {
  sm_sorted : StronglySorted key_le m;
  sm_distinct : NoDup m.*1;
  sm_text : Forall (λ e, valid_str e.1) m
}.

Lemma map_insert_sorted {A} k (v : A) m :
  valid_str k → sorted_map m → sorted_map (map_insert k v m).
Proof.
  intros Hk. induction m as [|[k' v'] m IH]; intros [Hs Hd Ht].
  { split; simpl; [repeat constructor|apply NoDup_singleton|by constructor]. }
  pose proof Hs as [Hs' Hle]%StronglySorted_inv. rewrite Forall_forall in Hle.
  pose proof Hd as [Hni Hd']%NoDup_cons. pose proof Ht as [Hk' Ht']%Forall_cons.
  split; [| |by apply map_insert_Forall]; simpl in *.
  - case_bool_decide as E; [subst k'; by constructor; [|apply Forall_forall]|].
    destruct (bytes_leb _ _) eqn:El; constructor; try done.
    + constructor; [done|]. apply Forall_forall. intros x Hx. eapply bytes_leb_trans; [exact El|by apply Hle].
    + by apply IH.
    + apply map_insert_Forall; [|by apply Forall_forall]. unfold key_le. simpl.
      destruct (bytes_leb_total (as_bytes k) (as_bytes k')); congruence.
  - case_bool_decide as E; [subst k'; by constructor|].
    destruct (bytes_leb _ _) eqn:El; simpl; constructor; try done.
    + intros [->|Hin]%elem_of_cons; [done|]. apply list_elem_of_fmap in Hin as (x & -> & Hin).
      rewrite Forall_forall in Ht'. apply E, as_bytes_inj; [done|done|].
      apply bytes_leb_antisym; [done|by apply Hle].
    + intros (x & -> & [->|Hx]%elem_of_map_insert)%list_elem_of_fmap; [done|].
      apply Hni. by apply list_elem_of_fmap_2.
    + by apply IH.
Qed.

Lemma doc_value_wf d : valid_doc d → wf_value (doc_value d).
Proof.
  induction d as [| | | |l IH|l IH] using Doc_nested_ind; intros Hd; try done.
  - apply valid_array in Hd. cbn [doc_value]. apply wf_array. apply Forall_fmap.
    rewrite Forall_forall in *. intros x Hx. by apply IH, Hd.
  - apply valid_object in Hd. cbn [doc_value]. apply wf_object.
    assert (∀ es m, Forall (λ e : str * Value, valid_str e.1 ∧ wf_value e.2) es → sorted_map m →
      Forall (λ e, wf_value e.2) m →
      let m' := foldl (λ m e, map_insert e.1 e.2 m) m es in
      sorted_map m' ∧ Forall (λ e, wf_value e.2) m') as Hfold.
    { induction es as [|e es IHes]; intros m Hes Hm Hw; [done|].
      apply Forall_cons in Hes as [[? ?] Hes]. apply IHes; [done|by apply map_insert_sorted|].
      by apply map_insert_Forall. }
    destruct (Hfold ((λ e, (e.1, doc_value e.2)) <$> l) []) as [[_ Hnd Ht] Hw].
    + apply Forall_fmap. rewrite Forall_forall in *. intros x Hx. split; [by apply Hd|].
      apply (IH x Hx). by apply Hd.
    + split; constructor.
    + constructor.
    + split; [done|]. by apply Forall_and.
Qed.

(** The fields of an accepted request are text and well formed. *)
Lemma deserialize_wf d q :
  valid_doc d → EventRequest_deserialize d = Ok q →
  valid_str (req_source q) ∧ valid_str (req_event_type q) ∧ wf_value (req_payload q).
Proof.
  destruct q as [source event_type payload]. intros Hd (pd & -> & [(entries & -> & Hp)| ->])%deserialize_shape.
  - apply valid_object in Hd. rewrite Hp in Hd. unfold request_entries in Hd.
    rewrite !Forall_cons in Hd. destruct Hd as ([_ ?] & [_ ?] & [_ ?] & _). simpl.
    split_and!; [done..|by apply doc_value_wf].
  - simpl in *. destruct Hd as (? & ? & ? & _). split_and!; [done..|by apply doc_value_wf].
Qed.
End shape.

(** ** Routing *)

Section routing.
Context `{SJ : SerdeJson} {SW : SerdeJsonWriter} {SH : Sha2} {HT : Http} {UC : UuidCrate}.
Context {AX : Axum} {JR : JsonReader} {AXL : AxumLaws AX JR} {JRL : JsonReaderLaws JR}.
Implicit Types (r : HttpRequest).

(** A complete JSON request of acceptable size under a key, whose text is [d]. *)
Record posts r (key : str) (d : Doc) : Prop := {
  po_method : hr_method r = M_POST;
  po_path : hr_path r = lit "/v1/events";
  po_json : json_content_type (hr_headers r) = true;
  po_key : hm_get IDEMPOTENCY_KEY (hr_headers r) = Some (as_bytes key);
  po_body : ∃ chunks, hr_frames r = Some <$> chunks ∧ body_length chunks ≤ MAX_BODY_BYTES ∧
    document (concat chunks) = Some d
}.

Lemma match_literal path path' :
  forallb (λ c, negb (c =? 123)) path = true →
  match_path path path' = if bool_decide (path = path') then Some [] else None.
Proof.
  intros H. apply (ax_literal (AX := AX)). apply forallb_Forall in H. eapply Forall_impl; [exact H|].
  simpl. lia.
Qed.

(** Where the routes lead. *)
Lemma route_live : find_route router (lit "/health/live") =
  Some (mkRoute (lit "/health/live") GET H_live None, []).
Proof. cbn [find_route router route_path]. rewrite match_literal by reflexivity. vm_compute. reflexivity. Qed.

Lemma route_ready : find_route router (lit "/health/ready") =
  Some (mkRoute (lit "/health/ready") GET H_ready None, []).
Proof. cbn [find_route router route_path]. rewrite !match_literal by reflexivity. vm_compute. reflexivity. Qed.

Lemma route_events : find_route router (lit "/v1/events") =
  Some (mkRoute (lit "/v1/events") POST H_ingest (Some MAX_BODY_BYTES), []).
Proof. cbn [find_route router route_path]. rewrite !match_literal by reflexivity. vm_compute. reflexivity. Qed.

Lemma route_event segment :
  segment ≠ [] → Forall (λ c, is_ascii_graphic c = true ∧ c ∉ [35; 37; 47; 63]) segment →
  find_route router (lit "/v1/events/" ++ segment) =
    Some (mkRoute (lit "/v1/events/{event_id}") GET H_get None, [Some segment]).
Proof.
  intros Hne Hs. cbn [find_route router route_path]. rewrite !match_literal by reflexivity.
  assert (match_path (lit "/v1/events/{event_id}") (lit "/v1/events/" ++ segment) =
    Some [Some segment]) as ->;
    [|destruct segment; [done|]; rewrite !bool_decide_false by discriminate; done].
  apply (ax_capture (AX := AX) (lit "/v1/events/") (lit "event_id")); [|done..].
  repeat constructor; discriminate.
Qed.

Context {S : Type} (store : StoreOps S).
Implicit Types (s : S).

(** A posted request reaches [ingest] with its document. *)
Lemma service_posts v4 now r key d s :
  posts r key d →
  app_service store v4 now r s =
    let '(res, s') :=
      ingest store v4 now (hr_headers r) (json_rejection (EventRequest_deserialize d)) s in
    (handler_reply M_POST (into_response res), s').
Proof.
  intros [Hm Hp Hj _ (chunks & Hf & Hl & Hd)]. unfold app_service. rewrite Hp, route_events, Hm.
  cbn [route_method method_allows call_handler route_handler route_body_limit default].
  rewrite (ax_body (JR := JR) _ r chunks), (from_slice_document _ d), Hm by done. done.
Qed.

Lemma posts_key {HTL : HttpLaws HT} r key d :
  posts r key d → valid_key key → idempotency_key (hr_headers r) = Ok (mkIdempotencyKey key).
Proof.
  intros Hpo Hv. unfold idempotency_key. rewrite (po_key _ _ _ Hpo). simpl.
  rewrite header_to_str_graphic; [|by apply Hv]. simpl.
  rewrite IdempotencyKey_parse_eq. by rewrite decide_True.
Qed.
End routing.

(** ** Idempotency end to end *)

Section end_to_end.
Context `{SJ : SerdeJson} {SW : SerdeJsonWriter} {SWL : SerdeJsonWriterLaws SW}.
Context {SH : Sha2} {SHL : Sha2Laws SH} {HT : Http} {HTL : HttpLaws HT} {UC : UuidCrate}.
Context {AX : Axum} {JR : JsonReader} {AXL : AxumLaws AX JR} {JRL : JsonReaderLaws JR}.
Context {PG : Postgres} {PGL : PostgresLaws PG}.
Implicit Types (r : HttpRequest) (q : EventRequest) (db : Table).

(** A client posts the request [q] as some JSON text. *)
Definition posts_request r (key : str) q : Prop :=
  ∃ d, posts r key d ∧ valid_doc d ∧ EventRequest_deserialize d = Ok q.

(** Requests that mean the same: payloads are compared as JSON values. *)
Definition same_request q1 q2 : Prop :=
  req_source q1 = req_source q2 ∧ req_event_type q1 = req_event_type q2 ∧
  value_equiv (req_payload q1) (req_payload q2).

(** SHA-256 tells two requests apart. *)
Definition no_collision q1 q2 : Prop :=
  let input q := fingerprint_input (mkEventSource (req_source q)) (mkEventType (req_event_type q))
    (req_payload q) in
  sha256 (input q1) = sha256 (input q2) → input q1 = input q2.

Definition replay_header (reply : Reply) : option bytes :=
  resp ← rp_response reply; hm_get IDEMPOTENCY_REPLAYED (resp_headers resp).

Definition reply_of (res : result ApiError Response) : Reply :=
  handler_reply M_POST (into_response res).

(** The answer to a posted request is the answer to its admission. *)
Lemma posted_admission env v4 now r key q db :
  posts_request r key q → valid_key key →
  valid_label MAX_SOURCE_CHARS (req_source q) → valid_label MAX_EVENT_TYPE_CHARS (req_event_type q) →
  req_payload q ≠ VNull →
  app_service (pg_store env) v4 now r db =
    let '(admitted, db') := store_admit (env_admit env) (env_now env) (request_event v4 now q)
      (mkIdempotencyKey key) (request_fp q) db in
    (reply_of (admission_answer admitted), db').
Proof.
  intros (d & Hpo & _ & Hd) Hk Hs Ht Hp. rewrite (service_posts _ _ _ _ _ _ _ Hpo), Hd.
  rewrite (ingest_acceptable _ _ _ _ _ (mkIdempotencyKey key) q).
  - simpl. by destruct (store_admit _ _ _ _ _ _).
  - split; [by eapply posts_key|done..].
Qed.

(** A posted request that got 202 was acceptable. *)
Lemma posted_accepted env v4 now r key q db reply db' :
  posts_request r key q → valid_key key →
  app_service (pg_store env) v4 now r db = (reply, db') → rp_status reply = 202 →
  valid_label MAX_SOURCE_CHARS (req_source q) ∧ valid_label MAX_EVENT_TYPE_CHARS (req_event_type q) ∧
  req_payload q ≠ VNull.
Proof.
  intros (d & Hpo & _ & Hd) Hk. rewrite (service_posts _ _ _ _ _ _ _ Hpo), Hd.
  destruct (ingest_cases (pg_store env) v4 now (hr_headers r) (json_rejection (Ok q)) db)
    as [(k & q' & [_ [= <-] ? ? ?])|(_ & e & -> & He)]; [done|].
  intros [= <- <-]. simpl. rewrite error_status. lia.
Qed.

Lemma admission_answer_accepted admitted :
  rp_status (reply_of (admission_answer admitted)) = 202 →
  ∃ id, admitted = Ok (Created id) ∨ admitted = Ok (Replayed id).
Proof.
  destruct admitted as [[id|id|]|e]; simpl; eauto; [done|].
  rewrite error_status. unfold store_error. by destruct (is_unavailable e).
Qed.

(** Equal requests have equal fingerprints, others differ unless SHA-256 collides. *)
Lemma request_fp_same r1 r2 key q1 q2 :
  posts_request r1 key q1 → posts_request r2 key q2 →
  valid_label MAX_SOURCE_CHARS (req_source q1) → valid_label MAX_EVENT_TYPE_CHARS (req_event_type q1) →
  valid_label MAX_SOURCE_CHARS (req_source q2) → valid_label MAX_EVENT_TYPE_CHARS (req_event_type q2) →
  (same_request q1 q2 → request_fp q2 = request_fp q1) ∧
  (¬ same_request q1 q2 → no_collision q1 q2 → request_fp q2 ≠ request_fp q1).
Proof.
  intros (d1 & _ & Hv1 & Hd1) (d2 & _ & Hv2 & Hd2) Hs1 Ht1 Hs2 Ht2.
  destruct (deserialize_wf d1 q1 Hv1 Hd1) as (? & ? & ?).
  destruct (deserialize_wf d2 q2 Hv2 Hd2) as (? & ? & ?).
  pose proof (fingerprint_input_iff (mkEventSource (req_source q1)) (mkEventType (req_event_type q1))
    (req_payload q1) (mkEventSource (req_source q2)) (mkEventType (req_event_type q2)) (req_payload q2))
    as Hiff.
  specialize (Hiff ltac:(by split_and!) ltac:(by split_and!)).
  unfold request_fp, RequestFingerprint_compute. split.
  - intros (E1 & E2 & Ev). rewrite (proj2 Hiff); [done|]. by split_and!; [f_equal..|].
  - intros Hne Hnc [= E]. apply Hne. symmetry in E. by apply Hnc, Hiff in E as ([= ?] & [= ?] & ?).
Qed.

(** C1. Idempotency as the client sees it, from the bytes it sends. After a posted
    request got 202, and after any history of admissions, claims and completions,
    consider a second post under the same key and the same source, with a valid event
    type and a non-null payload that JSONB accepts, during which no round trip fails.
    It writes nothing; if its text denotes the same request (the same event type and
    equal JSON values, however the text orders or repeats object keys) it gets 202
    with the same body and [Idempotency-Replayed: true], and if it denotes another
    request it gets 409, unless SHA-256 collides on the two. *)
Theorem reposted_is_replay r1 r2 key q1 q2 env1 env2 v1 v2 t1 t2 db reply1 db1 ops :
  posts_request r1 key q1 → posts_request r2 key q2 → valid_key key →
  req_source q2 = req_source q1 → valid_label MAX_EVENT_TYPE_CHARS (req_event_type q2) →
  req_payload q2 ≠ VNull → is_ok (jsonb_in (req_payload q2)) = true →
  wf_table db → valid_uuid v1 → valid_uuid v2 → Forall op_ok ops → env_admit env2 = no_faults →
  app_service (pg_store env1) v1 t1 r1 db = (reply1, db1) → rp_status reply1 = 202 →
  let db2 := run_ops ops db1 in
  let '(reply2, db3) := app_service (pg_store env2) v2 t2 r2 db2 in
  db3 = db2 ∧
  (same_request q1 q2 → rp_status reply2 = 202 ∧ rp_body reply2 = rp_body reply1 ∧
    replay_header reply2 = Some (lit "true")) ∧
  (¬ same_request q1 q2 → no_collision q1 q2 → rp_status reply2 = 409).
Proof.
  intros H1 H2 Hk Hsrc Ht2 Hp2 Hj Hwf Hv1 Hv2 Hops He2 Hreply Hst db2.
  destruct (posted_accepted _ _ _ _ _ _ _ _ _ H1 Hk Hreply Hst) as (Hs1 & Ht1 & Hp1).
  assert (valid_label MAX_SOURCE_CHARS (req_source q2)) as Hs2 by by rewrite Hsrc.
  rewrite (posted_admission env1 v1 t1 r1 key q1) in Hreply by done.
  rewrite (posted_admission env2 v2 t2 r2 key q2) by done. rewrite He2.
  destruct (request_fp_same r1 r2 key q1 q2) as [Hsame Hdiff]; [done..|].
  assert (∀ v q, valid_uuid v → valid_label MAX_SOURCE_CHARS (req_source q) →
    valid_label MAX_EVENT_TYPE_CHARS (req_event_type q) → req_payload q ≠ VNull → ∀ t,
    admissible (request_event v t q) (mkIdempotencyKey key) (request_fp q)) as Hadm.
  { intros v q Hv Hs Ht Hp t. split; [done|done|done|apply sha256_length]. }
  destruct (store_admit (env_admit env1) _ _ _ _ db) as [admitted1 db1'] eqn:E1.
  injection Hreply as <- <-. apply admission_answer_accepted in Hst as [id Hid].
  pose proof (admit_again (env_admit env1) (env_now env1) (request_event v1 t1 q1)
    (mkIdempotencyKey key) (request_fp q1) db id db1' ops no_faults (env_now env2)
    (request_event v2 t2 q2) (request_fp q2)) as Hagain. cbv zeta in Hagain.
  specialize (Hagain Hwf ltac:(by apply Hadm) ltac:(by apply Hadm) Hops).
  rewrite E1 in Hagain.
  specialize (Hagain ltac:(destruct Hid as [-> | ->]; auto) ltac:(simpl; by rewrite Hsrc)).
  fold db2 in Hagain. destruct (store_admit no_faults _ _ _ _ db2) as [admitted2 db3].
  destruct Hagain as [-> Hres]. split; [done|].
  destruct admitted2 as [outcome|e]; [|destruct Hres as [?|Hnok]; [done|simpl in Hnok; congruence]].
  subst outcome. split.
  - intros Hs. rewrite decide_True by by apply Hsame. simpl. split; [done|]. split.
    + by destruct Hid as [-> | ->].
    + unfold replay_header. simpl. by rewrite hm_get_insert.
  - intros Hns Hnc. by rewrite decide_False by by apply Hdiff.
Qed.
End end_to_end.

(** ** The type of replies *)

(** What README.md and ADR-007 promise: the endpoint of each handler, and its
    errors as status, code and message, where [None] is a message of the handler's
    choice. *)
Definition documented_endpoint (h : Handler) : str * Method :=
  match h with
  | H_live => (lit "/health/live", GET)
  | H_ready => (lit "/health/ready", GET)
  | H_ingest => (lit "/v1/events", POST)
  | H_get => (lit "/v1/events/{event_id}", GET)
  end.

Definition server_errors : list (Z * str * option str) := [
  (500, lit "INTERNAL_ERROR", Some (lit "internal server error"));
  (503, lit "PERSISTENCE_UNAVAILABLE", Some (lit "event persistence is temporarily unavailable"))
].

Definition documented_errors (h : Handler) : list (Z * str * option str) :=
  match h with
  | H_live | H_ready => []
  | H_ingest =>
      [(400, lit "IDEMPOTENCY_KEY_REQUIRED", Some (lit "Idempotency-Key header is required"));
       (400, lit "IDEMPOTENCY_KEY_INVALID",
        Some (lit "Idempotency-Key must be 1-128 characters of visible ASCII (no spaces)"));
       (400, lit "INVALID_EVENT", None);
       (409, lit "IDEMPOTENCY_CONFLICT",
        Some (lit "Idempotency-Key was already used for a different event from this source"));
       (413, lit "PAYLOAD_TOO_LARGE", Some (lit "request body exceeds the 64 KiB limit"));
       (415, lit "UNSUPPORTED_MEDIA_TYPE", Some (lit "Content-Type must be application/json"))]
      ++ server_errors
  | H_get =>
      [(400, lit "INVALID_EVENT_ID", Some (lit "event_id must be a UUID"));
       (404, lit "EVENT_NOT_FOUND", Some (lit "event not found"))]
      ++ server_errors
  end.

#[global] Instance ReqMethod_eq_dec : EqDecision ReqMethod.
Proof. solve_decision. Defined.

Definition method_of (m : Method) : list ReqMethod :=
  match m with GET => [M_GET; M_HEAD] | POST => [M_POST] end.

(** The documented responses of a handler when the database is up or not, as status,
    [Idempotency-Replayed], [Retry-After] and body. *)
Inductive response_typed `{UC : UuidCrate} (up : bool)
    : Handler → Z * option bytes * option bytes * Body → Prop :=
| typed_accepted id (replayed : bool) :
    response_typed up H_ingest
      (202, Some (lit (if replayed then "true" else "false")), None,
       BAccepted (mkAcceptedResponse (uuid_fmt id) (lit "accepted")))
| typed_status b :
    es_status b ∈ [lit "pending"; lit "processing"; lit "processed"] →
    response_typed up H_get (200, None, None, BStatus b)
| typed_live :
    response_typed up H_live
      (200, None, None, BLive (mkLiveness (lit "ok") (lit "pulsestream-api")))
| typed_ready :
    up = true →
    response_typed up H_ready
      (200, None, None, BReady (mkReadiness (lit "ok") (lit "pulsestream-api")
        [(lit "database", lit "ready")]))
| typed_unready :
    up = false →
    response_typed up H_ready
      (503, None, None, BReady (mkReadiness (lit "unavailable") (lit "pulsestream-api")
        [(lit "database", lit "unavailable")]))
| typed_error h status code documented message :
    (status, code, documented) ∈ documented_errors h →
    (∀ text, documented = Some text → message = text) →
    response_typed up h
      (status, None, if decide (status = 503) then Some (lit "1") else None,
       BError (mkErrorBody code message)).

Section types.
Context `{SJ : SerdeJson} {SW : SerdeJsonWriter} {SH : Sha2} {HT : Http} {HTL : HttpLaws HT}.
Context {UC : UuidCrate} {AX : Axum} {S : Type} (store : StoreOps S).
Implicit Types (r : HttpRequest) (s : S).

(** What a client sees of a response. *)
Definition observed (resp : Response) : Z * option bytes * option bytes * Body :=
  (resp_status resp, hm_get (lit "idempotency-replayed") (resp_headers resp),
   hm_get (lit "retry-after") (resp_headers resp), resp_body resp).

(** The database answers the lightweight query within two seconds. *)
Definition database_up s : bool :=
  let '(elapsed, answer) := op_ping store s in (elapsed <=? 2000000000) && is_ok answer.

Lemma observed_json status body :
  observed (mkResponse status json_headers body) = (status, None, None, body).
Proof.
  change (observed _) with (status, hm_get IDEMPOTENCY_REPLAYED json_headers,
    hm_get RETRY_AFTER json_headers, body).
  by rewrite json_headers_replayed, json_headers_retry.
Qed.

Lemma observed_insert k v status body :
  observed (mkResponse status (hm_insert k v json_headers) body) =
    (status, if decide (k = IDEMPOTENCY_REPLAYED) then Some v else None,
     if decide (k = RETRY_AFTER) then Some v else None, body).
Proof.
  change (observed _) with (status, hm_get IDEMPOTENCY_REPLAYED (hm_insert k v json_headers),
    hm_get RETRY_AFTER (hm_insert k v json_headers), body).
  assert (∀ k', hm_get k' json_headers = None → hm_get k' (hm_insert k v json_headers) =
    if decide (k = k') then Some v else None) as Hget.
  { intros k' Hk'. case_decide as E; [subst k'; apply hm_get_insert|by rewrite hm_get_insert_ne]. }
  by rewrite (Hget IDEMPOTENCY_REPLAYED json_headers_replayed), (Hget RETRY_AFTER json_headers_retry).
Qed.

(** An error response is typed when its status, code and message are documented. *)
Lemma error_typed up h e documented :
  (parts e).1 = (documented.1.1, documented.1.2) → documented ∈ documented_errors h →
  (∀ text, documented.2 = Some text → (parts e).2 = text) →
  response_typed up h (observed (ApiError_into_response e)).
Proof.
  destruct documented as [[status code] documented]. intros Hp Hin Hm. unfold ApiError_into_response.
  destruct (parts e) as [st message] eqn:E. simpl in *. subst st.
  replace (observed _) with (status, @None bytes,
    (if decide (status = 503) then Some (lit "1") else None), BError (mkErrorBody code message));
    [by econstructor|].
  case_bool_decide as He.
  - subst e. injection E as <- <- <-. simpl. by rewrite observed_insert.
  - rewrite observed_json. by destruct e; simplify_eq/=.
Qed.

Ltac documented_error entry :=
  apply (error_typed _ _ _ entry); [reflexivity|set_solver|by intros ? [= <-]].

Lemma store_error_typed up h e :
  (∀ d, d ∈ server_errors → d ∈ documented_errors h) →
  response_typed up h (observed (ApiError_into_response (store_error e))).
Proof.
  intros Hh. unfold store_error. destruct (is_unavailable e).
  - by apply (error_typed _ _ _ (503, lit "PERSISTENCE_UNAVAILABLE",
      Some (lit "event persistence is temporarily unavailable")));
      [|apply Hh; set_solver|intros ? [= <-]].
  - by apply (error_typed _ _ _ (500, lit "INTERNAL_ERROR", Some (lit "internal server error")));
      [|apply Hh; set_solver|intros ? [= <-]].
Qed.

Lemma invalid_event_typed up message :
  response_typed up H_ingest (observed (ApiError_into_response (AE_InvalidEvent message))).
Proof. documented_error (400, lit "INVALID_EVENT", @None str). Qed.

Lemma accepted_typed up id replayed :
  response_typed up H_ingest (observed (accepted_response id replayed)).
Proof.
  unfold accepted_response. cbn [resp_status resp_headers resp_body]. rewrite observed_insert.
  destruct replayed; [apply (typed_accepted _ (EventId_as_uuid id) true)|
    apply (typed_accepted _ (EventId_as_uuid id) false)].
Qed.

Lemma ingest_typed up v4 now headers body s :
  response_typed up H_ingest (observed (into_response (ingest store v4 now headers body s).1)).
Proof.
  unfold ingest. destruct (idempotency_key headers) as [key|[]]; simpl.
  2: documented_error (400, lit "IDEMPOTENCY_KEY_REQUIRED",
       Some (lit "Idempotency-Key header is required")).
  2: documented_error (400, lit "IDEMPOTENCY_KEY_INVALID",
       Some (lit "Idempotency-Key must be 1-128 characters of visible ASCII (no spaces)")).
  destruct body as [request|[|status| | |]]; simpl; try apply invalid_event_typed.
  2: documented_error (415, lit "UNSUPPORTED_MEDIA_TYPE",
       Some (lit "Content-Type must be application/json")).
  2: { case_match; [|apply invalid_event_typed].
       documented_error (413, lit "PAYLOAD_TOO_LARGE",
         Some (lit "request body exceeds the 64 KiB limit")). }
  destruct (Event_new _ _ _ _ _) as [event|err]; simpl; [|apply invalid_event_typed].
  destruct (op_admit _ _ _ _ _) as [[[id|id|]|err] s']; simpl.
  - apply accepted_typed.
  - apply accepted_typed.
  - documented_error (409, lit "IDEMPOTENCY_CONFLICT",
      Some (lit "Idempotency-Key was already used for a different event from this source")).
  - apply store_error_typed. set_solver.
Qed.

Lemma events_get_typed up event_id s :
  response_typed up H_get (observed (into_response (events_get store event_id s))).
Proof.
  unfold events_get. destruct (EventId_parse event_id); simpl.
  2: documented_error (400, lit "INVALID_EVENT_ID", Some (lit "event_id must be a UUID")).
  destruct (op_get store _ s) as [[rec|]|err]; simpl.
  - rewrite observed_json. constructor. simpl. destruct (rec_status rec); set_solver.
  - documented_error (404, lit "EVENT_NOT_FOUND", Some (lit "event not found")).
  - apply store_error_typed. set_solver.
Qed.

Lemma ready_typed s : response_typed (database_up s) H_ready (observed (ready store s)).
Proof.
  unfold ready, database_up, timeout, READINESS_TIMEOUT.
  destruct (op_ping store s) as [elapsed answer]. simpl.
  destruct (elapsed <=? _), answer; simpl; rewrite observed_json; by constructor.
Qed.

Lemma find_route_in routes path route captures :
  find_route routes path = Some (route, captures) → route ∈ routes.
Proof.
  induction routes as [|x routes IH]; simpl; [done|].
  destruct (match_path _ _); [intros [= <- _]; by left|right; by apply IH].
Qed.

Lemma router_endpoint route :
  route ∈ router → (route_path route, route_method route) = documented_endpoint (route_handler route).
Proof. unfold router. set_unfold. by intros [->|[->|[->|[->|[]]]]]. Qed.

(** What is documented for a request: nothing else than the endpoints, their methods,
    and the handler's responses, without the body for HEAD. *)
Definition reply_typed r s (reply : Reply) : Prop :=
  match find_route router (hr_path r) with
  | None => reply = mkReply 404 None None
  | Some (route, captures) =>
      let h := route_handler route in
      let '(path, method) := documented_endpoint h in
      route_path route = path ∧
      if decide (hr_method r ∈ method_of method) then
        (h = H_get ∧ (∀ event_id, captures ≠ [Some event_id]) ∧ reply = mkReply 400 None None) ∨
        (∃ resp, response_typed (database_up s) h (observed resp) ∧
          reply = mkReply (resp_status resp) (Some resp)
            (if decide (hr_method r = M_HEAD) then None else Some (resp_body resp)))
      else reply = mkReply 405 None None
  end.

Lemma handler_reply_typed up h m resp :
  response_typed up h (observed resp) →
  ∃ resp', response_typed up h (observed resp') ∧
    handler_reply m resp = mkReply (resp_status resp') (Some resp')
      (if decide (m = M_HEAD) then None else Some (resp_body resp')).
Proof. intros H. exists resp. split; [done|]. by destruct m. Qed.

Lemma call_handler_typed v4 now route captures r s :
  let '(reply, s') := call_handler store v4 now route captures r s in
  ((route_handler route = H_get ∧ (∀ event_id, captures ≠ [Some event_id]) ∧
    reply = mkReply 400 None None) ∨
   (∃ resp, response_typed (database_up s) (route_handler route) (observed resp) ∧
     reply = mkReply (resp_status resp) (Some resp)
       (if decide (hr_method r = M_HEAD) then None else Some (resp_body resp)))) ∧
  (route_handler route ≠ H_ingest → s' = s).
Proof.
  unfold call_handler. destruct (route_handler route).
  - split; [right|done]. apply handler_reply_typed. unfold live. rewrite observed_json. constructor.
  - split; [right|done]. apply handler_reply_typed, ready_typed.
  - pose proof (ingest_typed (database_up s) v4 now (hr_headers r)
      (json_extract (default DEFAULT_BODY_LIMIT (route_body_limit route)) r) s) as H.
    destruct (ingest _ _ _ _ _ _). split; [right; by apply handler_reply_typed|done].
  - destruct captures as [|[event_id|] [|? ?]]; (split; [|done]); try (left; by split_and!).
    right. apply handler_reply_typed, events_get_typed.
Qed.

End types.

(** ** Sample texts *)

(** A literal with single quotes for double quotes. *)
Definition json_text (s : string) : bytes := (λ c, if c =? 39 then 34 else c) <$> lit s.
Arguments json_text s%_string.

Definition json_post (key : str) (body : bytes) : HttpRequest :=
  mkHttpRequest M_POST (lit "/v1/events")
    [(CONTENT_TYPE, lit "application/json"); (IDEMPOTENCY_KEY, key)] [Some body].

Definition text1 : bytes :=
  json_text "{'source':'orders-api','event_type':'order.created','payload':{'a':1,'b':[true,null]}}".

(** The same request in another order, with spaces, an escape and a repeated key. *)
Definition text2 : bytes :=
  json_text " {'payload': {'b':[true, null], 'a':7, '\u0061':1}, 'event_type':'order.created', 'source':'orders-api'}".

Definition text_request : EventRequest :=
  mkEventRequest (lit "orders-api") (lit "order.created")
    (VObject [(lit "a", VNumber (RInt 1)); (lit "b", VArray [VBool true; VNull])]).

#[global] Instance valid_doc_dec `{SerdeJson} d : Decision (valid_doc d).
Proof.
  revert d. fix IH 1. intros [ | | |s|l|l]; try (left; exact I).
  - exact (Forall_dec (λ c, is_scalar c = true) s).
  - induction l as [|d l IHl]; [left; exact I|]. exact (and_dec (IH d) IHl).
  - induction l as [|e l IHl]; [left; exact I|].
    exact (and_dec (and_dec (Forall_dec (λ c, is_scalar c = true) e.1) (IH e.2)) IHl).
Defined.

Lemma posts_text (text : bytes) q :
  match document_ref text with
  | Some d => bool_decide (valid_doc d) && bool_decide (EventRequest_deserialize d = Ok q)
  | None => false
  end = true →
  Z.of_nat (length text) ≤ MAX_BODY_BYTES →
  posts_request (json_post (lit "order-1") text) (lit "order-1") q.
Proof.
  destruct (document_ref text) as [d|] eqn:E; [|done].
  intros [Hv Hd]%andb_true_iff Hlen. apply bool_decide_eq_true in Hv, Hd.
  exists d. split; [|by split]. split; try done.
  exists [text]. unfold body_length. simpl. rewrite app_nil_r. by split_and!.
Qed.

Lemma reposted_is_replay_witness :
  let '(reply1, db1) := app_service (pg_store calm) 1 0 (json_post (lit "order-1") text1) ∅ in
  let '(reply2, db2) :=
    app_service (pg_store calm) 2 0 (json_post (lit "order-1") text2) (run_ops sample_ops db1) in
  rp_status reply1 = 202 ∧ db2 = run_ops sample_ops db1 ∧ rp_status reply2 = 202 ∧
  rp_body reply2 = rp_body reply1 ∧ replay_header reply2 = Some (lit "true").
Proof.
  destruct (app_service (pg_store calm) 1 0 (json_post (lit "order-1") text1) ∅) as [reply1 db1] eqn:E1.
  assert (rp_status reply1 = 202) as H1.
  { apply (f_equal fst) in E1. cbn [fst] in E1. rewrite <-E1. vm_compute. reflexivity. }
  assert (posts_request (json_post (lit "order-1") text1) (lit "order-1") text_request) as P1
    by (apply posts_text; vm_compute; [reflexivity|discriminate]).
  assert (posts_request (json_post (lit "order-1") text2) (lit "order-1") text_request) as P2
    by (apply posts_text; vm_compute; [reflexivity|discriminate]).
  assert (valid_key (lit "order-1")) as Hk by (apply (bool_decide_eq_true_1 _); by vm_compute).
  assert (valid_label MAX_EVENT_TYPE_CHARS (req_event_type text_request)) as Hl
    by by apply (validate_label_ok []).
  pose proof (reposted_is_replay _ _ _ _ _ calm calm 1 2 0 0 ∅ reply1 db1 sample_ops P1 P2 Hk eq_refl Hl
    ltac:(discriminate) eq_refl wf_table_empty (small_uuid 1 eq_refl) (small_uuid 2 eq_refl)
    sample_ops_ok eq_refl E1 H1) as H. cbv zeta in H.
  destruct (app_service (pg_store calm) 2 0 _ (run_ops sample_ops db1)) as [reply2 db2].
  destruct H as (Hdb & Hsame & _). destruct Hsame as (Hs & Hb & Hh).
  { split; [reflexivity|]. split; [reflexivity|apply value_equiv_refl]. }
  split; [exact H1|]. split; [exact Hdb|]. split; [exact Hs|]. split; [exact Hb|exact Hh].
Defined.

