(* ===== verification/Runtime.v ===== *)
(** * The worker runtime (pulsestream-worker, runtime.rs and processor.rs)

    [run] is an asynchronous loop that shares the process with the tasks it
    spawns. Its state is the program counter of the loop, the [JoinSet], the map
    of running tasks and the counters; its steps are the stretches between two
    awaits, and a task has two: the end of [EventProcessor::process] and the end
    of [Store::complete]. [rt_step] executes one step. What the environment
    decides is part of the step: which branch of a select fires, which task ends
    and how, the database clock, and failures. *)

From S2P Require Import Prelude Text Json Crates Event Idempotency Config Schema Store.

(** ** processor.rs *)

Record ProcessError := mkProcessError { process_error : str }.

Definition ProcessError_to_string (e : ProcessError) : str := process_error e.

(** [EventProcessor]: what [process] may return for an event ([None] is a panic). *)
Class EventProcessor `{SerdeJson} := {
  process : Event → option (result ProcessError unit) → Prop
}.

Definition AcknowledgeProcessor_process `{SerdeJson} (_event : Event) : result ProcessError unit :=
  Ok tt.

#[global] Instance AcknowledgeProcessor `{SerdeJson} : EventProcessor := {|
  process event outcome := outcome = Some (AcknowledgeProcessor_process event)
|}.

(** ** Data *)

Record RunReport := mkRunReport {
  rep_processed : Z;
  rep_failed : Z;
  rep_lost_claims : Z;
  rep_timed_out : bool;
  rep_abandoned : Z
}.

Record Counters := mkCounters { c_processed : Z; c_failed : Z; c_lost_claims : Z }.

Definition Counters_default : Counters := mkCounters 0 0 0.

(** [AtomicU64::fetch_add(1, _)]. *)
Definition fetch_add (c : Z) : Z := (c + 1) mod 2 ^ 64.

Definition count_processed (c : Counters) : Counters :=
  mkCounters (fetch_add (c_processed c)) (c_failed c) (c_lost_claims c).
Definition count_failed (c : Counters) : Counters :=
  mkCounters (c_processed c) (fetch_add (c_failed c)) (c_lost_claims c).
Definition count_lost (c : Counters) : Counters :=
  mkCounters (c_processed c) (c_failed c) (fetch_add (c_lost_claims c)).

(** A task id of tokio. *)
Abbreviation TaskId := Z (only parsing).

(** Where the body of a spawned [process_claim] is, or how it ended. *)
Inductive Phase := T_processing | T_completing | T_finished | T_panicked.

#[global] Instance Phase_eq_dec : EqDecision Phase.
Proof. solve_decision. Defined.

Record Task `{SerdeJson} := mkTask {
  task_id : TaskId;
  task_claim : ClaimedEvent;
  task_phase : Phase
}.
Arguments mkTask {_} _ _ _.

(** The program counter of [run]: reaping finished tasks, claiming, selecting,
    draining, aborting what is left, done; or the panic of [concurrency -
    tasks.len()] on underflow. *)
Inductive Pc :=
| L_reap
| L_claim
| L_select
| L_drain
| L_abort (abandoned : Z)
| L_done (report : RunReport)
| L_underflow.

Record Runtime `{SerdeJson} := mkRuntime {
  rt_pc : Pc;
  rt_tasks : list Task;
  rt_running : gmap TaskId EventId;
  rt_counters : Counters;
  rt_available : bool
}.
Arguments mkRuntime {_} _ _ _ _ _.

Section runtime.
Context `{SJ : SerdeJson, PG : !Postgres}.
Implicit Types (db : Table) (rt : Runtime) (t : Task).

Definition with_pc (pc : Pc) rt : Runtime :=
  mkRuntime pc (rt_tasks rt) (rt_running rt) (rt_counters rt) (rt_available rt).
Definition with_counters (c : Counters) rt : Runtime :=
  mkRuntime (rt_pc rt) (rt_tasks rt) (rt_running rt) c (rt_available rt).
Definition with_tasks (ts : list Task) rt : Runtime :=
  mkRuntime (rt_pc rt) ts (rt_running rt) (rt_counters rt) (rt_available rt).
Definition with_phase (p : Phase) t : Task := mkTask (task_id t) (task_claim t) p.

Definition tasks_len rt : Z := Z.of_nat (length (rt_tasks rt)).

(** The event of a task. *)
Definition task_event t : EventId := event_id (claim_event (task_claim t)).

(** ** record_join *)

(** What joining a task returns: its id, and whether it panicked. *)
Record JoinResult := mkJoinResult { join_id : TaskId; join_panic : bool }.

Definition record_join (r : JoinResult) (running : gmap TaskId EventId) (c : Counters)
    : gmap TaskId EventId * Counters :=
  if join_panic r then (delete (join_id r) running, count_failed c)
  else (delete (join_id r) running, c).

Definition join_result t : option JoinResult :=
  match task_phase t with
  | T_finished => Some (mkJoinResult (task_id t) false)
  | T_panicked => Some (mkJoinResult (task_id t) true)
  | _ => None
  end.

(** Joining the [i]th task of the set: it leaves the set and is recorded. *)
Definition join_task (i : nat) rt : option Runtime :=
  t ← rt_tasks rt !! i;
  r ← join_result t;
  let '(running, c) := record_join r (rt_running rt) (rt_counters rt) in
  Some (mkRuntime (rt_pc rt) (delete i (rt_tasks rt)) running c (rt_available rt)).

(** ** process_claim *)

(** The first stretch: [process] returned, failed or panicked. *)
Definition processed_phase (outcome : option (result ProcessError unit)) (c : Counters)
    : Phase * Counters :=
  match outcome with
  | None => (T_panicked, c)
  | Some (Err _) => (T_finished, count_failed c)
  | Some (Ok _) => (T_completing, c)
  end.

(** The second stretch: the answer of [complete]. *)
Definition completed_counters (res : result StoreError bool) (c : Counters) : Counters :=
  match res with
  | Ok true => count_processed c
  | Ok false => count_lost c
  | Err _ => count_failed c
  end.

(** The whole body, for a task that is not interrupted. *)
Definition process_claim (owner : WorkerId) (outcome : option (result ProcessError unit))
    (fault : option CommitFault) (now : Z) (claim : ClaimedEvent) db (c : Counters)
    : Phase * Counters * Table :=
  match outcome with
  | None => (T_panicked, c, db)
  | Some (Err _) => (T_finished, count_failed c, db)
  | Some (Ok _) =>
      let '(res, db') := complete fault now (event_id (claim_event claim)) owner db in
      (T_finished, completed_counters res c, db')
  end.

(** ** run *)

(** [tasks.spawn] for each claim, and its entry in [running]. *)
Fixpoint spawn (ids : list TaskId) (claims : list ClaimedEvent) rt : Runtime :=
  match ids, claims with
  | id :: ids, claim :: claims =>
      spawn ids claims
        (mkRuntime (rt_pc rt) (rt_tasks rt ++ [mkTask id claim T_processing])
          (<[id := event_id (claim_event claim)]> (rt_running rt)) (rt_counters rt)
          (rt_available rt))
  | _, _ => rt
  end.

Definition report_of (c : Counters) (timed_out : bool) (abandoned : Z) : RunReport :=
  mkRunReport (c_processed c) (c_failed c) (c_lost_claims c) timed_out abandoned.

(** The steps of the loop and of the tasks. *)
Inductive Action :=
| A_reap (i : nat)
| A_reaped
| A_claim (fault : option CommitFault) (now : Z) (locked : gset Uuid) (ids : list TaskId)
| A_shutdown
| A_join (i : nat)
| A_sleep
| A_drain (i : nat)
| A_drained
| A_timeout
| A_abort (i : nat) (applied : option Z)
| A_stopped
| A_process (i : nat) (outcome : option (result ProcessError unit))
| A_complete (i : nat) (fault : option CommitFault) (now : Z).

(** The claiming part of an iteration. *)
Definition claim_step (config : WorkerRuntimeConfig) (owner : WorkerId) (fault : option CommitFault)
    (now : Z) (locked : gset Uuid) (ids : list TaskId) db rt : option (Table * Runtime) :=
  if concurrency config <? tasks_len rt then Some (db, with_pc L_underflow rt)
  else
    let free := concurrency config - tasks_len rt in
    if 0 <? free then
      let '(res, db') := claim fault now locked owner free (lease config) db in
      match res with
      | Ok claims =>
          if bool_decide (length ids = length claims) then
            let rt' := spawn ids claims rt in
            Some (db', mkRuntime L_select (rt_tasks rt') (rt_running rt') (rt_counters rt') true)
          else None
      | Err _ =>
          Some (db', mkRuntime L_select (rt_tasks rt) (rt_running rt) (rt_counters rt) false)
      end
    else Some (db, with_pc L_select rt).

(** The two stretches of a task; a task only moves while the process runs. *)
Definition task_step (owner : WorkerId) (a : Action) db rt : option (Table * Runtime) :=
  match a with
  | A_process i outcome =>
      t ← rt_tasks rt !! i;
      if bool_decide (task_phase t = T_processing) then
        let '(p, c) := processed_phase outcome (rt_counters rt) in
        Some (db, with_counters c (with_tasks (<[i := with_phase p t]> (rt_tasks rt)) rt))
      else None
  | A_complete i fault now =>
      t ← rt_tasks rt !! i;
      if bool_decide (task_phase t = T_completing) then
        let '(res, db') := complete fault now (task_event t) owner db in
        Some (db', with_counters (completed_counters res (rt_counters rt))
          (with_tasks (<[i := with_phase T_finished t]> (rt_tasks rt)) rt))
      else None
  | _ => None
  end.

(** One step of the process. Aborting a task that is completing may leave its
    statement applied or not ([applied]). *)
Definition rt_step (config : WorkerRuntimeConfig) (owner : WorkerId) (a : Action) db rt
    : option (Table * Runtime) :=
  match a, rt_pc rt with
  | A_reap i, L_reap => rt' ← join_task i rt; Some (db, rt')
  | A_reaped, L_reap => Some (db, with_pc L_claim rt)
  | A_claim fault now locked ids, L_claim => claim_step config owner fault now locked ids db rt
  | A_shutdown, L_select => Some (db, with_pc L_drain rt)
  | A_join i, L_select => rt' ← join_task i rt; Some (db, with_pc L_reap rt')
  | A_sleep, L_select =>
      if tasks_len rt <? concurrency config then Some (db, with_pc L_reap rt) else None
  | A_drain i, L_drain => rt' ← join_task i rt; Some (db, rt')
  | A_drained, L_drain =>
      if is_empty (rt_tasks rt)
      then Some (db, with_pc (L_done (report_of (rt_counters rt) false 0)) rt) else None
  | A_timeout, L_drain => Some (db, with_pc (L_abort (tasks_len rt)) rt)
  | A_abort i applied, L_abort _ =>
      t ← rt_tasks rt !! i;
      let db' :=
        match task_phase t, applied with
        | T_completing, Some now => (complete None now (task_event t) owner db).2
        | _, _ => db
        end in
      Some (db', with_tasks (delete i (rt_tasks rt)) rt)
  | A_stopped, L_abort abandoned =>
      if is_empty (rt_tasks rt)
      then Some (db, with_pc (L_done (report_of (rt_counters rt) true abandoned)) rt) else None
  | A_process _ _, (L_done _ | L_underflow) => None
  | A_complete _ _ _, (L_done _ | L_underflow) => None
  | (A_process _ _ | A_complete _ _ _), _ => task_step owner a db rt
  | _, _ => None
  end.

(** The state in which the loop starts; [run] asserts that the concurrency is positive. *)
Definition rt_init (config : WorkerRuntimeConfig) : option Runtime :=
  if 0 <? concurrency config then Some (mkRuntime L_reap [] ∅ Counters_default true) else None.
End runtime.
