(* ===== verification/RuntimeSpec.v ===== *)
(** * What the worker runtime guarantees

    An execution of one worker process interleaves its steps with arbitrary
    operations of other processes on the store ([rt_reach]). In every execution
    the number of claimed-but-unfinished events stays within the configured
    concurrency, the capacity arithmetic never underflows, and the report
    accounts for every event the worker claimed. *)

From S2P Require Import Prelude Text Json Crates Reference Event Idempotency Config Schema Store.
From S2P Require Import Fixtures StoreSpec ClaimSpec History Runtime.

Section runtime_facts.
Context `{SJ : SerdeJson} {PG : Postgres}.
Context (config : WorkerRuntimeConfig) (owner : WorkerId).
Implicit Types (db : Table) (rt : Runtime) (t : Task).

(** ** The steps as rules *)

(** Moves of the loop that change nothing but the program counter. *)
Inductive pc_move rt : Pc → Prop :=
| move_reaped : rt_pc rt = L_reap → pc_move rt L_claim
| move_full : rt_pc rt = L_claim → tasks_len rt = concurrency config → pc_move rt L_select
| move_shutdown : rt_pc rt = L_select → pc_move rt L_drain
| move_sleep : rt_pc rt = L_select → tasks_len rt < concurrency config → pc_move rt L_reap
| move_drained : rt_pc rt = L_drain → rt_tasks rt = [] →
    pc_move rt (L_done (report_of (rt_counters rt) false 0))
| move_timeout : rt_pc rt = L_drain → pc_move rt (L_abort (tasks_len rt))
| move_stopped n : rt_pc rt = L_abort n → rt_tasks rt = [] →
    pc_move rt (L_done (report_of (rt_counters rt) true n)).

(** Where the loop joins a task, and where it goes from there. *)
Inductive join_move : Pc → Pc → Prop :=
| join_reap : join_move L_reap L_reap
| join_select : join_move L_select L_reap
| join_drain : join_move L_drain L_drain.

(** Program counters after which the process no longer runs. *)
Definition stopped (pc : Pc) : bool :=
  match pc with L_done _ | L_underflow => true | _ => false end.

(** Has the drain been given up? *)
Definition gave_up (pc : Pc) : bool :=
  match pc with L_abort _ => true | L_done r => rep_timed_out r | _ => false end.

(** One rule per kind of step, with the number of tasks it spawns. *)
Inductive rt_trans (a : Action) db rt : nat → Table → Runtime → Prop :=
| tr_pc pc : pc_move rt pc → rt_trans a db rt 0 db (with_pc pc rt)
| tr_join i t r pc :
    join_move (rt_pc rt) pc → rt_tasks rt !! i = Some t → join_result t = Some r →
    rt_trans a db rt 0 db
      (mkRuntime pc (delete i (rt_tasks rt)) (delete (task_id t) (rt_running rt))
        (if join_panic r then count_failed (rt_counters rt) else rt_counters rt)
        (rt_available rt))
| tr_claim fault now locked ids claims db' :
    rt_pc rt = L_claim → tasks_len rt < concurrency config →
    claim fault now locked owner (concurrency config - tasks_len rt) (lease config) db =
      (Ok claims, db') →
    length ids = length claims →
    rt_trans a db rt (length claims) db'
      (mkRuntime L_select (rt_tasks (spawn ids claims rt)) (rt_running (spawn ids claims rt))
        (rt_counters rt) true)
| tr_claim_err fault now locked e db' :
    rt_pc rt = L_claim → tasks_len rt < concurrency config →
    claim fault now locked owner (concurrency config - tasks_len rt) (lease config) db =
      (Err e, db') →
    rt_trans a db rt 0 db'
      (mkRuntime L_select (rt_tasks rt) (rt_running rt) (rt_counters rt) false)
| tr_underflow :
    concurrency config < tasks_len rt → rt_trans a db rt 0 db (with_pc L_underflow rt)
| tr_abort i t applied n :
    rt_pc rt = L_abort n → rt_tasks rt !! i = Some t →
    rt_trans a db rt 0
      (match task_phase t, applied with
       | T_completing, Some now => (complete None now (task_event t) owner db).2
       | _, _ => db
       end) (with_tasks (delete i (rt_tasks rt)) rt)
| tr_process i t outcome :
    a = A_process i outcome → stopped (rt_pc rt) = false → rt_tasks rt !! i = Some t → task_phase t = T_processing →
    rt_trans a db rt 0 db
      (with_counters (processed_phase outcome (rt_counters rt)).2
        (with_tasks (<[i := with_phase (processed_phase outcome (rt_counters rt)).1 t]> (rt_tasks rt)) rt))
| tr_complete i t fault now :
    stopped (rt_pc rt) = false → rt_tasks rt !! i = Some t → task_phase t = T_completing →
    rt_trans a db rt 0 (complete fault now (task_event t) owner db).2
      (with_counters
        (completed_counters (complete fault now (task_event t) owner db).1 (rt_counters rt))
        (with_tasks (<[i := with_phase T_finished t]> (rt_tasks rt)) rt)).

Lemma spawn_counters ids claims rt : rt_counters (spawn ids claims rt) = rt_counters rt.
Proof. revert claims rt. induction ids; intros [] rt; simpl; [done..|]. by rewrite IHids. Qed.

Lemma join_task_inv i rt rt' :
  join_task i rt = Some rt' →
  ∃ t r, rt_tasks rt !! i = Some t ∧ join_result t = Some r ∧
    rt' = mkRuntime (rt_pc rt) (delete i (rt_tasks rt)) (delete (task_id t) (rt_running rt))
      (if join_panic r then count_failed (rt_counters rt) else rt_counters rt) (rt_available rt).
Proof.
  unfold join_task, record_join. destruct (rt_tasks rt !! i) as [t|]; simpl; [|done].
  destruct (join_result t) as [r|] eqn:E; simpl; [|done]. intros H. exists t, r.
  assert (join_id r = task_id t) as Hid.
  { unfold join_result in E. by destruct (task_phase t); simplify_eq. }
  rewrite Hid in H. by destruct (join_panic r); simplify_eq.
Qed.

Lemma claim_step_inv a fault now locked ids db rt db' rt' :
  rt_pc rt = L_claim →
  claim_step config owner fault now locked ids db rt = Some (db', rt') →
  ∃ n, rt_trans a db rt n db' rt'.
Proof.
  intros Hpc. unfold claim_step.
  destruct (Z.ltb_spec (concurrency config) (tasks_len rt)); [intros [= <- <-]; eexists; by apply tr_underflow|].
  destruct (Z.ltb_spec 0 (concurrency config - tasks_len rt)).
  - destruct (claim _ _ _ _ _ _ _) as [[claims|e] db1] eqn:E.
    + case_bool_decide as Hl; [|done]. intros [= <- <-]. eexists. rewrite spawn_counters.
      by eapply tr_claim; [done|lia| |].
    + intros [= <- <-]. eexists. eapply tr_claim_err; [done|lia|done].
  - intros [= <- <-]. eexists. apply tr_pc, move_full; [done|lia].
Qed.

Lemma is_empty_nil {A} (l : list A) : is_empty l = true → l = [].
Proof. by destruct l. Qed.

Lemma task_step_inv a db rt db' rt' :
  stopped (rt_pc rt) = false → task_step owner a db rt = Some (db', rt') →
  ∃ n, rt_trans a db rt n db' rt'.
Proof.
  intros Hpc. destruct a; try done; simpl;
    (destruct (rt_tasks rt !! i) as [t|] eqn:Ht; simpl; [|done]);
    (case_bool_decide as Hph; [|done]).
  - intros H. exists 0%nat. pose proof (tr_process (A_process i outcome) db rt i t outcome eq_refl Hpc Ht Hph) as Htr.
    destruct (processed_phase _ _). by simplify_eq.
  - intros H. exists 0%nat. pose proof (tr_complete (A_complete i fault now) db rt i t fault now Hpc Ht Hph) as Htr.
    destruct (complete _ _ _ _ _). by simplify_eq.
Qed.

Lemma join_trans a i db rt rt1 pc :
  join_task i rt = Some rt1 → join_move (rt_pc rt) pc → rt_trans a db rt 0 db (with_pc pc rt1).
Proof. intros (t & r & Ht & Hr & ->)%join_task_inv ?. by apply (tr_join a db rt i t r pc). Qed.

Lemma join_task_pc i rt rt1 : join_task i rt = Some rt1 → rt1 = with_pc (rt_pc rt) rt1.
Proof. by intros (t & r & Ht & Hr & ->)%join_task_inv. Qed.

(** Every step of the process is an instance of a rule. *)
Lemma rt_step_inv a db rt db' rt' :
  rt_step config owner a db rt = Some (db', rt') → ∃ n, rt_trans a db rt n db' rt'.
Proof.
  destruct a; unfold rt_step; destruct (rt_pc rt) eqn:Hpc; try done;
    try (by apply claim_step_inv);
    try (intros H; eapply task_step_inv; [by rewrite Hpc|exact H]);
    try (destruct (join_task i rt) as [rt1|] eqn:Hj; simpl; [|done]; intros [= <- <-];
      exists 0%nat; first [apply (join_trans _ i); [done|rewrite Hpc; constructor]
        |rewrite (join_task_pc _ _ _ Hj); apply (join_trans _ i); [done|rewrite Hpc; constructor]]).
  - intros [= <- <-]. exists 0%nat. by apply tr_pc, move_reaped.
  - intros [= <- <-]. exists 0%nat. by apply tr_pc, move_shutdown.
  - destruct (Z.ltb_spec (tasks_len rt) (concurrency config)); [|done].
    intros [= <- <-]. exists 0%nat. by apply tr_pc, move_sleep.
  - destruct (is_empty _) eqn:He; [|done]. intros [= <- <-]. exists 0%nat.
    apply tr_pc, move_drained; [done|by apply is_empty_nil].
  - intros [= <- <-]. exists 0%nat. by apply tr_pc, move_timeout.
  - destruct (rt_tasks rt !! i) as [t|] eqn:Ht; simpl; [|done]. intros [= <- <-].
    exists 0%nat. by apply (tr_abort _ _ _ i t applied abandoned).
  - destruct (is_empty _) eqn:He; [|done]. intros [= <- <-]. exists 0%nat.
    apply tr_pc, move_stopped; [done|by apply is_empty_nil].
Qed.

(** ** The invariant of the process *)

(** Events claimed and not yet counted: tasks that have not returned. *)
Definition weight t : Z := if bool_decide (task_phase t = T_finished) then 0 else 1.
Definition unfinished (ts : list Task) : Z := foldr (λ t n, weight t + n) 0 ts.

Lemma unfinished_app ts ts' : unfinished (ts ++ ts') = unfinished ts + unfinished ts'.
Proof. induction ts; simpl; lia. Qed.

Lemma unfinished_insert ts i t t' :
  ts !! i = Some t → unfinished (<[i := t']> ts) = unfinished ts - weight t + weight t'.
Proof.
  revert i. induction ts as [|x ts IH]; intros [|i] Hi; simplify_eq/=; [lia|].
  rewrite (IH i) by done. lia.
Qed.

Lemma unfinished_delete ts i t :
  ts !! i = Some t → unfinished (delete i ts) = unfinished ts - weight t.
Proof.
  revert i. induction ts as [|x ts IH]; intros [|i] Hi; simplify_eq/=; [lia|].
  change (delete i ts) with (base.delete i ts) in *. rewrite (IH i) by done. lia.
Qed.

(** All events counted in one of the three counters. *)
Definition counted (c : Counters) : Z := c_processed c + c_failed c + c_lost_claims c.

Lemma counted_bump c c' :
  c' ∈ [count_processed c; count_failed c; count_lost c] →
  counted c' mod 2 ^ 64 = (counted c + 1) mod 2 ^ 64.
Proof.
  intros Hc. assert (∃ a b, counted c = a + b ∧ counted c' = fetch_add a + b) as (a & b & -> & ->).
  { unfold counted. rewrite !elem_of_cons, elem_of_nil in Hc. destruct Hc as [->|[->|[->|[]]]]; simpl.
    - exists (c_processed c), (c_failed c + c_lost_claims c). lia.
    - exists (c_failed c), (c_processed c + c_lost_claims c). lia.
    - exists (c_lost_claims c), (c_processed c + c_failed c). lia. }
  unfold fetch_add. rewrite Zplus_mod_idemp_l. f_equal. lia.
Qed.

(** The events spawned so far are counted or still to be counted. *)
Definition accounted (n : nat) rt : Prop :=
  (counted (rt_counters rt) + unfinished (rt_tasks rt)) mod 2 ^ 64 = Z.of_nat n mod 2 ^ 64.

Record rt_inv (n : nat) rt : Prop := {
  inv_len : tasks_len rt ≤ concurrency config;
  inv_pc : rt_pc rt ≠ L_underflow;
  inv_running : gave_up (rt_pc rt) = false →
    ∀ id, is_Some (rt_running rt !! id) → id ∈ (task_id <$> rt_tasks rt);
  inv_size : Z.of_nat (size (rt_running rt)) ≤ concurrency config;
  inv_account : gave_up (rt_pc rt) = false → accounted n rt;
  inv_done : ∀ r, rt_pc rt = L_done r →
    rt_tasks rt = [] ∧ r = report_of (rt_counters rt) (rep_timed_out r) (rep_abandoned r) ∧
    0 ≤ rep_abandoned r ≤ concurrency config ∧ (rep_timed_out r = false → rep_abandoned r = 0);
  inv_abort : ∀ k, rt_pc rt = L_abort k → 0 ≤ k ≤ concurrency config
}.

Lemma running_size (m : gmap TaskId EventId) (ids : list TaskId) :
  (∀ id, is_Some (m !! id) → id ∈ ids) → (size m ≤ length ids)%nat.
Proof.
  intros H. rewrite <-length_map_to_list, <-(length_fmap fst).
  apply submseteq_length, NoDup_submseteq; [apply NoDup_fst_map_to_list|].
  intros id ([i e] & -> & Hi%elem_of_map_to_list)%list_elem_of_fmap. apply H. by exists e.
Qed.

(** *** Spawning *)

Definition fresh_task (id : TaskId) (claim : ClaimedEvent) : Task := mkTask id claim T_processing.

Lemma spawn_tasks ids claims rt :
  rt_tasks (spawn ids claims rt) = rt_tasks rt ++ zip_with fresh_task ids claims.
Proof.
  revert claims rt. induction ids as [|id ids IH]; intros [|c claims] rt; simpl;
    [by rewrite app_nil_r..|]. rewrite IH. simpl. by rewrite <-app_assoc.
Qed.

Lemma spawn_running ids claims rt id :
  is_Some (rt_running (spawn ids claims rt) !! id) →
  is_Some (rt_running rt !! id) ∨ id ∈ (task_id <$> zip_with fresh_task ids claims).
Proof.
  revert claims rt. induction ids as [|i ids IH]; intros [|c claims] rt; simpl; [by left..|].
  intros [H|H]%IH; [|set_solver]. simpl in H.
  destruct (decide (i = id)) as [->|]; [set_solver|]. rewrite lookup_insert_ne in H by done. by left.
Qed.

Lemma unfinished_fresh ids claims :
  length ids = length claims →
  unfinished (zip_with fresh_task ids claims) = Z.of_nat (length claims).
Proof.
  revert claims. induction ids as [|i ids IH]; intros [|c claims] H; simpl in *; [done..|].
  rewrite IH by lia. unfold weight; simpl. lia.
Qed.

(** *** Preservation, rule by rule *)

Lemma inv_pc_move k rt pc : rt_inv k rt → pc_move rt pc → rt_inv k (with_pc pc rt).
Proof.
  intros [Hl Hpc Hr Hs Ha Hd Hab] Hm. unfold accounted, tasks_len in *.
  destruct Hm as [E|E ?|E|E ?|E Hn|E|n E Hn]; split; simpl in *; rewrite ?E in *; simpl in *;
    try done; try (intros ? [= <-]); try (intros _; by apply Hr); try (intros _; by apply Ha);
    simpl; split_and?; try done; try lia.
  - unfold tasks_len. lia.
  - by destruct (Hab n eq_refl).
  - by destruct (Hab n eq_refl).
Qed.

Lemma list_delete_elem {A} (l : list A) i x y :
  l !! i = Some x → y ∈ l → y = x ∨ y ∈ delete i l.
Proof.
  intros Hi Hy. rewrite <-(take_drop_middle l i x Hi) in Hy.
  rewrite delete_take_drop. set_solver.
Qed.

Lemma length_delete_le {A} (l : list A) i : (length (delete i l) ≤ length l)%nat.
Proof. apply sublist_length, sublist_delete. Qed.

(** Joining keeps the account: a finished task was counted already, a panicked
    one is counted now. *)
Lemma account_join k rt i t r pc running avail :
  accounted k rt → rt_tasks rt !! i = Some t → join_result t = Some r →
  accounted k (mkRuntime pc (delete i (rt_tasks rt)) running
    (if join_panic r then count_failed (rt_counters rt) else rt_counters rt) avail).
Proof.
  unfold accounted. simpl. intros <- Ht Hr. rewrite (unfinished_delete _ i t) by done.
  unfold join_result in Hr. unfold weight.
  destruct (task_phase t); simplify_eq/=; [f_equal; lia|].
  rewrite <-Zplus_mod_idemp_l, (counted_bump (rt_counters rt)) by set_solver.
  rewrite Zplus_mod_idemp_l. f_equal. lia.
Qed.

Lemma inv_join k rt i t r pc :
  rt_inv k rt → join_move (rt_pc rt) pc → rt_tasks rt !! i = Some t → join_result t = Some r →
  rt_inv k (mkRuntime pc (delete i (rt_tasks rt)) (delete (task_id t) (rt_running rt))
    (if join_panic r then count_failed (rt_counters rt) else rt_counters rt) (rt_available rt)).
Proof.
  intros [Hl Hpc Hr Hs Ha Hd Hab] Hm Ht Hj.
  assert (gave_up (rt_pc rt) = false) as Hg by (by destruct Hm). split; simpl.
  - pose proof (length_delete_le (rt_tasks rt) i). unfold tasks_len in *. simpl. lia.
  - by destruct Hm.
  - intros _ id Hid. destruct (decide (task_id t = id)) as [<-|Hne].
    { rewrite lookup_delete_eq in Hid. by destruct Hid. }
    rewrite lookup_delete_ne in Hid by done. apply Hr in Hid; [|done].
    apply list_elem_of_fmap in Hid as (t' & -> & Ht').
    destruct (list_delete_elem _ _ _ _ Ht Ht') as [->|?]; [done|]. by apply list_elem_of_fmap_2.
  - etransitivity; [|exact Hs]. apply Nat2Z.inj_le, map_subseteq_size, delete_subseteq.
  - intros _. by eapply account_join; eauto.
  - intros r' ->. inversion Hm.
  - intros n ->. inversion Hm.
Qed.

(** Spawning stays within the free capacity. *)
Lemma inv_claim k rt ids claims avail :
  rt_inv k rt → rt_pc rt = L_claim → length ids = length claims →
  Z.of_nat (length claims) ≤ concurrency config - tasks_len rt →
  rt_inv (k + length claims)
    (mkRuntime L_select (rt_tasks (spawn ids claims rt)) (rt_running (spawn ids claims rt))
      (rt_counters rt) avail).
Proof.
  intros [Hl Hpc Hr Hs Ha Hd Hab] E Hlen Hfree. rewrite E in *. simpl in *.
  assert (∀ id, is_Some (rt_running (spawn ids claims rt) !! id) →
    id ∈ (task_id <$> rt_tasks (spawn ids claims rt))) as Hrun.
  { intros id [H|H]%spawn_running; rewrite spawn_tasks, fmap_app, elem_of_app; auto. }
  assert (Z.of_nat (length (rt_tasks (spawn ids claims rt))) ≤ concurrency config) as Hn.
  { rewrite spawn_tasks, length_app, length_zip_with. unfold tasks_len in *. lia. }
  split; simpl; [exact Hn|done|done| | |done|done].
  - apply running_size in Hrun. rewrite length_fmap in Hrun. lia.
  - intros _. specialize (Ha eq_refl). unfold accounted in *. simpl.
    rewrite spawn_tasks, unfinished_app, unfinished_fresh by done.
    rewrite Z.add_assoc, <-Zplus_mod_idemp_l, Ha, Zplus_mod_idemp_l. f_equal. lia.
Qed.

(** A task that moves: its id stays, and it is counted when it finishes. *)
Lemma inv_task k rt i t p c :
  rt_inv k rt → stopped (rt_pc rt) = false → rt_tasks rt !! i = Some t → task_phase t ≠ T_finished →
  (if bool_decide (p = T_finished)
   then c ∈ [count_processed (rt_counters rt); count_failed (rt_counters rt); count_lost (rt_counters rt)]
   else c = rt_counters rt) →
  rt_inv k (with_counters c (with_tasks (<[i := with_phase p t]> (rt_tasks rt)) rt)).
Proof.
  intros [Hl Hpc Hr Hs Ha Hd Hab] Hst Ht Hph Hc.
  split; unfold accounted, tasks_len in *; simpl; rewrite ?length_insert; try done.
  - intros Hg. rewrite list_fmap_insert. simpl. rewrite list_insert_id; [by apply Hr|].
    by rewrite list_lookup_fmap, Ht.
  - intros Hg. rewrite <-(Ha Hg), (unfinished_insert _ i t) by done. unfold weight. simpl.
    rewrite (bool_decide_false (task_phase t = _)) by done.
    case_bool_decide; [|subst c; f_equal; lia].
    rewrite <-Zplus_mod_idemp_l, (counted_bump (rt_counters rt)) by done.
    rewrite Zplus_mod_idemp_l. f_equal. lia.
  - intros r E. by rewrite E in Hst.
Qed.

Lemma inv_abort_task k rt i n :
  rt_inv k rt → rt_pc rt = L_abort n → rt_inv k (with_tasks (delete i (rt_tasks rt)) rt).
Proof.
  intros [Hl Hpc Hr Hs Ha Hd Hab] E.
  split; unfold tasks_len in *; simpl; rewrite ?E in *; try done.
  - pose proof (length_delete_le (rt_tasks rt) i). lia.
Qed.

Lemma rt_trans_inv {PGL : PostgresLaws PG} k a n db rt db' rt' :
  rt_inv k rt → rt_trans a db rt n db' rt' → rt_inv (k + n) rt'.
Proof.
  intros Hinv Htr. destruct Htr as [pc Hm|i t r pc Hm Ht Hj|fault now locked ids claims db' E
    Hf Hc Hlen|fault now locked e db' E Hf Hc|Hu|i t applied m E Ht|i t outcome Ho Hst Ht Hph
    |i t fault now Hst Ht Hph]; rewrite ?Nat.add_0_r.
  - by apply inv_pc_move.
  - by apply inv_join.
  - apply inv_claim; [done..|]. eapply claim_length; [|done]. lia.
  - rewrite <-(Nat.add_0_r k). apply (inv_claim k rt [] [] false); [done..|simpl; lia].
  - pose proof (inv_len _ _ Hinv). lia.
  - by eapply inv_abort_task.
  - apply inv_task; [done..|congruence|]. by destruct outcome as [[]|]; simpl; set_solver.
  - apply inv_task; [done..|congruence|]. simpl.
    destruct (complete _ _ _ _ _) as [[[]|] ?]; simpl; set_solver.
Qed.

Lemma rt_trans_spawned a n db rt db' rt' :
  rt_trans a db rt n db' rt' → n = (length (rt_tasks rt') - length (rt_tasks rt))%nat.
Proof.
  destruct 1; simpl; rewrite ?length_insert; try lia.
  - pose proof (length_delete_le (rt_tasks rt) i). lia.
  - rewrite spawn_tasks, length_app, length_zip_with. lia.
  - pose proof (length_delete_le (rt_tasks rt) i). lia.
Qed.

(** ** Executions *)

(** Reachable states of one worker, other processes acting on the table in
    between, with the number of tasks spawned so far. *)
Inductive rt_reach : nat → Table → Runtime → Prop :=
| reach_init db rt : wf_table db → rt_init config = Some rt → rt_reach 0 db rt
| reach_env n db rt op : rt_reach n db rt → op_ok op → rt_reach n (apply_op op db) rt
| reach_step n db rt a db' rt' :
    rt_reach n db rt → rt_step config owner a db rt = Some (db', rt') →
    rt_reach (n + (length (rt_tasks rt') - length (rt_tasks rt))) db' rt'.

Lemma rt_init_inv rt : rt_init config = Some rt → rt_inv 0 rt.
Proof.
  unfold rt_init. destruct (Z.ltb_spec 0 (concurrency config)); [|done]. intros [= <-].
  split; unfold tasks_len; simpl; try done; [lia| |rewrite map_size_empty; lia].
  intros _ id. rewrite lookup_empty. by intros [].
Qed.

Lemma rt_reach_inv {PGL : PostgresLaws PG} n db rt : rt_reach n db rt → rt_inv n rt.
Proof.
  induction 1 as [db rt Hwf Hi| |n db rt a db' rt' Hreach IH Hstep]; [by apply rt_init_inv|done|].
  apply rt_step_inv in Hstep as [m Htr]. rewrite <-(rt_trans_spawned _ _ _ _ _ _ Htr).
  by eapply rt_trans_inv.
Qed.
End runtime_facts.

(** ** Schedules and the drain *)

Section schedules.
Context `{SJ : SerdeJson} {PG : Postgres}.
Context (config : WorkerRuntimeConfig) (owner : WorkerId).
Implicit Types (db : Table) (rt : Runtime) (t : Task).

(** A schedule interleaves steps of the process with operations of others. *)
Fixpoint rt_exec (sched : list (StoreOp + Action)) (n : nat) db rt : option (nat * Table * Runtime) :=
  match sched with
  | [] => Some (n, db, rt)
  | inl op :: sched => rt_exec sched n (apply_op op db) rt
  | inr a :: sched =>
      '(db', rt') ← rt_step config owner a db rt;
      rt_exec sched (n + (length (rt_tasks rt') - length (rt_tasks rt))) db' rt'
  end.

Definition sched_ok (sched : list (StoreOp + Action)) : Prop :=
  Forall (λ x, match x with inl op => op_ok op | inr _ => True end) sched.

Lemma rt_exec_reach sched n db rt n' db' rt' :
  sched_ok sched → rt_reach config owner n db rt →
  rt_exec sched n db rt = Some (n', db', rt') → rt_reach config owner n' db' rt'.
Proof.
  intros Hok. revert n db rt. induction Hok as [|x sched Hx _ IH]; intros n db rt Hr; simpl.
  - by intros [= <- <- <-].
  - destruct x as [op|a]; [by apply IH, reach_env|].
    destruct (rt_step config owner a db rt) as [[db1 rt1]|] eqn:E; simpl; [|done].
    apply IH. by eapply reach_step.
Qed.

(** The steps of the process in a schedule. *)
Fixpoint own_steps (sched : list (StoreOp + Action)) : nat :=
  match sched with
  | [] => 0
  | inl _ :: sched => own_steps sched
  | inr _ :: sched => S (own_steps sched)
  end.

(** What is left to do once shutdown has started. *)
Definition phase_work t : nat :=
  match task_phase t with T_processing => 3 | T_completing => 2 | _ => 1 end.
Definition tasks_work (ts : list Task) : nat := foldr (λ t n, phase_work t + n)%nat 0%nat ts.
Definition drain_work rt : nat :=
  tasks_work (rt_tasks rt) +
  match rt_pc rt with L_drain => 2 | L_abort _ => 1 | _ => 0 end.

(** Shutdown has started. *)
Definition draining (pc : Pc) : bool :=
  match pc with L_drain | L_abort _ | L_done _ => true | _ => false end.

Lemma tasks_work_delete ts i t :
  ts !! i = Some t → (tasks_work (delete i ts) + phase_work t = tasks_work ts)%nat.
Proof.
  revert i. induction ts as [|x ts IH]; intros [|i] Hi; simplify_eq/=; [lia|].
  specialize (IH i Hi). change (list_delete i ts) with (delete i ts). lia.
Qed.

Lemma tasks_work_insert ts i t t' :
  ts !! i = Some t → (tasks_work (<[i := t']> ts) + phase_work t = tasks_work ts + phase_work t')%nat.
Proof.
  revert i. induction ts as [|x ts IH]; intros [|i] Hi; simplify_eq/=; [lia|].
  specialize (IH i Hi). change (list_insert i t' ts) with (<[i := t']> ts). lia.
Qed.

Lemma phase_work_pos t : (1 ≤ phase_work t)%nat.
Proof. unfold phase_work. destruct (task_phase t); lia. Qed.

(** Every step of a draining process makes progress and spawns nothing. *)
Lemma drain_decreases a n db rt db' rt' :
  draining (rt_pc rt) = true → rt_trans config owner a db rt n db' rt' →
  tasks_len rt ≤ concurrency config →
  draining (rt_pc rt') = true ∧ (drain_work rt' < drain_work rt)%nat ∧ n = 0%nat ∧
  tasks_len rt' ≤ tasks_len rt.
Proof.
  intros Hd Htr Hl. destruct Htr as [pc Hm|i t r pc Hm Ht Hj|fault now locked ids claims db' E
    Hf Hc Hlen|fault now locked e db' E Hf Hc|Hu|i t applied m E Ht|i t outcome Ho Hst Ht Hph
    |i t fault now Hst Ht Hph]; try (rewrite E in Hd; discriminate Hd); try lia;
    unfold drain_work, tasks_len in *; simpl.
  - destruct Hm as [E|E|E|E|E En|E|m E En]; rewrite E in *; simpl in *; try done; lia.
  - pose proof (phase_work_pos t). pose proof (tasks_work_delete _ _ _ Ht).
    pose proof (length_delete_le (rt_tasks rt) i).
    destruct Hm; try done. split_and!; [done|lia|done|lia].
  - pose proof (phase_work_pos t). pose proof (tasks_work_delete _ _ _ Ht).
    pose proof (length_delete_le (rt_tasks rt) i). rewrite E. split_and!; [done|lia|done|lia].
  - assert (phase_work (with_phase (processed_phase outcome (rt_counters rt)).1 t) < phase_work t)%nat.
    { unfold phase_work. rewrite Hph. destruct outcome as [[]|]; simpl; lia. }
    pose proof (tasks_work_insert _ _ _ (with_phase (processed_phase outcome (rt_counters rt)).1 t) Ht).
    rewrite length_insert. split_and!; [done|lia|done|lia].
  - assert (phase_work (with_phase T_finished t) < phase_work t)%nat.
    { unfold phase_work. rewrite Hph. simpl; lia. }
    pose proof (tasks_work_insert _ _ _ (with_phase T_finished t) Ht).
    rewrite length_insert. split_and!; [done|lia|done|lia].
Qed.

Lemma drain_work_bound rt : (drain_work rt ≤ 3 * length (rt_tasks rt) + 2)%nat.
Proof.
  unfold drain_work. assert (tasks_work (rt_tasks rt) ≤ 3 * length (rt_tasks rt))%nat.
  { induction (rt_tasks rt) as [|t ts IH]; simpl; [done|].
    assert (phase_work t ≤ 3)%nat by (unfold phase_work; destruct (task_phase t); lia). lia. }
  destruct (rt_pc rt); lia.
Qed.

(** A draining process that is not done can take a step. *)
Lemma drain_progress db rt :
  draining (rt_pc rt) = true → (∀ r, rt_pc rt ≠ L_done r) →
  ∃ a, is_Some (rt_step config owner a db rt).
Proof.
  intros Hd Hn. destruct (rt_pc rt) eqn:E; try done.
  - exists A_timeout. unfold rt_step. rewrite E. by eexists.
  - destruct (rt_tasks rt) as [|t ts] eqn:Ht.
    + exists A_stopped. unfold rt_step. rewrite E, Ht. by eexists.
    + exists (A_abort 0 None). unfold rt_step. rewrite E, Ht. by eexists.
  - by destruct (Hn report).
Qed.

Lemma drain_exec {PGL : PostgresLaws PG} sched n db rt n' db' rt' :
  draining (rt_pc rt) = true → tasks_len rt ≤ concurrency config →
  rt_exec sched n db rt = Some (n', db', rt') →
  draining (rt_pc rt') = true ∧ n' = n ∧ (own_steps sched + drain_work rt' ≤ drain_work rt)%nat.
Proof.
  revert n db rt. induction sched as [|[op|a] sched IH]; intros n db rt Hd Hl; simpl.
  - intros [= <- <- <-]. by split_and!.
  - intros H. by apply IH in H.
  - destruct (rt_step config owner a db rt) as [[db1 rt1]|] eqn:E; simpl; [|done].
    apply rt_step_inv in E as [m Htr].
    pose proof (rt_trans_spawned _ _ _ _ _ _ _ _ Htr) as Hm.
    destruct (drain_decreases a m db rt db1 rt1 Hd Htr Hl) as (Hd1 & Hw & -> & Hl1).
    intros H. apply IH in H as (? & -> & Hle); [|done|lia].
    split; [done|]. split; [lia|]. simpl. lia.
Qed.
End schedules.

(** ** Guarantees *)

Section guarantees.
Context `{SJ : SerdeJson} {PG : Postgres}.

(** C15. Bounded concurrency: in every execution of [run], whatever other
    processes do to the store and whatever fails, the tasks in the [JoinSet]
    (claimed and not yet joined) and the entries of the map of running tasks never
    exceed the configured concurrency, so the computation of the free capacity
    never underflows; and a report never counts more abandoned claims than that. *)
Theorem concurrency_bounded {PGL : PostgresLaws PG} config owner n db rt :
  rt_reach config owner n db rt →
  0 ≤ tasks_len rt ≤ concurrency config ∧
  Z.of_nat (size (rt_running rt)) ≤ concurrency config ∧
  rt_pc rt ≠ L_underflow ∧
  (∀ report, rt_pc rt = L_done report → 0 ≤ rep_abandoned report ≤ concurrency config).
Proof.
  intros H. destruct (rt_reach_inv config owner n db rt H) as [Hl Hpc _ Hs _ Hd _]. unfold tasks_len in *.
  split; [lia|]. split; [done|]. split; [done|]. intros r Hr. by destruct (Hd r Hr) as (_ & _ & ? & _).
Qed.


(** C17. The report accounts for every claimed event: when the drain ends in time,
    no task is left, nothing is reported abandoned, and processed, failed and lost
    events add up to the number of events the worker claimed (64-bit counters). *)
Theorem report_accounts {PGL : PostgresLaws PG} config owner n db rt report :
  rt_reach config owner n db rt → rt_pc rt = L_done report → rep_timed_out report = false →
  rt_tasks rt = [] ∧ rep_abandoned report = 0 ∧
  (rep_processed report + rep_failed report + rep_lost_claims report) mod 2 ^ 64 =
    Z.of_nat n mod 2 ^ 64.
Proof.
  intros H Hpc Hto. destruct (rt_reach_inv config owner n db rt H) as [_ _ _ _ Ha Hd _].
  destruct (Hd report Hpc) as (Ht & Hrep & _ & Hab). split; [done|]. split; [by apply Hab|].
  rewrite Hpc in Ha. specialize (Ha Hto). unfold accounted in Ha. rewrite Ht in Ha. simpl in Ha.
  rewrite Z.add_0_r in Ha. rewrite Hrep. exact Ha.
Qed.
End guarantees.

(** ** A schedule of one worker *)

Definition sample_config : WorkerRuntimeConfig := WorkerRuntimeConfig_default.
Definition sample_worker : WorkerId := mkWorkerId 7.

(** Admit, claim, process, complete, and shut down. *)
Definition sample_start : list (StoreOp + Action) := [
  inl (OpAdmit no_faults 5 (sample_event 1) sample_key sample_fp);
  inr A_reaped;
  inr (A_claim None 100 ∅ [11]);
  inr (A_process 0 (Some (Ok tt)));
  inr A_shutdown
].
Definition sample_drain : list (StoreOp + Action) := [
  inr (A_complete 0 None 200);
  inr (A_drain 0);
  inr A_drained
].

Definition fresh_runtime : Runtime := mkRuntime L_reap [] ∅ Counters_default true.

(** The states in the middle and at the end of the schedule. *)
Definition sample_mid : nat * Table * Runtime :=
  default (0%nat, ∅, fresh_runtime)
    (rt_exec sample_config sample_worker sample_start 0 ∅ fresh_runtime).
Definition sample_end : nat * Table * Runtime :=
  default (0%nat, ∅, fresh_runtime)
    (rt_exec sample_config sample_worker sample_drain sample_mid.1.1 sample_mid.1.2 sample_mid.2).

Lemma sample_mid_reach :
  rt_reach sample_config sample_worker sample_mid.1.1 sample_mid.1.2 sample_mid.2.
Proof.
  eapply (rt_exec_reach _ _ sample_start 0 ∅ fresh_runtime).
  - unfold sched_ok, sample_start. rewrite !Forall_cons.
    split_and!; first [by apply sample_admissible, small_uuid|done|constructor].
  - apply reach_init; [apply wf_table_empty|done].
  - vm_compute. reflexivity.
Qed.

Lemma sample_end_exec :
  rt_exec sample_config sample_worker sample_drain sample_mid.1.1 sample_mid.1.2 sample_mid.2 =
    Some (sample_end.1.1, sample_end.1.2, sample_end.2).
Proof. vm_compute. reflexivity. Qed.

Lemma sample_end_reach :
  rt_reach sample_config sample_worker sample_end.1.1 sample_end.1.2 sample_end.2.
Proof.
  eapply (rt_exec_reach _ _ sample_drain); [|apply sample_mid_reach|apply sample_end_exec].
  by repeat constructor.
Qed.

Lemma concurrency_bounded_witness : 0 ≤ tasks_len sample_mid.2 ≤ 4 ∧ tasks_len sample_mid.2 = 1.
Proof.
  split; [|vm_compute; reflexivity].
  exact (proj1 (concurrency_bounded sample_config sample_worker _ _ _ sample_mid_reach)).
Defined.


Lemma report_accounts_witness :
  rt_pc sample_end.2 = L_done (mkRunReport 1 0 0 false 0) ∧ rt_tasks sample_end.2 = [].
Proof.
  assert (rt_pc sample_end.2 = L_done (mkRunReport 1 0 0 false 0)) as Hpc
    by (vm_compute; reflexivity).
  split; [exact Hpc|].
  exact (proj1 (report_accounts sample_config sample_worker _ _ _ _ sample_end_reach Hpc eq_refl)).
Defined.
