(* ===== verification/System.v ===== *)
(** * The system: several workers and the API on one store

    Any number of worker processes run [Runtime] against the table that the API
    admits into. A processor is anything that satisfies its trait: the step in
    which it returns is constrained by [process]. The events for which some
    processor has returned success are recorded on the side ([sys_done]). *)

From S2P Require Import Prelude Text Json Crates Reference Event Idempotency Config Schema Store.
From S2P Require Import Fixtures StoreSpec ClaimSpec History Runtime RuntimeSpec.

Section system.
Context `{SJ : SerdeJson} {PG : Postgres} {EP : EventProcessor}.
Context (cluster : list (WorkerRuntimeConfig * WorkerId)).
Implicit Types (db : Table) (rt : Runtime) (t : Task).

Record Sys := mkSys {
  sys_db : Table;
  sys_workers : list Runtime;
  sys_done : gset Uuid
}.

(** What a step of a worker tells about processors: nothing, or that the processor
    of a task returned. *)
Definition processor_allows rt (a : Action) : Prop :=
  match a with
  | A_process i outcome => ∀ t, rt_tasks rt !! i = Some t → process (claim_event (task_claim t)) outcome
  | _ => True
  end.

Definition newly_done rt (a : Action) : gset Uuid :=
  match a with
  | A_process i (Some (Ok _)) =>
      match rt_tasks rt !! i with Some t => {[EventId_as_uuid (task_event t)]} | None => ∅ end
  | _ => ∅
  end.

Inductive sys_step (s : Sys) : Sys → Prop :=
| sys_admit faults now event key fp :
    admissible event key fp →
    sys_step s (mkSys (store_admit faults now event key fp (sys_db s)).2 (sys_workers s) (sys_done s))
| sys_worker i config owner rt a db' rt' :
    cluster !! i = Some (config, owner) → sys_workers s !! i = Some rt →
    processor_allows rt a → rt_step config owner a (sys_db s) rt = Some (db', rt') →
    sys_step s (mkSys db' (<[i := rt']> (sys_workers s)) (newly_done rt a ∪ sys_done s)).

Definition sys_init (s : Sys) : Prop :=
  sys_db s = ∅ ∧ sys_done s = ∅ ∧
  Forall2 (λ c rt, rt_init c.1 = Some rt) cluster (sys_workers s).

(** ** The invariant *)

(** A task carries a stored event, and only completes what was processed. *)
Definition task_good db (done : gset Uuid) t : Prop :=
  (∃ r, db !! EventId_as_uuid (task_event t) = Some r ∧
    claim_event (task_claim t) = stored_event r) ∧
  (task_phase t = T_completing → EventId_as_uuid (task_event t) ∈ done).

Record sys_inv (s : Sys) : Prop := {
  si_wf : wf_table (sys_db s);
  si_processed : ∀ id r, sys_db s !! id = Some r → r_status r = lit "PROCESSED" → id ∈ sys_done s;
  si_tasks : ∀ i rt t, sys_workers s !! i = Some rt → t ∈ rt_tasks rt →
    task_good (sys_db s) (sys_done s) t
}.

Lemma stored_event_le r r' : row_le r r' → stored_event r' = stored_event r.
Proof.
  intros [(E1 & E2 & E3 & E4 & _ & _ & E5)%content_changed_false _ _ _].
  unfold stored_event, delivery; simpl. by rewrite E1, E2, E3, E4, E5.
Qed.

(** Good tasks stay good when the table evolves and more events are processed. *)
Lemma task_good_mono op db done done' t :
  wf_table db → done ⊆ done' → task_good db done t → task_good (apply_op op db) done' t.
Proof.
  intros Hwf Hsub [(r & Hr & He) Hc]. split.
  - destruct (apply_op_row op db _ r Hwf Hr) as (r' & Hr' & Hle%row_step_le).
    exists r'. split; [done|]. by rewrite (stored_event_le r r').
  - intros Hph. by apply Hsub, Hc.
Qed.

(** A step of the table that only completes processed events. *)
Lemma processed_mono op db (done done' : gset Uuid) :
  wf_table db → done ⊆ done' →
  (∀ fault now id owner, op = OpComplete fault now id owner → EventId_as_uuid id ∈ done) →
  (∀ id r, db !! id = Some r → r_status r = lit "PROCESSED" → id ∈ done) →
  ∀ id r, apply_op op db !! id = Some r → r_status r = lit "PROCESSED" → id ∈ done'.
Proof.
  intros Hwf Hsub Hop Hdb id r' Hr' Hst. apply Hsub.
  destruct (db !! id) as [r|] eqn:Hr.
  - destruct (apply_op_row op db id r Hwf Hr) as (r2 & Hr2 & Hstep).
    assert (r2 = r') as -> by congruence.
    destruct Hstep; [by eapply Hdb|done|by eapply Hop].
  - destruct op as [faults now event key fp|fault now locked owner limit ls|fault now eid owner];
      simpl in Hr'.
    + destruct (admit_inv faults now event key fp db) as [E|(p & _ & _ & _ & _ & E)];
        rewrite E in Hr'; [congruence|].
      apply lookup_insert_Some in Hr' as [[_ <-]|[_ ?]]; [done|congruence].
    + destruct (claim_inv fault now locked owner limit ls db Hwf) as [E|(cs & _ & Ht)];
        [congruence|]. rewrite Ht, Hr in Hr'. by case_decide.
    + destruct (complete_inv fault now eid owner db Hwf) as [E|[_ E]]; rewrite E in Hr'; [congruence|].
      apply lookup_alter_Some in Hr' as [(<- & x & Hx & _)|[_ ?]]; congruence.
Qed.

(** ** Steps of a worker *)

(** A claim for no events leaves the table alone. *)
Definition idle_op (owner : WorkerId) : StoreOp := OpClaim None 0 ∅ owner 0 0.

(** Every step of a worker is one operation of the store, and it only completes
    the event of a task whose processor has succeeded. *)
Lemma rt_trans_op config owner a n db rt db' rt' :
  rt_trans config owner a db rt n db' rt' →
  ∃ op, op_ok op ∧ db' = apply_op op db ∧
    ∀ fault now id o, op = OpComplete fault now id o →
      ∃ t, t ∈ rt_tasks rt ∧ task_phase t = T_completing ∧ task_event t = id.
Proof.
  destruct 1 as [pc Hm|i t r pc Hm Ht Hj|fault now locked ids claims db' E Hf Hc Hlen
    |fault now locked e db' E Hf Hc|Hu|i t applied m E Ht|i t outcome Ho Hst Ht Hph
    |i t fault now Hst Ht Hph];
    try (exists (idle_op owner); by split_and!; [| |discriminate]).
  - exists (OpClaim fault now locked owner (concurrency config - tasks_len rt) (lease config)).
    simpl. rewrite Hc. by split_and!; [| |discriminate].
  - exists (OpClaim fault now locked owner (concurrency config - tasks_len rt) (lease config)).
    simpl. rewrite Hc. by split_and!; [| |discriminate].
  - destruct (task_phase t) eqn:Hph, applied as [now|];
      try (exists (idle_op owner); by split_and!; [| |discriminate]).
    exists (OpComplete None now (task_event t) owner). split_and!; [done|done|].
    intros ? ? ? ? [= _ _ <- _]. exists t. split_and!; [|done|done]. by eapply list_elem_of_lookup_2.
  - exists (OpComplete fault now (task_event t) owner). split_and!; [done|done|].
    intros ? ? ? ? [= _ _ <- _]. exists t. split_and!; [|done|done]. by eapply list_elem_of_lookup_2.
Qed.

Lemma elem_of_insert_list {A} (l : list A) i x y : y ∈ <[i := x]> l → y = x ∨ y ∈ l.
Proof.
  intros (j & [(<- & -> & _)|[_ Hj]]%list_lookup_insert_Some)%list_elem_of_lookup_1; [by left|].
  right. by eapply list_elem_of_lookup_2.
Qed.

Lemma elem_of_delete_list {A} (l : list A) i y : y ∈ delete i l → y ∈ l.
Proof. apply sublist_subseteq, sublist_delete. Qed.

(** The claims a worker spawns tasks for carry stored events. *)
Lemma claim_stored {PGL : PostgresLaws PG} fault now locked owner limit ls db claims db' c :
  wf_table db → 0 ≤ limit → claim fault now locked owner limit ls db = (Ok claims, db') →
  c ∈ claims →
  ∃ r, db' !! EventId_as_uuid (event_id (claim_event c)) = Some r ∧ claim_event c = stored_event r.
Proof.
  intros Hwf Hl Hc Hin.
  destruct (claim_deliveries fault now locked owner limit ls db claims db' Hwf Hl Hc)
    as (cs & Hp & Ht & Hcs).
  rewrite Hp in Hin. apply list_elem_of_fmap in Hin as (r & -> & Hr).
  exists (claim_set now (WorkerId_as_uuid owner) ls r). split; [|done]. simpl.
  rewrite Ht, decide_True by (by apply list_elem_of_fmap_2). by rewrite Hcs.
Qed.

Lemma elem_of_fresh ids claims t :
  t ∈ zip_with fresh_task ids claims → task_claim t ∈ claims ∧ task_phase t = T_processing.
Proof.
  intros (i & (id & c & -> & _ & Hc)%lookup_zip_with_Some)%list_elem_of_lookup_1.
  split; [by eapply list_elem_of_lookup_2|done].
Qed.

(** Where the tasks after a step come from. *)
Lemma rt_trans_tasks {PGL : PostgresLaws PG} config owner a n db rt db' rt' t' :
  wf_table db → rt_trans config owner a db rt n db' rt' → t' ∈ rt_tasks rt' →
  (∃ t, t ∈ rt_tasks rt ∧ task_claim t' = task_claim t ∧
    (task_phase t' = T_completing →
     task_phase t = T_completing ∨ EventId_as_uuid (task_event t') ∈ newly_done rt a)) ∨
  ((∃ r, db' !! EventId_as_uuid (task_event t') = Some r ∧
      claim_event (task_claim t') = stored_event r) ∧ task_phase t' = T_processing).
Proof.
  intros Hwf Htr. destruct Htr as [pc Hm|i t r pc Hm Ht Hj|fault now locked ids claims db' E Hf Hc Hlen
    |fault now locked e db' E Hf Hc|Hu|i t applied m E Ht|i t outcome Ho Hst Ht Hph
    |i t fault now Hst Ht Hph]; simpl; intros Hin;
    try (apply elem_of_delete_list in Hin); try (left; exists t'; by split_and!; auto).
  - rewrite spawn_tasks in Hin. apply elem_of_app in Hin as [Hin|Hin].
    { left. exists t'. by split_and!; auto. }
    right. apply elem_of_fresh in Hin as [Hcl Hph]. split; [|done].
    eapply claim_stored; [done| |done|done]. lia.
  - apply elem_of_insert_list in Hin as [->|Hin]; [|left; exists t'; by split_and!; auto].
    left. exists t. split_and!; [by eapply list_elem_of_lookup_2|done|]. intros Hp. right.
    subst a. unfold newly_done. destruct outcome as [[[]|]|]; try done. rewrite Ht. set_solver.
  - apply elem_of_insert_list in Hin as [->|Hin]; [|left; exists t'; by split_and!; auto].
    left. exists t. split_and!; [by eapply list_elem_of_lookup_2|done|done].
Qed.

Lemma sys_step_inv {PGL : PostgresLaws PG} s s' : sys_inv s → sys_step s s' → sys_inv s'.
Proof.
  intros [Hwf Hp Ht] [faults now event key fp Hadm|i config owner rt a db' rt' Hc Hi Hal Hstep].
  - pose proof (apply_op_wf (OpAdmit faults now event key fp) _ Hadm Hwf) as Hwf'. split; simpl.
    + done.
    + by apply (processed_mono (OpAdmit faults now event key fp) (sys_db s) (sys_done s)).
    + intros j rt t Hj Hin. apply (task_good_mono (OpAdmit faults now event key fp) (sys_db s) (sys_done s)); eauto.
  - apply rt_step_inv in Hstep as [n Htr].
    destruct (rt_trans_op _ _ _ _ _ _ _ _ Htr) as (op & Hok & -> & Hcomp).
    assert (sys_done s ⊆ newly_done rt a ∪ sys_done s) as Hsub by set_solver.
    split; simpl.
    + by apply apply_op_wf.
    + apply (processed_mono op (sys_db s) (sys_done s)); [done..| |done].
      intros fault now id o Hop. destruct (Hcomp _ _ _ _ Hop) as (t & Hin & Hph & <-).
      by apply (Ht i rt t Hi Hin).
    + intros j rt1 t' Hj Hin.
      apply list_lookup_insert_Some in Hj as [(<- & <- & _)|[_ Hj]];
        [|by apply (task_good_mono op (sys_db s) (sys_done s)); eauto].
      destruct (rt_trans_tasks _ _ _ _ _ _ _ _ t' Hwf Htr Hin) as [(t & Hint & Hcl & Hph)|[Hg Hph]].
      * destruct (task_good_mono op (sys_db s) (sys_done s) (newly_done rt a ∪ sys_done s) t)
          as [Hst Hd]; [done..|by apply (Ht i rt)|].
        assert (task_event t' = task_event t) as Hev by (unfold task_event; by rewrite Hcl).
        split; rewrite Hev, ?Hcl; [done|]. intros [Hph'|Hnew]%Hph; [by apply Hd|].
        rewrite Hev in Hnew. set_solver.
      * split; [done|]. intros E. by rewrite Hph in E.
Qed.

Lemma sys_init_inv s : sys_init s → sys_inv s.
Proof.
  intros (Hdb & Hd & Hw). split; rewrite Hdb; [apply wf_table_empty|by intros ? ?; rewrite lookup_empty|].
  intros i rt t Hi Hin. destruct (Forall2_lookup_r _ _ _ _ _ Hw Hi) as (c & _ & Hc).
  unfold rt_init in Hc. case_match; [|done]. injection Hc as <-. by apply not_elem_of_nil in Hin.
Qed.

Lemma sys_reach_inv {PGL : PostgresLaws PG} s s' : sys_init s → rtc sys_step s s' → sys_inv s'.
Proof.
  intros Hi%sys_init_inv Hr. induction Hr; [done|]. by eauto using sys_step_inv.
Qed.
End system.

(** ** Guarantees *)

Section guarantees.
Context `{SJ : SerdeJson} {PG : Postgres} {EP : EventProcessor}.

(** C5. At-least-once processing: in every execution of any number of workers and
    admissions from an empty table, with any failures, crashes and interleavings,
    an event is marked PROCESSED only after the processor of some worker has
    returned success for it. *)
Theorem at_least_once {PGL : PostgresLaws PG} cluster s s' id r :
  sys_init cluster s → rtc (sys_step cluster) s s' →
  sys_db s' !! id = Some r → r_status r = lit "PROCESSED" → id ∈ sys_done s'.
Proof. intros Hi Hr. apply (si_processed _ (sys_reach_inv cluster s s' Hi Hr)). Qed.

(** C27. Processors see stored events: in every such execution, every task of every
    worker carries an event that is in the table, with exactly the stored
    identity, source, type, payload and acceptance time. *)
Theorem tasks_carry_stored_events {PGL : PostgresLaws PG} cluster s s' i rt t :
  sys_init cluster s → rtc (sys_step cluster) s s' →
  sys_workers s' !! i = Some rt → t ∈ rt_tasks rt →
  ∃ r, sys_db s' !! EventId_as_uuid (task_event t) = Some r ∧
    let e := claim_event (task_claim t) in
    EventId_as_uuid (event_id e) = r_event_id r ∧
    EventSource_as_str (event_source e) = r_source r ∧
    EventType_as_str (event_type e) = r_event_type r ∧ event_payload e = r_payload r ∧
    event_accepted_at e = 1000 * Z.max 0 (r_accepted_at r).
Proof.
  intros Hi Hr Hw Ht.
  destruct (si_tasks _ (sys_reach_inv cluster s s' Hi Hr) i rt t Hw Ht) as [(r & Hrow & He) _].
  exists r. split; [done|]. rewrite He. simpl. split_and!; try done.
  destruct (Z.leb_spec 0 (r_accepted_at r)); lia.
Qed.
End guarantees.

(** ** An execution with one worker *)

Definition sample_cluster : list (WorkerRuntimeConfig * WorkerId) := [(sample_config, sample_worker)].

Definition sys_act (a : Action) (s : Sys) : Sys :=
  match sys_workers s with
  | [rt] =>
      match rt_step sample_config sample_worker a (sys_db s) rt with
      | Some (db', rt') => mkSys db' [rt'] (newly_done rt a ∪ sys_done s)
      | None => s
      end
  | _ => s
  end.

Lemma sys_act_steps a s :
  (∀ i outcome, a = A_process i outcome → outcome = Some (Ok tt)) →
  rtc (sys_step sample_cluster) s (sys_act a s).
Proof.
  intros Ha. unfold sys_act. destruct (sys_workers s) as [|rt [|]] eqn:Hw; try reflexivity.
  destruct (rt_step _ _ _ _ _) as [[db' rt']|] eqn:E; [|reflexivity].
  apply rtc_once. change [rt'] with (<[0%nat := rt']> [rt]). rewrite <-Hw.
  eapply (sys_worker _ s 0 sample_config sample_worker); [done|by rewrite Hw| |done].
  destruct a; try done. intros t _. by rewrite (Ha _ _ eq_refl).
Qed.

Definition sample_sys0 : Sys := mkSys ∅ [fresh_runtime] ∅.
Definition sample_sys1 : Sys :=
  mkSys (store_admit no_faults 5 (sample_event 1) sample_key sample_fp ∅).2 [fresh_runtime] ∅.
Definition sample_sys2 : Sys := sys_act (A_claim None 100 ∅ [11]) (sys_act A_reaped sample_sys1).
Definition sample_sys3 : Sys :=
  sys_act (A_complete 0 None 200) (sys_act (A_process 0 (Some (Ok tt))) sample_sys2).

Lemma sample_sys0_init : sys_init sample_cluster sample_sys0.
Proof. by split_and!; [..|repeat constructor]. Qed.

Lemma sample_sys2_reach : rtc (sys_step sample_cluster) sample_sys0 sample_sys2.
Proof.
  eapply rtc_l; [by apply (sys_admit _ sample_sys0 no_faults 5), sample_admissible, (small_uuid 1)|].
  etransitivity; apply sys_act_steps; discriminate.
Qed.

Lemma sample_sys3_reach : rtc (sys_step sample_cluster) sample_sys0 sample_sys3.
Proof.
  etransitivity; [apply sample_sys2_reach|].
  etransitivity; apply sys_act_steps; [by intros ? ? [= _ <-]|discriminate].
Qed.

Lemma at_least_once_witness :
  ∃ r, sys_db sample_sys3 !! 1 = Some r ∧ r_status r = lit "PROCESSED" ∧ 1 ∈ sys_done sample_sys3.
Proof.
  destruct (sys_db sample_sys3 !! 1) as [r|] eqn:E; [|vm_compute in E; discriminate E].
  assert (r_status r = lit "PROCESSED") as Hst.
  { vm_compute in E. injection E as <-. vm_compute. reflexivity. }
  exists r. split; [reflexivity|]. split; [exact Hst|].
  exact (at_least_once sample_cluster sample_sys0 sample_sys3 1 r sample_sys0_init
    sample_sys3_reach E Hst).
Defined.

Lemma tasks_carry_stored_events_witness :
  ∃ rt t r, sys_workers sample_sys2 !! 0%nat = Some rt ∧ t ∈ rt_tasks rt ∧
    sys_db sample_sys2 !! EventId_as_uuid (task_event t) = Some r.
Proof.
  destruct (sys_workers sample_sys2 !! 0%nat) as [rt|] eqn:Hw; [|vm_compute in Hw; discriminate Hw].
  destruct (rt_tasks rt) as [|t ts] eqn:Ht.
  { vm_compute in Hw. injection Hw as <-. vm_compute in Ht. discriminate Ht. }
  assert (t ∈ rt_tasks rt) as Hin by (rewrite Ht; by left).
  destruct (tasks_carry_stored_events sample_cluster sample_sys0 sample_sys2 0 rt t
    sample_sys0_init sample_sys2_reach Hw Hin) as (r & Hr & _).
  exists rt, t, r. split; [reflexivity|]. split; [exact Hin|exact Hr].
Defined.
