(* ===== verification/Progress.v ===== *)
(** * No accepted event is stuck

    From every reachable state of the system, however the workers and the database
    have failed so far, one worker that still runs its loop can bring every stored
    event to PROCESSED by itself, once nothing fails and the leases have expired.
    The schedule is explicit: finish the tasks at hand, then claim, process,
    complete and reap until the queue is empty. *)

From S2P Require Import Prelude Text Json Crates Reference Event Idempotency Config Schema Store.
From S2P Require Import Fixtures StoreSpec ClaimSpec History Runtime RuntimeSpec System.

(** ** Steps in which nothing fails *)

Definition calm_action (a : Action) : Prop :=
  match a with
  | A_reap _ | A_reaped | A_join _ => True
  | A_claim fault _ locked _ => fault = None ∧ locked = ∅
  | A_process _ outcome => outcome = Some (Ok tt)
  | A_complete _ fault _ => fault = None
  | _ => False
  end.

Section schedule.
Context `{SJ : SerdeJson} {PG : Postgres} {PGL : PostgresLaws PG}.
Context (config : WorkerRuntimeConfig) (owner : WorkerId) (now : Z).
Implicit Types (db : Table) (rt : Runtime) (t : Task).

Fixpoint rt_run (acts : list Action) db rt : option (Table * Runtime) :=
  match acts with
  | [] => Some (db, rt)
  | a :: acts => '(db', rt') ← rt_step config owner a db rt; rt_run acts db' rt'
  end.

Lemma rt_run_app acts acts' db rt db1 rt1 :
  rt_run acts db rt = Some (db1, rt1) → rt_run (acts ++ acts') db rt = rt_run acts' db1 rt1.
Proof.
  revert db rt. induction acts as [|a acts IH]; intros db rt; simpl; [by intros [= -> ->]|].
  destruct (rt_step config owner a db rt) as [[db' rt']|]; simpl; [|done]. apply IH.
Qed.

(** ** Finishing tasks *)

(** Is the task still working on its event? *)
Definition active t : bool :=
  match task_phase t with T_processing | T_completing => true | _ => false end.

(** The steps that finish the first task, with the step that joins it. *)
Definition finish (join : Action) t : list Action :=
  match task_phase t with
  | T_processing => [A_process 0 (Some (Ok tt)); A_complete 0 None now; join]
  | T_completing => [A_complete 0 None now; join]
  | _ => [join]
  end.

Definition finished db t : Table :=
  if active t then (complete None now (task_event t) owner db).2 else db.

Lemma finish_runs join db rt t ts :
  rt_tasks rt = t :: ts →
  (join = A_join 0 ∧ rt_pc rt = L_select) ∨ (join = A_reap 0 ∧ rt_pc rt = L_reap) →
  ∃ rt', rt_run (finish join t) db rt = Some (finished db t, rt') ∧
    rt_pc rt' = L_reap ∧ rt_tasks rt' = ts.
Proof.
  destruct rt as [pc tasks running c av]. simpl. intros -> Hj.
  unfold finish, finished, active. destruct t as [tid cl ph], ph; simpl;
    destruct Hj as [[-> ->]|[-> ->]]; simpl;
    try (destruct (complete _ _ _ _ _) as [res db']; simpl);
    eexists; (split; [reflexivity|done]).
Qed.

Lemma reap_runs db rt :
  rt_pc rt = L_reap →
  ∃ rt', rt_run (concat (finish (A_reap 0) <$> rt_tasks rt)) db rt =
      Some (foldl finished db (rt_tasks rt), rt') ∧
    rt_pc rt' = L_reap ∧ rt_tasks rt' = [].
Proof.
  remember (rt_tasks rt) as ts eqn:Ht. symmetry in Ht. revert db rt Ht.
  induction ts as [|t ts IH]; intros db rt Ht Hpc; simpl; [by exists rt|].
  destruct (finish_runs (A_reap 0) db rt t ts) as (rt1 & Hr1 & Hpc1 & Ht1); [done|by right|].
  destruct (IH (finished db t) rt1) as (rt2 & Hr2 & ? & ?); [done..|].
  exists rt2. split; [|done]. by rewrite (rt_run_app _ _ _ _ _ _ Hr1).
Qed.

(** The events some active task works on. *)
Definition working (ts : list Task) : list Uuid :=
  (λ t, EventId_as_uuid (task_event t)) <$> filter (λ t, active t = true) ts.

Lemma working_cons t ts :
  working (t :: ts) =
    if active t then EventId_as_uuid (task_event t) :: working ts else working ts.
Proof. unfold working. rewrite filter_cons. by destruct (active t). Qed.

Lemma finished_wf db t : wf_table db → wf_table (finished db t).
Proof. unfold finished. intros. destruct (active t); [|done]. by apply complete_wf. Qed.

Lemma foldl_finished_wf ts db : wf_table db → wf_table (foldl finished db ts).
Proof. revert db. induction ts as [|t ts IH]; intros db; simpl; auto using finished_wf. Qed.

Lemma finished_eq db t :
  wf_table db →
  finished db t =
    if decide (active t = true ∧
      holder db (EventId_as_uuid (task_event t)) = Some (WorkerId_as_uuid owner))
    then alter (complete_set now) (EventId_as_uuid (task_event t)) db else db.
Proof.
  intros Hwf. unfold finished, complete. rewrite sql_complete_eq by done.
  destruct (active t); [|by rewrite decide_False by naive_solver].
  case_decide; [rewrite decide_True by done|rewrite decide_False by naive_solver]; done.
Qed.

(** Finishing tasks completes the events they still hold, and nothing else. *)
Lemma finish_table ts db id :
  wf_table db →
  foldl finished db ts !! id =
    if decide (id ∈ working ts ∧ holder db id = Some (WorkerId_as_uuid owner))
    then complete_set now <$> db !! id else db !! id.
Proof.
  revert db. induction ts as [|t ts IH]; intros db Hwf; cbn [foldl].
  { rewrite decide_False; [done|]. intros [?%not_elem_of_nil _]. done. }
  rewrite IH by by apply finished_wf. rewrite (finished_eq db t Hwf), working_cons.
  destruct (active t); [|by rewrite (decide_False (P := false = true ∧ _)) by naive_solver].
  set (tid := EventId_as_uuid (task_event t)).
  destruct (decide (holder db tid = Some (WorkerId_as_uuid owner))) as [Hh|Hh].
  - rewrite (decide_True (P := true = true ∧ _)) by done.
    destruct (decide (id = tid)) as [->|Hne].
    + rewrite holder_completed, lookup_alter_eq.
      rewrite decide_False by naive_solver. rewrite decide_True; [done|]. set_solver.
    + assert (holder (alter (complete_set now) tid db) id = holder db id) as ->.
      { unfold holder. by rewrite lookup_alter_ne. }
      rewrite lookup_alter_ne by done. apply decide_ext. set_solver.
  - rewrite (decide_False (P := true = true ∧ _)) by naive_solver. apply decide_ext. set_solver.
Qed.

(** ** Claiming *)

(** Every event is processed or can be claimed, with attempts left. *)
Definition workable db : Prop := ∀ id r, db !! id = Some r →
  r_status r = lit "PROCESSED" ∨ (claimable now r = true ∧ r_delivery_attempts r < i32_max).

Lemma claim_workable limit ls db :
  wf_table db → workable db → 0 < limit →
  ∃ cs evs db', claim None now ∅ owner limit ls db = (Ok evs, db') ∧ evs ≡ₚ delivery <$> cs ∧
    claimed_table now (WorkerId_as_uuid owner) ls cs db db' ∧
    (∀ r, r ∈ cs → db !! r_event_id r = Some r ∧ claimable now r = true) ∧
    ((∃ id r, db !! id = Some r ∧ claimable now r = true) → cs ≠ []).
Proof.
  intros Hwf Hw Hl. set (lim := if limit <=? i64_max then limit else i64_max).
  assert (0 < lim) as Hlim by (unfold lim, i64_max; case_match; lia).
  set (cs := candidates now lim ∅ db).
  assert (∀ r, r ∈ cs → db !! r_event_id r = Some r ∧ claimable now r = true) as Hcs.
  { intros r (? & ? & _)%candidates_ok; [done|done]. }
  unfold claim. rewrite (proj2 (Z.eqb_neq limit 0)) by lia. fold lim.
  destruct (sql_claim_cases now (WorkerId_as_uuid owner) lim ls ∅ db) as [[_ (r & Hr & Hm)]|(db' & -> & _ & Ht)];
    [lia|done| |].
  { destruct (Hcs r Hr) as [Hdb Hc]. destruct (Hw _ _ Hdb) as [Hp|[_ ?]]; [|lia].
    unfold claimable in Hc. by rewrite Hp in Hc. }
  destruct (collect_deliveries now (WorkerId_as_uuid owner) ls cs) as (evs & Hevs & Hp).
  { intros r Hr. by eapply candidates_ok. }
  exists cs, evs, db'. simpl. fold cs. rewrite Hevs. split_and!; [done..|].
  intros (id & r & Hr & Hc) Hnil.
  destruct (candidates_oldest now lim ∅ db r) as [Hlen _].
  - apply elem_of_queue. split_and!; [by exists id|done|set_solver].
  - fold cs. rewrite Hnil. apply not_elem_of_nil.
  - fold cs in Hlen. rewrite Hnil in Hlen. simpl in Hlen. lia.
Qed.

(** ** One round: claim, then finish what was claimed *)

Definition round (k : nat) (ts : list Task) : list Action :=
  match ts with
  | [] => []
  | t :: ts => A_reaped :: A_claim None now ∅ (Z.of_nat <$> seq 0 k) ::
      finish (A_join 0) t ++ concat (finish (A_reap 0) <$> ts)
  end.

(** The events that are not processed yet. *)
Definition backlog db : gset Uuid := dom (filter (λ e, r_status e.2 ≠ lit "PROCESSED") db).

Lemma elem_of_backlog db id :
  id ∈ backlog db ↔ ∃ r, db !! id = Some r ∧ r_status r ≠ lit "PROCESSED".
Proof.
  unfold backlog. rewrite elem_of_dom. split.
  - intros [r [Hr Hs]%map_lookup_filter_Some]. by exists r.
  - intros (r & Hr & Hs). exists r. by apply map_lookup_filter_Some.
Qed.

(** A table in which some events are processed and nothing else has changed. *)
Definition closer db db' : Prop := ∀ id,
  db' !! id = db !! id ∨ ∃ r', db' !! id = Some r' ∧ r_status r' = lit "PROCESSED".

Lemma closer_workable db db' : closer db db' → workable db → workable db'.
Proof.
  intros Hc Hw id r Hr. destruct (Hc id) as [E|(r' & E & Hs)].
  - rewrite E in Hr. by eapply Hw.
  - left. congruence.
Qed.

Lemma closer_backlog db db' : closer db db' → backlog db' ⊆ backlog db.
Proof.
  intros Hc id (r & Hr & Hs)%elem_of_backlog. apply elem_of_backlog.
  destruct (Hc id) as [E|(r' & E & Hs')]; [|congruence]. exists r. by rewrite <-E.
Qed.

Lemma finish_closer ts db : wf_table db → closer db (foldl (finished) db ts).
Proof.
  intros Hwf id. rewrite finish_table by done. case_decide as Hd; [|by left].
  destruct Hd as [_ (r & s & l & Hr & _)%holder_Some]; [|done]. right. rewrite Hr. by eexists.
Qed.

(** The tasks of a claim finish with the events they claimed. *)
Lemma claimed_closer ls cs db db1 ids evs :
  wf_table db → wf_table db1 → length ids = length evs → evs ≡ₚ delivery <$> cs →
  claimed_table now (WorkerId_as_uuid owner) ls cs db db1 →
  (∀ r, r ∈ cs → db !! r_event_id r = Some r) →
  let db' := foldl finished db1 (zip_with fresh_task ids evs) in
  closer db db' ∧ ∀ r, r ∈ cs → r_event_id r ∉ backlog db'.
Proof.
  intros Hwf Hwf1 Hlen Hp Ht Hcs db'.
  assert (working (zip_with fresh_task ids evs) ≡ₚ r_event_id <$> cs) as Hwork.
  { transitivity (r_event_id <$> cs); [|done].
    transitivity ((λ e, EventId_as_uuid (event_id (claim_event e))) <$> evs).
    - clear -Hlen. revert evs Hlen. induction ids as [|i ids IH]; intros [|e evs] Hl; simpl in *; try done.
      rewrite working_cons. simpl. by rewrite IH by lia.
    - rewrite Hp, <-list_fmap_compose. done. }
  assert (∀ r, r ∈ cs → db' !! r_event_id r =
    Some (complete_set now (claim_set now (WorkerId_as_uuid owner) ls r))) as Hdone.
  { intros r Hr. assert (r_event_id r ∈ (r_event_id <$> cs)) as Hin by by apply list_elem_of_fmap_2.
    assert (db1 !! r_event_id r = Some (claim_set now (WorkerId_as_uuid owner) ls r)) as Hr1.
    { by rewrite Ht, decide_True, Hcs. }
    unfold db'. rewrite finish_table, decide_True, Hr1; [done| |done].
    split; [by rewrite Hwork|]. unfold holder. by rewrite Hr1. }
  split.
  - intros id. destruct (decide (id ∈ (r_event_id <$> cs))) as [Hin|Hin].
    + apply list_elem_of_fmap in Hin as (r & -> & Hr). right. rewrite (Hdone r Hr). by eexists.
    + left. unfold db'. rewrite finish_table by done. rewrite decide_False.
      * by rewrite Ht, decide_False.
      * rewrite Hwork. naive_solver.
  - intros r Hr (r' & Hr' & Hs)%elem_of_backlog. rewrite (Hdone r Hr) in Hr'. by simplify_eq.
Qed.

(** The claim of an idle worker at the top of its loop. *)
Lemma claim_runs ids evs db db1 rt acts :
  0 < concurrency config → rt_pc rt = L_reap → rt_tasks rt = [] → length ids = length evs →
  claim None now ∅ owner (concurrency config) (lease config) db = (Ok evs, db1) →
  rt_run (A_reaped :: A_claim None now ∅ ids :: acts) db rt =
    rt_run acts db1 (mkRuntime L_select (zip_with fresh_task ids evs)
      (rt_running (spawn ids evs (with_pc L_claim rt))) (rt_counters rt) true).
Proof.
  destruct rt as [pc ts running c av]. simpl. intros Hcon -> -> Hlen Hc.
  unfold claim_step, tasks_len. simpl. rewrite (proj2 (Z.ltb_ge _ _)) by lia.
  rewrite Z.sub_0_r, (proj2 (Z.ltb_lt _ _)), Hc, bool_decide_true by done. simpl.
  by rewrite spawn_counters, spawn_tasks.
Qed.

Lemma round_runs db rt :
  0 < concurrency config → wf_table db → workable db → rt_pc rt = L_reap → rt_tasks rt = [] →
  backlog db ≠ ∅ →
  ∃ k ts db' rt', rt_run (round k ts) db rt = Some (db', rt') ∧
    rt_pc rt' = L_reap ∧ rt_tasks rt' = [] ∧ wf_table db' ∧ closer db db' ∧ backlog db' ⊂ backlog db.
Proof.
  intros Hcon Hwf Hw Hpc Hts (id & Hid)%set_choose_L.
  destruct (claim_workable (concurrency config) (lease config) db)
    as (cs & evs & db1 & Hc & Hp & Ht & Hcs & Hne); [done..|].
  apply elem_of_backlog in Hid as (r & Hr & Hs).
  destruct (Hw id r Hr) as [?|[Hcl _]]; [done|].
  assert (wf_table db1) as Hwf1.
  { pose proof (claim_wf None now ∅ owner (concurrency config) (lease config) db Hwf) as H.
    by rewrite Hc in H. }
  destruct cs as [|c cs]; [by destruct Hne; eauto|].
  set (ids := Z.of_nat <$> seq 0 (length evs)).
  assert (length ids = length evs) as Hlen by (unfold ids; by rewrite length_fmap, length_seq).
  destruct (claimed_closer (lease config) (c :: cs) db db1 ids evs) as [Hcl' Hgone];
    [done..|naive_solver|].
  remember (zip_with fresh_task ids evs) as ts eqn:Ets. destruct ts as [|t ts].
  { exfalso. apply (f_equal length) in Ets. apply Permutation_length in Hp.
    rewrite length_zip_with, Hlen in Ets. simpl in *. lia. }
  set (rt1 := mkRuntime L_select (t :: ts) (rt_running (spawn ids evs (with_pc L_claim rt)))
    (rt_counters rt) true).
  destruct (finish_runs (A_join 0) db1 rt1 t ts) as (rt2 & Hr2 & Hpc2 & Ht2); [done|by left|].
  destruct (reap_runs (finished db1 t) rt2 Hpc2) as (rt3 & Hr3 & Hpc3 & Ht3). rewrite Ht2 in Hr3.
  exists (length evs), (t :: ts), (foldl finished db1 (t :: ts)), rt3.
  split_and!; [|done|done|by apply foldl_finished_wf|done|].
  - unfold round. fold ids. rewrite (claim_runs ids evs db db1 rt) by done.
    rewrite <-Ets. fold rt1. by rewrite (rt_run_app _ _ _ _ _ _ Hr2).
  - split; [by apply closer_backlog|]. intros Hsub. apply (Hgone c); [by left|]. apply Hsub.
    apply elem_of_backlog. destruct (Hcs c) as [Hdb Hcc]; [by left|]. exists c. split; [done|].
    intros E. unfold claimable in Hcc. by rewrite E in Hcc.
Qed.

(** ** The whole schedule *)

Lemma finish_calm join t : calm_action join → Forall calm_action (finish join t).
Proof. intros Hj. unfold finish. destruct (task_phase t); by repeat constructor. Qed.

Lemma reaps_calm ts : Forall calm_action (concat (finish (A_reap 0) <$> ts)).
Proof. induction ts; simpl; [constructor|]. apply Forall_app_2; [by apply finish_calm|done]. Qed.

Lemma round_calm k ts : Forall calm_action (round k ts).
Proof.
  destruct ts as [|t ts]; [constructor|]. repeat constructor.
  apply Forall_app_2; [by apply finish_calm|apply reaps_calm].
Qed.

Lemma rounds_run n db rt :
  (size (backlog db) ≤ n)%nat →
  0 < concurrency config → wf_table db → workable db → rt_pc rt = L_reap → rt_tasks rt = [] →
  ∃ acts db' rt', Forall calm_action acts ∧ rt_run acts db rt = Some (db', rt') ∧ backlog db' = ∅.
Proof.
  revert db rt. induction n as [|n IH]; intros db rt Hn Hcon Hwf Hw Hpc Hts.
  { exists [], db, rt. split_and!; [constructor|done|]. apply leibniz_equiv, size_empty_iff. lia. }
  destruct (decide (backlog db = ∅)) as [He|He].
  { exists [], db, rt. by split_and!; [constructor| |]. }
  destruct (round_runs db rt) as (k & ts & db1 & rt1 & Hr1 & Hpc1 & Ht1 & Hwf1 & Hc1 & Hb1); [done..|].
  apply subset_size in Hb1.
  destruct (IH db1 rt1) as (acts & db' & rt' & Ha & Hr & ?);
    [lia|done|done|by eapply closer_workable|done..|].
  exists (round k ts ++ acts), db', rt'. split_and!; [|by rewrite (rt_run_app _ _ _ _ _ _ Hr1)|done].
  apply Forall_app_2; [apply round_calm|done].
Qed.

(** A worker at the top of its loop, whatever tasks it has, empties the backlog. *)
Lemma worker_drains db rt :
  0 < concurrency config → wf_table db → workable db → rt_pc rt = L_reap →
  ∃ acts db' rt', Forall calm_action acts ∧ rt_run acts db rt = Some (db', rt') ∧ backlog db' = ∅.
Proof.
  intros Hcon Hwf Hw Hpc.
  destruct (reap_runs db rt Hpc) as (rt1 & Hr1 & Hpc1 & Ht1).
  destruct (rounds_run (size (backlog (foldl finished db (rt_tasks rt))))
    (foldl finished db (rt_tasks rt)) rt1) as (acts & db' & rt' & Ha & Hr & ?);
    [done|done|by apply foldl_finished_wf| |done|done|].
  { eapply closer_workable; [by apply finish_closer|done]. }
  exists (concat (finish (A_reap 0) <$> rt_tasks rt) ++ acts), db', rt'.
  split_and!; [|by rewrite (rt_run_app _ _ _ _ _ _ Hr1)|done].
  apply Forall_app_2; [apply reaps_calm|done].
Qed.
End schedule.

(** There is a time by which every lease has expired. *)
Lemma leases_expire `{SJ : SerdeJson} (db : Table) :
  ∃ now, ∀ id r l, db !! id = Some r → r_lease_expires_at r = Some l → l ≤ now.
Proof.
  induction db as [|id r db Hid IH] using map_ind; [exists 0; intros ? ? ?; by rewrite lookup_empty|].
  destruct IH as [now IH].
  exists (Z.max now (default 0 (r_lease_expires_at r))). intros id' r' l.
  intros [[_ <-]|[_ Hr']]%lookup_insert_Some Hl; [rewrite Hl; simpl; lia|].
  specialize (IH _ _ _ Hr' Hl). lia.
Qed.

Lemma expired_workable `{SJ : SerdeJson} now (db : Table) :
  wf_table db →
  (∀ id r l, db !! id = Some r → r_lease_expires_at r = Some l → l ≤ now) →
  (∀ id r, db !! id = Some r → r_delivery_attempts r < i32_max) → workable now db.
Proof.
  intros Hwf Hl Ha id r Hr. pose proof (wf_row_checks _ _ (wf_rows _ Hwf _ _ Hr)) as Hc.
  pose proof Hc as (_ & _ & [Hp|[(o & s & l & Hp)|(t & Hp)]])%row_checks_spec.
  - right. split; [|by eapply Ha]. apply claimable_spec; auto.
  - right. split; [|by eapply Ha]. apply claimable_spec; [done|]. right. exists o, s, l.
    split; [done|]. eapply Hl; [done|]. apply Hp.
  - left. apply Hp.
Qed.

(** ** In the system *)

Section liveness.
Context `{SJ : SerdeJson} {PG : Postgres} {EP : EventProcessor} {PGL : PostgresLaws PG}.
Context (cluster : list (WorkerRuntimeConfig * WorkerId)).

(** A step of the [i]th worker in which nothing fails. *)
Inductive calm_step (i : nat) (s : Sys) : Sys → Prop :=
| calm_worker config owner rt a db' rt' :
    cluster !! i = Some (config, owner) → sys_workers s !! i = Some rt →
    calm_action a → processor_allows rt a →
    rt_step config owner a (sys_db s) rt = Some (db', rt') →
    calm_step i s (mkSys db' (<[i := rt']> (sys_workers s)) (newly_done rt a ∪ sys_done s)).

Lemma calm_sys_step i s s' : calm_step i s s' → sys_step cluster s s'.
Proof. intros [config owner rt a db' rt']. by eapply sys_worker. Qed.

Lemma calm_runs i s config owner rt acts db' rt' :
  (∀ e, process e (Some (Ok tt))) →
  cluster !! i = Some (config, owner) → sys_workers s !! i = Some rt → Forall calm_action acts →
  rt_run config owner acts (sys_db s) rt = Some (db', rt') →
  ∃ s', rtc (calm_step i) s s' ∧ sys_db s' = db'.
Proof.
  intros Hproc Hc Hi Ha. revert s rt Hi. induction Ha as [|a acts Hca _ IH]; intros s rt Hi; simpl.
  { intros [= <- _]. by exists s. }
  destruct (rt_step config owner a (sys_db s) rt) as [[db1 rt1]|] eqn:E; simpl; [|done]. intros Hr.
  destruct (IH (mkSys db1 (<[i := rt1]> (sys_workers s)) (newly_done rt a ∪ sys_done s)) rt1)
    as (s' & Hs' & ?); [|done|].
  { simpl. apply list_lookup_insert_eq. by eapply lookup_lt_Some. }
  exists s'. split; [|done]. eapply rtc_l; [|exact Hs'].
  eapply calm_worker; [done..| |done]. destruct a; simpl in *; [done..| |done]. intros. by rewrite Hca.
Qed.

(** Rows of the table only move forward. *)
Lemma sys_step_row s s' id r :
  wf_table (sys_db s) → sys_step cluster s s' → sys_db s !! id = Some r →
  ∃ r', sys_db s' !! id = Some r' ∧ row_le r r'.
Proof.
  intros Hwf Hstep Hr.
  assert (∃ op, sys_db s' = apply_op op (sys_db s)) as [op ->].
  { destruct Hstep as [faults now event key fp Hadm|i config owner rt a db' rt' Hc Hi Hal Hst].
    - by exists (OpAdmit faults now event key fp).
    - apply rt_step_inv in Hst as [n Htr].
      destruct (rt_trans_op _ _ _ _ _ _ _ _ Htr) as (op & _ & -> & _). by exists op. }
  destruct (apply_op_row op _ id r Hwf Hr) as (r' & ? & ?%row_step_le). by exists r'.
Qed.

Lemma sys_steps_row s s' id r :
  sys_inv s → rtc (sys_step cluster) s s' → sys_db s !! id = Some r →
  ∃ r', sys_db s' !! id = Some r' ∧ row_le r r'.
Proof.
  intros Hinv Hr. revert r Hinv. induction Hr as [s|s s1 s2 Hst _ IH]; intros r Hinv Hrow; [by exists r|].
  destruct (sys_step_row s s1 id r) as (r1 & Hr1 & Hle); [apply Hinv|done|done|].
  destruct (IH r1) as (r2 & ? & ?); [by eapply sys_step_inv|done|]. exists r2. split; [done|]. by trans r1.
Qed.

(** Every worker of the system has a configuration with some concurrency. *)
Lemma sys_steps_length s s' : rtc (sys_step cluster) s s' → length (sys_workers s') = length (sys_workers s).
Proof.
  induction 1 as [|s s1 s2 Hst _ IH]; [done|]. rewrite IH.
  destruct Hst; simpl; [done|]. apply length_insert.
Qed.

Lemma cluster_config s s' i rt :
  sys_init cluster s → rtc (sys_step cluster) s s' → sys_workers s' !! i = Some rt →
  ∃ config owner, cluster !! i = Some (config, owner) ∧ 0 < concurrency config.
Proof.
  intros (_ & _ & Hf) Hr Hw. apply lookup_lt_Some in Hw. rewrite (sys_steps_length s s' Hr) in Hw.
  apply lookup_lt_is_Some in Hw as [rt0 Hrt0].
  destruct (Forall2_lookup_r _ _ _ _ _ Hf Hrt0) as ([config owner] & Hc & Hinit).
  exists config, owner. split; [done|]. unfold rt_init in Hinit. simpl in Hinit.
  destruct (Z.ltb_spec 0 (concurrency config)); done.
Qed.

(** C4. No accepted event is stuck: in every reachable state of the system, after
    any failures, crashes and interleavings, if some worker is at the top of its
    loop, the processor can succeed and no attempt counter is exhausted, then steps
    of that worker alone, in which nothing fails, bring every stored event to
    PROCESSED, with its content unchanged and after a processor has handled it. *)
Theorem every_event_processable s s' i rt :
  sys_init cluster s → rtc (sys_step cluster) s s' →
  sys_workers s' !! i = Some rt → rt_pc rt = L_reap →
  (∀ e, process e (Some (Ok tt))) →
  (∀ id r, sys_db s' !! id = Some r → r_delivery_attempts r < i32_max) →
  ∃ s'', rtc (calm_step i) s' s'' ∧
    ∀ id r, sys_db s' !! id = Some r →
      ∃ r', sys_db s'' !! id = Some r' ∧ r_status r' = lit "PROCESSED" ∧
        content_changed r r' = false ∧ id ∈ sys_done s''.
Proof.
  intros Hi Hr Hw Hpc Hproc Ha. pose proof (sys_reach_inv cluster s s' Hi Hr) as Hinv.
  destruct (cluster_config s s' i rt Hi Hr Hw) as (config & owner & Hc & Hcon).
  destruct (leases_expire (sys_db s')) as [now Hnow].
  destruct (worker_drains config owner now (sys_db s') rt) as (acts & db' & rt' & Hca & Hrun & Hb);
    [done|apply Hinv|by apply expired_workable; [apply Hinv|..]|done|].
  destruct (calm_runs i s' config owner rt acts db' rt') as (s'' & Hs'' & <-); [done..|].
  exists s''. split; [done|]. intros id r Hrow.
  assert (rtc (sys_step cluster) s' s'') as Hsteps by (eapply rtc_subrel; [apply calm_sys_step|done]).
  destruct (sys_steps_row s' s'' id r) as (r' & Hr' & Hle); [done..|].
  assert (r_status r' = lit "PROCESSED") as Hst.
  { destruct (decide (r_status r' = lit "PROCESSED")) as [|Hn]; [done|].
    assert (id ∈ backlog (sys_db s'')) as Hin by (apply elem_of_backlog; eauto).
    rewrite Hb in Hin. set_solver. }
  exists r'. split_and!; [done..|apply Hle|].
  apply (si_processed s'' (sys_reach_inv cluster s s'' Hi ltac:(by etransitivity)) id r'); done.
Qed.
End liveness.

(** ** An admitted event and an idle worker *)

Lemma sample_sys1_reach : rtc (sys_step sample_cluster) sample_sys0 sample_sys1.
Proof. by apply rtc_once, (sys_admit _ sample_sys0 no_faults 5), sample_admissible, (small_uuid 1). Qed.

Lemma sample_sys1_row id r : sys_db sample_sys1 !! id = Some r → r_delivery_attempts r < i32_max.
Proof.
  unfold sample_sys1. cbn [sys_db].
  destruct (admit_inv no_faults 5 (sample_event 1) sample_key sample_fp ∅) as [->|(p & _ & _ & _ & _ & ->)].
  - by rewrite lookup_empty.
  - intros [[_ <-]|[_ ?%lookup_empty_Some]]%lookup_insert_Some; [|done]. by unfold i32_max; simpl.
Qed.

Lemma every_event_processable_witness :
  ∃ r s'' r', sys_db sample_sys1 !! 1 = Some r ∧ r_status r = lit "PENDING" ∧
    rtc (calm_step sample_cluster 0) sample_sys1 s'' ∧
    sys_db s'' !! 1 = Some r' ∧ r_status r' = lit "PROCESSED".
Proof.
  destruct (sys_db sample_sys1 !! 1) as [r|] eqn:E; [|vm_compute in E; discriminate E].
  destruct (every_event_processable sample_cluster sample_sys0 sample_sys1 0 fresh_runtime
    sample_sys0_init sample_sys1_reach eq_refl eq_refl (λ e, eq_refl) sample_sys1_row) as (s'' & Hs & Hall).
  destruct (Hall 1 r E) as (r' & Hr' & Hst & _).
  exists r, s'', r'. split; [reflexivity|]. split; [|split; [exact Hs|split; [exact Hr'|exact Hst]]].
  vm_compute in E. injection E as <-. vm_compute. reflexivity.
Defined.
