(* ===== verification/Main.v ===== *)
(** * The two processes (main.rs of pulsestream-api and pulsestream-worker)

    Start-up and shutdown of each process: the externally visible effects in
    order, and the exit code. What the environment decides (the driver's
    verdict on the URL, migrations, binding, serving, the worker's report) is an
    argument. *)

From S2P Require Import Prelude Text Json Crates Reference Event Idempotency Net Config Schema Store.
From S2P Require Import Fixtures Runtime Process.

Inductive ExitCode := SUCCESS | FAILURE | PANIC.

#[global] Instance ExitCode_eq_dec : EqDecision ExitCode.
Proof. solve_decision. Defined.

(** [E_telemetry] carries the error the logging set-up reports. *)
Inductive Effect :=
| E_telemetry (reported : option str)
| E_connect_lazy (options : PoolOptions)
| E_migrate
| E_bind (addr : SocketAddr)
| E_serve
| E_run (owner : WorkerId) (config : WorkerRuntimeConfig)
| E_close.

#[global] Instance PoolOptions_eq_dec : EqDecision PoolOptions.
Proof. solve_decision. Defined.
#[global] Instance Effect_eq_dec : EqDecision Effect.
Proof. solve_decision. Defined.

(** Opening the store and applying migrations, as both processes do it: the
    effects, and whether the process goes on. *)
Definition open_store (driver_accepts : str → bool) (migrate_ok : bool) (database : DatabaseConfig)
    (service : ServiceName) : list Effect * bool :=
  match connect_lazy driver_accepts database (ServiceName_as_str service) with
  | Err _ => ([], false)
  | Ok options =>
      if migrate_on_start database then
        match migrate migrate_ok with
        | Err _ => ([E_connect_lazy options; E_migrate], false)
        | Ok _ => ([E_connect_lazy options; E_migrate], true)
        end
      else ([E_connect_lazy options], true)
  end.

(** [main] of pulsestream-api. *)
Definition api_main `{EnvFilterCrate} (env : environment) (terminal : bool)
    (driver_accepts : str → bool) (migrate_ok bind_ok served_ok : bool) : list Effect * ExitCode :=
  let started := E_telemetry (telemetry_init env terminal).2 in
  match ApiConfig_from_env env with
  | Err _ => ([started], FAILURE)
  | Ok config =>
      let '(opened, go) := open_store driver_accepts migrate_ok (api_database config) Api in
      if go then
        if bind_ok then
          (started :: opened ++ [E_bind (bind config); E_serve; E_close],
           if served_ok then SUCCESS else FAILURE)
        else (started :: opened ++ [E_bind (bind config)], FAILURE)
      else (started :: opened, FAILURE)
  end.

(** [main] of pulsestream-worker; [report] is what [runtime::run] returns, unless
    it panics on its assertion. *)
Definition worker_main `{SerdeJson} `{EnvFilterCrate} (env : environment) (terminal : bool)
    (driver_accepts : str → bool) (migrate_ok : bool) (v4 : Uuid) (report : RunReport)
    : list Effect * ExitCode :=
  let started := E_telemetry (worker_telemetry_init env terminal).2 in
  match WorkerConfig_from_env env with
  | Err _ => ([started], FAILURE)
  | Ok config =>
      let owner := WorkerId_new v4 in
      let '(opened, go) := open_store driver_accepts migrate_ok (worker_database config) Worker in
      if go then
        match rt_init (worker_runtime config) with
        | None => (started :: opened ++ [E_run owner (worker_runtime config)], PANIC)
        | Some _ =>
            (started :: opened ++ [E_run owner (worker_runtime config); E_close],
             if rep_timed_out report then FAILURE else SUCCESS)
        end
      else (started :: opened, FAILURE)
  end.

(** ** Facts *)

Lemma open_store_go driver migrate_ok database service opened go :
  open_store driver migrate_ok database service = (opened, go) →
  (go = true ↔ driver (DatabaseUrl_expose (url database)) = true ∧
    (migrate_on_start database = true → migrate_ok = true)) ∧
  (E_migrate ∈ opened ↔ migrate_on_start database = true ∧
    driver (DatabaseUrl_expose (url database)) = true) ∧
  (∀ o c, E_run o c ∉ opened) ∧ (∀ addr, E_bind addr ∉ opened) ∧ (E_close ∉ opened) ∧
  (E_serve ∉ opened) ∧ (∀ e, E_telemetry e ∉ opened) ∧
  (∀ options, E_connect_lazy options ∈ opened → pool_max_connections options = max_connections database).
Proof.
  unfold open_store, connect_lazy, migrate.
  destruct (driver _), (migrate_on_start database), migrate_ok; simpl; intros [= <- <-];
    rewrite ?elem_of_cons, ?elem_of_nil; set_solver.
Qed.

Lemma worker_runtime_starts `{SerdeJson} lookup c :
  WorkerRuntimeConfig_from_lookup lookup = Ok c → is_Some (rt_init c).
Proof.
  intros [Hc _]%WorkerRuntimeConfig_from_lookup_wf. unfold rt_init.
  rewrite (proj2 (Z.ltb_lt 0 (concurrency c))) by lia. by eexists.
Qed.

(** The first effect is the logging set-up, which does not count among the others. *)
Lemma elem_of_started (e : Effect) (reported : option str) (l : list Effect) :
  (∀ r, e ≠ E_telemetry r) → e ∈ E_telemetry reported :: l ↔ e ∈ l.
Proof. intros He. rewrite elem_of_cons. naive_solver. Qed.

Ltac effects_simpl :=
  rewrite ?elem_of_started by discriminate;
  rewrite ?elem_of_app, ?elem_of_cons, ?elem_of_nil.

(** C32. The API process exits with success exactly when its configuration parses,
    the driver accepts the URL, migrations (if enabled) succeed, the address binds
    and serving ends without error. Logging is set up before anything else. It binds
    only after the store was opened and migrated, it binds the configured address,
    and it closes the pool exactly when it has served. *)
Theorem api_main_spec `{EnvFilterCrate} env terminal driver migrate_ok bind_ok served_ok :
  let '(effects, code) := api_main env terminal driver migrate_ok bind_ok served_ok in
  (code = SUCCESS ↔
    ∃ config, ApiConfig_from_env env = Ok config ∧
      driver (DatabaseUrl_expose (url (api_database config))) = true ∧
      (migrate_on_start (api_database config) = true → migrate_ok = true) ∧
      bind_ok = true ∧ served_ok = true) ∧
  (∀ addr, E_bind addr ∈ effects →
    ∃ config, ApiConfig_from_env env = Ok config ∧ addr = bind config ∧
      (migrate_on_start (api_database config) = true → E_migrate ∈ effects ∧ migrate_ok = true)) ∧
  (E_close ∈ effects ↔ E_serve ∈ effects) ∧ code ≠ PANIC ∧
  head effects = Some (E_telemetry (telemetry_init env terminal).2).
Proof.
  unfold api_main. destruct (ApiConfig_from_env env) as [config|e]; [|set_solver].
  destruct (open_store _ _ _ _) as [opened go] eqn:E.
  destruct (open_store_go _ _ _ _ _ _ E) as (Hgo & Hm & _ & Hb & Hc & Hs & _).
  destruct go.
  - destruct (proj1 Hgo eq_refl) as [Hd Hmg]. destruct bind_ok.
    + split; [|split; [|split; [effects_simpl; intuition congruence|by destruct served_ok]]].
      * split; [destruct served_ok; [|done]; intros _; by exists config|].
        by intros (c & _ & _ & _ & _ & ->).
      * intros addr Hin. exists config. split_and!; [done|set_solver|]. intros Hmig.
        split; [|by apply Hmg]. effects_simpl. left. by apply Hm.
    + split; [|split; [|split; [effects_simpl; intuition congruence|done]]].
      * split; [done|]. by intros (c & _ & _ & _ & ? & _).
      * intros addr Hin. exists config. split_and!; [done|set_solver|]. intros Hmig.
        split; [|by apply Hmg]. effects_simpl. left. by apply Hm.
  - split; [|split; [|split; [effects_simpl; intuition congruence|done]]].
    + split; [done|]. intros (c & [= <-] & Hd & Hmg & _). discriminate (proj2 Hgo (conj Hd Hmg)).
    + intros addr Hin. rewrite elem_of_started in Hin by discriminate. by destruct (Hb addr).
Qed.

(** C31. The worker process never panics on its concurrency assertion: whenever it
    starts claiming, its configuration parsed, its concurrency is between 1 and
    64 and its lease is between a second and an hour.
    It exits with success exactly when start-up succeeded and the drain ended in
    time, and it closes the pool exactly when the runtime has run. *)
Theorem worker_main_spec `{SerdeJson} `{EnvFilterCrate} env terminal driver migrate_ok v4 report :
  let '(effects, code) := worker_main env terminal driver migrate_ok v4 report in
  code ≠ PANIC ∧
  (code = SUCCESS ↔ (∃ c, E_run (mkWorkerId v4) c ∈ effects) ∧ rep_timed_out report = false) ∧
  (∀ o c, E_run o c ∈ effects →
    o = mkWorkerId v4 ∧ 1 ≤ concurrency c ≤ 64 ∧
    from_millis 1000 ≤ lease c ≤ from_millis 3600000 ∧
    ∃ config, WorkerConfig_from_env env = Ok config ∧ c = worker_runtime config ∧
      (migrate_on_start (worker_database config) = true → E_migrate ∈ effects ∧ migrate_ok = true)) ∧
  (E_close ∈ effects ↔ ∃ o c, E_run o c ∈ effects).
Proof.
  unfold worker_main. destruct (WorkerConfig_from_env env) as [config|e] eqn:Hcfg; [|set_solver].
  destruct (open_store _ _ _ _) as [opened go] eqn:E.
  destruct (open_store_go _ _ _ _ _ _ E) as (Hgo & Hm & Hr & _ & Hc & _ & _).
  destruct go.
  2: { split; [done|]. split; [split; [done|]|split]; setoid_rewrite elem_of_started; try discriminate.
       - intros [[c Hin] _]. by destruct (Hr (mkWorkerId v4) c).
       - intros o c Hin. by destruct (Hr o c).
       - naive_solver. }
  destruct (proj1 Hgo eq_refl) as [Hd Hmg].
  assert (WorkerRuntimeConfig_from_lookup (λ key, ok (env key)) = Ok (worker_runtime config)) as Hrt.
  { unfold WorkerConfig_from_env, WorkerConfig_from_lookup in Hcfg. by bind_inv. }
  destruct (worker_runtime_starts _ _ Hrt) as [rt ->].
  apply WorkerRuntimeConfig_from_lookup_wf in Hrt as (Hcc & _ & Hl & _).
  split; [by destruct (rep_timed_out report)|]. split; [|split].
  - destruct (rep_timed_out report); [naive_solver|]. split; [|done]. intros _. split; [|done].
    exists (worker_runtime config). set_solver.
  - intros o c Hin. assert (o = mkWorkerId v4 ∧ c = worker_runtime config) as [-> ->] by set_solver.
    split_and!; [done|lia..|]. exists config. split_and!; [done|done|]. intros Hmig.
    split; [|by apply Hmg]. effects_simpl. left. by apply Hm.
  - split; [|intros _; set_solver]. intros _. exists (mkWorkerId v4), (worker_runtime config). set_solver.
Qed.
