(* ===== verification/TestSupport.v ===== *)
(** * Test support (testing.rs of pulsestream-store)

    The safety guard that keeps tests away from real databases, the statements
    tests use to look at and to age rows, and the URLs of the outage proxy, whose
    connections are in [Outage]. Creating and dropping databases is in
    [TestDatabases], the test processor in [Gated]. Offsets count characters, where the code slices at byte offsets of
    the same characters. *)

From S2P Require Import Prelude Text Json Crates Reference Event Idempotency Config Schema Store.
From S2P Require Import Fixtures StoreSpec ClaimSpec Runtime.

(** ** Database URLs *)

Definition TEST_DATABASE_URL_VAR : str := lit "PULSESTREAM_TEST_DATABASE_URL".

(** [s.find(pat)] for a string. *)
Fixpoint find_str (pat s : str) : option nat :=
  if starts_with pat s then Some O
  else match s with [] => None | _ :: s' => S <$> find_str pat s' end.

(** The part up to the path, the database name, and the query. *)
Definition split_database_name (url : str) : option (str * str * str) :=
  scheme ← find_str (lit "://") url;
  let scheme_end := (scheme + 3)%nat in
  slash ← find_char 47 (drop scheme_end url);
  let path_start := (scheme_end + slash)%nat in
  let rest := drop (path_start + 1) url in
  let '(name, query) :=
    match find_char 63 rest with
    | Some q => (take q rest, drop q rest)
    | None => (rest, [])
    end in
  Some (take (path_start + 1) url, name, query).

Definition plain_byte (b : Z) : bool := is_ascii_lowercase b || is_ascii_digit b || (b =? 95).

(** The error carries the refused name. *)
Definition guard_test_database_name (name : str) : result str unit :=
  let plain := negb (is_empty name) && forallb plain_byte (as_bytes name) in
  if plain && ends_with (lit "_test") name then Ok tt else Err name.

(** Why [TestDatabase::create_empty] panics before it connects. *)
Inductive CreateError := CT_unset | CT_no_name | CT_refused (name : str).

(** The name and the URL of the database [create_empty] makes; [simple] is the hex
    text of a fresh UUID. *)
Definition test_database (admin_url : option str) (simple : str) : result CreateError (str * str) :=
  admin_url ← ok_or admin_url CT_unset;
  '(prefix, base, query) ← ok_or (split_database_name admin_url) CT_no_name;
  _ ← map_err CT_refused (guard_test_database_name base);
  let name := base ++ lit "_" ++ take 12 simple in
  Ok (name, prefix ++ name ++ query).

(** [authority.rsplit_once(c)]. *)
Definition rsplit_once (c : char) (s : str) : option (str * str) :=
  match find_char c (reverse s) with
  | Some i => Some (take (length s - i - 1) s, drop (length s - i) s)
  | None => None
  end.

(** [OutageProxy::proxied_url] for a proxy at the address with text [addr]. *)
Definition proxied_url (addr database_url : str) : option str :=
  '(prefix, name, query) ← split_database_name database_url;
  scheme ← find_str (lit "://") prefix;
  let scheme_end := (scheme + 3)%nat in
  let authority := drop scheme_end (take (length prefix - 1) prefix) in
  let credentials := (λ p : str * str, p.1 ++ lit "@") <$> rsplit_once 64 authority in
  Some (take scheme_end prefix ++ default [] credentials ++ addr ++ lit "/" ++ name ++ query).

(** [s.split(pat).nth(1)]: the piece after the first match. *)
Definition split_nth_1 (pat s : str) : option str :=
  i ← find_str pat s;
  let rest := drop (i + length pat) s in
  Some (match find_str pat rest with Some j => take j rest | None => rest end).

(** [s.trim_end_matches(c)]. *)
Fixpoint trim_start_matches (c : char) (s : str) : str :=
  match s with
  | d :: s' => if d =? c then trim_start_matches c s' else s
  | [] => []
  end.
Definition trim_end_matches (c : char) (s : str) : str :=
  reverse (trim_start_matches c (reverse s)).

(** [s.contains(c)]. *)
Definition contains (c : char) (s : str) : bool := existsb (λ d, d =? c) s.

(** The address to which [OutageProxy::start] connects. *)
Definition proxy_target (database_url : str) : option str :=
  '(prefix, _, _) ← split_database_name database_url;
  piece ← split_nth_1 (lit "://") prefix;
  let authority := trim_end_matches 47 piece in
  let host_port := next_or_default (rsplit (λ c, c =? 64) authority) in
  Some (if contains 58 host_port then host_port else host_port ++ lit ":5432").

(** ** Rows *)

Section rows.
Context `{SJ : SerdeJson}.
Implicit Types (db : Table) (r : Row).

Record Lifecycle := mkLifecycle {
  lc_status : str;
  lc_owner : option Uuid;
  lc_attempts : Z;
  lc_lease_active : option bool
}.

(** The SET clause of [expire_lease]. *)
Definition expire_set (now : Z) r : Row := {|
  r_event_id := r_event_id r;
  r_source := r_source r;
  r_event_type := r_event_type r;
  r_payload := r_payload r;
  r_idempotency_key := r_idempotency_key r;
  r_request_fingerprint := r_request_fingerprint r;
  r_accepted_at := r_accepted_at r;
  r_status := r_status r;
  r_processing_owner := r_processing_owner r;
  r_processing_started_at := r_processing_started_at r;
  r_lease_expires_at := Some (now - 1000000);
  r_processed_at := r_processed_at r;
  r_delivery_attempts := r_delivery_attempts r
|}.

(** [None] is the panic of its assertion. *)
Definition expire_lease (now : Z) (id : EventId) db : option Table :=
  r ← db !! EventId_as_uuid id;
  if bool_decide (r_status r = lit "PROCESSING") then
    match update_row r (expire_set now r) with
    | Ok r' => Some (<[EventId_as_uuid id := r']> db)
    | Err _ => None
    end
  else None.

Definition lifecycle (now : Z) (id : EventId) db : option Lifecycle :=
  (λ r, mkLifecycle (r_status r) (r_processing_owner r) (r_delivery_attempts r)
    ((λ t, now <? t) <$> r_lease_expires_at r)) <$> db !! EventId_as_uuid id.

Definition count_rows (p : Row → bool) db : Z :=
  Z.of_nat (length (filter (λ r, p r = true) (snd <$> map_to_list db))).

Definition count_for_source (source : str) db : Z :=
  count_rows (λ r, bool_decide (r_source r = source)) db.

Definition status_counts db : Z * Z * Z :=
  (count_rows (λ r, bool_decide (r_status r = lit "PENDING")) db,
   count_rows (λ r, bool_decide (r_status r = lit "PROCESSING")) db,
   count_rows (λ r, bool_decide (r_status r = lit "PROCESSED")) db).
End rows.

(** ** Facts on searching *)

Lemma strip_prefix_app p x y :
  (length p ≤ length x)%nat →
  is_Some (strip_prefix p (x ++ y)) ↔ is_Some (strip_prefix p x).
Proof.
  revert x. induction p as [|c p IH]; intros x Hl; [split; intros _; by eexists|].
  destruct x as [|d x]; simpl in *; [lia|]. destruct (c =? d); [apply IH; lia|done].
Qed.

Lemma starts_with_app p x y :
  (length p ≤ length x)%nat → starts_with p (x ++ y) = starts_with p x.
Proof. intros Hl. unfold starts_with. apply bool_decide_ext. by apply strip_prefix_app. Qed.

(** A search that succeeds within a prefix does not see the rest. *)
Lemma find_str_app p x y z i :
  find_str p (x ++ y) = Some i → (i + length p ≤ length x)%nat → find_str p (x ++ z) = Some i.
Proof.
  revert i. induction x as [|c x IH]; intros i Hf Hl.
  - destruct p; simpl in Hl; [|lia]. assert (i = 0%nat) as -> by lia. by destruct z.
  - simpl in Hf. simpl (find_str p ((c :: x) ++ z)).
    change (c :: x ++ y) with ((c :: x) ++ y) in Hf. change (c :: x ++ z) with ((c :: x) ++ z).
    rewrite starts_with_app in Hf |- * by lia.
    destruct (starts_with p (c :: x)); [done|].
    destruct (find_str p (x ++ y)) as [j|] eqn:E; simplify_eq/=. rewrite (IH j) by (done || lia). done.
Qed.

Lemma find_char_Some c s i :
  find_char c s = Some i ↔
  ∃ a b, s = a ++ c :: b ∧ length a = i ∧ Forall (λ d, d ≠ c) a.
Proof.
  revert i. induction s as [|d s IH]; intros i; simpl.
  { split; [done|]. intros ([] & b & ? & _); done. }
  destruct (Z.eqb_spec d c) as [->|Hne].
  - split.
    + intros [= <-]. by exists [], s.
    + intros ([|e a] & b & E & <- & Ha); [done|]. simplify_eq/=.
      apply Forall_cons in Ha as [? _]. done.
  - split.
    + destruct (find_char c s) as [j|] eqn:E; simpl; [|done]. intros [= <-].
      destruct (proj1 (IH j) eq_refl) as (a & b & -> & <- & Ha).
      exists (d :: a), b. by repeat constructor.
    + intros ([|e a] & b & E & <- & Ha); simplify_eq/=. apply Forall_cons in Ha as [_ Ha].
      by rewrite (proj2 (IH (length a))) by eauto.
Qed.

Lemma find_char_None c s : find_char c s = None ↔ Forall (λ d, d ≠ c) s.
Proof.
  induction s as [|d s IH]; simpl; [done|]. rewrite Forall_cons.
  destruct (Z.eqb_spec d c); [naive_solver|].
  destruct (find_char c s); simpl; naive_solver.
Qed.

(** ** The structure of a split URL *)

(** [prefix] ends with the slash of the path, the name has no question mark, and
    the query is empty or starts with one. *)
Lemma split_database_name_spec url prefix name query :
  split_database_name url = Some (prefix, name, query) →
  url = prefix ++ name ++ query ∧ Forall (λ c, c ≠ 63) name ∧
  (query = [] ∨ ∃ q, query = 63 :: q) ∧
  ∃ scheme authority, prefix = scheme ++ authority ++ [47] ∧
    Forall (λ c, c ≠ 47) authority ∧
    (∀ rest, find_str (lit "://") (prefix ++ rest) = Some (length scheme - 3)%nat) ∧
    (3 ≤ length scheme)%nat.
Proof.
  unfold split_database_name. destruct (find_str _ url) as [k|] eqn:Hk; simpl; [|done].
  destruct (find_char 47 _) as [n|] eqn:Hn; simpl; [|done].
  apply find_char_Some in Hn as (a & b & Hd & <- & Ha).
  assert ((k + 3 ≤ length url)%nat) as Hlen.
  { apply (f_equal length) in Hd. rewrite length_drop, length_app in Hd. simpl in Hd. lia. }
  assert (url = (take (k + 3) url ++ a ++ [47]) ++ b) as Hurl.
  { rewrite <-(take_drop (k + 3) url) at 1. by rewrite Hd, <-!app_assoc. }
  assert (length (take (k + 3) url) = (k + 3)%nat) as Hl3 by (rewrite length_take; lia).
  assert (length (take (k + 3) url ++ a ++ [47]) = (k + 3 + length a + 1)%nat) as Hl.
  { rewrite !length_app, Hl3. simpl. lia. }
  assert (take (k + 3 + length a + 1) url = take (k + 3) url ++ a ++ [47]) as Htake.
  { rewrite Hurl at 1. by apply take_app_length'. }
  assert (drop (k + 3 + length a + 1) url = b) as Hdrop.
  { rewrite Hurl at 1. by apply drop_app_length'. }
  rewrite Htake, Hdrop. intros H.
  assert (prefix = take (k + 3) url ++ a ++ [47] ∧ b = name ++ query ∧ Forall (λ c, c ≠ 63) name ∧
    (query = [] ∨ ∃ q, query = 63 :: q)) as (-> & -> & Hname & Hq).
  { destruct (find_char 63 b) as [q|] eqn:Hq; simplify_eq.
    - apply find_char_Some in Hq as (x & y & -> & <- & Hx).
      rewrite take_app_length, drop_app_length. eauto 6.
    - apply find_char_None in Hq. rewrite app_nil_r. eauto. }
  split_and!; [done..|]. exists (take (k + 3) url), a.
  split_and!; [done|done| |lia]. intros rest. rewrite Hl3. replace (k + 3 - 3)%nat with k by lia.
  rewrite Hurl in Hk at 1. apply (find_str_app _ _ (name ++ query)); [done|].
  rewrite Hl. simpl. lia.
Qed.

(** A database name can be replaced. *)
Lemma split_database_name_build scheme authority name query :
  (∀ rest, find_str (lit "://") ((scheme ++ authority ++ [47]) ++ rest) =
    Some (length scheme - 3)%nat) →
  (3 ≤ length scheme)%nat → Forall (λ c, c ≠ 47) authority → Forall (λ c, c ≠ 63) name →
  (query = [] ∨ ∃ q, query = 63 :: q) →
  split_database_name ((scheme ++ authority ++ [47]) ++ name ++ query) =
    Some (scheme ++ authority ++ [47], name, query).
Proof.
  intros Hf Hl Ha Hn Hq. unfold split_database_name. rewrite Hf. simpl.
  replace (length scheme - 3 + 3)%nat with (length scheme) by lia.
  rewrite <-!app_assoc, drop_app_length. simpl.
  assert (find_char 47 (authority ++ 47 :: name ++ query) = Some (length authority)) as ->.
  { apply find_char_Some. eauto. }
  simpl.
  assert (scheme ++ authority ++ 47 :: name ++ query =
    (scheme ++ authority ++ [47]) ++ name ++ query) as -> by (by rewrite <-!app_assoc).
  assert ((length scheme + length authority + 1)%nat = length (scheme ++ authority ++ [47])) as ->
    by (rewrite !length_app; simpl; lia).
  rewrite take_app_length, drop_app_length.
  destruct Hq as [->|[q ->]].
  - rewrite app_nil_r. by rewrite (proj2 (find_char_None 63 name) Hn).
  - assert (find_char 63 (name ++ 63 :: q) = Some (length name)) as ->.
    { apply find_char_Some. eauto. }
    by rewrite take_app_length, drop_app_length.
Qed.

(** ** The guard *)

Definition plain_name (name : str) : Prop := Forall (λ c, plain_byte c = true) name.

(** Plain bytes are the bytes of plain characters. *)
Lemma plain_bytes name :
  valid_str name → Forall (λ b, plain_byte b = true) (as_bytes name) → plain_name name.
Proof.
  intros Hv. induction Hv as [|c s Hc _ IH]; [by constructor|].
  rewrite as_bytes_cons, Forall_app. intros [Hb Hs]. constructor; [|by apply IH].
  destruct (utf8_char_cases c Hc) as [[_ E]|[[? E]|[[? E]|[? E]]]]; rewrite E in Hb;
    apply Forall_cons in Hb as [Hb _]; [done|..]; pose proof (Z.div_pos c 64);
    pose proof (Z.div_pos c 4096); pose proof (Z.div_pos c 262144); unfold plain_byte, is_ascii_lowercase, is_ascii_digit in Hb; lia.
Qed.

Lemma guard_ok name :
  valid_str name → guard_test_database_name name = Ok tt →
  plain_name name ∧ ∃ stem, name = stem ++ lit "_test".
Proof.
  intros Hv. unfold guard_test_database_name.
  destruct (negb (is_empty name) && forallb plain_byte (as_bytes name)) eqn:Hp; simpl; [|done].
  destruct (ends_with _ _) eqn:He; [|done]. intros _. split.
  - apply andb_true_iff in Hp as [_ Hp]. apply forallb_Forall in Hp.
    unfold plain_name. by apply plain_bytes.
  - unfold ends_with in He. apply starts_with_spec in He as [r Hr].
    exists (reverse r). apply (f_equal reverse) in Hr.
    by rewrite reverse_involutive, reverse_app, reverse_involutive in Hr.
Qed.

(** The hex text of a UUID without hyphens. *)
Definition simple_uuid (simple : str) : Prop :=
  Forall (λ c, is_ascii_digit c || ((97 <=? c) && (c <=? 102)) = true) simple ∧
  length simple = 32%nat.

(** The URL of a disposable database differs from the administration URL in the
    database name only. *)
Lemma test_database_parts admin_url simple name url :
  simple_uuid simple → test_database (Some admin_url) simple = Ok (name, url) →
  ∃ prefix base query,
    split_database_name admin_url = Some (prefix, base, query) ∧
    guard_test_database_name base = Ok tt ∧ name = base ++ lit "_" ++ take 12 simple ∧
    split_database_name url = Some (prefix, name, query).
Proof.
  intros [Hhex _]. unfold test_database. simpl.
  destruct (split_database_name admin_url) as [[[prefix base] query]|] eqn:Hs; simpl; [|done].
  destruct (guard_test_database_name base) as [[]|] eqn:Hg; simpl; [|done].
  intros H. injection H as Hname Hurl. exists prefix, base, query. split_and!; [done..|].
  destruct (split_database_name_spec _ _ _ _ Hs) as (_ & Hq63 & Hq & scheme & auth & -> & Hauth & Hf & H3).
  subst url name. apply split_database_name_build; try done. apply Forall_app. split; [done|].
  constructor; [done|]. apply Forall_take. eapply Forall_impl; [exact Hhex|].
  unfold is_ascii_digit. simpl. lia.
Qed.

(** The name is a plain one that extends the guarded name. *)
Lemma guarded_name admin_url simple name url :
  valid_str admin_url → simple_uuid simple →
  test_database (Some admin_url) simple = Ok (name, url) →
  ∃ prefix stem query,
    split_database_name admin_url = Some (prefix, stem ++ lit "_test", query) ∧
    plain_name name ∧ name = stem ++ lit "_test_" ++ take 12 simple ∧
    split_database_name url = Some (prefix, name, query).
Proof.
  intros Hv Hsu H. destruct (test_database_parts _ _ _ _ Hsu H) as (prefix & base & query & Hs & Hg & -> & Hu).
  destruct Hsu as [Hhex Hlen].
  destruct (split_database_name_spec _ _ _ _ Hs) as (Hadm & _).
  assert (valid_str base) as Hvb.
  { unfold valid_str in *. rewrite Hadm, !Forall_app in Hv. tauto. }
  destruct (guard_ok base Hvb Hg) as [Hplain [stem ->]].
  exists prefix, stem, query. split_and!; [done| |by rewrite <-!app_assoc|done].
  apply Forall_app. split; [done|]. constructor; [done|]. apply Forall_take.
  eapply Forall_impl; [exact Hhex|]. unfold plain_byte, is_ascii_lowercase, is_ascii_digit. simpl. lia.
Qed.

(** The safety guard of the test suite: from an administration URL and the hex
    text of a fresh UUID, tests only ever create (and drop) a database whose name
    is a plain identifier, safe inside quotes, that extends a name ending in
    [_test] and differs from it; and the URL they connect to differs from the
    administration URL in the database name only. *)
Theorem test_database_guard admin_url simple name url :
  valid_str admin_url → simple_uuid simple →
  test_database (Some admin_url) simple = Ok (name, url) →
  ∃ prefix stem query,
    split_database_name admin_url = Some (prefix, stem ++ lit "_test", query) ∧
    plain_name name ∧ name = stem ++ lit "_test_" ++ take 12 simple ∧
    name ≠ stem ++ lit "_test" ∧
    split_database_name url = Some (prefix, name, query).
Proof.
  intros Hv Hsu H.
  destruct (guarded_name _ _ _ _ Hv Hsu H) as (prefix & stem & query & Hs & Hp & -> & Hu).
  exists prefix, stem, query. split_and!; [done..| |done]. destruct Hsu as [_ Hlen].
  intros E. apply (f_equal length) in E. rewrite !length_app in E. simpl in E. lia.
Qed.

Lemma test_database_guard_witness :
  ∃ name url,
    test_database (Some (lit "postgres://u:p@localhost:5432/pulse_test?sslmode=disable"))
      (lit "0123456789abcdef0123456789abcdef") = Ok (name, url) ∧
    name = lit "pulse_test_0123456789ab" ∧ plain_name name.
Proof.
  assert (valid_str (lit "postgres://u:p@localhost:5432/pulse_test?sslmode=disable")) as Hv
    by (repeat constructor).
  assert (simple_uuid (lit "0123456789abcdef0123456789abcdef")) as Hh by (repeat constructor).
  destruct (test_database (Some (lit "postgres://u:p@localhost:5432/pulse_test?sslmode=disable"))
    (lit "0123456789abcdef0123456789abcdef")) as [[name url]|e] eqn:E;
    [|vm_compute in E; discriminate E].
  exists name, url. split; [reflexivity|].
  destruct (test_database_guard _ _ name url Hv Hh E) as (_ & _ & _ & _ & Hp & _).
  split; [|exact Hp]. vm_compute in E. injection E as <- _. vm_compute. reflexivity.
Defined.

(** ** The proxy's URLs *)

Lemma rsplit_once_none c s : Forall (λ d, d ≠ c) s → rsplit_once c s = None.
Proof.
  intros H. unfold rsplit_once. rewrite (proj2 (find_char_None c (reverse s))); [done|].
  by rewrite Forall_reverse.
Qed.

Lemma rsplit_once_last c a b : Forall (λ d, d ≠ c) b → rsplit_once c (a ++ c :: b) = Some (a, b).
Proof.
  intros H. unfold rsplit_once.
  assert (find_char c (reverse (a ++ c :: b)) = Some (length b)) as ->.
  { apply find_char_Some. exists (reverse b), (reverse a).
    rewrite reverse_app, reverse_cons, <-app_assoc, length_reverse, Forall_reverse. done. }
  rewrite length_app. simpl. f_equal. f_equal.
  - replace (length a + S (length b) - length b - 1)%nat with (length a) by lia.
    by rewrite take_app_length.
  - replace (length a + S (length b) - length b)%nat with (length (a ++ [c]))
      by (rewrite length_app; simpl; lia).
    change (c :: b) with ([c] ++ b). rewrite app_assoc. by rewrite drop_app_length.
Qed.

(** Every text is credentials and a host without [@]. *)
Lemma authority_parts s :
  ∃ cred host, s = cred ++ host ∧ (cred = [] ∨ ∃ c, cred = c ++ [64]) ∧ Forall (λ c, c ≠ 64) host.
Proof.
  destruct (rsplit_first (λ c, c =? 64) s) as [[H E]|(a & c & E & Hc & H)].
  - exists [], s. rewrite no_at_Forall. auto.
  - apply Z.eqb_eq in Hc as ->. exists (a ++ [64]), (next_or_default (rsplit (λ c, c =? 64) s)).
    rewrite no_at_Forall, <-app_assoc. eauto.
Qed.

Lemma trim_slash s : Forall (λ c, c ≠ 47) s → trim_end_matches 47 (s ++ [47]) = s.
Proof.
  intros H. unfold trim_end_matches. rewrite reverse_app. simpl.
  assert (trim_start_matches 47 (reverse s) = reverse s) as ->; [|apply reverse_involutive].
  rewrite <-Forall_reverse in H. destruct H as [|c l Hc _]; [done|]. simpl.
  by destruct (Z.eqb_spec c 47).
Qed.

(** Without two slashes there is no [://]. *)
Lemma find_scheme_none s : Forall (λ c, c ≠ 47) s → find_str (lit "://") (s ++ [47]) = None.
Proof.
  induction 1 as [|c s Hc Hs IH]; [done|]. simpl.
  assert (starts_with (lit "://") (c :: s ++ [47]) = false) as ->; [|by rewrite IH].
  unfold starts_with. apply bool_decide_false. intros [r Hr]. apply strip_prefix_spec in Hr.
  destruct Hs as [|d s Hd Hs]; simplify_eq/=.
Qed.

(** The proxy's URL differs from the database's in host and port only: whenever
    the database URL can be split, it has the form scheme, credentials, host and
    port, path and query; the proxy connects to that host (at port 5432 if it names
    none), and the proxied URL has the same scheme, credentials, database name and
    query with the proxy's address in place of the host. *)
Theorem proxied_url_spec addr url prefix name query :
  Forall (λ c, c ≠ 47) addr →
  split_database_name url = Some (prefix, name, query) →
  ∃ scheme cred host,
    prefix = scheme ++ (cred ++ host) ++ [47] ∧ (cred = [] ∨ ∃ c, cred = c ++ [64]) ∧
    Forall (λ c, c ≠ 64 ∧ c ≠ 47) host ∧
    proxy_target url = Some (if contains 58 host then host else host ++ lit ":5432") ∧
    proxied_url addr url = Some (scheme ++ (cred ++ addr) ++ [47] ++ name ++ query) ∧
    split_database_name (scheme ++ (cred ++ addr) ++ [47] ++ name ++ query) =
      Some (scheme ++ (cred ++ addr) ++ [47], name, query).
Proof.
  intros Haddr Hs.
  destruct (split_database_name_spec _ _ _ _ Hs) as (Hurl & Hn & Hq & scheme & auth & -> & Ha & Hf & H3).
  destruct (authority_parts auth) as (cred & host & -> & Hcred & Hhost).
  pose proof Ha as [Hacred Hahost]%Forall_app.
  exists scheme, cred, host. split_and!; [done..|by apply Forall_and| | |].
  - unfold proxy_target, split_nth_1. rewrite Hs. simpl.
    pose proof (Hf []) as Hf0. rewrite app_nil_r in Hf0. rewrite Hf0. simpl.
    replace (length scheme - 3 + 3)%nat with (length scheme) by lia.
    rewrite drop_app_length, (find_scheme_none (cred ++ host)), trim_slash by done.
    rewrite no_at_Forall in Hhost. by rewrite rsplit_host.
  - unfold proxied_url. rewrite Hs. simpl.
    pose proof (Hf []) as Hf0. rewrite app_nil_r in Hf0. rewrite Hf0. simpl.
    replace (length scheme - 3 + 3)%nat with (length scheme) by lia.
    rewrite take_app_length.
    assert (drop (length scheme) (take (length (scheme ++ (cred ++ host) ++ [47]) - 1)
      (scheme ++ (cred ++ host) ++ [47])) = cred ++ host) as ->.
    { rewrite app_assoc. rewrite (length_app (scheme ++ _)). simpl.
      rewrite Nat.add_sub, take_app_length. apply drop_app_length. }
    destruct Hcred as [->|[c ->]].
    + rewrite rsplit_once_none by done. done.
    + rewrite <-app_assoc. simpl. rewrite rsplit_once_last by done. simpl.
      by rewrite <-!app_assoc.
  - replace (scheme ++ (cred ++ addr) ++ [47] ++ name ++ query)
      with ((scheme ++ (cred ++ addr) ++ [47]) ++ name ++ query) by by rewrite <-!app_assoc.
    apply split_database_name_build; [|done| |done|done].
    + intros rest. rewrite <-app_assoc. eapply find_str_app; [|].
      * specialize (Hf rest). rewrite <-app_assoc in Hf. exact Hf.
      * simpl. lia.
    + by apply Forall_app.
Qed.

Lemma proxied_url_spec_witness :
  ∃ scheme cred host,
    lit "postgres://u:p@localhost/" = scheme ++ (cred ++ host) ++ [47] ∧
    proxied_url (lit "127.0.0.1:4711") (lit "postgres://u:p@localhost/pulse_test") =
      Some (scheme ++ (cred ++ lit "127.0.0.1:4711") ++ [47] ++ lit "pulse_test" ++ []).
Proof.
  destruct (proxied_url_spec (lit "127.0.0.1:4711") (lit "postgres://u:p@localhost/pulse_test")
    (lit "postgres://u:p@localhost/") (lit "pulse_test") []) as (scheme & cred & host & H1 & _ & _ & _ & H2 & _).
  - repeat constructor; discriminate.
  - vm_compute. reflexivity.
  - exists scheme, cred, host. split; [exact H1|exact H2].
Defined.

(** ** Aging a row *)

Section aging.
Context `{SJ : SerdeJson}.
Implicit Types (db : Table) (r : Row).

(** [expire_lease] keeps the table well formed and makes exactly its event
    claimable from then on. *)
Lemma expire_lease_spec now id db db' :
  wf_table db → expire_lease now id db = Some db' →
  wf_table db' ∧
  (∃ r, db' !! EventId_as_uuid id = Some r ∧ ∀ now', now ≤ now' → claimable now' r = true) ∧
  ∀ i, i ≠ EventId_as_uuid id → db' !! i = db !! i.
Proof.
  intros Hwf. unfold expire_lease. destruct (db !! _) as [r|] eqn:Hr; simpl; [|done].
  case_bool_decide as Hst; [|done]. unfold update_row.
  destruct (content_changed _ _); [done|]. destruct (row_checks _) eqn:Hc; [|done].
  intros [= <-]. destruct (wf_rows _ Hwf _ _ Hr) as [Hid Hu _ Hs Ht Ha]. split_and!.
  - apply (wf_table_update db); [done|]. intros i r' [[<- <-]|[? Hi]]%lookup_insert_Some.
    + exists r. split_and!; [done..|]. by split.
    + exists r'. split_and!; [done..|by apply Hwf].
  - eexists. split; [by apply lookup_insert_eq|]. intros now' Hn. unfold claimable; simpl.
    rewrite Hst. simpl. lia.
  - intros i Hi. by apply lookup_insert_ne.
Qed.
End aging.
