(* ===== verification/TestDatabases.v ===== *)
(** * Disposable databases (TestDatabase of pulsestream-store's testing.rs)

    Many tests share one PostgreSQL server. Each creates a database of its own,
    works on it through a pool, and drops it at the end, also when it panics. The
    server is the map from database names to their contents. What the environment
    decides is an argument: the environment variable, the text of a fresh UUID,
    whether the server can be reached, and failures of the statements. Which database
    a URL reaches is up to the driver; what sqlx documents of that is a hypothesis
    ([driver_reads_path]), and it only covers URLs without a [dbname]. *)

From S2P Require Import Prelude Text Json Crates Reference Event Idempotency Net Config Schema Store.
From S2P Require Import Fixtures TestSupport.

(** ** URLs in which the path names the database *)

(** The parameters of a query, as written. *)
Definition query_params (query : str) : list (str * str) :=
  match query with
  | [] => []
  | _ :: q => (λ part,
      match find_char 61 part with
      | Some i => (take i part, drop (i + 1) part)
      | None => (part, [])
      end) <$> split (λ c, c =? 38) q
  end.

(** Parameter names without escapes, none of which is [dbname]. *)
Definition query_keeps_database (query : str) : bool :=
  forallb (λ p : str * str, forallb (λ c, plain_byte c || (c =? 45)) p.1 &&
    bool_decide (p.1 ≠ lit "dbname")) (query_params query).

(** A scheme of PostgreSQL and nothing that ends the authority before the path. *)
Definition ordinary_prefix (prefix : str) : bool :=
  (starts_with (lit "postgres://") prefix || starts_with (lit "postgresql://") prefix) &&
  forallb (λ c, (33 <=? c) && (c <=? 126) && negb (c =? 63) && negb (c =? 35) && negb (c =? 92)) prefix.

Definition ordinary_url (url : str) : bool :=
  match split_database_name url with
  | Some (prefix, _, query) => ordinary_prefix prefix && query_keeps_database query
  | None => true
  end.

Section databases.
Context `{SJ : SerdeJson}.

(** A database without schema, or with its [events] table. *)
Abbreviation Server := (gmap str (option Table)) (only parsing).
Implicit Types (srv : Server) (db : Table).

(** How the server reads a quoted identifier (it may cut it short), which database
    the driver reaches with a URL, and the URLs it accepts. *)
Context (ident reaches : str → str) (driver_accepts : str → bool).

Record TestDatabase := mkTestDatabase {
  td_store : PoolOptions;
  td_url : str;
  td_admin_url : str;
  td_name : str
}.
Implicit Types (td : TestDatabase).

(** [CREATE DATABASE] refuses a name that is taken. *)
Definition sql_create_database (name : str) srv : result SqlxError Server :=
  match srv !! ident name with
  | Some _ => Err (sql_error (lit "42P04"))
  | None => Ok (<[ident name := None]> srv)
  end.

(** [DROP DATABASE IF EXISTS ... WITH (FORCE)]. *)
Definition sql_drop_database (name : str) srv : Server := delete (ident name) srv.

(** [TestDatabase::create_empty]; [None] is a panic. *)
Definition create_empty (env : environment) (simple : str) (connected : bool)
    (fault : option CommitFault) srv : option TestDatabase * Server :=
  match env TEST_DATABASE_URL_VAR with
  | Err _ => (None, srv)
  | Ok admin_url =>
      match test_database (Some admin_url) simple with
      | Err _ => (None, srv)
      | Ok (name, url) =>
          if negb connected then (None, srv)
          else match sql_create_database name srv, fault with
          | Err _, _ => (None, srv)
          | Ok srv', Some f => (None, if cf_applied f then srv' else srv)
          | Ok srv', None =>
              match DatabaseUrl_parse url with
              | Err _ => (None, srv')
              | Ok parsed =>
                  match connect_lazy driver_accepts (DatabaseConfig_with_url parsed)
                    (lit "pulsestream-test") with
                  | Err _ => (None, srv')
                  | Ok store => (Some (mkTestDatabase store url admin_url name), srv')
                  end
              end
          end
      end
  end.

(** [Drop for TestDatabase]: errors are ignored. *)
Definition drop_database (connected dropped : bool) td srv : Server :=
  if connected && dropped then sql_drop_database (td_name td) srv else srv.

(** The migrations on the database a URL reaches; a second run changes nothing. *)
Definition migrate_database (url : str) srv : Server :=
  alter (λ contents, Some (default ∅ contents)) (reaches url) srv.

(** [TestDatabase::create]: the panic of a failed migration drops the database. *)
Definition create (env : environment) (simple : str) (connected : bool) (fault : option CommitFault)
    (migrated cleanup : bool) srv : option TestDatabase * Server :=
  match create_empty env simple connected fault srv with
  | (Some td, srv') =>
      if migrated then (Some td, migrate_database (td_url td) srv')
      else (None, drop_database cleanup cleanup td srv')
  | (None, srv') => (None, srv')
  end.

(** [TestDatabase::config]: settings for further pools; [None] is a panic. *)
Definition td_config td : option DatabaseConfig :=
  DatabaseConfig_with_url <$> ok (DatabaseUrl_parse (td_url td)).

(** ** Tests that run at the same time *)

Record Lab := mkLab { lab_server : Server; lab_live : list TestDatabase }.
Implicit Types (lab : Lab).

(** A test creates a database, with or without schema, does anything to its tables,
    or ends. *)
Inductive LabAction :=
| LA_create_empty (env : environment) (simple : str) (connected : bool) (fault : option CommitFault)
| LA_create (env : environment) (simple : str) (connected : bool) (fault : option CommitFault)
    (migrated cleanup : bool)
| LA_use (i : nat) (f : Table → Table)
| LA_end (i : nat) (connected dropped : bool).

Definition lab_add lab (r : option TestDatabase * Server) : Lab :=
  mkLab r.2 (match r.1 with Some td => td :: lab_live lab | None => lab_live lab end).

Definition lab_step (a : LabAction) lab : Lab :=
  let srv := lab_server lab in
  match a with
  | LA_create_empty env simple connected fault =>
      lab_add lab (create_empty env simple connected fault srv)
  | LA_create env simple connected fault migrated cleanup =>
      lab_add lab (create env simple connected fault migrated cleanup srv)
  | LA_use i f =>
      match lab_live lab !! i with
      | Some td => mkLab (alter (fmap f) (reaches (td_url td)) srv) (lab_live lab)
      | None => lab
      end
  | LA_end i connected dropped =>
      match lab_live lab !! i with
      | Some td => mkLab (drop_database connected dropped td srv) (delete i (lab_live lab))
      | None => lab
      end
  end.

Definition lab_run (l : list LabAction) lab : Lab := foldl (λ lab a, lab_step a lab) lab l.

(** What a test run is started with: the UUID crate prints 32 hex digits, and the
    administration URL, where it is set, is text without surprises. *)
Definition settings_ok (env : environment) (simple : str) : Prop :=
  simple_uuid simple ∧
  ∀ url, env TEST_DATABASE_URL_VAR = Ok url → valid_str url ∧ ordinary_url url = true.

Definition action_ok (a : LabAction) : Prop :=
  match a with
  | LA_create_empty env simple _ _ | LA_create env simple _ _ _ _ => settings_ok env simple
  | _ => True
  end.

(** Nothing panics and every drop succeeds. *)
Definition clean lab (a : LabAction) : Prop :=
  match a with
  | LA_create_empty env simple connected fault =>
      is_Some (create_empty env simple connected fault (lab_server lab)).1
  | LA_create env simple connected fault migrated cleanup =>
      is_Some (create env simple connected fault migrated cleanup (lab_server lab)).1
  | LA_use _ _ => True
  | LA_end _ connected dropped => connected && dropped = true
  end.

Fixpoint clean_run (l : list LabAction) lab : Prop :=
  match l with
  | [] => True
  | a :: l => clean lab a ∧ clean_run l (lab_step a lab)
  end.

(** ** The invariant *)

(** What sqlx documents of its URLs: the database is the path, percent-decoded,
    unless the query has a parameter [dbname]. A plain name needs no decoding. *)
Definition driver_reads_path : Prop := ∀ url prefix name query,
  split_database_name url = Some (prefix, name, query) → name ≠ [] → plain_name name →
  ordinary_prefix prefix = true → query_keeps_database query = true → reaches url = ident name.

Definition slot td : str := ident (td_name td).

Record lab_inv (srv0 : Server) lab : Prop := {
  li_kept : srv0 ⊆ lab_server lab;
  li_live : Forall (λ td, srv0 !! slot td = None ∧ is_Some (lab_server lab !! slot td) ∧
    reaches (td_url td) = slot td) (lab_live lab);
  li_distinct : NoDup (slot <$> lab_live lab)
}.

Section isolation.
Hypothesis Hdriver : driver_reads_path.

(** The pool of a disposable database reaches it. *)
Lemma test_database_reached admin simple name url :
  valid_str admin → simple_uuid simple → ordinary_url admin = true →
  test_database (Some admin) simple = Ok (name, url) → reaches url = ident name.
Proof.
  intros Hv Hs Hord Ht.
  destruct (guarded_name admin simple name url Hv Hs Ht)
    as (prefix & stem & query & Ha & Hplain & Hname & Hu).
  unfold ordinary_url in Hord. rewrite Ha in Hord. apply andb_true_iff in Hord as [Hp Hq].
  apply (Hdriver _ _ _ _ Hu); [|done..]. subst name. by destruct stem.
Qed.

(** What creating a database does to the server. *)
Lemma create_empty_inv env simple connected fault srv :
  settings_ok env simple →
  let '(r, srv') := create_empty env simple connected fault srv in
  srv' = srv ∧ r = None ∨
  ∃ name, srv !! ident name = None ∧ srv' = <[ident name := None]> srv ∧
    ∀ td, r = Some td → td_name td = name ∧ reaches (td_url td) = ident name.
Proof.
  intros [Hs Henv]. unfold create_empty.
  destruct (env _) as [admin|]; [|by left]. destruct (Henv admin eq_refl) as [Hv Hord].
  destruct (test_database _ _) as [[name url]|] eqn:Ht; [|by left].
  destruct connected; simpl; [|by left]. unfold sql_create_database.
  destruct (srv !! ident name) eqn:Hn; simpl; [by left|].
  pose proof (test_database_reached admin simple name url Hv Hs Hord Ht) as Hu.
  destruct fault as [f|]; [destruct (cf_applied f); [right|by left]; by exists name|].
  destruct (DatabaseUrl_parse url) as [parsed|]; [|right; by exists name].
  unfold connect_lazy. destruct (driver_accepts _); simpl; right; exists name; [|done].
  split_and!; [done..|]. by intros td [= <-].
Qed.

Lemma create_inv env simple connected fault migrated cleanup srv :
  settings_ok env simple →
  let '(r, srv') := create env simple connected fault migrated cleanup srv in
  srv' = srv ∧ r = None ∨
  ∃ name contents, srv !! ident name = None ∧ srv' = <[ident name := contents]> srv ∧
    ∀ td, r = Some td → td_name td = name ∧ reaches (td_url td) = ident name.
Proof.
  intros Hs. unfold create. pose proof (create_empty_inv env simple connected fault srv Hs) as H.
  destruct (create_empty _ _ _ _ _) as [[td|] srv'].
  - destruct H as [[_ ?]|(name & Hn & -> & Htd)]; [done|]. destruct (Htd td eq_refl) as [Hname Hr].
    destruct migrated.
    + right. exists name, (Some ∅). split_and!; [done| |by intros ? [= <-]].
      unfold migrate_database. rewrite Hr. by rewrite alter_insert_eq.
    + unfold drop_database. destruct cleanup; simpl.
      * left. split; [|done]. unfold sql_drop_database. by rewrite Hname, delete_insert_id.
      * right. by exists name, None.
  - destruct H as [[-> _]|(name & Hn & -> & _)]; [by left|right; by exists name, None].
Qed.

(** A step adds a database under a free name, or changes nothing else. *)
Definition adds lab (r : option TestDatabase * Server) : Prop :=
  r.2 = lab_server lab ∧ r.1 = None ∨
  ∃ name contents, lab_server lab !! ident name = None ∧
    r.2 = <[ident name := contents]> (lab_server lab) ∧
    ∀ td, r.1 = Some td → td_name td = name ∧ reaches (td_url td) = ident name.

Lemma create_empty_adds env simple connected fault lab :
  settings_ok env simple → adds lab (create_empty env simple connected fault (lab_server lab)).
Proof.
  intros Hs. pose proof (create_empty_inv env simple connected fault (lab_server lab) Hs) as H.
  destruct (create_empty _ _ _ _ _). destruct H as [?|(name & ? & ? & ?)]; [by left|].
  right. by exists name, None.
Qed.

Lemma create_adds env simple connected fault migrated cleanup lab :
  settings_ok env simple → adds lab (create env simple connected fault migrated cleanup (lab_server lab)).
Proof.
  intros Hs. pose proof (create_inv env simple connected fault migrated cleanup (lab_server lab) Hs) as H.
  by destruct (create _ _ _ _ _ _ _).
Qed.

Lemma lab_add_inv srv0 lab r : lab_inv srv0 lab → adds lab r → lab_inv srv0 (lab_add lab r).
Proof.
  intros [Hk Hl Hd] [[E1 E2]|(name & contents & Hn & E1 & Htd)]; destruct r as [r srv']; simpl in *.
  { subst. by split. }
  subst srv'. assert (Forall (λ td, slot td ≠ ident name) (lab_live lab)) as Hfresh.
  { eapply Forall_impl; [exact Hl|]. intros td (_ & [d Hs] & _) E. rewrite E in Hs. congruence. }
  assert (Forall (λ td, srv0 !! slot td = None ∧
    is_Some (<[ident name:=contents]> (lab_server lab) !! slot td) ∧
    reaches (td_url td) = slot td) (lab_live lab)) as Hl'.
  { eapply Forall_impl; [exact (proj2 (Forall_and _ _) (conj Hl Hfresh))|].
    intros td ((H1 & H2 & H3) & Hne). by rewrite lookup_insert_ne. }
  assert (srv0 !! ident name = None) as H0.
  { destruct (srv0 !! ident name) eqn:E; [|done]. by rewrite (lookup_weaken _ _ _ _ E Hk) in Hn. }
  split; simpl.
  - etransitivity; [exact Hk|]. by apply insert_subseteq.
  - destruct r as [td|]; [|done]. constructor; [|done]. destruct (Htd td eq_refl) as [E1 E2].
    unfold slot. rewrite E1. rewrite lookup_insert_eq. split_and!; [done|by eexists|done].
  - destruct r as [td|]; [|done]. simpl. constructor; [|done]. destruct (Htd td eq_refl) as [E1 _].
    unfold slot at 1. rewrite E1. intros (td' & E & Hin)%list_elem_of_fmap.
    rewrite Forall_forall in Hfresh. by apply (Hfresh td' Hin).
Qed.

(** What is left after the end of a test was there before, elsewhere in the list. *)
Lemma live_after_end (l : list TestDatabase) i j td :
  delete i l !! j = Some td → ∃ k, k ≠ i ∧ l !! k = Some td.
Proof.
  rewrite list_lookup_delete. intros H. eexists. split; [|exact H]. case_decide; lia.
Qed.

(** Two live databases in the same place are the same. *)
Lemma live_slot srv0 lab i j td td' :
  lab_inv srv0 lab → lab_live lab !! i = Some td → lab_live lab !! j = Some td' →
  slot td = slot td' → i = j.
Proof.
  intros [_ _ Hd] Hi Hj E. eapply (NoDup_lookup (slot <$> lab_live lab)); [done|..];
    by rewrite list_lookup_fmap, ?Hi, ?Hj; simpl; rewrite ?E.
Qed.

Lemma lab_step_inv srv0 lab a : action_ok a → lab_inv srv0 lab → lab_inv srv0 (lab_step a lab).
Proof.
  intros Ha Hinv. destruct a as [env simple connected fault|env simple connected fault migrated cleanup|i f|i connected dropped];
    simpl in *; [by apply lab_add_inv, create_empty_adds|by apply lab_add_inv, create_adds|..];
    destruct (lab_live lab !! i) as [td|] eqn:Hi; try done;
    destruct Hinv as [Hk Hl Hd] eqn:Ei; clear Ei; pose proof (Forall_lookup_1 _ _ _ _ Hl Hi) as (H0 & H1 & H2).
  - rewrite H2. split; simpl; [|eapply Forall_impl; [exact Hl|]|done].
    + apply map_subseteq_spec. intros n d Hn. rewrite lookup_alter_ne by (intros <-; congruence).
      by apply (lookup_weaken _ _ _ _ Hn).
    + intros td' (? & ? & ?). rewrite lookup_alter_is_Some. done.
  - unfold drop_database, sql_drop_database. split; simpl.
    + destruct (connected && dropped); [|done]. apply map_subseteq_spec. intros n d Hn.
      rewrite lookup_delete_ne by (intros <-; unfold slot in H0; congruence).
      by apply (lookup_weaken _ _ _ _ Hn).
    + apply Forall_lookup. intros j td' (k & Hne & Hk')%live_after_end.
      pose proof (Forall_lookup_1 _ _ _ _ Hl Hk') as (G0 & G1 & G2). split_and!; [done| |done].
      destruct (connected && dropped); [|done].
      rewrite lookup_delete_ne; [done|]. intros E.
      apply Hne. symmetry. by apply (live_slot srv0 lab i k td td').
    + eapply sublist_NoDup; [exact Hd|]. apply fmap_sublist, sublist_delete.
Qed.

Lemma lab_run_inv srv0 lab l :
  Forall action_ok l → lab_inv srv0 lab → lab_inv srv0 (lab_run l lab).
Proof.
  intros Hl. revert lab. induction Hl as [|a l Ha _ IH]; intros lab Hinv; [done|].
  by apply IH, lab_step_inv.
Qed.

(** A step that is not a use of a database leaves its contents alone. *)
Lemma lab_step_isolated srv0 lab a td :
  action_ok a → lab_inv srv0 lab → td ∈ lab_live lab → td ∈ lab_live (lab_step a lab) →
  (∀ i f, a = LA_use i f → lab_live lab !! i ≠ Some td) →
  lab_server (lab_step a lab) !! slot td = lab_server lab !! slot td.
Proof.
  intros Ha Hinv Hin Hin' Hu. pose proof Hinv as [_ Hl _].
  assert (is_Some (lab_server lab !! slot td)) as Hs by (rewrite Forall_forall in Hl; by apply Hl).
  assert (∀ r, adds lab r → lab_server (lab_add lab r) !! slot td = lab_server lab !! slot td) as Hadd.
  { intros r [[E _]|(name & contents & Hn & E & _)]; simpl; rewrite E; [done|].
    apply lookup_insert_ne. intros E'. rewrite E' in Hn. rewrite Hn in Hs. by destruct Hs. }
  destruct a as [env simple connected fault|env simple connected fault migrated cleanup|i f|i connected dropped];
    simpl in *; [by apply Hadd, create_empty_adds|by apply Hadd, create_adds|..];
    destruct (lab_live lab !! i) as [td'|] eqn:Hi; try done; simpl.
  - pose proof (Forall_lookup_1 _ _ _ _ Hl Hi) as (_ & _ & ->). apply lookup_alter_ne. intros E.
    apply list_elem_of_lookup in Hin as [j Hj].
    assert (i = j) as <- by by apply (live_slot srv0 lab i j td' td). apply (Hu i f eq_refl). congruence.
  - unfold drop_database. destruct (connected && dropped); [|done]. unfold sql_drop_database.
    apply lookup_delete_ne. intros E. simpl in Hin'.
    apply list_elem_of_lookup in Hin' as [j (k & Hne & Hk)%live_after_end].
    apply Hne. symmetry. by apply (live_slot srv0 lab i k td' td).
Qed.

(** ** Clean runs leave nothing behind *)

Definition no_residue (srv0 : Server) lab : Prop :=
  ∀ n d, lab_server lab !! n = Some d → srv0 !! n = Some d ∨ n ∈ slot <$> lab_live lab.

Lemma lab_add_residue srv0 lab r :
  adds lab r → is_Some r.1 → no_residue srv0 lab → no_residue srv0 (lab_add lab r).
Proof.
  intros [[_ E]|(name & contents & Hn & E & Htd)] [td Hr] Hres n d; [congruence|]. simpl.
  rewrite E, Hr. destruct (Htd td Hr) as [Hname _]. simpl. unfold slot at 1. rewrite Hname.
  rewrite lookup_insert_Some, elem_of_cons. intros [[<- _]|[_ H]]; [by right; left|].
  destruct (Hres n d H); [by left|by right; right].
Qed.

Lemma lab_step_residue srv0 lab a :
  action_ok a → lab_inv srv0 lab → clean lab a → no_residue srv0 lab →
  no_residue srv0 (lab_step a lab).
Proof.
  intros Ha Hinv Hc Hres.
  destruct a as [env simple connected fault|env simple connected fault migrated cleanup|i f|i connected dropped];
    simpl in *; [by apply lab_add_residue; [apply create_empty_adds|..]
                |by apply lab_add_residue; [apply create_adds|..]|..];
    destruct (lab_live lab !! i) as [td|] eqn:Hi; try done; intros n d; simpl;
    pose proof (Forall_lookup_1 _ _ _ _ (li_live _ _ Hinv) Hi) as (H0 & H1 & H2).
  - rewrite H2, lookup_alter_Some. intros [(<- & d' & Hd & ->)|[_ Hd]]; [|by eapply Hres].
    right. apply list_elem_of_fmap. exists td. split; [done|]. by eapply list_elem_of_lookup_2.
  - unfold drop_database. rewrite Hc. unfold sql_drop_database. rewrite lookup_delete_Some.
    intros [Hne Hd]. destruct (Hres n d Hd) as [|Hin]; [by left|right].
    apply list_elem_of_fmap in Hin as (td' & -> & Hin). apply list_elem_of_fmap. exists td'.
    split; [done|]. apply list_elem_of_lookup in Hin as [j Hj].
    assert (j ≠ i) by (intros ->; simplify_eq; done).
    destruct (decide (j < i)%nat).
    + apply list_elem_of_lookup. exists j. by rewrite list_lookup_delete_lt.
    + apply list_elem_of_lookup. exists (pred j). rewrite list_lookup_delete_ge by lia.
      by replace (S (pred j)) with j by lia.
Qed.

Lemma lab_run_residue srv0 lab l :
  Forall action_ok l → lab_inv srv0 lab → clean_run l lab → no_residue srv0 lab →
  no_residue srv0 (lab_run l lab).
Proof.
  intros Hl. revert lab. induction Hl as [|a l Ha _ IH]; intros lab Hinv Hc Hres; [done|].
  destruct Hc as [Hc Hcl]. apply IH; [by apply lab_step_inv|done|by apply lab_step_residue].
Qed.

Lemma lab_init_inv srv0 : lab_inv srv0 (mkLab srv0 []).
Proof. by split; [..|constructor]. Qed.
End isolation.
End databases.

(** C36. Tests only ever touch databases they created, provided that the URL in
    PULSESTREAM_TEST_DATABASE_URL is an ordinary one: a PostgreSQL scheme, an
    authority of visible ASCII characters without a question mark, number sign or
    backslash, and a query whose parameter names are plain and none of them [dbname],
    so that the driver reaches the database the path names. Whatever number of tests
    run at the same time on one server, with any failures and panics, and whatever
    they do to their own tables: every database that was there before keeps its
    contents, the databases of live tests are distinct, new and still there, a step
    of one test never changes the database of another, and when no test is left,
    nothing panicked and every drop succeeded, the server is as it was. *)
Theorem test_databases_isolated `{SJ : SerdeJson} ident reaches driver_accepts srv0 l :
  driver_reads_path ident reaches → Forall action_ok l →
  let step := lab_step ident reaches driver_accepts in
  let lab := lab_run ident reaches driver_accepts l (mkLab srv0 []) in
  srv0 ⊆ lab_server lab ∧ NoDup (slot ident <$> lab_live lab) ∧
  (∀ td, td ∈ lab_live lab →
    srv0 !! slot ident td = None ∧ is_Some (lab_server lab !! slot ident td)) ∧
  (∀ a td, action_ok a → td ∈ lab_live lab → td ∈ lab_live (step a lab) →
    (∀ i f, a = LA_use i f → lab_live lab !! i ≠ Some td) →
    lab_server (step a lab) !! slot ident td = lab_server lab !! slot ident td) ∧
  (clean_run ident reaches driver_accepts l (mkLab srv0 []) → lab_live lab = [] →
    lab_server lab = srv0).
Proof.
  intros Hdriver Hl step lab.
  assert (lab_inv ident reaches srv0 lab) as Hinv.
  { apply lab_run_inv; [done..|]. apply lab_init_inv. }
  pose proof Hinv as [Hk Hlive Hd]. split_and!; [done..| | |].
  - intros td Hin. rewrite Forall_forall in Hlive. by destruct (Hlive td Hin) as (? & ? & _).
  - intros a td Ha Hin Hin' Hu. by eapply lab_step_isolated.
  - intros Hc Hnil.
    assert (no_residue ident srv0 lab) as Hres.
    { apply lab_run_residue with (reaches := reaches); [done..|by apply lab_init_inv|done|].
      intros n d. by left. }
    apply (anti_symm (⊆)); [|done]. apply map_subseteq_spec. intros n d Hn.
    destruct (Hres n d Hn) as [|Hin]; [done|]. rewrite Hnil in Hin. by apply not_elem_of_nil in Hin.
Qed.

(** A server that cuts names to 63 characters, and a driver that reads the path
    unless a [dbname] follows. *)
Definition ident_ref (name : str) : str := take 63 name.
Definition reaches_ref (url : str) : str :=
  match split_database_name url with
  | Some (_, name, query) =>
      match last (filter (λ p : str * str, p.1 = lit "dbname") (query_params query)) with
      | Some (_, dbname) => ident_ref dbname
      | None => ident_ref name
      end
  | None => []
  end.

Lemma reaches_ref_path : driver_reads_path ident_ref reaches_ref.
Proof.
  intros url prefix name query E _ _ _ Hq. unfold reaches_ref. rewrite E.
  unfold query_keeps_database in Hq. apply forallb_Forall in Hq.
  destruct (last _) as [p|] eqn:Hl; [exfalso|done]. apply last_Some_elem_of in Hl.
  apply list_elem_of_filter in Hl as [Hp Hin]. rewrite Forall_forall in Hq.
  specialize (Hq p Hin). simpl in Hq. apply andb_true_iff in Hq as [_ Hne].
  by apply bool_decide_eq_true in Hne.
Qed.

Definition test_env : environment := λ key,
  if bool_decide (key = TEST_DATABASE_URL_VAR)
  then Ok (lit "postgres://u:p@localhost:5432/pulse_test") else Err NotPresent.

Lemma test_env_ok simple : simple_uuid simple → settings_ok test_env simple.
Proof. intros Hs. split; [done|]. intros url [= <-]. split; [repeat constructor|]. by vm_compute. Qed.

Definition sample_server : gmap str (option (gmap Uuid Row)) :=
  {[ lit "pulse_test" := None; lit "prod" := Some sample_db ]}.

(** Two tests create their databases, one empties its table, both end. *)
Definition sample_lab : list LabAction := [
  LA_create test_env (lit "0123456789abcdef0123456789abcdef") true None true true;
  LA_create test_env (lit "fedcba9876543210fedcba9876543210") true None true true;
  LA_use 0 (λ _, ∅);
  LA_end 0 true true;
  LA_end 0 true true
].

Lemma test_databases_isolated_witness :
  lab_server (lab_run ident_ref reaches_ref (λ _, true) sample_lab (mkLab sample_server [])) =
    sample_server ∧
  length (lab_live (lab_run ident_ref reaches_ref (λ _, true) (take 2 sample_lab)
    (mkLab sample_server []))) = 2%nat.
Proof.
  split; [|vm_compute; reflexivity].
  destruct (test_databases_isolated ident_ref reaches_ref (λ _, true) sample_server sample_lab)
    as (_ & _ & _ & _ & H).
  - exact reaches_ref_path.
  - repeat (apply Forall_cons; split); [apply test_env_ok; repeat constructor..|exact I|exact I|exact I|].
    apply Forall_nil. exact I.
  - apply H.
    + vm_compute. split_and!; by try eexists.
    + vm_compute. reflexivity.
Defined.

(** The condition on the query is needed: the guard looks at the path only. With an
    administration URL that passes it and a [dbname], the pool of a new test database
    reaches the database that parameter names, and what the test does is done there. *)
Definition dbname_env : environment := λ key,
  if bool_decide (key = TEST_DATABASE_URL_VAR)
  then Ok (lit "postgres://u:p@localhost:5432/pulse_test?dbname=prod") else Err NotPresent.

Lemma guard_overlooks_dbname :
  let lab := lab_run ident_ref reaches_ref (λ _, true)
    [LA_create dbname_env (lit "0123456789abcdef0123456789abcdef") true None true true;
     LA_use 0 (λ _, ∅)] (mkLab sample_server []) in
  td_name <$> lab_live lab = [lit "pulse_test_0123456789ab"] ∧
  sample_server !! lit "prod" = Some (Some sample_db) ∧ sample_db ≠ ∅ ∧
  lab_server lab !! lit "prod" = Some (Some ∅).
Proof. split_and!; [vm_compute; reflexivity..|discriminate|vm_compute; reflexivity]. Qed.
