(* ===== verification/Gated.v ===== *)
(** * The gated processor (testing.rs of pulsestream-worker)

    The processor the worker's tests use: it counts what runs at the same time,
    notices an event that is processed twice at once, and blocks each event until
    the test releases it. The calls of [process] run on several threads, so each of
    its operations on a shared field (one atomic read-modify-write, or one critical
    section of a mutex or semaphore) is a step of its own, and the steps of different
    calls interleave in any order. A call that is cancelled while it waits at the gate
    takes no further step. *)

From S2P Require Import Prelude Text Json Crates Event Runtime.

Record GatedProcessor := mkGatedProcessor {
  gate : option Z;
  started_signal : Z;
  gp_started : Z;
  gp_current : Z;
  gp_max_observed : Z;
  gp_completed : Z;
  gp_seen : list EventId;
  gp_active : gset Uuid;
  gp_overlaps : Z
}.

Definition fetch_sub (c : Z) : Z := (c - 1) mod 2 ^ 64.

Definition gated_build (g : option Z) : GatedProcessor := mkGatedProcessor g 0 0 0 0 0 [] ∅ 0.
Definition gated_new : GatedProcessor := gated_build (Some 0).
Definition gated_open : GatedProcessor := gated_build None.

Definition gated_release (n : Z) (p : GatedProcessor) : GatedProcessor :=
  mkGatedProcessor ((λ g, g + n) <$> gate p) (started_signal p) (gp_started p) (gp_current p)
    (gp_max_observed p) (gp_completed p) (gp_seen p) (gp_active p) (gp_overlaps p).

(** [acquire_many(n)]: waits ([None]) until there are enough permits. *)
Definition wait_started (n : Z) (p : GatedProcessor) : option GatedProcessor :=
  if n <=? started_signal p then
    Some (mkGatedProcessor (gate p) (started_signal p - n) (gp_started p) (gp_current p)
      (gp_max_observed p) (gp_completed p) (gp_seen p) (gp_active p) (gp_overlaps p))
  else None.

(** ** The operations of [process] on the shared fields, in program order *)

(** [current.fetch_add(1) + 1]. *)
Definition gated_enter (p : GatedProcessor) : Z * GatedProcessor :=
  (gp_current p + 1,
   mkGatedProcessor (gate p) (started_signal p) (gp_started p) (fetch_add (gp_current p))
     (gp_max_observed p) (gp_completed p) (gp_seen p) (gp_active p) (gp_overlaps p)).

(** [max_observed.fetch_max(now)]. *)
Definition gated_observe (now : Z) (p : GatedProcessor) : GatedProcessor :=
  mkGatedProcessor (gate p) (started_signal p) (gp_started p) (gp_current p)
    (Z.max (gp_max_observed p) now) (gp_completed p) (gp_seen p) (gp_active p) (gp_overlaps p).

(** [seen.lock().push(event.id)]. *)
Definition gated_see (id : EventId) (p : GatedProcessor) : GatedProcessor :=
  mkGatedProcessor (gate p) (started_signal p) (gp_started p) (gp_current p) (gp_max_observed p)
    (gp_completed p) (gp_seen p ++ [id]) (gp_active p) (gp_overlaps p).

(** [active.lock().insert(event.id)], which says whether the event is new. *)
Definition gated_activate (id : EventId) (p : GatedProcessor) : bool * GatedProcessor :=
  (bool_decide (EventId_as_uuid id ∉ gp_active p),
   mkGatedProcessor (gate p) (started_signal p) (gp_started p) (gp_current p) (gp_max_observed p)
     (gp_completed p) (gp_seen p) ({[EventId_as_uuid id]} ∪ gp_active p) (gp_overlaps p)).

(** [overlaps.fetch_add(1)]. *)
Definition gated_overlap (p : GatedProcessor) : GatedProcessor :=
  mkGatedProcessor (gate p) (started_signal p) (gp_started p) (gp_current p) (gp_max_observed p)
    (gp_completed p) (gp_seen p) (gp_active p) (fetch_add (gp_overlaps p)).

(** [started.fetch_add(1)]. *)
Definition gated_count_started (p : GatedProcessor) : GatedProcessor :=
  mkGatedProcessor (gate p) (started_signal p) (fetch_add (gp_started p)) (gp_current p)
    (gp_max_observed p) (gp_completed p) (gp_seen p) (gp_active p) (gp_overlaps p).

(** [started_signal.add_permits(1)]. *)
Definition gated_signal (p : GatedProcessor) : GatedProcessor :=
  mkGatedProcessor (gate p) (started_signal p + 1) (gp_started p) (gp_current p)
    (gp_max_observed p) (gp_completed p) (gp_seen p) (gp_active p) (gp_overlaps p).

(** The await: [gate.acquire()] waits ([None]) for a permit and forgets it; without a
    gate the call only yields. *)
Definition gated_pass (p : GatedProcessor) : option GatedProcessor :=
  match gate p with
  | None => Some p
  | Some g =>
      if 0 <? g then
        Some (mkGatedProcessor (Some (g - 1)) (started_signal p) (gp_started p) (gp_current p)
          (gp_max_observed p) (gp_completed p) (gp_seen p) (gp_active p) (gp_overlaps p))
      else None
  end.

(** [active.lock().remove(&event.id)]. *)
Definition gated_deactivate (id : EventId) (p : GatedProcessor) : GatedProcessor :=
  mkGatedProcessor (gate p) (started_signal p) (gp_started p) (gp_current p) (gp_max_observed p)
    (gp_completed p) (gp_seen p) (gp_active p ∖ {[EventId_as_uuid id]}) (gp_overlaps p).

(** [current.fetch_sub(1)]. *)
Definition gated_leave (p : GatedProcessor) : GatedProcessor :=
  mkGatedProcessor (gate p) (started_signal p) (gp_started p) (fetch_sub (gp_current p))
    (gp_max_observed p) (gp_completed p) (gp_seen p) (gp_active p) (gp_overlaps p).

(** [completed.fetch_add(1)]. *)
Definition gated_count_completed (p : GatedProcessor) : GatedProcessor :=
  mkGatedProcessor (gate p) (started_signal p) (gp_started p) (gp_current p) (gp_max_observed p)
    (fetch_add (gp_completed p)) (gp_seen p) (gp_active p) (gp_overlaps p).

(** ** [process] *)

(** The operation a call is about to execute; [P_max] holds its local [now]. *)
Inductive CallPc :=
| P_max (now : Z)
| P_seen
| P_active
| P_overlap
| P_started
| P_signal
| P_gate
| P_remove
| P_current
| P_completed.

(** One operation of a call that has entered: where it is then ([None] is its return),
    or [None] while it waits at the gate. *)
Definition call_step (id : EventId) (pc : CallPc) (p : GatedProcessor)
    : option (option CallPc * GatedProcessor) :=
  match pc with
  | P_max now => Some (Some P_seen, gated_observe now p)
  | P_seen => Some (Some P_active, gated_see id p)
  | P_active =>
      let '(fresh, p) := gated_activate id p in
      Some (Some (if fresh then P_started else P_overlap), p)
  | P_overlap => Some (Some P_started, gated_overlap p)
  | P_started => Some (Some P_signal, gated_count_started p)
  | P_signal => Some (Some P_gate, gated_signal p)
  | P_gate => p ← gated_pass p; Some (Some P_remove, p)
  | P_remove => Some (Some P_current, gated_deactivate id p)
  | P_current => Some (Some P_completed, gated_leave p)
  | P_completed => Some (None, gated_count_completed p)
  end.

(** [testing::event]: a valid event for tests ([None] is the panic of [expect]). *)
Definition test_event `{SerdeJson} (one : Number) (v4 : Uuid) (now : SystemTime) : option Event :=
  ok (Event_new v4 now (lit "test-source") (lit "test.event") (VObject [(lit "n", VNumber one)])).

Lemma test_event_valid `{SerdeJson} one v4 now : is_Some (test_event one v4 now).
Proof. by eexists. Qed.

(** ** Interleavings *)

(** Between its insertion into and its removal from [active]. *)
Definition holds (pc : CallPc) : bool :=
  match pc with P_overlap | P_started | P_signal | P_gate | P_remove => true | _ => false end.

(** Between the increment and the decrement of [current]. *)
Definition inside (pc : CallPc) : bool := match pc with P_completed => false | _ => true end.

(** Before the operation that lists, counts or signals the start, or before the gate. *)
Definition unlisted (pc : CallPc) : bool := match pc with P_max _ | P_seen => true | _ => false end.
Definition uncounted (pc : CallPc) : bool :=
  match pc with P_max _ | P_seen | P_active | P_overlap | P_started => true | _ => false end.
Definition unsignalled (pc : CallPc) : bool :=
  match pc with P_signal => true | pc => uncounted pc end.
Definition waiting (pc : CallPc) : bool := match pc with P_gate => true | pc => unsignalled pc end.

Definition at_max (pc : CallPc) : bool := match pc with P_max _ => true | _ => false end.
Definition at_overlap (pc : CallPc) : bool := match pc with P_overlap => true | _ => false end.

(** The calls in progress, and how many of them are where [f] says. *)
Abbreviation Calls := (list (EventId * CallPc)) (only parsing).

Definition one_if (b : bool) : Z := if b then 1 else 0.

Fixpoint count (f : CallPc → bool) (calls : Calls) : Z :=
  match calls with
  | [] => 0
  | c :: calls => one_if (f c.2) + count f calls
  end.

Definition where_ (f : CallPc → bool) (calls : Calls) : list EventId :=
  (filter (λ c, f c.2 = true) calls).*1.

(** Calls of [process] in any number of tasks, and the test's calls. On the side: the
    events of all calls, the most calls that were inside at once, whether no event was
    ever held by two calls at once, and the permits released, used and waited for. *)
Record GatedRun := mkGatedRun {
  gr_proc : GatedProcessor;
  gr_calls : Calls;
  gr_begun : list EventId;
  gr_peak : Z;
  gr_distinct : bool;
  gr_released : Z;
  gr_passed : Z;
  gr_waited : Z
}.
Implicit Types (g : GatedRun) (p : GatedProcessor) (calls : Calls).

(** A call enters, the [i]th call executes its next operation, or the test releases
    or waits. *)
Inductive GatedAction :=
| G_call (id : EventId)
| G_step (i : nat)
| G_release (n : nat)
| G_wait (n : nat).

(** The call that moved comes first. *)
Definition gated_step (a : GatedAction) g : option GatedRun :=
  match a with
  | G_call id =>
      let '(now, p) := gated_enter (gr_proc g) in
      let calls := (id, P_max now) :: gr_calls g in
      Some (mkGatedRun p calls (gr_begun g ++ [id]) (Z.max (gr_peak g) (count inside calls))
        (gr_distinct g) (gr_released g) (gr_passed g) (gr_waited g))
  | G_step i =>
      '(id, pc) ← gr_calls g !! i;
      '(next, p) ← call_step id pc (gr_proc g);
      let others := delete i (gr_calls g) in
      let calls := match next with Some pc' => (id, pc') :: others | None => others end in
      let distinct :=
        match pc with P_active => bool_decide (id ∉ where_ holds others) | _ => true end in
      let passed := match pc with P_gate => 1 | _ => 0 end in
      Some (mkGatedRun p calls (gr_begun g) (gr_peak g) (gr_distinct g && distinct) (gr_released g)
        (gr_passed g + passed) (gr_waited g))
  | G_release n =>
      Some (mkGatedRun (gated_release (Z.of_nat n) (gr_proc g)) (gr_calls g) (gr_begun g) (gr_peak g)
        (gr_distinct g) (gr_released g + Z.of_nat n) (gr_passed g) (gr_waited g))
  | G_wait n =>
      p ← wait_started (Z.of_nat n) (gr_proc g);
      Some (mkGatedRun p (gr_calls g) (gr_begun g) (gr_peak g) (gr_distinct g) (gr_released g)
        (gr_passed g) (gr_waited g + Z.of_nat n))
  end.

Definition gated_start p : GatedRun := mkGatedRun p [] [] 0 true 0 0 0.

Fixpoint gated_run (l : list GatedAction) g : option GatedRun :=
  match l with
  | [] => Some g
  | a :: l => g' ← gated_step a g; gated_run l g'
  end.

(** ** Counting calls *)

Lemma count_range f calls : 0 ≤ count f calls ≤ Z.of_nat (length calls).
Proof. induction calls as [|c calls IH]; simpl; [lia|]. unfold one_if. destruct (f c.2); lia. Qed.

Lemma count_mono (f h : CallPc → bool) calls :
  (∀ pc, f pc = true → h pc = true) → count f calls ≤ count h calls.
Proof.
  intros Hfh. induction calls as [|c calls IH]; simpl; [done|].
  specialize (Hfh c.2). unfold one_if. destruct (f c.2), (h c.2); try lia; by discriminate Hfh.
Qed.

#[global] Instance count_perm f : Proper ((≡ₚ) ==> (=)) (count f).
Proof. induction 1; simpl; lia. Qed.

#[global] Instance where_perm f : Proper ((≡ₚ) ==> (≡ₚ)) (where_ f).
Proof. intros c c' H. unfold where_. by rewrite H. Qed.

Lemma where_cons f c calls :
  where_ f (c :: calls) = if f c.2 then c.1 :: where_ f calls else where_ f calls.
Proof. unfold where_. rewrite filter_cons. by destruct (f c.2). Qed.

#[global] Instance EventId_as_uuid_inj : Inj (=) (=) EventId_as_uuid.
Proof. intros [] []. simpl. congruence. Qed.

Lemma fetch_add_small c : 0 ≤ c < 2 ^ 64 - 1 → fetch_add c = c + 1.
Proof. intros Hc. unfold fetch_add. apply Z.mod_small. lia. Qed.

Lemma fetch_sub_small c : 0 < c < 2 ^ 64 → fetch_sub c = c - 1.
Proof. intros Hc. unfold fetch_sub. apply Z.mod_small. lia. Qed.

(** ** The invariant *)

(** The ids of [active], while no event was held twice. *)
Definition active_exact p calls : Prop :=
  NoDup (where_ holds calls) ∧ gp_active p = list_to_set (EventId_as_uuid <$> where_ holds calls).

(** [max_observed] is the peak, or a call is about to raise it to the peak. *)
Definition peak_ok (m peak : Z) calls : Prop :=
  m ≤ peak ∧ (∀ id now, (id, P_max now) ∈ calls → now ≤ peak) ∧
  (m = peak ∨ ∃ id, (id, P_max peak) ∈ calls).

(** The fields after [k] steps, in terms of the calls in progress. *)
Record gated_inv (permits : option nat) (k : Z) g : Prop := {
  gi_begun : Z.of_nat (length (gr_begun g)) ≤ k;
  gi_current : gp_current (gr_proc g) = count inside (gr_calls g);
  gi_seen : gp_seen (gr_proc g) ++ where_ unlisted (gr_calls g) ≡ₚ gr_begun g;
  gi_started : 0 ≤ gp_started (gr_proc g) ∧
    gp_started (gr_proc g) + count uncounted (gr_calls g) = Z.of_nat (length (gr_begun g));
  gi_signal : 0 ≤ started_signal (gr_proc g) ∧
    started_signal (gr_proc g) + gr_waited g + count unsignalled (gr_calls g) =
      Z.of_nat (length (gr_begun g));
  gi_completed : 0 ≤ gp_completed (gr_proc g) ∧
    gp_completed (gr_proc g) + Z.of_nat (length (gr_calls g)) = Z.of_nat (length (gr_begun g));
  gi_passed : gr_passed g + count waiting (gr_calls g) = Z.of_nat (length (gr_begun g));
  gi_overlaps : 0 ≤ gp_overlaps (gr_proc g) ≤ k ∧
    (gp_overlaps (gr_proc g) + count at_overlap (gr_calls g) = 0 ↔ gr_distinct g = true);
  gi_active : gr_distinct g = true → active_exact (gr_proc g) (gr_calls g);
  gi_peak : peak_ok (gp_max_observed (gr_proc g)) (gr_peak g) (gr_calls g);
  gi_gate : gate (gr_proc g) = (λ n, Z.of_nat n + gr_released g - gr_passed g) <$> permits ∧
    ∀ n, permits = Some n → gr_passed g ≤ Z.of_nat n + gr_released g
}.

Lemma gated_start_inv permits : gated_inv permits 0 (gated_start (gated_build (Z.of_nat <$> permits))).
Proof.
  split; simpl; try done; try lia.
  - intros _. split; [constructor|done].
  - split_and!; [done| |by left]. by intros ? ? ?%not_elem_of_nil.
  - split; [|intros; lia]. destruct permits; simpl; f_equal; lia.
Qed.

(** The order of the calls does not matter. *)
Lemma gated_inv_perm permits k p calls calls' begun peak distinct released passed waited :
  calls ≡ₚ calls' →
  gated_inv permits k (mkGatedRun p calls begun peak distinct released passed waited) →
  gated_inv permits k (mkGatedRun p calls' begun peak distinct released passed waited).
Proof.
  intros Hp [H1 H2 H3 H4 H5 H6 H7 H8 H9 H10 H11]. simpl in *.
  split; simpl; rewrite <-?Hp; try done.
  - intros Hd. destruct (H9 Hd) as [Hnd Ha]. split; [by rewrite <-Hp|]. simpl in Ha. rewrite Ha.
    apply list_to_set_perm_L. by rewrite Hp.
  - unfold peak_ok. setoid_rewrite <-Hp. done.
Qed.

Lemma enter_inv permits k id g g' :
  0 ≤ k < 2 ^ 64 - 1 → gated_inv permits k g → gated_step (G_call id) g = Some g' →
  gated_inv permits (k + 1) g'.
Proof.
  intros Hk [H1 H2 H3 H4 H5 H6 H7 H8 H9 (Hm & Hp & Hw) H11] [= <-].
  pose proof (count_range inside (gr_calls g)) as Hc.
  split; simpl; rewrite ?length_app; simpl; try lia.
  - rewrite fetch_add_small; lia.
  - rewrite where_cons; simpl. rewrite (Permutation_cons_append (where_ _ _)), app_assoc. by rewrite H3.
  - destruct H8 as [? H8]. split; [lia|]. by rewrite Z.add_0_l.
  - intros Hd. destruct (H9 Hd) as [? ?]. by split; rewrite where_cons.
  - split_and!; [lia| |].
    + intros id' now' [[= -> ->]|Hin]%elem_of_cons; [lia|]. specialize (Hp _ _ Hin). lia.
    + destruct (Z.le_gt_cases (gp_current (gr_proc g) + 1) (gr_peak g)).
      * rewrite Z.max_l by lia. destruct Hw as [|[id' ?]]; [by left|right; exists id'; by right].
      * right. exists id. apply elem_of_cons. left. do 2 f_equal. unfold one_if. lia.
  - done.
Qed.

(** *** One operation of a call *)

(** The operations that insert into and remove from [active]. *)
Lemma activate_exact p id others :
  active_exact p others →
  bool_decide (EventId_as_uuid id ∉ gp_active p) = bool_decide (id ∉ where_ holds others).
Proof.
  intros [_ ->]. apply bool_decide_ext. rewrite elem_of_list_to_set, list_elem_of_fmap_inj by apply _. done.
Qed.

Lemma deactivate_exact p id calls :
  active_exact p ((id, P_remove) :: calls) → active_exact (gated_deactivate id p) calls.
Proof.
  intros [Hnd Ha]. rewrite where_cons in Hnd, Ha. simpl in Hnd, Ha.
  apply NoDup_cons in Hnd as [Hni Hnd]. split; [done|]. simpl. rewrite Ha.
  rewrite difference_union_distr_l_L, difference_diag_L, (left_id_L ∅ union).
  apply difference_disjoint_L.
  rewrite disjoint_singleton_r, elem_of_list_to_set, list_elem_of_fmap_inj by apply _. done.
Qed.

(** A call moves between two places that hold its event, or between two that do not. *)
Lemma active_exact_move p p' id pc pc' calls :
  gp_active p' = gp_active p → holds pc' = holds pc →
  active_exact p ((id, pc) :: calls) → active_exact p' ((id, pc') :: calls).
Proof. intros Hp Hh [Hnd Ha]. rewrite where_cons in *. simpl in *. split; rewrite where_cons, ?Hp; simpl; by rewrite Hh. Qed.

(** The first call leaves [P_max], or was not there. *)
Lemma peak_move id pc calls peak m m' :
  peak_ok m peak ((id, pc) :: calls) → m ≤ m' ≤ peak → (∀ now, pc = P_max now → now ≤ m') →
  peak_ok m' peak calls.
Proof.
  intros (_ & Hle & Hw) Hm Hnow. split_and!; [lia| |].
  - intros i now Hin. apply (Hle i). by right.
  - destruct Hw as [->|[i [[= _ E]|Hin]%elem_of_cons]]; [left; lia| |right; by exists i].
    left. specialize (Hnow peak (eq_sym E)). lia.
Qed.

Lemma peak_cons id pc calls peak m :
  at_max pc = false → peak_ok m peak calls → peak_ok m peak ((id, pc) :: calls).
Proof.
  intros Hpc (Hm & Hle & Hw). split_and!; [done| |].
  - intros i now [[= _ E]|Hin]%elem_of_cons; [by subst pc|]. by eapply Hle.
  - destruct Hw as [|[i ?]]; [by left|right; exists i; by right].
Qed.

(** The part of the invariant that only counts. *)
Ltac count_calls :=
  simpl in *; unfold one_if in *; rewrite ?fetch_add_small, ?fetch_sub_small by lia; lia.

(** What an operation leaves to show for the fields it does not touch. *)
Ltac easy_fields H8' H9 Hpeak := split; simpl; first
    [ lazymatch goal with |- _ ++ where_ _ _ ≡ₚ _ => fail | |- peak_ok _ _ _ => fail | |- _ => idtac end;
      first [done | count_calls]
    | lazymatch goal with
      | |- _ = true → active_exact _ _ =>
          intros Hd; eapply active_exact_move; [| |by apply H9]; done
      | |- peak_ok _ _ (_ :: _) => apply peak_cons; [done|]; auto
      | |- 0 ≤ gp_overlaps _ ≤ _ ∧ _ => split; [lia|exact H8']
      | |- gate _ = _ ∧ _ => auto
      | |- _ ++ where_ _ _ ≡ₚ _ => rewrite ?where_cons; simpl; rewrite <-?app_assoc; done
      end
    | idtac ].

Lemma call_inv permits k id pc others p begun peak distinct released passed waited next p' :
  0 ≤ k < 2 ^ 64 - 1 →
  gated_inv permits k (mkGatedRun p ((id, pc) :: others) begun peak distinct released passed waited) →
  call_step id pc p = Some (next, p') →
  gated_inv permits (k + 1) (mkGatedRun p'
    (match next with Some pc' => (id, pc') :: others | None => others end) begun peak
    (distinct && match pc with P_active => bool_decide (id ∉ where_ holds others) | _ => true end)
    released (passed + match pc with P_gate => 1 | _ => 0 end) waited).
Proof.
  intros Hk [H1 H2 H3 H4 H5 H6 H7 [H8 H8'] H9 Hpk Hg] Hstep. simpl in *.
  pose proof (count_range inside others) as R1. pose proof (count_range uncounted others) as R2.
  pose proof (count_range at_overlap others) as R3.
  rewrite where_cons in H3. simpl in H3.
  assert (∀ m, pc ≠ P_gate → m = passed + 0 → gate p = (λ n, Z.of_nat n + released - m) <$> permits ∧
    (∀ n, permits = Some n → m ≤ Z.of_nat n + released)) as Hgate
    by (intros m _ ->; by rewrite Z.add_0_r).
  assert ((∀ now, pc ≠ P_max now) → peak_ok (gp_max_observed p) peak others) as Hpeak.
  { intros Hne. eapply peak_move; [done| |by intros now ?%Hne]. by destruct Hpk. }
  destruct pc; simpl in *; simplify_eq/=; rewrite ?andb_true_r.
  - (* P_max *)
    assert (now ≤ peak) by (destruct Hpk as (_ & Hle & _); apply (Hle id); by left).
    easy_fields H8' H9 Hpeak.
    eapply peak_move; [done|destruct Hpk; lia|intros ? [= <-]; lia].
  - easy_fields H8' H9 Hpeak.
  - (* P_active *)
    destruct distinct; simpl in *.
    + assert (active_exact p others) as Hex
        by (destruct (H9 eq_refl) as [Hnd Ha]; by rewrite where_cons in Hnd, Ha).
      rewrite (activate_exact p id others Hex). destruct Hex as [Hnd Ha].
      case_bool_decide as Hin; simpl; easy_fields H8' H9 Hpeak.
      intros _. split; rewrite where_cons; simpl; [by constructor|by rewrite Ha].
    + assert (gp_overlaps p + count at_overlap others ≠ 0) by (intros E; by apply H8' in E).
      case_bool_decide; simpl; easy_fields H8' H9 Hpeak.
  - (* P_overlap *)
    easy_fields H8' H9 Hpeak. rewrite fetch_add_small by lia. split; [lia|]. rewrite <-H8'. lia.
  - easy_fields H8' H9 Hpeak.
  - easy_fields H8' H9 Hpeak.
  - (* P_gate *)
    destruct Hg as [Hg Hn]. unfold gated_pass in Hstep. rewrite Hg in Hstep.
    destruct permits as [n|]; simpl in *;
      [destruct (Z.ltb_spec 0 (Z.of_nat n + released - passed)); [|done]|]; simplify_eq/=;
      easy_fields H8' H9 Hpeak.
    split; [f_equal; lia|]. intros ? [= <-]. lia.
  - (* P_remove *) easy_fields H8' H9 Hpeak.
    intros Hd. destruct (deactivate_exact p id others (H9 Hd)) as [? ?]. by split; rewrite where_cons.
  - easy_fields H8' H9 Hpeak.
  - (* P_completed *) easy_fields H8' H9 Hpeak. by apply Hpeak.
Qed.

Lemma gated_step_inv permits k a g g' :
  0 ≤ k < 2 ^ 64 - 1 → gated_inv permits k g → gated_step a g = Some g' →
  gated_inv permits (k + 1) g'.
Proof.
  intros Hk Hinv Hstep. destruct a as [id|i|n|n]; [by eapply enter_inv|..]; simpl in Hstep.
  - destruct (gr_calls g !! i) as [[id pc]|] eqn:Hi; simplify_eq/=.
    destruct (call_step id pc (gr_proc g)) as [[next p']|] eqn:Hc; simplify_eq/=.
    eapply call_inv; [done| |exact Hc].
    apply (gated_inv_perm _ _ _ (gr_calls g)); [by apply delete_Permutation|]. by destruct g.
  - destruct Hinv as [H1 H2 H3 H4 H5 H6 H7 H8 H9 Hpk [Hg Hn]]. simplify_eq.
    split; simpl; try done; try lia; [destruct H8; split; [lia|done]|].
    split; [|intros m Hm; specialize (Hn m Hm); lia]. rewrite Hg. destruct permits; simpl; f_equal. lia.
  - destruct Hinv as [H1 H2 H3 H4 H5 H6 H7 H8 H9 Hpk Hg]. unfold wait_started in Hstep.
    destruct (Z.leb_spec (Z.of_nat n) (started_signal (gr_proc g))); simplify_eq/=.
    split; simpl; try done; try lia. destruct H8; split; [lia|done].
Qed.

Lemma gated_run_inv permits k l g g' :
  0 ≤ k → k + Z.of_nat (length l) < 2 ^ 64 → gated_inv permits k g → gated_run l g = Some g' →
  gated_inv permits (k + Z.of_nat (length l)) g'.
Proof.
  revert k g. induction l as [|a l IH]; intros k g Hk Hb Hinv Hrun; simplify_eq/=.
  { by rewrite Z.add_0_r. }
  destruct (gated_step a g) as [g1|] eqn:E; simplify_eq/=.
  replace (k + Z.of_nat (S (length l))) with ((k + 1) + Z.of_nat (length l)) in * by lia.
  apply (IH _ g1); [lia|lia| |done]. by eapply (gated_step_inv permits k a g); [lia|..].
Qed.

Lemma gated_run_waited l g g' : 0 ≤ gr_waited g → gated_run l g = Some g' → 0 ≤ gr_waited g'.
Proof.
  revert g. induction l as [|a l IH]; intros g Hw Hrun; simplify_eq/=; [done|].
  destruct (gated_step a g) as [g1|] eqn:E; simplify_eq/=. apply (IH g1); [|done].
  destruct a as [id|i|n|n]; simpl in E; [by simplify_eq| |by simplify_eq|].
  - destruct (gr_calls g !! i) as [[id pc]|]; simplify_eq/=.
    destruct (call_step _ _ _) as [[? ?]|]; by simplify_eq/=.
  - destruct (wait_started _ _); simplify_eq/=. lia.
Qed.


(** All operations of a call up to the gate, when it is the call that moved last. *)
Definition to_gate (id : EventId) : list GatedAction := G_call id :: replicate 5 (G_step 0).

(** Two calls of one event overlap, a third call completes with the one permit, and a
    fourth has entered and not observed its number yet. *)
Definition sample_calls : list GatedAction :=
  to_gate (mkEventId 1) ++ to_gate (mkEventId 1) ++ [G_step 0] ++ to_gate (mkEventId 2) ++
  [G_wait 3; G_release 1] ++ replicate 4 (G_step 0) ++ [G_call (mkEventId 3)].

