(* ===== verification/ApiTests.v ===== *)
(** * The tests of the HTTP API, on the model

    The tests of [events.rs] and [health.rs] that send one request after the other,
    as booleans: requests are bytes, answers are the JSON values a client reads, the
    store is the one of [Store] on a table, and the identities and times the requests
    draw are fixed. The tests that race requests are what [Winner] generalises. *)

From S2P Require Import Prelude Text Json Crates Reference Event Idempotency Config Schema Store.
From S2P Require Import Fixtures StoreSpec Api ApiSpec Request Reader RequestSpec CoreTests.
From S2P Require Import TestSupport.

(** ** What a client reads *)

(** [derive(Serialize)] of the response bodies, fields in declaration order. *)
Definition Body_document `{SerdeJson} (b : Body) : Doc :=
  let field (name : string) (s : str) := (lit name, DString s) in
  match b with
  | BAccepted a => DObject [field "event_id" (ar_event_id a); field "status" (ar_status a)]
  | BStatus e => DObject [
      field "event_id" (es_event_id e); field "source" (es_source e);
      field "event_type" (es_event_type e); field "status" (es_status e);
      field "accepted_at" (es_accepted_at e);
      (lit "processed_at", match es_processed_at e with Some t => DString t | None => DNull end)]
  | BError e => DObject [field "code" (eb_code e); field "message" (eb_message e)]
  | BLive l => DObject [field "status" (live_status l); field "service" (live_service l)]
  | BReady r => DObject [
      field "status" (ready_status r); field "service" (ready_service r);
      (lit "checks", DObject ((λ e, (e.1, DString e.2)) <$> ready_checks r))]
  end.

(** [value["key"]]: null where there is no such entry. *)
Definition index (v : Value) (key : string) : Value :=
  match v with
  | VObject entries => default VNull (snd <$> head (filter (λ e, e.1 = lit key) entries))
  | _ => VNull
  end.

(** [value["key"] = v], on the entries in key order. *)
Definition index_set (v : Value) (key : string) (x : Value) : Value :=
  match v with VObject entries => VObject (map_insert (lit key) x entries) | v => v end.

Definition index_remove (v : Value) (key : string) : Value :=
  match v with VObject entries => VObject (filter (λ e, e.1 ≠ lit key) entries) | v => v end.

Definition text (s : string) : Value := VString (lit s).
Arguments text s%_string.

(** [Value::to_string]: compact, keys in order. *)
Definition to_text (v : Value) : bytes := write_canonical v [].

(** ** Helpers of the test modules *)

Module Client.
Record Answer := mkAnswer {
  status : Z;
  json : Value;
  replayed : option str;
  retry_after : option str;
  content_type : option str
}.

(** [oneshot], and what the test keeps of the response. *)
Definition send (env : RequestEnv) (v4 : Uuid) (request : HttpRequest) (db : Table) : Answer * Table :=
  let '(reply, db') := app_service (pg_store env) v4 0 request db in
  let header name :=
    resp ← rp_response reply; v ← hm_get name (resp_headers resp); header_to_str v in
  (mkAnswer (rp_status reply)
     (match rp_body reply with Some b => doc_value (Body_document b) | None => VNull end)
     (header IDEMPOTENCY_REPLAYED) (header RETRY_AFTER) (header CONTENT_TYPE), db').

(** The errors of a database nothing listens for. *)
Definition unreachable (e : SqlxError) : RequestEnv :=
  mkRequestEnv 0 (mkAdmitFaults (Some e) (Some e) (Some e) None) (Some e) (200000000, Some e).

Definition reachable : RequestEnv := mkRequestEnv 5 no_faults None (1000000, None).

(** A check that holds of a store that is unreachable, however that shows. *)
Definition on_unreachable (check : RequestEnv → bool) : bool :=
  forallb (λ e, check (unreachable e)) [SX_Io; SX_PoolTimedOut].

Definition post_body (key : option bytes) (frames : list bytes) : HttpRequest :=
  mkHttpRequest M_POST (lit "/v1/events")
    ((CONTENT_TYPE, lit "application/json") ::
      match key with Some key => [(IDEMPOTENCY_KEY, key)] | None => [] end) (Some <$> frames).

Definition post_json (key : str) (body : Value) : HttpRequest :=
  post_body (Some (as_bytes key)) [to_text body].

Definition get_path (path : str) : HttpRequest := mkHttpRequest M_GET path [] [].
Definition get_event (id : str) : HttpRequest := get_path (lit "/v1/events/" ++ id).

Definition valid : Value := VObject [
  (lit "event_type", text "order.created");
  (lit "payload", VObject [(lit "order_id", text "12345")]);
  (lit "source", text "orders-api")].

Definition rejected (request : HttpRequest) (code_status : Z) (code : string) (more : Value → bool)
    : bool :=
  on_unreachable (λ env,
    let answer := (send env 1 request ∅).1 in
    assert_eq (status answer) code_status
    && assert_eq (index (json answer) "code") (text code) && more (json answer)).

Definition assert_rejected (request : HttpRequest) (code_status : Z) (code : string) : bool :=
  rejected request code_status code (λ _, true).
End Client.
Import Client.

(** ** events.rs: validation *)

Module EventsTests.
Definition requires_an_idempotency_key : bool :=
  assert_rejected (post_body None [to_text valid]) BAD_REQUEST "IDEMPOTENCY_KEY_REQUIRED".

Definition rejects_invalid_idempotency_keys : bool :=
  forallb (λ key, assert_rejected (post_json key valid) BAD_REQUEST "IDEMPOTENCY_KEY_INVALID")
    [lit ""; lit "has space"; repeat_char 107 129]
  && assert_rejected (post_body (Some (lit "cl" ++ [0xC3; 0xA9])) [to_text valid])
       BAD_REQUEST "IDEMPOTENCY_KEY_INVALID".

Definition validates_event_fields : bool :=
  forallb (λ '(field, value, message),
    rejected (post_json (lit "k") (index_set valid field value)) BAD_REQUEST "INVALID_EVENT"
      (λ json, assert_eq (index json "message") (text message))) [
    ("source", text "", "source must not be empty");
    ("event_type", text " ", "event_type must not be empty");
    ("source", VString (repeat_char 115 101), "source must be at most 100 characters");
    ("event_type", VString (repeat_char 116 151), "event_type must be at most 150 characters");
    ("payload", VNull, "payload must not be null")]%string.

Definition rejects_malformed_or_misshapen_bodies : bool :=
  rejected (post_body (Some (lit "k")) [json_text "{'source': 'a', "]) BAD_REQUEST "INVALID_EVENT"
    (λ json, assert_eq (index json "message") (text "request body is not valid JSON"))
  && assert_rejected (post_json (lit "k") (index_set valid "event_id" (text "chosen-by-client")))
       BAD_REQUEST "INVALID_EVENT"
  && assert_rejected (post_json (lit "k") (index_remove valid "payload")) BAD_REQUEST "INVALID_EVENT"
  && assert_rejected (mkHttpRequest M_POST (lit "/v1/events")
       [(CONTENT_TYPE, lit "text/plain"); (IDEMPOTENCY_KEY, lit "k")] [Some (to_text valid)])
       UNSUPPORTED_MEDIA_TYPE "UNSUPPORTED_MEDIA_TYPE".

(** The text of [valid] with a payload of [n] more characters than the limit has bytes. *)
Definition oversized_body : bytes :=
  json_text "{'event_type':'order.created','payload':{'blob':'" ++
  repeat_char 120 MAX_BODY_BYTES ++ json_text "'},'source':'orders-api'}".

Definition chunk_size : nat := Z.to_nat (8 * 1024).

Fixpoint chunks (n : nat) (b : bytes) : list bytes :=
  match n with
  | O => []
  | S n => if is_empty b then [] else take chunk_size b :: chunks n (drop chunk_size b)
  end.

Definition enforces_the_body_limit_with_and_without_content_length : bool :=
  let body := oversized_body in
  assert_rejected (mkHttpRequest M_POST (lit "/v1/events")
      [(CONTENT_TYPE, lit "application/json");
       (lit "content-length", decimal (Z.of_nat (length body))); (IDEMPOTENCY_KEY, lit "k")] [Some body])
    PAYLOAD_TOO_LARGE "PAYLOAD_TOO_LARGE"
  && assert_eq (concat (chunks 10 body)) body
  && assert_rejected (post_body (Some (lit "k")) (chunks 10 body)) PAYLOAD_TOO_LARGE "PAYLOAD_TOO_LARGE".

Definition rejects_malformed_event_ids : bool :=
  assert_rejected (get_event (lit "not-a-uuid")) BAD_REQUEST "INVALID_EVENT_ID".

(** ** events.rs: the database is down *)

Definition database_outage_never_returns_202 : bool :=
  on_unreachable (λ env,
    let reply := (send env 1 (post_json (lit "k") valid) ∅).1 in
    assert_eq (status reply) SERVICE_UNAVAILABLE
    && assert_eq (json reply) (VObject [
         (lit "code", text "PERSISTENCE_UNAVAILABLE");
         (lit "message", text "event persistence is temporarily unavailable")])
    && assert_eq (retry_after reply) (Some (lit "1"))
    && assert_eq (replayed reply) None
    && let reply := (send env 1 (get_event (EventId_to_string (EventId_new 7))) ∅).1 in
       assert_eq (status reply) SERVICE_UNAVAILABLE
       && assert_eq (index (json reply) "code") (text "PERSISTENCE_UNAVAILABLE")).

(** ** events.rs: with a database *)

Definition first_request_replay_and_conflict : bool :=
  let '(first, db) := send reachable 1 (post_json (lit "order-12345") valid) ∅ in
  let event_id := index (json first) "event_id" in
  let reordered := json_text "{'payload':{'order_id':'12345'},'event_type':'order.created','source':'orders-api'}" in
  let '(replay, db) := send reachable 2 (post_body (Some (lit "order-12345")) [reordered]) db in
  let changed := index_set valid "payload" (index_set (index valid "payload") "order_id" (text "99999")) in
  let '(conflict, db) := send reachable 3 (post_json (lit "order-12345") changed) db in
  let other_type := index_set valid "event_type" (text "order.updated") in
  let '(conflict2, db) := send reachable 4 (post_json (lit "order-12345") other_type) db in
  assert_eq (status first) ACCEPTED
  && assert_eq (replayed first) (Some (lit "false"))
  && assert_eq (json first) (VObject [(lit "event_id", event_id); (lit "status", text "accepted")])
  && match event_id with VString _ => true | _ => false end
  && assert_eq (status replay) ACCEPTED
  && assert_eq (replayed replay) (Some (lit "true"))
  && assert_eq (index (json replay) "event_id") event_id
  && assert_eq (status conflict) CONFLICT
  && assert_eq (index (json conflict) "code") (text "IDEMPOTENCY_CONFLICT")
  && assert_eq (status conflict2) CONFLICT
  && assert_eq (count_for_source (lit "orders-api") db) 1.

Definition same_key_from_another_source_is_a_separate_event : bool :=
  let '(orders, db) := send reachable 1 (post_json (lit "abc123") valid) ∅ in
  let billing := index_set valid "source" (text "billing-api") in
  let '(billing, db) := send reachable 2 (post_json (lit "abc123") billing) db in
  assert_eq (status orders, status billing) (ACCEPTED, ACCEPTED)
  && assert_eq (replayed billing) (Some (lit "false"))
  && assert_ne (index (json orders) "event_id") (index (json billing) "event_id").

(** The outage is the environment of the requests sent while the proxy is down. *)
Definition outage_rejects_admission_and_recovers_without_restart : bool :=
  let ready := get_path (lit "/health/ready") in
  let live := get_path (lit "/health/live") in
  let '(ready1, db) := send reachable 0 ready ∅ in
  let '(before, db) := send reachable 1 (post_json (lit "before") valid) db in
  on_unreachable (λ down,
    let '(live2, db) := send down 0 live db in
    let '(not_ready, db) := send down 0 ready db in
    let '(rejected, db) := send down 2 (post_json (lit "during") valid) db in
    let '(ready3, db) := send reachable 0 ready db in
    let '(after, db) := send reachable 3 (post_json (lit "after") valid) db in
    assert_eq (status ready1) OK
    && assert_eq (status before) ACCEPTED
    && assert_eq (status live2) OK
    && assert_eq (status not_ready) SERVICE_UNAVAILABLE
    && assert_eq (index (index (json not_ready) "checks") "database") (text "unavailable")
    && assert_eq (status rejected) SERVICE_UNAVAILABLE
    && assert_eq (index (json rejected) "code") (text "PERSISTENCE_UNAVAILABLE")
    && assert_eq (status ready3) OK
    && assert_eq (status after) ACCEPTED
    && assert_eq (count_for_source (lit "orders-api") db) 2).
End EventsTests.

(** ** health.rs *)

Module HealthTests.
Definition live_is_ok_even_when_database_is_down : bool :=
  on_unreachable (λ env,
    let answer := (send env 0 (get_path (lit "/health/live")) ∅).1 in
    assert_eq (status answer) OK
    && assert_eq (content_type answer) (Some (lit "application/json"))
    && assert_eq (json answer)
         (VObject [(lit "service", text "pulsestream-api"); (lit "status", text "ok")])).

Definition ready_is_503_when_database_is_down : bool :=
  on_unreachable (λ env,
    let answer := (send env 0 (get_path (lit "/health/ready")) ∅).1 in
    assert_eq (status answer) SERVICE_UNAVAILABLE
    && assert_eq (json answer) (VObject [
         (lit "checks", VObject [(lit "database", text "unavailable")]);
         (lit "service", text "pulsestream-api");
         (lit "status", text "unavailable")])).

Definition unknown_routes_are_not_found : bool :=
  on_unreachable (λ env, assert_eq (status (send env 0 (get_path (lit "/health")) ∅).1) NOT_FOUND).

Definition ready_reports_database_ready : bool :=
  let answer := (send reachable 0 (get_path (lit "/health/ready")) ∅).1 in
  assert_eq (status answer) OK
  && assert_eq (json answer) (VObject [
       (lit "checks", VObject [(lit "database", text "ready")]);
       (lit "service", text "pulsestream-api");
       (lit "status", text "ok")]).
End HealthTests.

(** ** testing.rs of the store *)

Module TestingTests.
Definition splits_database_names : bool :=
  assert_eq (split_database_name (lit "postgres://u:p@h:1/pulsestream_test?sslmode=disable"))
    (Some (lit "postgres://u:p@h:1/", lit "pulsestream_test", lit "?sslmode=disable"))
  && assert_eq (split_database_name (lit "postgres://h/db"))
       (Some (lit "postgres://h/", lit "db", lit "")).

Definition guard_accepts_only_test_databases : bool :=
  is_ok (guard_test_database_name (lit "pulsestream_test"))
  && forallb (λ name, is_err (guard_test_database_name name)) [
       lit "pulsestream"; lit "prod"; lit "test"; lit "pulsestream_test2";
       lit "x_test" ++ [34] ++ lit "; DROP"; lit ""].
End TestingTests.

Definition api_tests : list bool := [
  EventsTests.requires_an_idempotency_key;
  EventsTests.rejects_invalid_idempotency_keys;
  EventsTests.validates_event_fields;
  EventsTests.rejects_malformed_or_misshapen_bodies;
  EventsTests.enforces_the_body_limit_with_and_without_content_length;
  EventsTests.rejects_malformed_event_ids;
  EventsTests.database_outage_never_returns_202;
  EventsTests.first_request_replay_and_conflict;
  EventsTests.same_key_from_another_source_is_a_separate_event;
  EventsTests.outage_rejects_admission_and_recovers_without_restart;
  HealthTests.live_is_ok_even_when_database_is_down;
  HealthTests.ready_is_503_when_database_is_down;
  HealthTests.unknown_routes_are_not_found;
  HealthTests.ready_reports_database_ready;
  TestingTests.splits_database_names;
  TestingTests.guard_accepts_only_test_databases].

(** The tests of the HTTP API hold of the model: every assertion of the
    sequential tests of events.rs and health.rs, and of the tests of the store's
    testing.rs, evaluates to true on the requests' bytes, with the database
    unreachable in either way that shows, and with a database. *)
Lemma api_tests_pass : Forall (λ passed, passed = true) api_tests.
Proof. apply forallb_Forall. vm_compute. reflexivity. Qed.
