(* ===== verification/WorkerTests.v ===== *)
(** * The tests of the worker runtime, as executions of the model

    A test of [runtime.rs] starts workers, gates the processor and waits: together
    these fix the order of the steps that matter, and that order is the schedule
    here. Each test is a boolean: the schedule runs, and its assertions hold, those on
    the processor included. A gated processor is a run of [Gated] beside the workers:
    every task a worker spawns calls [process], which runs up to its gate, and
    [A_process] of the task comes after the call has passed the gate and returned. *)

From S2P Require Import Prelude Text Json Crates Reference Event Idempotency Config Schema Store.
From S2P Require Import Fixtures StoreSpec ClaimSpec History Runtime RuntimeSpec System Progress.
From S2P Require Import Api ApiSpec Request RequestSpec CoreTests TestSupport Gated ApiTests.

Module RuntimeTests.
Definition config (n : Z) : WorkerRuntimeConfig :=
  mkWorkerRuntimeConfig n (from_millis 10) (ConfigTests.from_secs 30) (ConfigTests.from_secs 5).

(** [seed]: the events are admitted one after the other; anything but a creation is
    a panic. *)
Fixpoint seed (count : nat) : option (list EventId * Table) :=
  match count with
  | O => Some ([], ∅)
  | S i =>
      '(ids, db) ← seed i;
      let n := Z.of_nat i in
      event ← ok (Event_new (n + 1) n (lit "orders-api") (lit "order.created")
        (VObject [(lit "n", VNumber (RInt n))]));
      key ← ok (IdempotencyKey_parse (lit "seed-" ++ decimal n));
      let fp := RequestFingerprint_compute (event_source event) (event_type event)
        (event_payload event) in
      match store_admit no_faults n event key fp db with
      | (Ok (Created id), db) => Some (ids ++ [id], db)
      | _ => None
      end
  end.

Definition worker_a : WorkerId := mkWorkerId 101.
Definition worker_b : WorkerId := mkWorkerId 102.

(** A worker that is running: its configuration, its identity and its state. *)
Definition Handle : Type := WorkerRuntimeConfig * WorkerId * Runtime.

Definition start (owner : WorkerId) (c : WorkerRuntimeConfig) : option Handle :=
  rt ← rt_init c; Some (c, owner, rt).

(** The worker takes steps. *)
Definition steps (acts : list Action) (w : Handle) (db : Table) : option (Handle * Table) :=
  let '(c, owner, rt) := w in
  '(db', rt') ← rt_run c owner acts db rt; Some (c, owner, rt', db').

(** An iteration up to the select, in which [k] events are claimed. *)
Definition claims (now : Z) (k : nat) : list Action :=
  [A_reaped; A_claim None now ∅ (Z.of_nat <$> seq 0 k)].

(** The first task ends its processing, completes, and is joined by [join]. *)
Definition first_done (now : Z) (join : Action) : list Action :=
  [A_process 0 (Some (Ok tt)); A_complete 0 None now; join].

(** Claims [S k] events and finishes them. *)
Definition batch (now : Z) (k : nat) : list Action :=
  claims now (S k) ++ first_done now (A_join 0) ++ concat (replicate k (first_done now (A_reap 0))).

(** An iteration that finds nothing, and the shutdown of an idle worker. *)
Definition idle_stop (now : Z) : list Action := claims now 0 ++ [A_shutdown; A_drained].

Definition report (w : Handle) : option RunReport :=
  match rt_pc w.2 with L_done r => Some r | _ => None end.

Definition asserted (o : option bool) : bool := default false o.

Definition RunReport_default : RunReport := mkRunReport 0 0 0 false 0.
#[global] Instance RunReport_eq_dec : EqDecision RunReport.
Proof. solve_decision. Defined.

Definition attempts (db : Table) (id : EventId) : Z :=
  default 0 (lc_attempts <$> lifecycle 0 id db).

(** *** Workers with a gated processor *)

(** The table, and the processor with the calls in progress. *)
Abbreviation World := (Table * GatedRun)%type (only parsing).

(** The worker claims [k] events; each of its new tasks calls [process] and reaches the
    gate. *)
Definition gated_claims (now : Z) (k : nat) (w : Handle) (world : World) : option (Handle * World) :=
  let '(db, g) := world in
  '(w', db') ← steps (claims now k) w db;
  g' ← gated_run (mjoin (to_gate ∘ task_event <$> drop (length (rt_tasks w.2)) (rt_tasks w'.2))) g;
  Some (w', (db', g')).

(** The call for an event passes the gate and returns. *)
Definition finish_call (id : EventId) (g : GatedRun) : option GatedRun :=
  '(i, _) ← list_find (λ c, c.1 = id) (gr_calls g);
  gated_run (G_step i :: replicate 3 (G_step 0)) g.

(** The first task's call returns; then it completes and is joined by [join]. *)
Definition gated_done (now : Z) (join : Action) (w : Handle) (world : World) : option (Handle * World) :=
  let '(db, g) := world in
  t ← head (rt_tasks w.2);
  g' ← finish_call (task_event t) g;
  '(w', db') ← steps (first_done now join) w db;
  Some (w', (db', g')).

Fixpoint gated_finish (now : Z) (joins : list Action) (w : Handle) (world : World)
    : option (Handle * World) :=
  match joins with
  | [] => Some (w, world)
  | join :: joins => '(w, world) ← gated_done now join w world; gated_finish now joins w world
  end.

(** The select joins the first of [S k] tasks, the next iteration reaps the others. *)
Definition joins (k : nat) : list Action := A_join 0 :: replicate k (A_reap 0).

Definition gated_batch (now : Z) (k : nat) (w : Handle) (world : World) : option (Handle * World) :=
  '(w, world) ← gated_claims now (S k) w world; gated_finish now (joins k) w world.

Fixpoint gated_batches (k : nat) (nows : list Z) (w : Handle) (world : World)
    : option (Handle * World) :=
  match nows with
  | [] => Some (w, world)
  | now :: nows => '(w, world) ← gated_batch now k w world; gated_batches k nows w world
  end.

(** Both workers claim, then both finish what they claimed, in turn. *)
Definition shared_round (now : Z) (ka kb : nat) (a b : Handle) (world : World)
    : option (Handle * Handle * World) :=
  '(a, world) ← gated_claims now (S ka) a world;
  '(b, world) ← gated_claims now (S kb) b world;
  '(a, world) ← gated_done (now + 1) (A_join 0) a world;
  '(b, world) ← gated_done (now + 2) (A_join 0) b world;
  '(a, world) ← gated_finish (now + 3) (replicate ka (A_reap 0)) a world;
  '(b, world) ← gated_finish (now + 4) (replicate kb (A_reap 0)) b world;
  Some (a, b, world).

Fixpoint shared_rounds (rounds : list (Z * nat * nat)) (a b : Handle) (world : World)
    : option (Handle * Handle * World) :=
  match rounds with
  | [] => Some (a, b, world)
  | (now, ka, kb) :: rounds =>
      '(a, b, world) ← shared_round now ka kb a b world; shared_rounds rounds a b world
  end.

(** No call can go on. *)
Definition all_gated (g : GatedRun) : bool :=
  forallb (λ i, match gated_step (G_step i) g with None => true | Some _ => false end)
    (seq 0 (length (gr_calls g))).

(** *** The tests *)

(** [n] claims have failed when the shutdown comes. *)
Definition stops_promptly_while_database_is_unreachable (n : nat) : bool :=
  let failed := A_claim (Some (mkCommitFault SX_PoolTimedOut false)) 0 ∅ [] in
  asserted (
    w ← start worker_a (config 2);
    '(w, db) ← steps (concat (replicate n [A_reaped; failed; A_sleep]) ++
      [A_reaped; failed; A_shutdown; A_drained]) w ∅;
    Some (assert_eq (report w) (Some RunReport_default))).

Definition processes_pending_events_to_processed : bool :=
  asserted (
    '(ids, db) ← seed 10;
    w ← start worker_a (config 4);
    '(w, db) ← steps (batch 100 3 ++ batch 110 3 ++ batch 120 1 ++ idle_stop 130) w db;
    r ← report w;
    Some (assert_eq (status_counts db) (0, 0, 10)
      && assert_eq (rep_processed r, rep_failed r, rep_lost_claims r) (10, 0, 0)
      && forallb (λ id, assert_eq (attempts db id) 1) ids)).

(** While every slot is blocked at the gate the loop can neither poll nor claim. *)
Definition never_claims_or_processes_more_than_concurrency : bool :=
  asserted (
    '(ids, db) ← seed 20;
    w ← start worker_a (config 4);
    '(w, (db, processor)) ← gated_claims 100 4 w (db, gated_start gated_new);
    processor ← gated_step (G_wait 4) processor;
    let blocked := bool_decide (steps [A_sleep] w db = None)
      && forallb (λ i, bool_decide (steps [A_join i] w db = None)) (seq 0 4)
      && all_gated processor in
    let started := gp_started (gr_proc processor) in
    let before := status_counts db in
    processor ← gated_step (G_release 20) processor;
    '(w, world) ← gated_finish 150 (joins 3) w (db, processor);
    '(w, (db, processor)) ← gated_batches 3 [200; 210; 220; 230] w world;
    let counts := status_counts db in
    '(w, db) ← steps (idle_stop 240) w db;
    r ← report w;
    Some (blocked && assert_eq started 4 && assert_eq before (16, 4, 0)
      && assert_eq counts (0, 0, 20) && assert_eq (rep_processed r) 20
      && assert_eq (gp_max_observed (gr_proc processor)) 4)).

Definition shutdown_stops_claiming_and_finishes_active_events : bool :=
  asserted (
    '(ids, db) ← seed 6;
    w ← start worker_a (config 2);
    '(w, (db, processor)) ← gated_claims 100 2 w (db, gated_start gated_new);
    processor ← gated_step (G_wait 2) processor;
    '(w, db) ← steps [A_shutdown] w db;
    processor ← gated_step (G_release 2) processor;
    '(w, (db, processor)) ← gated_finish 110 [A_drain 0; A_drain 0] w (db, processor);
    '(w, db) ← steps [A_drained] w db;
    r ← report w;
    Some (assert_eq (rep_processed r, rep_timed_out r, rep_abandoned r) (2, false, 0)
      && assert_eq (status_counts db) (4, 0, 2))).

(** The processor of the first worker is never released, so its calls stay at the gate
    until the time is up and their tasks are aborted. *)
Definition abandoned_claims_are_recovered_by_another_worker_after_lease_expiry : bool :=
  let short_shutdown := mkWorkerRuntimeConfig 2 (from_millis 10) (ConfigTests.from_secs 30)
    (from_millis 100) in
  asserted (
    '(ids, db) ← seed 3;
    a ← start worker_a short_shutdown;
    '(a, (db, stuck)) ← gated_claims 100 2 a (db, gated_start gated_new);
    stuck ← gated_step (G_wait 2) stuck;
    let hung := all_gated stuck in
    '(a, db) ← steps [A_shutdown; A_timeout; A_abort 0 None; A_abort 0 None; A_stopped] a db;
    ra ← report a;
    let counts := status_counts db in
    let abandoned := filter (λ id, bool_decide ((lc_status <$> lifecycle 0 id db) = Some (lit "PROCESSING")) = true) ids in
    let owned := forallb (λ id, bool_decide ((lifecycle 0 id db ≫= lc_owner) = Some (WorkerId_as_uuid worker_a))) abandoned in
    db ← foldl (λ odb id, odb ≫= expire_lease 2000000 id) (Some db) abandoned;
    b ← start worker_b (config 2);
    '(b, db) ← steps (batch 2000000 1 ++ batch 2000010 0) b db;
    let recovered := status_counts db in
    '(b, db) ← steps (idle_stop 2000020) b db;
    rb ← report b;
    Some (hung && rep_timed_out ra && assert_eq (rep_abandoned ra) 2 && assert_eq counts (1, 2, 0)
      && owned && assert_eq recovered (0, 0, 3) && assert_eq (rep_processed rb) 3
      && forallb (λ id, assert_eq (attempts db id) (if bool_decide (id ∈ abandoned) then 2 else 1)) ids)).

Definition stale_worker_cannot_complete_after_its_claim_was_reclaimed : bool :=
  asserted (
    '(ids, db) ← seed 1;
    id ← head ids;
    a ← start worker_a (config 1);
    '(a, (db, slow)) ← gated_claims 100 1 a (db, gated_start gated_new);
    slow ← gated_step (G_wait 1) slow;
    db ← expire_lease 2000000 id db;
    b ← start worker_b (config 1);
    '(b, db) ← steps (batch 2000000 0) b db;
    let counts := status_counts db in
    slow ← gated_step (G_release 1) slow;
    '(a, (db, slow)) ← gated_done 2000010 (A_join 0) a (db, slow);
    '(a, db) ← steps (idle_stop 2000020) a db;
    '(b, db) ← steps (idle_stop 2000030) b db;
    ra ← report a; rb ← report b;
    Some (assert_eq counts (0, 0, 1)
      && assert_eq (rep_processed ra, rep_lost_claims ra) (0, 1)
      && assert_eq (rep_processed rb) 1 && assert_eq (attempts db id) 2)).

(** One open processor for both workers; six calls are inside at once. *)
Definition two_workers_share_work_without_overlap : bool :=
  asserted (
    '(ids, db) ← seed 40;
    a ← start worker_a (config 3);
    b ← start worker_b (config 3);
    '(a, b, (db, processor)) ← shared_rounds
      (((λ now, (now, 2%nat, 2%nat)) <$> [100; 200; 300; 400; 500; 600]) ++ [(700, 2%nat, 0%nat)])
      a b (db, gated_start gated_open);
    let counts := status_counts db in
    '(a, db) ← steps (idle_stop 800) a db;
    '(b, db) ← steps (idle_stop 810) b db;
    ra ← report a; rb ← report b;
    let p := gr_proc processor in
    Some (assert_eq counts (0, 0, 40)
      && assert_eq (rep_processed ra + rep_processed rb) 40 && assert_eq (gp_overlaps p) 0
      && assert_eq (size (list_to_set (EventId_as_uuid <$> gp_seen p) : gset Uuid)) 40%nat
      && assert_eq (length (gp_seen p)) 40%nat && (gp_max_observed p <=? 6)
      && forallb (λ id, assert_eq (attempts db id) 1) ids)).
End RuntimeTests.
Import RuntimeTests.

(** ** An event across processes (events.rs)

    One instance of the API accepts an event and goes away; a second one, on the same
    table, reports its status while a worker processes it. *)
Definition accepted_event_survives_application_restart_and_gets_processed : bool :=
  let '(accepted, db) := Client.send Client.reachable 1 (Client.post_json (lit "durable-1") Client.valid) ∅ in
  match index (Client.json accepted) "event_id" with
  | VString event_id =>
      let lookup id db := (Client.send Client.reachable 0 (Client.get_event id) db).1 in
      let status := lookup event_id db in
      let runtime := mkWorkerRuntimeConfig DEFAULT_WORKER_CONCURRENCY (from_millis 10)
        (from_millis DEFAULT_PROCESSING_LEASE_MS) (from_millis DEFAULT_SHUTDOWN_TIMEOUT_MS) in
      asserted (
        w ← start worker_a runtime;
        '(w, db) ← steps (batch 100 0) w db;
        let processed := lookup event_id db in
        '(w, db) ← steps (idle_stop 200) w db;
        r ← report w;
        let missing := lookup (EventId_to_string (EventId_new 9)) db in
        Some (assert_eq (Client.status accepted) ACCEPTED
          && assert_eq (Client.status status) OK
          && assert_eq (index (Client.json status) "status") (text "pending")
          && assert_eq (index (Client.json status) "processed_at") VNull
          && match Client.json status with
             | VObject fields => assert_eq (fst <$> fields) [lit "accepted_at"; lit "event_id";
                 lit "event_type"; lit "processed_at"; lit "source"; lit "status"]
             | _ => false
             end
          && assert_eq (index (Client.json processed) "status") (text "processed")
          && match index (Client.json processed) "processed_at" with
             | VString t => assert_eq (last t) (Some 90)
             | _ => false
             end
          && assert_eq (rep_processed r) 1
          && assert_eq (Client.status missing) NOT_FOUND
          && assert_eq (index (Client.json missing) "code") (text "EVENT_NOT_FOUND")))
  | _ => false
  end.

(** ** The tests pass *)

(** A failed claim leaves an idle worker as it was, but for the availability flag. *)
Lemma failed_claims_run n acts db av :
  let failed := A_claim (Some (mkCommitFault SX_PoolTimedOut false)) 0 ∅ [] in
  ∃ av', rt_run (config 2) worker_a (concat (replicate n [A_reaped; failed; A_sleep]) ++ acts) db
      (mkRuntime L_reap [] ∅ Counters_default av) =
    rt_run (config 2) worker_a acts db (mkRuntime L_reap [] ∅ Counters_default av').
Proof.
  intros failed. revert av. induction n as [|n IH]; intros av; [by exists av|]. exact (IH false).
Qed.

Lemma stops_promptly n : stops_promptly_while_database_is_unreachable n = true.
Proof.
  unfold stops_promptly_while_database_is_unreachable, asserted.
  change (start worker_a (config 2)) with
    (Some (config 2, worker_a, mkRuntime L_reap [] ∅ Counters_default true)).
  unfold steps. cbn [mbind option_bind].
  destruct (failed_claims_run n [A_reaped; A_claim (Some (mkCommitFault SX_PoolTimedOut false)) 0 ∅ [];
    A_shutdown; A_drained] ∅ true) as [av ->]. reflexivity.
Qed.

Definition worker_tests (n : nat) : list bool := [
  stops_promptly_while_database_is_unreachable n;
  processes_pending_events_to_processed;
  never_claims_or_processes_more_than_concurrency;
  shutdown_stops_claiming_and_finishes_active_events;
  abandoned_claims_are_recovered_by_another_worker_after_lease_expiry;
  stale_worker_cannot_complete_after_its_claim_was_reclaimed;
  two_workers_share_work_without_overlap;
  accepted_event_survives_application_restart_and_gets_processed].

(** The tests of the worker runtime, and the test that follows an event from the
    API through a worker, hold of the model: each test's schedule is an
    execution of the loop and of its tasks, and its assertions on the report, the
    processor, the status counts, the owners and the attempts hold; the worker without a database
    stops with an empty report after any number of failed claims. *)
Lemma worker_tests_pass n : Forall (λ passed, passed = true) (worker_tests n).
Proof.
  unfold worker_tests. apply Forall_cons. split; [apply stops_promptly|].
  apply forallb_Forall. vm_compute. reflexivity.
Qed.
